(** * The 3D sparse pose graph back-end (mapping_3d/sparse_pose_graph.cc)

    A shallow embedding of [cartographer::mapping_3d::SparsePoseGraph].
    The class is a state record, every member function is a function on
    that record, and every way the C++ can stop early (a failed [CHECK],
    an [at()] that throws, an access the language leaves undefined) is a
    value of [Failure].  The collaborators the class only talks to (rigid
    transforms, the sampler, the covariance square root, the connectivity
    union-find, the solver) are interfaces. *)

From stdpp Require Import gmap list.
From Stdlib Require Import ZArith QArith.

Local Open Scope Z_scope.
Local Open Scope nat_scope.

(** ** Outcomes *)

Inductive Failure :=
| CheckFailed   (* a glog CHECK did not hold *)
| OutOfRange    (* std::out_of_range from at() *)
| Undefined     (* operator[] / back() / front() / null dereference *)
| OutOfFuel.    (* only the model can produce this one *)

Inductive Outcome (A : Type) :=
| Ok (a : A)
| Abort (f : Failure).
Arguments Ok {A} a.
Arguments Abort {A} f.

#[global] Instance Outcome_ret : MRet Outcome := fun _ a => Ok a.
#[global] Instance Outcome_bind : MBind Outcome := fun _ _ k m =>
  match m with
  | Ok a => k a
  | Abort f => Abort f
  end.

#[global] Instance Outcome_fmap : FMap Outcome := fun _ _ f m =>
  match m with
  | Ok a => Ok (f a)
  | Abort e => Abort e
  end.

Definition CHECK (b : bool) : Outcome unit :=
  if b then Ok tt else Abort CheckFailed.

(** [v.at(i)] *)
Definition at_ {A} (v : list A) (i : nat) : Outcome A :=
  match v !! i with
  | Some a => Ok a
  | None => Abort OutOfRange
  end.

(** [v[i]], undefined when out of range *)
Definition index {A} (v : list A) (i : nat) : Outcome A :=
  match v !! i with
  | Some a => Ok a
  | None => Abort Undefined
  end.

(** [v.back()], undefined on an empty vector *)
Definition back {A} (v : list A) : Outcome A :=
  match last v with
  | Some a => Ok a
  | None => Abort Undefined
  end.

(** [v.front()] *)
Definition front {A} (v : list A) : Outcome A :=
  match v with
  | a :: _ => Ok a
  | [] => Abort Undefined
  end.

(** [m.at(k)] on a map *)
Definition map_at `{Countable K} {A} (m : gmap K A) (k : K) : Outcome A :=
  match m !! k with
  | Some a => Ok a
  | None => Abort OutOfRange
  end.

(** [m.emplace(k, v)]: inserts only when the key is absent *)
Definition emplace `{Countable K} {A} (k : K) (v : A) (m : gmap K A) : gmap K A :=
  match m !! k with
  | Some _ => m
  | None => <[k := v]> m
  end.

(** [v.resize(n)] with value-initialised new elements *)
Definition resize_to {A} (n : nat) (d : A) (v : list A) : list A :=
  take n v ++ replicate (n - length v) d.

(** A [for] loop over the elements of [l], threading the state. *)
Fixpoint for_each {A S} (body : A -> S -> Outcome S) (l : list A) (s : S)
  : Outcome S :=
  match l with
  | [] => Ok s
  | a :: l' => s' ← body a s; for_each body l' s'
  end.

(** ** Identifiers *)

Module SubmapId.
Record t := mk { trajectory_id : nat; submap_index : nat }.
End SubmapId.

Module NodeId.
Record t := mk { trajectory_id : nat; node_index : nat }.

#[global] Instance eq_dec : EqDecision t.
Proof. solve_decision. Defined.

#[global] Instance countable : Countable t :=
  inj_countable' (fun n => (trajectory_id n, node_index n))
                 (fun p => mk p.1 p.2)
                 (fun n => match n with mk _ _ => eq_refl end).
End NodeId.

#[global] Instance SubmapId_eq_dec : EqDecision SubmapId.t.
Proof. solve_decision. Defined.

(** ** External collaborators

    None of these live in sparse_pose_graph.cc; the class only calls
    them.  [Rigid3d] comes with its identity, composition and inverse
    (the C++ works with unit quaternion and translation in floating
    point, whose rounding is outside this model). *)

Class External := {
  Rigid3d : Type;
  Identity : Rigid3d;
  mul : Rigid3d -> Rigid3d -> Rigid3d;
  inverse : Rigid3d -> Rigid3d;
  (* plain data handed through *)
  Scalar : Type;
  Vector3d : Type;
  RangeData : Type;
  CompressedRangeData : Type;
  Compress : RangeData -> CompressedRangeData;
  PoseCovariance : Type;
  SqrtInformation : Type;
  (* common::ComputeSpdMatrixSqrtInverse(covariance, lower_eigenvalue_bound) *)
  ComputeSpdMatrixSqrtInverse : PoseCovariance -> Scalar -> SqrtInformation;
  (* common::FixedRatioSampler *)
  FixedRatioSampler : Type;
  make_sampler : Scalar -> FixedRatioSampler;
  Pulse : FixedRatioSampler -> bool * FixedRatioSampler;
  (* mapping::TrajectoryConnectivity *)
  TrajectoryConnectivity : Type;
  no_connectivity : TrajectoryConnectivity;
  Add : nat -> TrajectoryConnectivity -> TrajectoryConnectivity;
  ConnectedComponents : TrajectoryConnectivity -> list (list nat);
}.

Declare Scope rigid_scope.
Delimit Scope rigid_scope with rigid.
Infix "*" := mul : rigid_scope.

(** The rigid transforms form a group.  Only statements that compare
    two compositions need it. *)
Class Rigid3dGroup `{External} : Prop := {
  mul_assoc : forall a b c, mul a (mul b c) = mul (mul a b) c;
  mul_Identity_l : forall a, mul Identity a = a;
  mul_Identity_r : forall a, mul a Identity = a;
  mul_inverse_l : forall a, mul (inverse a) a = Identity;
  mul_inverse_r : forall a, mul a (inverse a) = Identity
}.

Section Model.
Context `{External}.
Local Open Scope rigid_scope.

(** ** Data model

    Ids, indices and sizes are natural numbers: the [int]s of the code
    are only ever filled from container sizes, and [AddScan] stops the
    program before the number of nodes reaches 2^31 - 1.  The scan
    counter and the configured numbers it is compared with are in [Z];
    the counter never exceeds the number of nodes. *)

(** What a [const Submap*] gives access to: the address (handles are
    compared by identity), the constant [local_pose()], and the public
    [finished] flag as the front-end had set it when the call was made. *)
Record Submap := {
  Submap_ptr : nat;
  local_pose : Rigid3d;
  Submap_finished : bool
}.

(** What a [const Submaps*] gives access to. *)
Record Submaps := {
  Submaps_ptr : nat;
  Submaps_submaps : list Submap
}.

(** Modelled from the spec: [Submaps::Get] belongs to the front-end's
    submap handle interface (section 6); it hands out the submap at an
    index it has and checks the index otherwise. *)
Definition Get (submaps : Submaps) (index : nat) : Outcome Submap :=
  match Submaps_submaps submaps !! index with
  | Some s => Ok s
  | None => Abort CheckFailed
  end.

Record SubmapState := {
  submap : Submap;
  node_ids : gset NodeId.t;
  finished : bool
}.

Record SubmapData := { SubmapData_pose : Rigid3d }.

Record NodeData := {
  NodeData_time : Z;
  point_cloud_pose : Rigid3d
}.

Record ImuData := {
  ImuData_time : Z;
  linear_acceleration : Vector3d;
  angular_velocity : Vector3d
}.

Record ConstantData := {
  ConstantData_time : Z;
  range_data_3d : CompressedRangeData;
  ConstantData_trajectory_id : nat;
  tracking_to_pose : Rigid3d
}.

Record TrajectoryNode := {
  constant_data : ConstantData;
  TrajectoryNode_pose : Rigid3d
}.

Inductive Tag := INTRA_SUBMAP | INTER_SUBMAP.

Record Constraint := {
  submap_id : SubmapId.t;
  node_id : NodeId.t;
  zbar_ij : Rigid3d;
  sqrt_Lambda_ij : SqrtInformation;
  tag : Tag
}.

Record SparsePoseGraphOptions := {
  optimize_every_n_scans : Z;
  max_num_final_iterations : Z;
  global_sampling_ratio : Scalar;
  lower_covariance_eigenvalue_bound : Scalar;
  ceres_max_num_iterations : Z
}.

(** *** The optimization problem

    The class itself is declared next to the solver; here it is the data
    the pose graph reads back ([submap_data()], [node_data()]), the
    iteration cap, and a count of [Solve] calls so that "the solver was
    not invoked" can be observed. *)
Record OptimizationProblem := {
  submap_data : list (list SubmapData);
  node_data : list (list NodeData);
  imu_data : list (list ImuData);
  max_num_iterations : Z;
  num_solves : nat
}.

(** The solver proper: any function on the problem's poses. *)
Class Solver := {
  Solve : list Constraint -> OptimizationProblem -> OptimizationProblem
}.
Context `{Solver}.

(** *** The constraint builder

    Modelled from the spec: the constraint builder is consumed through
    [MaybeAddConstraint], [MaybeAddGlobalConstraint], [NotifyEndOfScan]
    and [WhenDone] (section 6).  Seen from the pose graph it is a sink of
    calls and a source of one callback; the record keeps the calls in the
    order they were made and the callback that is registered. *)
Inductive WhenDoneCallback :=
| HandleScanQueue_callback
| WaitForAllComputations_callback.

Inductive BuilderCall :=
| MaybeAddConstraint (id : SubmapId.t) (s : Submap) (n : NodeId.t)
    (scan_index : nat) (relative_pose : Rigid3d)
| MaybeAddGlobalConstraint (id : SubmapId.t) (s : Submap) (n : NodeId.t)
    (scan_index : nat)
| NotifyEndOfScan (scan_index : nat)
| WhenDone (callback : WhenDoneCallback).

Record ConstraintBuilder := {
  calls : list BuilderCall;
  when_done : option WhenDoneCallback
}.

(** *** Work items

    The two closures handed to [AddWorkItem] capture their arguments by
    value, so a work item is its argument list. *)
Inductive WorkItem :=
| ComputeConstraintsForScan_item (scan_index : nat) (matching_submap : Submap)
    (insertion_submaps : list Submap) (finished_submap : option Submap)
    (pose : Rigid3d) (covariance : PoseCovariance)
| AddImuData_item (trajectory : Submaps) (time : Z)
    (linear_acceleration angular_velocity : Vector3d).

(** *** The pose graph object *)
Record SparsePoseGraph := {
  options_ : SparsePoseGraphOptions;
  scan_queue_ : option (list WorkItem);
  num_scans_since_last_loop_closure_ : Z;
  run_loop_closure_ : bool;
  optimization_problem_ : OptimizationProblem;
  constraint_builder_ : ConstraintBuilder;
  constraints_ : list Constraint;
  submap_ids_ : gmap nat SubmapId.t;
  submap_states_ : list (list SubmapState);
  connected_components_ : list (list nat);
  reverse_connected_components_ : gmap nat nat;
  constant_node_data_ : list ConstantData;
  trajectory_nodes_ : list TrajectoryNode;
  trajectory_connectivity_ : TrajectoryConnectivity;
  trajectory_ids_ : gmap nat nat;
  global_localization_samplers_ : gmap nat FixedRatioSampler;
  num_nodes_in_trajectory_ : gmap nat nat;
  scan_index_to_node_id_ : list NodeId.t;
  optimized_submap_transforms_ : list (list SubmapData)
}.

Definition set_scan_queue_ (v : option (list WorkItem)) (g : SparsePoseGraph)
  : SparsePoseGraph :=
  {| options_ := options_ g; scan_queue_ := v;
     num_scans_since_last_loop_closure_ := num_scans_since_last_loop_closure_ g;
     run_loop_closure_ := run_loop_closure_ g;
     optimization_problem_ := optimization_problem_ g;
     constraint_builder_ := constraint_builder_ g;
     constraints_ := constraints_ g; submap_ids_ := submap_ids_ g;
     submap_states_ := submap_states_ g;
     connected_components_ := connected_components_ g;
     reverse_connected_components_ := reverse_connected_components_ g;
     constant_node_data_ := constant_node_data_ g;
     trajectory_nodes_ := trajectory_nodes_ g;
     trajectory_connectivity_ := trajectory_connectivity_ g;
     trajectory_ids_ := trajectory_ids_ g;
     global_localization_samplers_ := global_localization_samplers_ g;
     num_nodes_in_trajectory_ := num_nodes_in_trajectory_ g;
     scan_index_to_node_id_ := scan_index_to_node_id_ g;
     optimized_submap_transforms_ := optimized_submap_transforms_ g |}.

Definition set_num_scans_since_last_loop_closure_ (v : Z) (g : SparsePoseGraph)
  : SparsePoseGraph :=
  {| options_ := options_ g; scan_queue_ := scan_queue_ g;
     num_scans_since_last_loop_closure_ := v;
     run_loop_closure_ := run_loop_closure_ g;
     optimization_problem_ := optimization_problem_ g;
     constraint_builder_ := constraint_builder_ g;
     constraints_ := constraints_ g; submap_ids_ := submap_ids_ g;
     submap_states_ := submap_states_ g;
     connected_components_ := connected_components_ g;
     reverse_connected_components_ := reverse_connected_components_ g;
     constant_node_data_ := constant_node_data_ g;
     trajectory_nodes_ := trajectory_nodes_ g;
     trajectory_connectivity_ := trajectory_connectivity_ g;
     trajectory_ids_ := trajectory_ids_ g;
     global_localization_samplers_ := global_localization_samplers_ g;
     num_nodes_in_trajectory_ := num_nodes_in_trajectory_ g;
     scan_index_to_node_id_ := scan_index_to_node_id_ g;
     optimized_submap_transforms_ := optimized_submap_transforms_ g |}.

Definition set_run_loop_closure_ (v : bool) (g : SparsePoseGraph)
  : SparsePoseGraph :=
  {| options_ := options_ g; scan_queue_ := scan_queue_ g;
     num_scans_since_last_loop_closure_ := num_scans_since_last_loop_closure_ g;
     run_loop_closure_ := v;
     optimization_problem_ := optimization_problem_ g;
     constraint_builder_ := constraint_builder_ g;
     constraints_ := constraints_ g; submap_ids_ := submap_ids_ g;
     submap_states_ := submap_states_ g;
     connected_components_ := connected_components_ g;
     reverse_connected_components_ := reverse_connected_components_ g;
     constant_node_data_ := constant_node_data_ g;
     trajectory_nodes_ := trajectory_nodes_ g;
     trajectory_connectivity_ := trajectory_connectivity_ g;
     trajectory_ids_ := trajectory_ids_ g;
     global_localization_samplers_ := global_localization_samplers_ g;
     num_nodes_in_trajectory_ := num_nodes_in_trajectory_ g;
     scan_index_to_node_id_ := scan_index_to_node_id_ g;
     optimized_submap_transforms_ := optimized_submap_transforms_ g |}.

Definition set_optimization_problem_ (v : OptimizationProblem) (g : SparsePoseGraph)
  : SparsePoseGraph :=
  {| options_ := options_ g; scan_queue_ := scan_queue_ g;
     num_scans_since_last_loop_closure_ := num_scans_since_last_loop_closure_ g;
     run_loop_closure_ := run_loop_closure_ g; optimization_problem_ := v;
     constraint_builder_ := constraint_builder_ g;
     constraints_ := constraints_ g; submap_ids_ := submap_ids_ g;
     submap_states_ := submap_states_ g;
     connected_components_ := connected_components_ g;
     reverse_connected_components_ := reverse_connected_components_ g;
     constant_node_data_ := constant_node_data_ g;
     trajectory_nodes_ := trajectory_nodes_ g;
     trajectory_connectivity_ := trajectory_connectivity_ g;
     trajectory_ids_ := trajectory_ids_ g;
     global_localization_samplers_ := global_localization_samplers_ g;
     num_nodes_in_trajectory_ := num_nodes_in_trajectory_ g;
     scan_index_to_node_id_ := scan_index_to_node_id_ g;
     optimized_submap_transforms_ := optimized_submap_transforms_ g |}.

Definition set_constraint_builder_ (v : ConstraintBuilder) (g : SparsePoseGraph)
  : SparsePoseGraph :=
  {| options_ := options_ g; scan_queue_ := scan_queue_ g;
     num_scans_since_last_loop_closure_ := num_scans_since_last_loop_closure_ g;
     run_loop_closure_ := run_loop_closure_ g;
     optimization_problem_ := optimization_problem_ g;
     constraint_builder_ := v; constraints_ := constraints_ g;
     submap_ids_ := submap_ids_ g; submap_states_ := submap_states_ g;
     connected_components_ := connected_components_ g;
     reverse_connected_components_ := reverse_connected_components_ g;
     constant_node_data_ := constant_node_data_ g;
     trajectory_nodes_ := trajectory_nodes_ g;
     trajectory_connectivity_ := trajectory_connectivity_ g;
     trajectory_ids_ := trajectory_ids_ g;
     global_localization_samplers_ := global_localization_samplers_ g;
     num_nodes_in_trajectory_ := num_nodes_in_trajectory_ g;
     scan_index_to_node_id_ := scan_index_to_node_id_ g;
     optimized_submap_transforms_ := optimized_submap_transforms_ g |}.

Definition set_constraints_ (v : list Constraint) (g : SparsePoseGraph)
  : SparsePoseGraph :=
  {| options_ := options_ g; scan_queue_ := scan_queue_ g;
     num_scans_since_last_loop_closure_ := num_scans_since_last_loop_closure_ g;
     run_loop_closure_ := run_loop_closure_ g;
     optimization_problem_ := optimization_problem_ g;
     constraint_builder_ := constraint_builder_ g; constraints_ := v;
     submap_ids_ := submap_ids_ g; submap_states_ := submap_states_ g;
     connected_components_ := connected_components_ g;
     reverse_connected_components_ := reverse_connected_components_ g;
     constant_node_data_ := constant_node_data_ g;
     trajectory_nodes_ := trajectory_nodes_ g;
     trajectory_connectivity_ := trajectory_connectivity_ g;
     trajectory_ids_ := trajectory_ids_ g;
     global_localization_samplers_ := global_localization_samplers_ g;
     num_nodes_in_trajectory_ := num_nodes_in_trajectory_ g;
     scan_index_to_node_id_ := scan_index_to_node_id_ g;
     optimized_submap_transforms_ := optimized_submap_transforms_ g |}.

Definition set_submap_ids_ (v : gmap nat SubmapId.t) (g : SparsePoseGraph)
  : SparsePoseGraph :=
  {| options_ := options_ g; scan_queue_ := scan_queue_ g;
     num_scans_since_last_loop_closure_ := num_scans_since_last_loop_closure_ g;
     run_loop_closure_ := run_loop_closure_ g;
     optimization_problem_ := optimization_problem_ g;
     constraint_builder_ := constraint_builder_ g;
     constraints_ := constraints_ g; submap_ids_ := v;
     submap_states_ := submap_states_ g;
     connected_components_ := connected_components_ g;
     reverse_connected_components_ := reverse_connected_components_ g;
     constant_node_data_ := constant_node_data_ g;
     trajectory_nodes_ := trajectory_nodes_ g;
     trajectory_connectivity_ := trajectory_connectivity_ g;
     trajectory_ids_ := trajectory_ids_ g;
     global_localization_samplers_ := global_localization_samplers_ g;
     num_nodes_in_trajectory_ := num_nodes_in_trajectory_ g;
     scan_index_to_node_id_ := scan_index_to_node_id_ g;
     optimized_submap_transforms_ := optimized_submap_transforms_ g |}.

Definition set_submap_states_ (v : list (list SubmapState)) (g : SparsePoseGraph)
  : SparsePoseGraph :=
  {| options_ := options_ g; scan_queue_ := scan_queue_ g;
     num_scans_since_last_loop_closure_ := num_scans_since_last_loop_closure_ g;
     run_loop_closure_ := run_loop_closure_ g;
     optimization_problem_ := optimization_problem_ g;
     constraint_builder_ := constraint_builder_ g;
     constraints_ := constraints_ g; submap_ids_ := submap_ids_ g;
     submap_states_ := v; connected_components_ := connected_components_ g;
     reverse_connected_components_ := reverse_connected_components_ g;
     constant_node_data_ := constant_node_data_ g;
     trajectory_nodes_ := trajectory_nodes_ g;
     trajectory_connectivity_ := trajectory_connectivity_ g;
     trajectory_ids_ := trajectory_ids_ g;
     global_localization_samplers_ := global_localization_samplers_ g;
     num_nodes_in_trajectory_ := num_nodes_in_trajectory_ g;
     scan_index_to_node_id_ := scan_index_to_node_id_ g;
     optimized_submap_transforms_ := optimized_submap_transforms_ g |}.

Definition set_connected_components_ (v : list (list nat)) (g : SparsePoseGraph)
  : SparsePoseGraph :=
  {| options_ := options_ g; scan_queue_ := scan_queue_ g;
     num_scans_since_last_loop_closure_ := num_scans_since_last_loop_closure_ g;
     run_loop_closure_ := run_loop_closure_ g;
     optimization_problem_ := optimization_problem_ g;
     constraint_builder_ := constraint_builder_ g;
     constraints_ := constraints_ g; submap_ids_ := submap_ids_ g;
     submap_states_ := submap_states_ g; connected_components_ := v;
     reverse_connected_components_ := reverse_connected_components_ g;
     constant_node_data_ := constant_node_data_ g;
     trajectory_nodes_ := trajectory_nodes_ g;
     trajectory_connectivity_ := trajectory_connectivity_ g;
     trajectory_ids_ := trajectory_ids_ g;
     global_localization_samplers_ := global_localization_samplers_ g;
     num_nodes_in_trajectory_ := num_nodes_in_trajectory_ g;
     scan_index_to_node_id_ := scan_index_to_node_id_ g;
     optimized_submap_transforms_ := optimized_submap_transforms_ g |}.

Definition set_reverse_connected_components_ (v : gmap nat nat) (g : SparsePoseGraph)
  : SparsePoseGraph :=
  {| options_ := options_ g; scan_queue_ := scan_queue_ g;
     num_scans_since_last_loop_closure_ := num_scans_since_last_loop_closure_ g;
     run_loop_closure_ := run_loop_closure_ g;
     optimization_problem_ := optimization_problem_ g;
     constraint_builder_ := constraint_builder_ g;
     constraints_ := constraints_ g; submap_ids_ := submap_ids_ g;
     submap_states_ := submap_states_ g;
     connected_components_ := connected_components_ g;
     reverse_connected_components_ := v;
     constant_node_data_ := constant_node_data_ g;
     trajectory_nodes_ := trajectory_nodes_ g;
     trajectory_connectivity_ := trajectory_connectivity_ g;
     trajectory_ids_ := trajectory_ids_ g;
     global_localization_samplers_ := global_localization_samplers_ g;
     num_nodes_in_trajectory_ := num_nodes_in_trajectory_ g;
     scan_index_to_node_id_ := scan_index_to_node_id_ g;
     optimized_submap_transforms_ := optimized_submap_transforms_ g |}.

Definition set_constant_node_data_ (v : list ConstantData) (g : SparsePoseGraph)
  : SparsePoseGraph :=
  {| options_ := options_ g; scan_queue_ := scan_queue_ g;
     num_scans_since_last_loop_closure_ := num_scans_since_last_loop_closure_ g;
     run_loop_closure_ := run_loop_closure_ g;
     optimization_problem_ := optimization_problem_ g;
     constraint_builder_ := constraint_builder_ g;
     constraints_ := constraints_ g; submap_ids_ := submap_ids_ g;
     submap_states_ := submap_states_ g;
     connected_components_ := connected_components_ g;
     reverse_connected_components_ := reverse_connected_components_ g;
     constant_node_data_ := v; trajectory_nodes_ := trajectory_nodes_ g;
     trajectory_connectivity_ := trajectory_connectivity_ g;
     trajectory_ids_ := trajectory_ids_ g;
     global_localization_samplers_ := global_localization_samplers_ g;
     num_nodes_in_trajectory_ := num_nodes_in_trajectory_ g;
     scan_index_to_node_id_ := scan_index_to_node_id_ g;
     optimized_submap_transforms_ := optimized_submap_transforms_ g |}.

Definition set_trajectory_nodes_ (v : list TrajectoryNode) (g : SparsePoseGraph)
  : SparsePoseGraph :=
  {| options_ := options_ g; scan_queue_ := scan_queue_ g;
     num_scans_since_last_loop_closure_ := num_scans_since_last_loop_closure_ g;
     run_loop_closure_ := run_loop_closure_ g;
     optimization_problem_ := optimization_problem_ g;
     constraint_builder_ := constraint_builder_ g;
     constraints_ := constraints_ g; submap_ids_ := submap_ids_ g;
     submap_states_ := submap_states_ g;
     connected_components_ := connected_components_ g;
     reverse_connected_components_ := reverse_connected_components_ g;
     constant_node_data_ := constant_node_data_ g; trajectory_nodes_ := v;
     trajectory_connectivity_ := trajectory_connectivity_ g;
     trajectory_ids_ := trajectory_ids_ g;
     global_localization_samplers_ := global_localization_samplers_ g;
     num_nodes_in_trajectory_ := num_nodes_in_trajectory_ g;
     scan_index_to_node_id_ := scan_index_to_node_id_ g;
     optimized_submap_transforms_ := optimized_submap_transforms_ g |}.

Definition set_trajectory_connectivity_ (v : TrajectoryConnectivity) (g : SparsePoseGraph)
  : SparsePoseGraph :=
  {| options_ := options_ g; scan_queue_ := scan_queue_ g;
     num_scans_since_last_loop_closure_ := num_scans_since_last_loop_closure_ g;
     run_loop_closure_ := run_loop_closure_ g;
     optimization_problem_ := optimization_problem_ g;
     constraint_builder_ := constraint_builder_ g;
     constraints_ := constraints_ g; submap_ids_ := submap_ids_ g;
     submap_states_ := submap_states_ g;
     connected_components_ := connected_components_ g;
     reverse_connected_components_ := reverse_connected_components_ g;
     constant_node_data_ := constant_node_data_ g;
     trajectory_nodes_ := trajectory_nodes_ g; trajectory_connectivity_ := v;
     trajectory_ids_ := trajectory_ids_ g;
     global_localization_samplers_ := global_localization_samplers_ g;
     num_nodes_in_trajectory_ := num_nodes_in_trajectory_ g;
     scan_index_to_node_id_ := scan_index_to_node_id_ g;
     optimized_submap_transforms_ := optimized_submap_transforms_ g |}.

Definition set_trajectory_ids_ (v : gmap nat nat) (g : SparsePoseGraph)
  : SparsePoseGraph :=
  {| options_ := options_ g; scan_queue_ := scan_queue_ g;
     num_scans_since_last_loop_closure_ := num_scans_since_last_loop_closure_ g;
     run_loop_closure_ := run_loop_closure_ g;
     optimization_problem_ := optimization_problem_ g;
     constraint_builder_ := constraint_builder_ g;
     constraints_ := constraints_ g; submap_ids_ := submap_ids_ g;
     submap_states_ := submap_states_ g;
     connected_components_ := connected_components_ g;
     reverse_connected_components_ := reverse_connected_components_ g;
     constant_node_data_ := constant_node_data_ g;
     trajectory_nodes_ := trajectory_nodes_ g;
     trajectory_connectivity_ := trajectory_connectivity_ g;
     trajectory_ids_ := v;
     global_localization_samplers_ := global_localization_samplers_ g;
     num_nodes_in_trajectory_ := num_nodes_in_trajectory_ g;
     scan_index_to_node_id_ := scan_index_to_node_id_ g;
     optimized_submap_transforms_ := optimized_submap_transforms_ g |}.

Definition set_global_localization_samplers_ (v : gmap nat FixedRatioSampler) (g : SparsePoseGraph)
  : SparsePoseGraph :=
  {| options_ := options_ g; scan_queue_ := scan_queue_ g;
     num_scans_since_last_loop_closure_ := num_scans_since_last_loop_closure_ g;
     run_loop_closure_ := run_loop_closure_ g;
     optimization_problem_ := optimization_problem_ g;
     constraint_builder_ := constraint_builder_ g;
     constraints_ := constraints_ g; submap_ids_ := submap_ids_ g;
     submap_states_ := submap_states_ g;
     connected_components_ := connected_components_ g;
     reverse_connected_components_ := reverse_connected_components_ g;
     constant_node_data_ := constant_node_data_ g;
     trajectory_nodes_ := trajectory_nodes_ g;
     trajectory_connectivity_ := trajectory_connectivity_ g;
     trajectory_ids_ := trajectory_ids_ g;
     global_localization_samplers_ := v;
     num_nodes_in_trajectory_ := num_nodes_in_trajectory_ g;
     scan_index_to_node_id_ := scan_index_to_node_id_ g;
     optimized_submap_transforms_ := optimized_submap_transforms_ g |}.

Definition set_num_nodes_in_trajectory_ (v : gmap nat nat) (g : SparsePoseGraph)
  : SparsePoseGraph :=
  {| options_ := options_ g; scan_queue_ := scan_queue_ g;
     num_scans_since_last_loop_closure_ := num_scans_since_last_loop_closure_ g;
     run_loop_closure_ := run_loop_closure_ g;
     optimization_problem_ := optimization_problem_ g;
     constraint_builder_ := constraint_builder_ g;
     constraints_ := constraints_ g; submap_ids_ := submap_ids_ g;
     submap_states_ := submap_states_ g;
     connected_components_ := connected_components_ g;
     reverse_connected_components_ := reverse_connected_components_ g;
     constant_node_data_ := constant_node_data_ g;
     trajectory_nodes_ := trajectory_nodes_ g;
     trajectory_connectivity_ := trajectory_connectivity_ g;
     trajectory_ids_ := trajectory_ids_ g;
     global_localization_samplers_ := global_localization_samplers_ g;
     num_nodes_in_trajectory_ := v;
     scan_index_to_node_id_ := scan_index_to_node_id_ g;
     optimized_submap_transforms_ := optimized_submap_transforms_ g |}.

Definition set_scan_index_to_node_id_ (v : list NodeId.t) (g : SparsePoseGraph)
  : SparsePoseGraph :=
  {| options_ := options_ g; scan_queue_ := scan_queue_ g;
     num_scans_since_last_loop_closure_ := num_scans_since_last_loop_closure_ g;
     run_loop_closure_ := run_loop_closure_ g;
     optimization_problem_ := optimization_problem_ g;
     constraint_builder_ := constraint_builder_ g;
     constraints_ := constraints_ g; submap_ids_ := submap_ids_ g;
     submap_states_ := submap_states_ g;
     connected_components_ := connected_components_ g;
     reverse_connected_components_ := reverse_connected_components_ g;
     constant_node_data_ := constant_node_data_ g;
     trajectory_nodes_ := trajectory_nodes_ g;
     trajectory_connectivity_ := trajectory_connectivity_ g;
     trajectory_ids_ := trajectory_ids_ g;
     global_localization_samplers_ := global_localization_samplers_ g;
     num_nodes_in_trajectory_ := num_nodes_in_trajectory_ g;
     scan_index_to_node_id_ := v;
     optimized_submap_transforms_ := optimized_submap_transforms_ g |}.

Definition set_optimized_submap_transforms_ (v : list (list SubmapData)) (g : SparsePoseGraph)
  : SparsePoseGraph :=
  {| options_ := options_ g; scan_queue_ := scan_queue_ g;
     num_scans_since_last_loop_closure_ := num_scans_since_last_loop_closure_ g;
     run_loop_closure_ := run_loop_closure_ g;
     optimization_problem_ := optimization_problem_ g;
     constraint_builder_ := constraint_builder_ g;
     constraints_ := constraints_ g; submap_ids_ := submap_ids_ g;
     submap_states_ := submap_states_ g;
     connected_components_ := connected_components_ g;
     reverse_connected_components_ := reverse_connected_components_ g;
     constant_node_data_ := constant_node_data_ g;
     trajectory_nodes_ := trajectory_nodes_ g;
     trajectory_connectivity_ := trajectory_connectivity_ g;
     trajectory_ids_ := trajectory_ids_ g;
     global_localization_samplers_ := global_localization_samplers_ g;
     num_nodes_in_trajectory_ := num_nodes_in_trajectory_ g;
     scan_index_to_node_id_ := scan_index_to_node_id_ g;
     optimized_submap_transforms_ := v |}.


(** ** The optimization problem's mutators *)

Definition set_submap_data (v : list (list SubmapData))
  (op : OptimizationProblem) : OptimizationProblem :=
  {| submap_data := v; node_data := node_data op; imu_data := imu_data op;
     max_num_iterations := max_num_iterations op;
     num_solves := num_solves op |}.

Definition set_node_data (v : list (list NodeData))
  (op : OptimizationProblem) : OptimizationProblem :=
  {| submap_data := submap_data op; node_data := v; imu_data := imu_data op;
     max_num_iterations := max_num_iterations op;
     num_solves := num_solves op |}.

Definition set_imu_data (v : list (list ImuData))
  (op : OptimizationProblem) : OptimizationProblem :=
  {| submap_data := submap_data op; node_data := node_data op; imu_data := v;
     max_num_iterations := max_num_iterations op;
     num_solves := num_solves op |}.

(** Appends [x] to the [trajectory_id]-th inner vector, growing the outer
    vector first when it is too short. *)
Definition push_back_at {A} (trajectory_id : nat) (x : A)
  (v : list (list A)) : list (list A) :=
  alter (fun t => t ++ [x]) trajectory_id
    (resize_to (max (length v) (trajectory_id + 1)) [] v).

(** Modelled from the spec: [OptimizationProblem::AddSubmap] is declared
    with the solver; the spec (sections 3, 4.2 and 6) has it append one
    submap pose to the trajectory's ordered sequence. *)
Definition OptimizationProblem_AddSubmap (trajectory_id : nat)
  (submap_pose : Rigid3d) (op : OptimizationProblem) : OptimizationProblem :=
  set_submap_data
    (push_back_at trajectory_id {| SubmapData_pose := submap_pose |}
       (submap_data op)) op.

(** Modelled from the spec: [OptimizationProblem::AddTrajectoryNode]
    (sections 4.5 and 6) pushes a new trajectory node with the scan's
    timestamp and pose. *)
Definition OptimizationProblem_AddTrajectoryNode (trajectory_id : nat)
  (time : Z) (point_cloud_pose : Rigid3d) (op : OptimizationProblem)
  : OptimizationProblem :=
  set_node_data
    (push_back_at trajectory_id
       {| NodeData_time := time; point_cloud_pose := point_cloud_pose |}
       (node_data op)) op.

(** Modelled from the spec: [OptimizationProblem::AddImuData] (section
    4.4) pushes the sample into the per-trajectory IMU series. *)
Definition OptimizationProblem_AddImuData (trajectory_id : nat) (time : Z)
  (linear_acceleration angular_velocity : Vector3d)
  (op : OptimizationProblem) : OptimizationProblem :=
  set_imu_data
    (push_back_at trajectory_id
       {| ImuData_time := time; linear_acceleration := linear_acceleration;
          angular_velocity := angular_velocity |}
       (imu_data op)) op.

(** Modelled from the spec: [OptimizationProblem::SetMaxNumIterations]
    (section 4.12) sets the solver's iteration cap. *)
Definition OptimizationProblem_SetMaxNumIterations (n : Z)
  (op : OptimizationProblem) : OptimizationProblem :=
  {| submap_data := submap_data op; node_data := node_data op;
     imu_data := imu_data op; max_num_iterations := n;
     num_solves := num_solves op |}.

(** [optimization_problem_.Solve(constraints)]: whatever the solver makes
    of the data, counted. *)
Definition OptimizationProblem_Solve (cs : list Constraint)
  (op : OptimizationProblem) : OptimizationProblem :=
  let op' := Solve cs op in
  {| submap_data := submap_data op'; node_data := node_data op';
     imu_data := imu_data op'; max_num_iterations := max_num_iterations op';
     num_solves := S (num_solves op) |}.

(** [v.at(i).at(j)] *)
Definition at2 {A} (v : list (list A)) (i j : nat) : Outcome A :=
  t ← at_ v i; at_ t j.

(** ** The constraint builder's entry points *)

Definition builder_call (c : BuilderCall) (g : SparsePoseGraph)
  : SparsePoseGraph :=
  set_constraint_builder_
    {| calls := calls (constraint_builder_ g) ++ [c];
       when_done := when_done (constraint_builder_ g) |} g.

Definition builder_WhenDone (callback : WhenDoneCallback)
  (g : SparsePoseGraph) : SparsePoseGraph :=
  set_constraint_builder_
    {| calls := calls (constraint_builder_ g) ++ [WhenDone callback];
       when_done := Some callback |} g.

Definition builder_callback_taken (g : SparsePoseGraph) : SparsePoseGraph :=
  set_constraint_builder_
    {| calls := calls (constraint_builder_ g); when_done := None |} g.

(** ** SparsePoseGraph *)

(** The constructor. *)
Definition SparsePoseGraph_new (options : SparsePoseGraphOptions)
  : SparsePoseGraph :=
  {| options_ := options; scan_queue_ := None;
     num_scans_since_last_loop_closure_ := 0%Z; run_loop_closure_ := false;
     optimization_problem_ :=
       {| submap_data := []; node_data := []; imu_data := [];
          max_num_iterations := ceres_max_num_iterations options;
          num_solves := 0 |};
     constraint_builder_ := {| calls := []; when_done := None |};
     constraints_ := []; submap_ids_ := ∅; submap_states_ := [];
     connected_components_ := []; reverse_connected_components_ := ∅;
     constant_node_data_ := []; trajectory_nodes_ := [];
     trajectory_connectivity_ := no_connectivity; trajectory_ids_ := ∅;
     global_localization_samplers_ := ∅; num_nodes_in_trajectory_ := ∅;
     scan_index_to_node_id_ := []; optimized_submap_transforms_ := [] |}.

(** Modelled from the spec: [GetSubmapId] is defined in the header; the
    registry maps a submap handle to its [SubmapId] (section 3), and a
    handle it does not know is a programmer error (section 7). *)
Definition GetSubmapId (s : Submap) (g : SparsePoseGraph)
  : Outcome SubmapId.t :=
  match submap_ids_ g !! Submap_ptr s with
  | Some id => Ok id
  | None => Abort CheckFailed
  end.

Definition empty {A} (v : list A) : bool :=
  match v with [] => true | _ => false end.

Definition GrowSubmapTransformsAsNeeded (insertion_submaps : list Submap)
  (g : SparsePoseGraph) : Outcome SparsePoseGraph :=
  _ ← CHECK (negb (empty insertion_submaps));
  first ← index insertion_submaps 0;
  first_submap_id ← GetSubmapId first g;
  let trajectory_id := SubmapId.trajectory_id first_submap_id in
  (* CHECK_GE(trajectory_id, 0) holds of every id, which is a size *)
  let submap_data := submap_data (optimization_problem_ g) in
  if length insertion_submaps =? 1 then
    _ ← CHECK (SubmapId.submap_index first_submap_id =? 0);
    if (length submap_data <=? trajectory_id)
       || match submap_data !! trajectory_id with
          | Some t => empty t
          | None => false
          end
    then Ok (set_optimization_problem_
               (OptimizationProblem_AddSubmap trajectory_id Identity
                  (optimization_problem_ g)) g)
    else Ok g
  else
    _ ← CHECK (length insertion_submaps =? 2);
    t ← at_ submap_data trajectory_id;
    let next_submap_index := length t in
    second ← index insertion_submaps 1;
    second_submap_id ← GetSubmapId second g;
    _ ← CHECK (SubmapId.trajectory_id second_submap_id =? trajectory_id);
    _ ← CHECK (SubmapId.submap_index second_submap_id <=? next_submap_index);
    if SubmapId.submap_index second_submap_id =? next_submap_index then
      first_submap ← at2 submap_data trajectory_id
                        (SubmapId.submap_index first_submap_id);
      let first_submap_pose := SubmapData_pose first_submap in
      Ok (set_optimization_problem_
            (OptimizationProblem_AddSubmap trajectory_id
               (first_submap_pose * inverse (local_pose first)
                * local_pose second)
               (optimization_problem_ g)) g)
    else Ok g.

(** One turn of the loop of [ExtrapolateSubmapTransforms]. *)
Definition extrapolate_push (submap_transforms : list (list SubmapData))
  (trajectory_id : nat) (g : SparsePoseGraph) (state : SubmapState)
  (result : list Rigid3d) : Outcome (list Rigid3d) :=
  optimized ←
    (if trajectory_id <? length submap_transforms then
       t ← at_ submap_transforms trajectory_id;
       mret (length result <? length t)
     else mret false);
  if optimized : bool then
    d ← at2 submap_transforms trajectory_id (length result);
    mret (result ++ [SubmapData_pose d])
  else if empty result then
    mret (result ++ [Identity])
  else
    previous ← back result;
    previous_state ←
      at2 (submap_states_ g) trajectory_id (length result - 1);
    mret (result ++ [previous * inverse (local_pose (submap previous_state))
                     * local_pose (submap state)]).

Definition ExtrapolateSubmapTransforms
  (submap_transforms : list (list SubmapData)) (trajectory_id : nat)
  (g : SparsePoseGraph) : Outcome (list Rigid3d) :=
  if length (submap_states_ g) <=? trajectory_id then
    mret [Identity]
  else
    states ← at_ (submap_states_ g) trajectory_id;
    result ← for_each (extrapolate_push submap_transforms trajectory_id g)
                      states [];
    if empty result then mret (result ++ [Identity]) else mret result.

(** [GetSubmapTransforms] on a trajectory handle *)
Definition GetSubmapTransforms (trajectory : Submaps) (g : SparsePoseGraph)
  : Outcome (list Rigid3d) :=
  match trajectory_ids_ g !! Submaps_ptr trajectory with
  | None => mret [Identity]
  | Some trajectory_id =>
      ExtrapolateSubmapTransforms (optimized_submap_transforms_ g)
        trajectory_id g
  end.

(** [GetSubmapTransforms] on a trajectory id *)
Definition GetSubmapTransforms_by_id (trajectory_id : nat)
  (g : SparsePoseGraph) : Outcome (list Rigid3d) :=
  ExtrapolateSubmapTransforms (optimized_submap_transforms_ g)
    trajectory_id g.

Definition GetLocalToGlobalTransform (submaps : Submaps)
  (g : SparsePoseGraph) : Outcome Rigid3d :=
  extrapolated_submap_transforms ← GetSubmapTransforms submaps g;
  last_transform ← back extrapolated_submap_transforms;
  last_submap ← Get submaps (length extrapolated_submap_transforms - 1);
  mret (last_transform * inverse (local_pose last_submap)).

(** [global_localization_samplers_[trajectory_id]->Pulse()]; a missing
    entry is a null [unique_ptr]. *)
Definition pulse_sampler (trajectory_id : nat) (g : SparsePoseGraph)
  : Outcome (bool * SparsePoseGraph) :=
  match global_localization_samplers_ g !! trajectory_id with
  | Some sampler =>
      let '(fired, sampler') := Pulse sampler in
      mret (fired,
            set_global_localization_samplers_
              (<[trajectory_id := sampler']>
                 (global_localization_samplers_ g)) g)
  | None => Abort Undefined
  end.

(** [reverse_connected_components_.count(a) > 0 && ...count(b) > 0 &&
    ...at(a) == ...at(b)] *)
Definition trajectories_connected (a b : nat) (g : SparsePoseGraph) : bool :=
  match reverse_connected_components_ g !! a,
        reverse_connected_components_ g !! b with
  | Some ca, Some cb => ca =? cb
  | _, _ => false
  end.

Definition ComputeConstraint (scan_index : nat) (submap_id : SubmapId.t)
  (g : SparsePoseGraph) : Outcome SparsePoseGraph :=
  node_id ← at_ (scan_index_to_node_id_ g) scan_index;
  submap_entry ← at2 (submap_data (optimization_problem_ g))
                     (SubmapId.trajectory_id submap_id)
                     (SubmapId.submap_index submap_id);
  node_entry ← at2 (node_data (optimization_problem_ g))
                   (NodeId.trajectory_id node_id)
                   (NodeId.node_index node_id);
  let relative_pose :=
    inverse (SubmapData_pose submap_entry) * point_cloud_pose node_entry in
  node ← index (trajectory_nodes_ g) scan_index;
  let scan_trajectory_id := ConstantData_trajectory_id (constant_data node) in
  (* Only globally match against submaps not in this trajectory. *)
  '(global, g) ←
    (if negb (scan_trajectory_id =? SubmapId.trajectory_id submap_id)
     then pulse_sampler scan_trajectory_id g
     else mret (false, g));
  if global : bool then
    state ← at2 (submap_states_ g) (SubmapId.trajectory_id submap_id)
                (SubmapId.submap_index submap_id);
    mret (builder_call
            (MaybeAddGlobalConstraint submap_id (submap state) node_id
               scan_index) g)
  else
    let scan_and_submap_trajectories_connected :=
      trajectories_connected scan_trajectory_id
        (SubmapId.trajectory_id submap_id) g in
    if (scan_trajectory_id =? SubmapId.trajectory_id submap_id)
       || scan_and_submap_trajectories_connected
    then
      state ← at2 (submap_states_ g) (SubmapId.trajectory_id submap_id)
                  (SubmapId.submap_index submap_id);
      mret (builder_call
              (MaybeAddConstraint submap_id (submap state) node_id
                 scan_index relative_pose) g)
    else mret g.

Definition ComputeConstraintsForOldScans (s : Submap) (g : SparsePoseGraph)
  : Outcome SparsePoseGraph :=
  submap_id ← GetSubmapId s g;
  _ ← at2 (submap_states_ g) (SubmapId.trajectory_id submap_id)
          (SubmapId.submap_index submap_id);
  let num_nodes := length (scan_index_to_node_id_ g) in
  for_each
    (fun scan_index g =>
       (* [submap_state] is a reference into [submap_states_] *)
       submap_state ← at2 (submap_states_ g)
                          (SubmapId.trajectory_id submap_id)
                          (SubmapId.submap_index submap_id);
       node_id ← index (scan_index_to_node_id_ g) scan_index;
       if bool_decide (node_id ∈ node_ids submap_state) then mret g
       else ComputeConstraint scan_index submap_id g)
    (seq 0 num_nodes) g.

(** [constraint_builder_.WhenDone(callback)] with the lambda of
    [HandleScanQueue]; the lambda's body is [HandleScanQueue_run]. *)
Definition HandleScanQueue (g : SparsePoseGraph) : SparsePoseGraph :=
  builder_WhenDone HandleScanQueue_callback g.

Definition alter2 {A} (f : A -> A) (i j : nat) (v : list (list A))
  : list (list A) :=
  alter (alter f j) i v.

Definition insert_node_id (n : NodeId.t) (st : SubmapState) : SubmapState :=
  {| submap := submap st; node_ids := {[n]} ∪ node_ids st;
     finished := finished st |}.

Definition mark_finished (st : SubmapState) : SubmapState :=
  {| submap := submap st; node_ids := node_ids st; finished := true |}.

(** Lines 242-261: the loop over the insertion submaps. *)
Definition add_intra_submap_constraint (node_id : NodeId.t) (pose : Rigid3d)
  (covariance : PoseCovariance) (s : Submap) (g : SparsePoseGraph)
  : Outcome SparsePoseGraph :=
  submap_id ← GetSubmapId s g;
  state ← at2 (submap_states_ g) (SubmapId.trajectory_id submap_id)
              (SubmapId.submap_index submap_id);
  _ ← CHECK (negb (finished state));
  let g := set_submap_states_
             (alter2 (insert_node_id node_id)
                (SubmapId.trajectory_id submap_id)
                (SubmapId.submap_index submap_id) (submap_states_ g)) g in
  (* Unchanged covariance as (submap <- map) is a translation. *)
  let constraint_transform := inverse (local_pose s) * pose in
  mret (set_constraints_
          (constraints_ g ++
           [{| submap_id := submap_id; node_id := node_id;
               zbar_ij := constraint_transform;
               sqrt_Lambda_ij :=
                 ComputeSpdMatrixSqrtInverse covariance
                   (lower_covariance_eigenvalue_bound (options_ g));
               tag := INTRA_SUBMAP |}]) g).

(** Lines 263-278: the new scan against every finished submap. *)
Definition match_against_finished_submaps (scan_index : nat)
  (node_id : NodeId.t) (g : SparsePoseGraph) : Outcome SparsePoseGraph :=
  for_each
    (fun trajectory_id g =>
       t ← at_ (submap_states_ g) trajectory_id;
       for_each
         (fun submap_index g =>
            state ← at2 (submap_states_ g) trajectory_id submap_index;
            if finished state then
              _ ← CHECK (negb (bool_decide (node_id ∈ node_ids state)));
              ComputeConstraint scan_index
                (SubmapId.mk trajectory_id submap_index) g
            else mret g)
         (seq 0 (length t)) g)
    (seq 0 (length (submap_states_ g))) g.

(** Lines 280-290: the submap that was completed by this scan. *)
Definition finish_submap (finished_submap : option Submap)
  (g : SparsePoseGraph) : Outcome SparsePoseGraph :=
  match finished_submap with
  | None => mret g
  | Some s =>
      finished_submap_id ← GetSubmapId s g;
      finished_submap_state ←
        at2 (submap_states_ g) (SubmapId.trajectory_id finished_submap_id)
            (SubmapId.submap_index finished_submap_id);
      _ ← CHECK (negb (finished finished_submap_state));
      (* We have a new completed submap, so we look into adding
         constraints for old scans. *)
      g ← ComputeConstraintsForOldScans s g;
      mret (set_submap_states_
              (alter2 mark_finished
                 (SubmapId.trajectory_id finished_submap_id)
                 (SubmapId.submap_index finished_submap_id)
                 (submap_states_ g)) g)
  end.

(** Lines 291-302: the end-of-scan barrier and the optimization trigger. *)
Definition end_of_scan (scan_index : nat) (g : SparsePoseGraph)
  : Outcome SparsePoseGraph :=
  let g := builder_call (NotifyEndOfScan scan_index) g in
  let g := set_num_scans_since_last_loop_closure_
             (num_scans_since_last_loop_closure_ g + 1)%Z g in
  if (0 <? optimize_every_n_scans (options_ g))%Z
     && (optimize_every_n_scans (options_ g)
         <? num_scans_since_last_loop_closure_ g)%Z
  then
    _ ← CHECK (negb (run_loop_closure_ g));
    let g := set_run_loop_closure_ true g in
    (* If there is a 'scan_queue_' already, some other thread will take
       care. *)
    match scan_queue_ g with
    | None => mret (HandleScanQueue (set_scan_queue_ (Some []) g))
    | Some _ => mret g
    end
  else mret g.

Definition ComputeConstraintsForScan (scan_index : nat)
  (matching_submap : Submap) (insertion_submaps : list Submap)
  (finished_submap : option Submap) (pose : Rigid3d)
  (covariance : PoseCovariance) (g : SparsePoseGraph)
  : Outcome SparsePoseGraph :=
  g ← GrowSubmapTransformsAsNeeded insertion_submaps g;
  matching_id ← GetSubmapId matching_submap g;
  matching_entry ← at2 (submap_data (optimization_problem_ g))
                       (SubmapId.trajectory_id matching_id)
                       (SubmapId.submap_index matching_id);
  let optimized_pose :=
    SubmapData_pose matching_entry * inverse (local_pose matching_submap)
    * pose in
  _ ← CHECK (scan_index =? length (scan_index_to_node_id_ g));
  let node_id :=
    NodeId.mk (SubmapId.trajectory_id matching_id)
      (default 0 (num_nodes_in_trajectory_ g
                    !! SubmapId.trajectory_id matching_id)) in
  let g := set_scan_index_to_node_id_
             (scan_index_to_node_id_ g ++ [node_id]) g in
  let g := set_num_nodes_in_trajectory_
             (<[SubmapId.trajectory_id matching_id :=
                  S (NodeId.node_index node_id)]>
                (num_nodes_in_trajectory_ g)) g in
  node ← index (trajectory_nodes_ g) scan_index;
  let scan_data := constant_data node in
  _ ← CHECK (ConstantData_trajectory_id scan_data
             =? SubmapId.trajectory_id matching_id);
  let g := set_optimization_problem_
             (OptimizationProblem_AddTrajectoryNode
                (SubmapId.trajectory_id matching_id)
                (ConstantData_time scan_data) optimized_pose
                (optimization_problem_ g)) g in
  g ← for_each (add_intra_submap_constraint node_id pose covariance)
               insertion_submaps g;
  g ← match_against_finished_submaps scan_index node_id g;
  g ← finish_submap finished_submap g;
  end_of_scan scan_index g.

(** [trajectory_nodes_[i].pose = pose] *)
Definition set_node_pose (i : nat) (pose : Rigid3d) (g : SparsePoseGraph)
  : Outcome SparsePoseGraph :=
  node ← index (trajectory_nodes_ g) i;
  mret (set_trajectory_nodes_
          (<[i := {| constant_data := constant_data node;
                     TrajectoryNode_pose := pose |}]> (trajectory_nodes_ g))
          g).

(** Lines 380-385: the poses the solver has worked on. *)
Definition copy_optimized_pose (i : nat) (g : SparsePoseGraph)
  : Outcome SparsePoseGraph :=
  node_id ← index (scan_index_to_node_id_ g) i;
  entry ← at2 (node_data (optimization_problem_ g))
              (NodeId.trajectory_id node_id) (NodeId.node_index node_id);
  set_node_pose i (point_cloud_pose entry) g.

(** Lines 388-402: one node that was added later.  The loop carries the
    local [extrapolation_transforms] map next to the object; reading the
    map with [operator[]] after the [if] finds the entry, and would make
    an identity otherwise. *)
Definition extrapolate_later_pose (i : nat)
  (acc : gmap nat Rigid3d * SparsePoseGraph)
  : Outcome (gmap nat Rigid3d * SparsePoseGraph) :=
  let '(extrapolation_transforms, g) := acc in
  node ← index (trajectory_nodes_ g) i;
  let trajectory_id := ConstantData_trajectory_id (constant_data node) in
  extrapolation_transforms ←
    match extrapolation_transforms !! trajectory_id with
    | None =>
        new_submap_transforms ←
          ExtrapolateSubmapTransforms
            (submap_data (optimization_problem_ g)) trajectory_id g;
        old_submap_transforms ←
          ExtrapolateSubmapTransforms
            (optimized_submap_transforms_ g) trajectory_id g;
        _ ← CHECK (length new_submap_transforms
                   =? length old_submap_transforms);
        new_back ← back new_submap_transforms;
        old_back ← back old_submap_transforms;
        mret (<[trajectory_id := new_back * inverse old_back]>
                extrapolation_transforms)
    | Some _ => mret extrapolation_transforms
    end;
  g ← set_node_pose i
        (default Identity (extrapolation_transforms !! trajectory_id)
         * TrajectoryNode_pose node) g;
  mret (extrapolation_transforms, g).

(** Lines 405-410. *)
Definition reverse_components (components : list (list nat))
  : gmap nat nat :=
  foldl (fun m '(i, component) =>
           foldl (fun m trajectory_id => emplace trajectory_id i m)
                 m component)
        ∅ (zip (seq 0 (length components)) components).

Definition RunOptimization (g : SparsePoseGraph) : Outcome SparsePoseGraph :=
  if empty (submap_data (optimization_problem_ g)) then mret g
  else
    let g := set_optimization_problem_
               (OptimizationProblem_Solve (constraints_ g)
                  (optimization_problem_ g)) g in
    let num_optimized_poses := length (scan_index_to_node_id_ g) in
    g ← for_each copy_optimized_pose (seq 0 num_optimized_poses) g;
    (* Extrapolate all point cloud poses that were added later.  With
       more node ids than nodes the first loop has already stopped. *)
    '(_, g) ← for_each extrapolate_later_pose
                (seq num_optimized_poses
                     (length (trajectory_nodes_ g) - num_optimized_poses))
                (∅, g);
    let g := set_optimized_submap_transforms_
               (submap_data (optimization_problem_ g)) g in
    let g := set_connected_components_
               (ConnectedComponents (trajectory_connectivity_ g)) g in
    mret (set_reverse_connected_components_
            (reverse_components (connected_components_ g)) g).

(** The body of a queued closure. *)
Definition run_work_item (w : WorkItem) (g : SparsePoseGraph)
  : Outcome SparsePoseGraph :=
  match w with
  | ComputeConstraintsForScan_item scan_index matching_submap
      insertion_submaps finished_submap pose covariance =>
      ComputeConstraintsForScan scan_index matching_submap
        insertion_submaps finished_submap pose covariance g
  | AddImuData_item trajectory time linear_acceleration angular_velocity =>
      trajectory_id ← map_at (trajectory_ids_ g) (Submaps_ptr trajectory);
      mret (set_optimization_problem_
              (OptimizationProblem_AddImuData trajectory_id time
                 linear_acceleration angular_velocity
                 (optimization_problem_ g)) g)
  end.

Definition AddWorkItem (work_item : WorkItem) (g : SparsePoseGraph)
  : Outcome SparsePoseGraph :=
  match scan_queue_ g with
  | None => run_work_item work_item g
  | Some queue => mret (set_scan_queue_ (Some (queue ++ [work_item])) g)
  end.

(** Lines 314-324: the [while (!run_loop_closure_)] loop of the callback
    and the call after it.  Every turn reads the queue from the object;
    [fuel] bounds the number of turns. *)
Fixpoint drain_scan_queue (fuel : nat) (g : SparsePoseGraph)
  : Outcome SparsePoseGraph :=
  match fuel with
  | O => Abort OutOfFuel
  | S fuel =>
      if run_loop_closure_ g then
        (* We have to optimize again. *)
        mret (HandleScanQueue g)
      else
        match scan_queue_ g with
        | None => Abort Undefined
        | Some [] => mret (set_scan_queue_ None g)
        | Some (work_item :: _) =>
            g ← run_work_item work_item g;
            match scan_queue_ g with
            | Some (_ :: queue) =>
                drain_scan_queue fuel (set_scan_queue_ (Some queue) g)
            | _ => Abort Undefined
            end
        end
  end.

(** Lines 307-325: the lambda [HandleScanQueue] hands to [WhenDone]. *)
Definition HandleScanQueue_run (result : list Constraint)
  (g : SparsePoseGraph) : Outcome SparsePoseGraph :=
  let g := set_constraints_ (constraints_ g ++ result) g in
  g ← RunOptimization g;
  let g := set_num_scans_since_last_loop_closure_ 0%Z g in
  let g := set_run_loop_closure_ false g in
  drain_scan_queue (S (length (default [] (scan_queue_ g)))) g.

Definition INT_MAX : Z := 2147483647.

Definition AddScan (time : Z) (range_data_in_tracking : RangeData)
  (pose : Rigid3d) (covariance : PoseCovariance) (trajectory : Submaps)
  (matching_submap : Submap) (insertion_submaps : list Submap)
  (g : SparsePoseGraph) : Outcome SparsePoseGraph :=
  local_to_global ← GetLocalToGlobalTransform trajectory g;
  let optimized_pose := local_to_global * pose in
  let g := set_trajectory_ids_
             (emplace (Submaps_ptr trajectory) (size (trajectory_ids_ g))
                (trajectory_ids_ g)) g in
  trajectory_id ← map_at (trajectory_ids_ g) (Submaps_ptr trajectory);
  let flat_scan_index := length (trajectory_nodes_ g) in
  _ ← CHECK (Z.of_nat flat_scan_index <? INT_MAX)%Z;
  let data :=
    {| ConstantData_time := time;
       range_data_3d := Compress range_data_in_tracking;
       ConstantData_trajectory_id := trajectory_id;
       tracking_to_pose := Identity |} in
  let g := set_constant_node_data_ (constant_node_data_ g ++ [data]) g in
  let g := set_trajectory_nodes_
             (trajectory_nodes_ g ++
              [{| constant_data := data;
                  TrajectoryNode_pose := optimized_pose |}]) g in
  let g := set_trajectory_connectivity_
             (Add trajectory_id (trajectory_connectivity_ g)) g in
  newest ← back insertion_submaps;
  g ← match submap_ids_ g !! Submap_ptr newest with
      | None =>
          let g := set_submap_states_
                     (resize_to (max (length (submap_states_ g))
                                     (trajectory_id + 1)) []
                        (submap_states_ g)) g in
          trajectory_submap_states ← at_ (submap_states_ g) trajectory_id;
          let g := set_submap_ids_
                     (emplace (Submap_ptr newest)
                        (SubmapId.mk trajectory_id
                           (length trajectory_submap_states))
                        (submap_ids_ g)) g in
          mret (set_submap_states_
                  (alter (fun t => t ++ [{| submap := newest;
                                            node_ids := ∅;
                                            finished := false |}])
                     trajectory_id (submap_states_ g)) g)
      | Some _ => mret g
      end;
  oldest ← front insertion_submaps;
  let finished_submap :=
    if Submap_finished oldest then Some oldest else None in
  (* Make sure we have a sampler for this trajectory. *)
  let g := match global_localization_samplers_ g !! trajectory_id with
           | None =>
               set_global_localization_samplers_
                 (<[trajectory_id :=
                      make_sampler (global_sampling_ratio (options_ g))]>
                    (global_localization_samplers_ g)) g
           | Some _ => g
           end in
  AddWorkItem
    (ComputeConstraintsForScan_item flat_scan_index matching_submap
       insertion_submaps finished_submap pose covariance) g.

Definition GetNextTrajectoryNodeIndex (g : SparsePoseGraph) : nat :=
  length (trajectory_nodes_ g).

Definition AddImuData (trajectory : Submaps) (time : Z)
  (linear_acceleration angular_velocity : Vector3d) (g : SparsePoseGraph)
  : Outcome SparsePoseGraph :=
  let g := set_trajectory_ids_
             (emplace (Submaps_ptr trajectory) (size (trajectory_ids_ g))
                (trajectory_ids_ g)) g in
  AddWorkItem
    (AddImuData_item trajectory time linear_acceleration angular_velocity) g.

(** [WaitForAllComputations] from the point where its first wait has
    ended (the progress lines and the waiting itself are not modelled):
    the callback is registered, the matcher runs it with its last batch
    [result], and the second wait ends.  This is what the code does in a
    state in which no callback of the matcher is pending: there the
    first wait ends without the object changing.  With the callback of
    [HandleScanQueue] pending, the code does not get past the first wait
    before the matcher has run that callback, which is a step of its
    own in a history. *)
Definition WaitForAllComputations (result : list Constraint)
  (g : SparsePoseGraph) : SparsePoseGraph :=
  let g := builder_WhenDone WaitForAllComputations_callback g in
  let g := builder_callback_taken g in
  set_constraints_ (constraints_ g ++ result) g.

Definition RunFinalOptimization (result : list Constraint)
  (g : SparsePoseGraph) : Outcome SparsePoseGraph :=
  let g := WaitForAllComputations result g in
  let g := set_optimization_problem_
             (OptimizationProblem_SetMaxNumIterations
                (max_num_final_iterations (options_ g))
                (optimization_problem_ g)) g in
  g ← RunOptimization g;
  mret (set_optimization_problem_
          (OptimizationProblem_SetMaxNumIterations
             (ceres_max_num_iterations (options_ g))
             (optimization_problem_ g)) g).

Definition GetTrajectoryNodes (g : SparsePoseGraph)
  : Outcome (list (list TrajectoryNode)) :=
  for_each
    (fun node result =>
       _ ← at_ result (ConstantData_trajectory_id (constant_data node));
       mret (alter (fun t => t ++ [node])
               (ConstantData_trajectory_id (constant_data node)) result))
    (trajectory_nodes_ g) (replicate (size (trajectory_ids_ g)) []).

Definition constraints (g : SparsePoseGraph) : list Constraint :=
  constraints_ g.

Definition GetConnectedTrajectories (g : SparsePoseGraph)
  : list (list nat) :=
  connected_components_ g.

(** The destructor. *)
Definition SparsePoseGraph_delete (result : list Constraint)
  (g : SparsePoseGraph) : Outcome SparsePoseGraph :=
  let g := WaitForAllComputations result g in
  _ ← CHECK (bool_decide (scan_queue_ g = None));
  mret g.

(** ** Reference definitions used by the statements *)

(** What the [i]-th element of the result must be, given the elements
    before it. *)
Definition extrapolated_at (submap_transforms : list (list SubmapData))
  (trajectory_id : nat) (g : SparsePoseGraph) (result : list Rigid3d)
  (i : nat) : option Rigid3d :=
  let states := default [] (submap_states_ g !! trajectory_id) in
  let optimized := default [] (submap_transforms !! trajectory_id) in
  if i <? length optimized then SubmapData_pose <$> optimized !! i
  else match i with
       | 0 => Some Identity
       | S j =>
           previous ← result !! j;
           previous_state ← states !! j;
           state ← states !! i;
           Some (previous * inverse (local_pose (submap previous_state))
                 * local_pose (submap state))
       end.

(** Two trajectories are mapped to the same connected component: the
    reverse map knows the first, and has the same entry for the
    second. *)
Definition same_component (a b : nat) (g : SparsePoseGraph) : Prop :=
  is_Some (reverse_connected_components_ g !! a)
  /\ reverse_connected_components_ g !! a
     = reverse_connected_components_ g !! b.

#[global] Instance same_component_dec (a b : nat) (g : SparsePoseGraph) :
  Decision (same_component a b g) :=
  ltac:(unfold same_component; apply _).

(** What is handed to the matcher for a scan and a finished submap:
    a global match when the trajectories differ and the sampler fired,
    else a local match around [prior] when the trajectories are the same
    or connected, else nothing. *)
Definition proposal (submap_id : SubmapId.t) (s : Submap)
  (node_id : NodeId.t) (scan_index scan_trajectory_id : nat)
  (fired connected : bool) (prior : Rigid3d) : option BuilderCall :=
  if negb (scan_trajectory_id =? SubmapId.trajectory_id submap_id) && fired
  then Some (MaybeAddGlobalConstraint submap_id s node_id scan_index)
  else if (scan_trajectory_id =? SubmapId.trajectory_id submap_id)
          || connected
  then Some (MaybeAddConstraint submap_id s node_id scan_index prior)
  else None.

(** [g'] is [g] up to what the matcher side holds: the samplers and the
    calls the constraint builder has received. *)
Definition same_but_matcher (g g' : SparsePoseGraph) : Prop :=
  set_global_localization_samplers_ (global_localization_samplers_ g)
    (set_constraint_builder_ (constraint_builder_ g) g') = g
  /\ when_done (constraint_builder_ g') = when_done (constraint_builder_ g).

Definition is_proposal (c : BuilderCall) : Prop :=
  match c with
  | MaybeAddConstraint _ _ _ _ _ | MaybeAddGlobalConstraint _ _ _ _ => True
  | NotifyEndOfScan _ | WhenDone _ => False
  end.

(** [g'] has the options, the work queue, the scan counter, the pending
    flag and the registered callback of [g], and the matcher has
    received nothing but proposals in between. *)
Definition protocol_kept (g g' : SparsePoseGraph) : Prop :=
  options_ g' = options_ g
  /\ scan_queue_ g' = scan_queue_ g
  /\ num_scans_since_last_loop_closure_ g'
     = num_scans_since_last_loop_closure_ g
  /\ run_loop_closure_ g' = run_loop_closure_ g
  /\ when_done (constraint_builder_ g') = when_done (constraint_builder_ g)
  /\ exists extra,
       calls (constraint_builder_ g')
       = calls (constraint_builder_ g) ++ extra
       /\ Forall is_proposal extra.

(** The drain of section 4.9, told over the list of buffered items: as
    long as the pending flag is clear the items run front to back, an
    empty queue is deallocated, and a raised flag hands what is left back
    to the driver.  [queue] is the queue the object holds. *)
Fixpoint run_buffered (queue : list WorkItem) (g : SparsePoseGraph)
  : Outcome SparsePoseGraph :=
  if run_loop_closure_ g then Ok (HandleScanQueue g)
  else match queue with
       | [] => Ok (set_scan_queue_ None g)
       | work_item :: queue' =>
           g' ← run_work_item work_item g;
           run_buffered queue' (set_scan_queue_ (Some queue') g')
       end.

(** ** Histories

    What can happen to the object between its construction and its
    destruction: calls of the front-end, the matcher running the callback
    it was given (with the inter-submap constraints it has found), and
    the matcher linking trajectories in the shared connectivity
    structure.  A call that aborts ends the history. *)
Definition from_matcher (result : list Constraint) : Prop :=
  Forall (fun c => tag c = INTER_SUBMAP) result.

Inductive step : SparsePoseGraph -> SparsePoseGraph -> Prop :=
| step_AddScan time range_data pose covariance trajectory matching_submap
    insertion_submaps g g' :
    AddScan time range_data pose covariance trajectory matching_submap
      insertion_submaps g = Ok g' ->
    step g g'
| step_AddImuData trajectory time linear_acceleration angular_velocity
    g g' :
    AddImuData trajectory time linear_acceleration angular_velocity g
    = Ok g' ->
    step g g'
| step_RunFinalOptimization result g g' :
    from_matcher result ->
    RunFinalOptimization result g = Ok g' ->
    step g g'
| step_when_done result g g' :
    when_done (constraint_builder_ g) = Some HandleScanQueue_callback ->
    from_matcher result ->
    HandleScanQueue_run result (builder_callback_taken g) = Ok g' ->
    step g g'
| step_connect connectivity g :
    step g (set_trajectory_connectivity_ connectivity g).

Inductive reachable (options : SparsePoseGraphOptions)
  : SparsePoseGraph -> Prop :=
| reachable_new : reachable options (SparsePoseGraph_new options)
| reachable_step g g' :
    reachable options g -> step g g' -> reachable options g'.

(** A view of the object that does not look at the field [set] writes. *)
Definition ignores {A V} (view : SparsePoseGraph -> A)
  (set : V -> SparsePoseGraph -> SparsePoseGraph) : Prop :=
  forall v g, view (set v g) = view g.

(** [v[i][j]] when both indices are in range. *)
Definition lookup2 {A} (v : list (list A)) (i j : nat) : option A :=
  t ← v !! i; t !! j.

Definition state_of (id : SubmapId.t) (g : SparsePoseGraph)
  : option SubmapState :=
  lookup2 (submap_states_ g) (SubmapId.trajectory_id id)
    (SubmapId.submap_index id).

(** The intra-submap constraint of a scan inserted into submap [s]. *)
Definition intra_submap_constraint (n : NodeId.t) (pose : Rigid3d)
  (covariance : PoseCovariance) (g : SparsePoseGraph) (s : Submap)
  (id : SubmapId.t) : Constraint :=
  {| submap_id := id; node_id := n;
     zbar_ij := inverse (local_pose s) * pose;
     sqrt_Lambda_ij :=
       ComputeSpdMatrixSqrtInverse covariance
         (lower_covariance_eigenvalue_bound (options_ g));
     tag := INTRA_SUBMAP |}.

(** The node of an intra-submap constraint was inserted into its
    submap. *)
Definition inserted (c : Constraint) (g : SparsePoseGraph) : Prop :=
  tag c = INTRA_SUBMAP ->
  exists state,
    state_of (submap_id c) g = Some state /\ node_id c ∈ node_ids state.

(** Submap states are never dropped, and their node sets only grow. *)
Definition states_grow (v v' : list (list SubmapState)) : Prop :=
  forall i j state,
    lookup2 v i j = Some state ->
    exists state',
      lookup2 v' i j = Some state' /\ node_ids state ⊆ node_ids state'.

Definition grows (g g' : SparsePoseGraph) : Prop :=
  states_grow (submap_states_ g) (submap_states_ g')
  /\ exists new,
       constraints_ g' = constraints_ g ++ new
       /\ Forall (fun c => inserted c g') new.

(** A scan that [ComputeConstraintsForOldScans] hands to the decision:
    it has a node id, and the id is not in [state]. *)
Definition old_scan (state : SubmapState) (ids : list NodeId.t)
  (scan_index : nat) : bool :=
  match ids !! scan_index with
  | Some n => bool_decide (n ∉ node_ids state)
  | None => false
  end.

(** [v'] is [v] with node ids added to some states and nothing else
    touched. *)
Definition only_inserted (v v' : list (list SubmapState)) : Prop :=
  forall i j,
    match lookup2 v i j, lookup2 v' i j with
    | Some state, Some state' =>
        submap state' = submap state
        /\ finished state' = finished state
        /\ node_ids state ⊆ node_ids state'
    | None, None => True
    | _, _ => False
    end.

(** Before the first node id is allocated the optimizer holds no submap
    and the solver has not run. *)
Definition untouched_optimizer (g : SparsePoseGraph) : Prop :=
  scan_index_to_node_id_ g = [] ->
  submap_data (optimization_problem_ g) = []
  /\ num_solves (optimization_problem_ g) = 0.

Definition optimizer_view (g : SparsePoseGraph)
  : list NodeId.t * list (list SubmapData) * nat :=
  (scan_index_to_node_id_ g, submap_data (optimization_problem_ g),
   num_solves (optimization_problem_ g)).

(** One piece of a history: the graph has only grown, and the optimizer
    is still untouched if it was and no node id has been allocated. *)
Definition advances (g g' : SparsePoseGraph) : Prop :=
  grows g g' /\ (untouched_optimizer g -> untouched_optimizer g').

(** The transform that carries the nodes of a trajectory which the
    solver has not seen into the new frame: the tail of the extrapolated
    new submap poses composed with the inverse of the tail of the
    extrapolated old ones. *)
Definition extrapolation_transform (new_data old_data : list (list SubmapData))
  (trajectory_id : nat) (g : SparsePoseGraph) : option Rigid3d :=
  match ExtrapolateSubmapTransforms new_data trajectory_id g,
        ExtrapolateSubmapTransforms old_data trajectory_id g with
  | Ok new_submap_transforms, Ok old_submap_transforms =>
      new_tail ← last new_submap_transforms;
      old_tail ← last old_submap_transforms;
      Some (new_tail * inverse old_tail)
  | _, _ => None
  end.

Definition with_pose (node : TrajectoryNode) (pose : Rigid3d)
  : TrajectoryNode :=
  {| constant_data := constant_data node; TrajectoryNode_pose := pose |}.

(** Nothing of the periodic optimization has happened. *)
Definition never_triggered (options : SparsePoseGraphOptions)
  (g : SparsePoseGraph) : Prop :=
  options_ g = options
  /\ run_loop_closure_ g = false
  /\ scan_queue_ g = None
  /\ when_done (constraint_builder_ g) = None
  /\ Forall (fun c => c <> WhenDone HandleScanQueue_callback)
            (calls (constraint_builder_ g)).

(** An outcome that is a result or a way the C++ itself can stop. *)
Definition within_fuel {A} (o : Outcome A) : Prop := o <> Abort OutOfFuel.

(** ** Reference definitions for the rest of the class *)

(** Lines 95-131: [AddScan] up to the work item it hands over. *)
Definition AddScan_registration (time : Z)
  (range_data_in_tracking : RangeData) (pose : Rigid3d)
  (trajectory : Submaps) (insertion_submaps : list Submap)
  (g : SparsePoseGraph) : Outcome SparsePoseGraph :=
  local_to_global ← GetLocalToGlobalTransform trajectory g;
  let optimized_pose := local_to_global * pose in
  let g := set_trajectory_ids_
             (emplace (Submaps_ptr trajectory) (size (trajectory_ids_ g))
                (trajectory_ids_ g)) g in
  trajectory_id ← map_at (trajectory_ids_ g) (Submaps_ptr trajectory);
  let flat_scan_index := length (trajectory_nodes_ g) in
  _ ← CHECK (Z.of_nat flat_scan_index <? INT_MAX)%Z;
  let data :=
    {| ConstantData_time := time;
       range_data_3d := Compress range_data_in_tracking;
       ConstantData_trajectory_id := trajectory_id;
       tracking_to_pose := Identity |} in
  let g := set_constant_node_data_ (constant_node_data_ g ++ [data]) g in
  let g := set_trajectory_nodes_
             (trajectory_nodes_ g ++
              [{| constant_data := data;
                  TrajectoryNode_pose := optimized_pose |}]) g in
  let g := set_trajectory_connectivity_
             (Add trajectory_id (trajectory_connectivity_ g)) g in
  newest ← back insertion_submaps;
  g ← match submap_ids_ g !! Submap_ptr newest with
      | None =>
          let g := set_submap_states_
                     (resize_to (max (length (submap_states_ g))
                                     (trajectory_id + 1)) []
                        (submap_states_ g)) g in
          trajectory_submap_states ← at_ (submap_states_ g) trajectory_id;
          let g := set_submap_ids_
                     (emplace (Submap_ptr newest)
                        (SubmapId.mk trajectory_id
                           (length trajectory_submap_states))
                        (submap_ids_ g)) g in
          mret (set_submap_states_
                  (alter (fun t => t ++ [{| submap := newest;
                                            node_ids := ∅;
                                            finished := false |}])
                     trajectory_id (submap_states_ g)) g)
      | Some _ => mret g
      end;
  (* Make sure we have a sampler for this trajectory. *)
  mret match global_localization_samplers_ g !! trajectory_id with
       | None =>
           set_global_localization_samplers_
             (<[trajectory_id :=
                  make_sampler (global_sampling_ratio (options_ g))]>
                (global_localization_samplers_ g)) g
       | Some _ => g
       end.

(** The work item of lines 133-137. *)
Definition AddScan_work_item_of (matching_submap : Submap)
  (insertion_submaps : list Submap) (pose : Rigid3d)
  (covariance : PoseCovariance) (g : SparsePoseGraph) : Outcome WorkItem :=
  oldest ← front insertion_submaps;
  mret (ComputeConstraintsForScan_item (length (trajectory_nodes_ g))
          matching_submap insertion_submaps
          (if Submap_finished oldest then Some oldest else None)
          pose covariance).

(** Lines 223-278: [ComputeConstraintsForScan] up to the block of the
    finished submap: the node id, the optimizer's node, the constraints
    of the insertion submaps, and the matches of the new scan against
    the finished submaps. *)
Definition ComputeConstraintsForScan_new_scan (scan_index : nat)
  (matching_submap : Submap) (insertion_submaps : list Submap)
  (pose : Rigid3d) (covariance : PoseCovariance) (g : SparsePoseGraph)
  : Outcome SparsePoseGraph :=
  g ← GrowSubmapTransformsAsNeeded insertion_submaps g;
  matching_id ← GetSubmapId matching_submap g;
  matching_entry ← at2 (submap_data (optimization_problem_ g))
                       (SubmapId.trajectory_id matching_id)
                       (SubmapId.submap_index matching_id);
  let optimized_pose :=
    SubmapData_pose matching_entry * inverse (local_pose matching_submap)
    * pose in
  _ ← CHECK (scan_index =? length (scan_index_to_node_id_ g));
  let node_id :=
    NodeId.mk (SubmapId.trajectory_id matching_id)
      (default 0 (num_nodes_in_trajectory_ g
                    !! SubmapId.trajectory_id matching_id)) in
  let g := set_scan_index_to_node_id_
             (scan_index_to_node_id_ g ++ [node_id]) g in
  let g := set_num_nodes_in_trajectory_
             (<[SubmapId.trajectory_id matching_id :=
                  S (NodeId.node_index node_id)]>
                (num_nodes_in_trajectory_ g)) g in
  node ← index (trajectory_nodes_ g) scan_index;
  let scan_data := constant_data node in
  _ ← CHECK (ConstantData_trajectory_id scan_data
             =? SubmapId.trajectory_id matching_id);
  let g := set_optimization_problem_
             (OptimizationProblem_AddTrajectoryNode
                (SubmapId.trajectory_id matching_id)
                (ConstantData_time scan_data) optimized_pose
                (optimization_problem_ g)) g in
  g ← for_each (add_intra_submap_constraint node_id pose covariance)
               insertion_submaps g;
  match_against_finished_submaps scan_index node_id g.

Definition trajectory_id_of (node : TrajectoryNode) : nat :=
  ConstantData_trajectory_id (constant_data node).

(** The nodes of each trajectory id below [n], in the order of the flat
    list. *)
Definition nodes_by_trajectory (n : nat) (nodes : list TrajectoryNode)
  : list (list TrajectoryNode) :=
  map (fun t => List.filter (fun node => trajectory_id_of node =? t) nodes)
      (seq 0 n).

(** Trajectory ids are handed out in the order of first appearance:
    different handles have different ids, and the ids in use are the
    numbers below the number of handles. *)
Definition densely_numbered (ids : gmap nat nat) : Prop :=
  (forall p q id, ids !! p = Some id -> ids !! q = Some id -> p = q)
  /\ (forall id, id < size ids <-> exists p, ids !! p = Some id).

(** The handles of a list in the order in which they first appear. *)
Definition first_appearances (handles : list nat) : list nat :=
  foldl (fun seen p => if decide (p ∈ seen) then seen else seen ++ [p])
    [] handles.

(** A history together with the trajectory handles that were passed to
    [AddScan] and [AddImuData], in the order of the calls. *)
Inductive called_with (options : SparsePoseGraphOptions)
  : list nat -> SparsePoseGraph -> Prop :=
| called_with_new : called_with options [] (SparsePoseGraph_new options)
| called_with_AddScan handles time range_data pose covariance trajectory
    matching_submap insertion_submaps g g' :
    called_with options handles g ->
    AddScan time range_data pose covariance trajectory matching_submap
      insertion_submaps g = Ok g' ->
    called_with options (handles ++ [Submaps_ptr trajectory]) g'
| called_with_AddImuData handles trajectory time linear_acceleration
    angular_velocity g g' :
    called_with options handles g ->
    AddImuData trajectory time linear_acceleration angular_velocity g
    = Ok g' ->
    called_with options (handles ++ [Submaps_ptr trajectory]) g'
| called_with_RunFinalOptimization handles result g g' :
    called_with options handles g ->
    from_matcher result ->
    RunFinalOptimization result g = Ok g' ->
    called_with options handles g'
| called_with_when_done handles result g g' :
    called_with options handles g ->
    when_done (constraint_builder_ g) = Some HandleScanQueue_callback ->
    from_matcher result ->
    HandleScanQueue_run result (builder_callback_taken g) = Ok g' ->
    called_with options handles g'
| called_with_connect handles connectivity g :
    called_with options handles g ->
    called_with options handles
      (set_trajectory_connectivity_ connectivity g).

(** The scans that wait in a queue, by scan index. *)
Definition buffered_scans (queue : list WorkItem) : list nat :=
  omap (fun w => match w with
                 | ComputeConstraintsForScan_item scan_index _ _ _ _ _ =>
                     Some scan_index
                 | AddImuData_item _ _ _ _ => None
                 end) queue.

(** The handles of the trajectories whose IMU samples wait in a queue. *)
Definition buffered_imu_trajectories (queue : list WorkItem) : list nat :=
  omap (fun w => match w with
                 | ComputeConstraintsForScan_item _ _ _ _ _ _ => None
                 | AddImuData_item trajectory _ _ _ =>
                     Some (Submaps_ptr trajectory)
                 end) queue.

(** How many of [ids] belong to trajectory [t]. *)
Definition nodes_in (t : nat) (ids : list NodeId.t) : nat :=
  length (List.filter (fun n => NodeId.trajectory_id n =? t) ids).

(** Whether the threshold asks for an optimization at this count. *)
Definition threshold_passed (options : SparsePoseGraphOptions) (count : Z)
  : bool :=
  (0 <? optimize_every_n_scans options)%Z
  && (optimize_every_n_scans options <? count)%Z.

(** What may happen to a submap state that exists: the handle stays,
    node ids are only added, and a finished state does not change. *)
Definition settled (state state' : SubmapState) : Prop :=
  submap state' = submap state
  /\ node_ids state ⊆ node_ids state'
  /\ (finished state = true -> state' = state).

(** The same submaps in the same places, each of them [settled]. *)
Definition states_kept (v v' : list (list SubmapState)) : Prop :=
  forall i j,
    match lookup2 v i j, lookup2 v' i j with
    | Some state, Some state' => settled state state'
    | None, None => True
    | _, _ => False
    end.

(** The ids of the finished submaps, by trajectory and then by index. *)
Definition finished_submap_ids (v : list (list SubmapState))
  : list SubmapId.t :=
  flat_map
    (fun '(trajectory_id, t) =>
       flat_map
         (fun '(submap_index, state) =>
            if finished state
            then [SubmapId.mk trajectory_id submap_index] else [])
         (zip (seq 0 (length t)) t))
    (zip (seq 0 (length v)) v).

(** The first component that holds [trajectory_id]. *)
Definition first_component (components : list (list nat))
  (trajectory_id : nat) : option nat :=
  fst <$> list_find (fun component => trajectory_id ∈ component) components.

(** The scans that have no node id yet are the scans that wait in
    [queue], in the order of their scan indices. *)
Definition scans_accounted (queue : list WorkItem) (g : SparsePoseGraph)
  : Prop :=
  length (scan_index_to_node_id_ g) <= length (trajectory_nodes_ g)
  /\ buffered_scans queue
     = seq (length (scan_index_to_node_id_ g))
         (length (trajectory_nodes_ g) - length (scan_index_to_node_id_ g)).

(** The IMU samples that wait in [queue] belong to trajectories that
    have an id. *)
Definition imu_registered (queue : list WorkItem) (g : SparsePoseGraph)
  : Prop :=
  Forall (fun p => is_Some (trajectory_ids_ g !! p))
    (buffered_imu_trajectories queue).

(** The pending flag says whether the counter has passed the
    threshold. *)
Definition threshold_kept (options : SparsePoseGraphOptions)
  (g : SparsePoseGraph) : Prop :=
  options_ g = options
  /\ (0 <= num_scans_since_last_loop_closure_ g)%Z
  /\ run_loop_closure_ g
     = threshold_passed options (num_scans_since_last_loop_closure_ g)
  /\ ((0 < optimize_every_n_scans options)%Z ->
      (num_scans_since_last_loop_closure_ g
       <= optimize_every_n_scans options + 1)%Z).

(** What holds of the queue between two calls. *)
Definition queue_consistent (options : SparsePoseGraphOptions)
  (g : SparsePoseGraph) : Prop :=
  threshold_kept options g
  /\ (is_Some (scan_queue_ g) <-> run_loop_closure_ g = true)
  /\ scans_accounted (default [] (scan_queue_ g)) g
  /\ imu_registered (default [] (scan_queue_ g)) g.

(** Node ids are counted per trajectory: the node index of an id is the
    number of earlier ids of its trajectory. *)
Definition consecutively_numbered (ids : list NodeId.t) : Prop :=
  forall i n,
    ids !! i = Some n ->
    NodeId.node_index n = nodes_in (NodeId.trajectory_id n) (take i ids).

(** The per-trajectory counters say how many node ids each trajectory
    has. *)
Definition nodes_counted (g : SparsePoseGraph) : Prop :=
  forall t,
    default 0 (num_nodes_in_trajectory_ g !! t)
    = nodes_in t (scan_index_to_node_id_ g).

(** The registry of submap handles and the submap states say the same:
    a handle has the id of the place where its state is kept. *)
Definition registry_consistent (g : SparsePoseGraph) : Prop :=
  forall p id,
    submap_ids_ g !! p = Some id
    <-> exists state,
          state_of id g = Some state /\ Submap_ptr (submap state) = p.

(** Every state that exists stays where it is and is [settled]. *)
Definition states_settle (g g' : SparsePoseGraph) : Prop :=
  forall id state,
    state_of id g = Some state ->
    exists state', state_of id g' = Some state' /\ settled state state'.

(** The node sets of [v'] hold what those of [v] held and at most the
    ids in [extra] besides; no state has appeared. *)
Definition node_sets_within (extra : gset NodeId.t)
  (v v' : list (list SubmapState)) : Prop :=
  forall i j state',
    lookup2 v' i j = Some state' ->
    exists state,
      lookup2 v i j = Some state
      /\ node_ids state' ⊆ extra ∪ node_ids state.

(** Every node id in a node set has been allocated. *)
Definition nodes_allocated (g : SparsePoseGraph) : Prop :=
  forall id state n,
    state_of id g = Some state -> n ∈ node_ids state ->
    n ∈ scan_index_to_node_id_ g.

(** The constant data of the nodes are the entries of
    [constant_node_data_], in the same order. *)
Definition constant_data_in_place (g : SparsePoseGraph) : Prop :=
  map constant_data (trajectory_nodes_ g) = constant_node_data_ g.

End Model.

(** ** A concrete world for the examples

    Rigid motions of the integer lattice: quarter turns about the z axis
    followed by a translation.  They form a subgroup of the rigid
    motions of space that is not commutative, so the order of every
    composition shows in the examples. *)

Module Lattice.

Inductive Turn := T0 | T1 | T2 | T3.

Record Motion := { turn : Turn; dx : Z; dy : Z; dz : Z }.

Definition turn_add (a b : Turn) : Turn :=
  match a, b with
  | T0, t | t, T0 => t
  | T1, T1 => T2 | T1, T2 => T3 | T1, T3 => T0
  | T2, T1 => T3 | T2, T2 => T0 | T2, T3 => T1
  | T3, T1 => T0 | T3, T2 => T1 | T3, T3 => T2
  end.

Definition turn_neg (a : Turn) : Turn :=
  match a with T0 => T0 | T1 => T3 | T2 => T2 | T3 => T1 end.

Definition rotate (t : Turn) (x y : Z) : Z * Z :=
  match t with
  | T0 => (x, y)
  | T1 => (- y, x)
  | T2 => (- x, - y)
  | T3 => (y, - x)
  end%Z.

Definition identity : Motion := {| turn := T0; dx := 0; dy := 0; dz := 0 |}.

Definition compose (a b : Motion) : Motion :=
  {| turn := turn_add (turn a) (turn b);
     dx := dx a + (rotate (turn a) (dx b) (dy b)).1;
     dy := dy a + (rotate (turn a) (dx b) (dy b)).2;
     dz := dz a + dz b |}%Z.

Definition invert (a : Motion) : Motion :=
  {| turn := turn_neg (turn a);
     dx := - (rotate (turn_neg (turn a)) (dx a) (dy a)).1;
     dy := - (rotate (turn_neg (turn a)) (dx a) (dy a)).2;
     dz := - dz a |}%Z.

Definition translation (x y z : Z) : Motion :=
  {| turn := T0; dx := x; dy := y; dz := z |}.

Definition quarter_turn : Motion :=
  {| turn := T1; dx := 0; dy := 0; dz := 0 |}.

(** The sampler of common/fixed_ratio_sampler.cc on rationals. *)
Record Sampler := { ratio : Q; num_pulses : Z; num_samples : Z }.

Definition pulse (s : Sampler) : bool * Sampler :=
  let pulses := (num_pulses s + 1)%Z in
  if negb (Qle_bool (ratio s)
             (inject_Z (num_samples s) / inject_Z pulses)%Q)
  then (true, {| ratio := ratio s; num_pulses := pulses;
                 num_samples := (num_samples s + 1)%Z |})
  else (false, {| ratio := ratio s; num_pulses := pulses;
                  num_samples := num_samples s |}).

(** Connectivity kept as the list of components itself. *)
Definition add_trajectory (id : nat) (c : list (list nat))
  : list (list nat) :=
  if existsb (fun component => bool_decide (id ∈ component)) c then c
  else c ++ [[id]].

#[export] Instance world : External := {|
  Rigid3d := Motion;
  Identity := identity;
  mul := compose;
  inverse := invert;
  Scalar := Q;
  Vector3d := Z * Z * Z;
  RangeData := list (Z * Z * Z);
  CompressedRangeData := list (Z * Z * Z);
  Compress := fun points => points;
  PoseCovariance := Z;
  SqrtInformation := Z * Q;
  ComputeSpdMatrixSqrtInverse := fun covariance bound => (covariance, bound);
  FixedRatioSampler := Sampler;
  make_sampler := fun r => {| ratio := r; num_pulses := 0; num_samples := 0 |};
  Pulse := pulse;
  TrajectoryConnectivity := list (list nat);
  no_connectivity := [];
  Add := add_trajectory;
  ConnectedComponents := fun c => c
|}.

(** A solver that moves every pose by one and the same motion. *)
Definition shift : Motion := {| turn := T1; dx := 10; dy := 0; dz := 0 |}.

#[export] Instance solver : Solver := {|
  Solve := fun _ op =>
    {| submap_data :=
         map (map (fun d => {| SubmapData_pose :=
                                 compose shift (SubmapData_pose d) |}))
             (submap_data op);
       node_data :=
         map (map (fun n => {| NodeData_time := NodeData_time n;
                               point_cloud_pose :=
                                 compose shift (point_cloud_pose n) |}))
             (node_data op);
       imu_data := imu_data op;
       max_num_iterations := max_num_iterations op;
       num_solves := num_solves op |}
|}.

Definition options (n : Z) : SparsePoseGraphOptions :=
  {| optimize_every_n_scans := n; max_num_final_iterations := 200;
     global_sampling_ratio := 1%Q;
     lower_covariance_eigenvalue_bound := (1 # 100)%Q;
     ceres_max_num_iterations := 50 |}.

End Lattice.

(** ** Concrete inputs for the examples *)

Module Scenario.
Import Lattice.

Definition submap0 : Submap :=
  {| Submap_ptr := 100; local_pose := identity; Submap_finished := false |}.

Definition submap1 : Submap :=
  {| Submap_ptr := 101; local_pose := translation 5 0 0;
     Submap_finished := false |}.

Definition submap2 : Submap :=
  {| Submap_ptr := 102; local_pose := translation 9 0 0;
     Submap_finished := false |}.

Definition submap_at (m : Motion) : @SubmapData world :=
  @Build_SubmapData world m.

Definition as_finished (s : Submap) : Submap :=
  {| Submap_ptr := Submap_ptr s; local_pose := local_pose s;
     Submap_finished := true |}.

(** The first trajectory, seen at different moments of its life. *)
Definition trajectory (submaps : list Submap) : Submaps :=
  {| Submaps_ptr := 1; Submaps_submaps := submaps |}.

(** A trajectory whose first submap does not sit at the origin. *)
Definition offset_submap : Submap :=
  {| Submap_ptr := 200; local_pose := translation 5 0 0;
     Submap_finished := false |}.

Definition offset_trajectory : Submaps :=
  {| Submaps_ptr := 2; Submaps_submaps := [offset_submap] |}.

(** The object after a run of calls; a run that stops early leaves the
    last object it had. *)
Definition after (calls : list (SparsePoseGraph -> Outcome SparsePoseGraph))
  (g : SparsePoseGraph) : SparsePoseGraph :=
  foldl (fun g call => match call g with Ok g' => g' | Abort _ => g end)
        g calls.

Definition scan (time : Z) (x : Z) (submaps : list Submap)
  (matching : Submap) (insertion : list Submap)
  : SparsePoseGraph -> Outcome SparsePoseGraph :=
  AddScan time [] (translation x 0 0) 7%Z (trajectory submaps) matching
    insertion.

Definition run (o : Outcome SparsePoseGraph) (g : SparsePoseGraph)
  : SparsePoseGraph :=
  match o with Ok g' => g' | Abort _ => g end.

(** What [AddScan] has done to the object when it reaches its last line:
    with a queue in place the work item is only stored, and the queue is
    then taken away again. *)
Definition booked (call : SparsePoseGraph -> Outcome SparsePoseGraph)
  (g : SparsePoseGraph) : SparsePoseGraph :=
  set_scan_queue_ None (run (call (set_scan_queue_ (Some []) g)) g).

(** The six scans of the first trajectory: two into the first submap,
    one that opens the second, one that completes the first, one that
    opens the third, one that completes the second. *)
Definition scan0 := scan 0 0 [submap0] submap0 [submap0].
Definition scan1 := scan 1 1 [submap0] submap0 [submap0].
Definition scan2 := scan 2 2 [submap0; submap1] submap0 [submap0; submap1].
Definition scan3 :=
  scan 3 3 [submap0; submap1] submap0 [as_finished submap0; submap1].
Definition scan4 :=
  scan 4 6 [submap0; submap1; submap2] submap1 [submap1; submap2].
Definition scan5 :=
  scan 5 7 [submap0; submap1; submap2] submap1
    [as_finished submap1; submap2].

Definition two_scans (n : Z) : SparsePoseGraph :=
  after [scan0; scan1] (SparsePoseGraph_new (options n)).

Definition four_scans (n : Z) : SparsePoseGraph :=
  after [scan0; scan1; scan2; scan3] (SparsePoseGraph_new (options n)).

Definition five_scans (n : Z) : SparsePoseGraph :=
  after [scan0; scan1; scan2; scan3; scan4]
        (SparsePoseGraph_new (options n)).

Definition six_scans (n : Z) : SparsePoseGraph :=
  after [scan0; scan1; scan2; scan3; scan4; scan5]
        (SparsePoseGraph_new (options n)).

(** A second trajectory enters after the first submap of the first one
    was completed. *)
Definition other_submap : Submap :=
  {| Submap_ptr := 300; local_pose := identity; Submap_finished := false |}.

Definition other_trajectory : Submaps :=
  {| Submaps_ptr := 3; Submaps_submaps := [other_submap] |}.

Definition other_scan : SparsePoseGraph -> Outcome SparsePoseGraph :=
  AddScan 10 [] (translation 0 4 0) 7%Z other_trajectory other_submap
    [other_submap].

Definition two_trajectories : SparsePoseGraph :=
  after [other_scan] (four_scans 0).

(** What the object holds for a scan and a submap; the defaults are
    never used. *)
Definition node_of (scan_index : nat) (g : SparsePoseGraph)
  : TrajectoryNode :=
  default
    (@Build_TrajectoryNode world
       (@Build_ConstantData world 0 [] 0 identity) identity)
    (trajectory_nodes_ g !! scan_index).

Definition submap_state_of (id : SubmapId.t) (g : SparsePoseGraph)
  : SubmapState :=
  default (@Build_SubmapState world submap0 ∅ false) (state_of id g).

Definition submap_entry_of (id : SubmapId.t) (g : SparsePoseGraph)
  : SubmapData :=
  default (submap_at identity)
    (lookup2 (submap_data (optimization_problem_ g))
       (SubmapId.trajectory_id id) (SubmapId.submap_index id)).

Definition node_entry_of (n : NodeId.t) (g : SparsePoseGraph) : NodeData :=
  default (@Build_NodeData world 0 identity)
    (lookup2 (node_data (optimization_problem_ g))
       (NodeId.trajectory_id n) (NodeId.node_index n)).

Definition sampler_of (trajectory_id : nat) (g : SparsePoseGraph)
  : Sampler :=
  default {| ratio := 1; num_pulses := 0; num_samples := 0 |}
    (global_localization_samplers_ g !! trajectory_id).

(** The same once [AddScan] has registered a second submap and before
    the scan's constraints are computed. *)
Definition second_submap_registered : SparsePoseGraph :=
  booked scan2 (two_scans 0).

End Scenario.

(** ** Longer histories for the examples *)

Module Histories.
Import Lattice Scenario.

Definition three_scans (n : Z) : SparsePoseGraph :=
  after [scan0; scan1; scan2] (SparsePoseGraph_new (options n)).

(** With a threshold of three: six scans, two of them waiting, and then
    the callback of the driver, with no constraint from the matcher. *)
Definition drained : SparsePoseGraph :=
  run (HandleScanQueue_run [] (builder_callback_taken (six_scans 3)))
      (six_scans 3).

(** A node id that no scan has. *)
Definition spare_node_id : NodeId.t := NodeId.mk 0 9.

(** Two optimized submap poses for the first trajectory. *)
Definition two_optimized : list (list (@SubmapData world)) :=
  [[submap_at (translation 0 1 0); submap_at (translation 5 2 0)]].

Definition states_of (trajectory_id : nat) (g : SparsePoseGraph)
  : list SubmapState :=
  default [] (submap_states_ g !! trajectory_id).

End Histories.

(** * Properties *)

(** ** Reasoning about outcomes *)

Lemma bind_Ok {A B} (m : Outcome A) (k : A -> Outcome B) (b : B) :
  m ≫= k = Ok b <-> exists a, m = Ok a /\ k a = Ok b.
Proof.
  destruct m as [a|f]; simpl; split.
  - intros Hk. by exists a.
  - by intros (a' & [= <-] & Hk).
  - discriminate.
  - by intros (a' & [=] & _).
Qed.

Lemma CHECK_Ok (b : bool) (u : unit) : CHECK b = Ok u <-> b = true.
Proof. destruct b, u; simpl; split; congruence. Qed.

Lemma at_Ok {A} (v : list A) (i : nat) (a : A) :
  at_ v i = Ok a <-> v !! i = Some a.
Proof. unfold at_. destruct (v !! i); split; congruence. Qed.

Lemma index_Ok {A} (v : list A) (i : nat) (a : A) :
  index v i = Ok a <-> v !! i = Some a.
Proof. unfold index. destruct (v !! i); split; congruence. Qed.

Lemma at2_Ok {A} (v : list (list A)) (i j : nat) (a : A) :
  at2 v i j = Ok a <-> exists t, v !! i = Some t /\ t !! j = Some a.
Proof.
  unfold at2. rewrite bind_Ok. setoid_rewrite at_Ok. done.
Qed.

Lemma at_known {A} (v : list A) (i : nat) (a : A) :
  v !! i = Some a -> at_ v i = Ok a.
Proof. apply at_Ok. Qed.

Lemma at2_known {A} (v : list (list A)) (i j : nat) (t : list A) :
  v !! i = Some t -> at2 v i j = at_ t j.
Proof. intros Ht. unfold at2. by rewrite (at_known _ _ _ Ht). Qed.

Lemma back_Ok {A} (v : list A) (a : A) : back v = Ok a <-> last v = Some a.
Proof. unfold back. destruct (last v); split; congruence. Qed.

Lemma for_each_app {A S} (body : A -> S -> Outcome S) (l1 l2 : list A)
  (s : S) :
  for_each body (l1 ++ l2) s = for_each body l1 s ≫= for_each body l2.
Proof.
  revert s. induction l1 as [|a l1 IH]; intros s; simpl; [done|].
  destruct (body a s) as [s'|f]; simpl; [apply IH | done].
Qed.

(** A loop that establishes [P] turn by turn, and cannot stop early. *)
Lemma for_each_total {A S} (body : A -> S -> Outcome S)
  (P : list A -> S -> Prop) (l : list A) (s0 : S) :
  P [] s0 ->
  (forall done a rest s, l = done ++ a :: rest -> P done s ->
     exists s', body a s = Ok s' /\ P (done ++ [a]) s') ->
  exists s', for_each body l s0 = Ok s' /\ P l s'.
Proof.
  intros H0 Hstep.
  assert (forall rest done s, l = done ++ rest -> P done s ->
            exists s', for_each body rest s = Ok s' /\ P l s') as Hgen.
  { induction rest as [|a rest IH]; intros done s Hl HP.
    - exists s. rewrite app_nil_r in Hl. by subst.
    - destruct (Hstep done a rest s Hl HP) as (s' & Hb & HP').
      simpl. rewrite Hb. simpl.
      apply (IH (done ++ [a])); [by rewrite <- app_assoc | done]. }
  by apply (Hgen l []).
Qed.

(** The same for a loop that is known to have run to its end. *)
Lemma for_each_partial {A S} (body : A -> S -> Outcome S)
  (P : list A -> S -> Prop) (l : list A) (s0 s1 : S) :
  P [] s0 ->
  (forall done a rest s s', l = done ++ a :: rest -> P done s ->
     body a s = Ok s' -> P (done ++ [a]) s') ->
  for_each body l s0 = Ok s1 ->
  P l s1.
Proof.
  intros H0 Hstep.
  assert (forall rest done s, l = done ++ rest -> P done s ->
            for_each body rest s = Ok s1 -> P l s1) as Hgen.
  { induction rest as [|a rest IH]; intros done s Hl HP Hrun.
    - simpl in Hrun. rewrite app_nil_r in Hl. by simplify_eq.
    - simpl in Hrun. apply bind_Ok in Hrun as (s' & Hb & Hrun).
      apply (IH (done ++ [a]) s'); [by rewrite <- app_assoc | | done].
      by eapply Hstep. }
  by apply (Hgen l []).
Qed.

Lemma for_each_ext {A S} (f g : A -> S -> Outcome S) (l : list A) (s : S) :
  (forall a s, f a s = g a s) -> for_each f l s = for_each g l s.
Proof.
  intros Hfg. revert s. induction l as [|a l IH]; intros s; simpl; [done|].
  rewrite Hfg. destruct (g a s); simpl; [apply IH|done].
Qed.

(** Where a turn of a counting loop stands. *)
Lemma seq_middle (start len : nat) (done : list nat) (a : nat)
  (rest : list nat) :
  seq start len = done ++ a :: rest ->
  a = start + length done /\ start + length done < start + len.
Proof.
  intros Hsplit.
  assert (seq start len !! length done = Some a) as Hlookup
    by by rewrite Hsplit, list_lookup_middle.
  apply lookup_seq in Hlookup. lia.
Qed.


(** ** Only the loop of the callback counts its turns *)

Lemma within_fuel_bind {A B} (m : Outcome A) (k : A -> Outcome B) :
  within_fuel m -> (forall a, within_fuel (k a)) -> within_fuel (m ≫= k).
Proof.
  unfold within_fuel. intros Hm Hk. destruct m as [a|f]; simpl.
  - apply Hk.
  - intros [= ->]. by apply Hm.
Qed.

Lemma within_fuel_for_each {A S} (body : A -> S -> Outcome S) (l : list A)
  (s : S) :
  (forall a s, within_fuel (body a s)) -> within_fuel (for_each body l s).
Proof.
  intros Hbody. revert s. induction l as [|a l IH]; intros s; simpl.
  - done.
  - by apply within_fuel_bind.
Qed.

(** Takes a member function apart down to the calls that can stop it. *)
Ltac within_fuel :=
  repeat first
    [ progress intros
    | progress cbv beta zeta
    | apply within_fuel_bind
    | apply within_fuel_for_each
    | match goal with
      | |- within_fuel (Ok _) => discriminate
      | |- within_fuel (mret _) => discriminate
      | |- within_fuel (Abort _) => discriminate
      | |- within_fuel (CHECK ?b) => destruct b; discriminate
      | |- within_fuel (at_ ?v ?i) =>
          unfold at_; destruct (v !! i); discriminate
      | |- within_fuel (index ?v ?i) =>
          unfold index; destruct (v !! i); discriminate
      | |- within_fuel (back ?v) =>
          unfold back; destruct (last v); discriminate
      | |- within_fuel (front ?v) => destruct v; discriminate
      | |- within_fuel (map_at ?m ?k) =>
          unfold map_at; destruct (m !! k); discriminate
      | |- within_fuel (at2 _ _ _) => unfold at2
      | |- within_fuel (if ?b then _ else _) => destruct b
      | |- within_fuel (match ?x with _ => _ end) => destruct x
      | |- within_fuel (let '(_, _) := ?x in _) => destruct x
      | H : forall _, within_fuel _ |- _ => apply H
      end ].

Section Fuel.
Context `{External} `{!Solver}.
Local Open Scope rigid_scope.

Lemma GetSubmapId_within_fuel s g : within_fuel (GetSubmapId s g).
Proof. unfold GetSubmapId. within_fuel. Qed.

Lemma Get_within_fuel submaps i : within_fuel (Get submaps i).
Proof. unfold Get. within_fuel. Qed.

Lemma ExtrapolateSubmapTransforms_within_fuel transforms trajectory_id g :
  within_fuel (ExtrapolateSubmapTransforms transforms trajectory_id g).
Proof.
  unfold ExtrapolateSubmapTransforms, extrapolate_push. within_fuel.
Qed.

Lemma pulse_sampler_within_fuel trajectory_id g :
  within_fuel (pulse_sampler trajectory_id g).
Proof. unfold pulse_sampler. within_fuel. Qed.

Lemma ComputeConstraint_within_fuel scan_index submap_id g :
  within_fuel (ComputeConstraint scan_index submap_id g).
Proof.
  unfold ComputeConstraint. within_fuel; apply pulse_sampler_within_fuel.
Qed.

Lemma GrowSubmapTransformsAsNeeded_within_fuel insertion_submaps g :
  within_fuel (GrowSubmapTransformsAsNeeded insertion_submaps g).
Proof.
  unfold GrowSubmapTransformsAsNeeded. within_fuel;
    apply GetSubmapId_within_fuel.
Qed.

Lemma ComputeConstraintsForScan_within_fuel scan_index matching_submap
  insertion_submaps finished_submap pose covariance g :
  within_fuel
    (ComputeConstraintsForScan scan_index matching_submap insertion_submaps
       finished_submap pose covariance g).
Proof.
  unfold ComputeConstraintsForScan, add_intra_submap_constraint,
    match_against_finished_submaps, finish_submap,
    ComputeConstraintsForOldScans, end_of_scan.
  within_fuel;
    first [ apply GetSubmapId_within_fuel
          | apply GrowSubmapTransformsAsNeeded_within_fuel
          | apply ComputeConstraint_within_fuel
          | apply pulse_sampler_within_fuel ].
Qed.

Lemma run_work_item_within_fuel w g : within_fuel (run_work_item w g).
Proof.
  destruct w; simpl.
  - apply ComputeConstraintsForScan_within_fuel.
  - within_fuel.
Qed.

Lemma RunOptimization_within_fuel g : within_fuel (RunOptimization g).
Proof.
  unfold RunOptimization, copy_optimized_pose, extrapolate_later_pose,
    set_node_pose.
  within_fuel; apply ExtrapolateSubmapTransforms_within_fuel.
Qed.

Lemma run_buffered_within_fuel queue :
  forall g, within_fuel (run_buffered queue g).
Proof.
  induction queue as [|w queue IH]; intros g; simpl.
  - within_fuel.
  - destruct (run_loop_closure_ g); [discriminate|].
    apply within_fuel_bind; [apply run_work_item_within_fuel|].
    intros g'. apply IH.
Qed.

End Fuel.


(** ** Taking runs apart *)

Create HintDb setters.
#[global] Hint Unfold
  set_scan_queue_ set_num_scans_since_last_loop_closure_
  set_run_loop_closure_ set_optimization_problem_ set_constraint_builder_
  set_constraints_ set_submap_ids_ set_submap_states_
  set_connected_components_ set_reverse_connected_components_
  set_constant_node_data_ set_trajectory_nodes_
  set_trajectory_connectivity_ set_trajectory_ids_
  set_global_localization_samplers_ set_num_nodes_in_trajectory_
  set_scan_index_to_node_id_ set_optimized_submap_transforms_
  set_submap_data set_node_data set_imu_data set_node_pose builder_call
  builder_WhenDone builder_callback_taken HandleScanQueue
  : setters.

(** Unfolds every field update in sight. *)
Ltac setters := autounfold with setters in *; simpl in *.

Ltac outcome_inv :=
  repeat match goal with
  | H : Ok _ = Ok _ |- _ => injection H as H
  | H : Abort _ = Ok _ |- _ => discriminate H
  | H : mret _ = Ok _ |- _ => change (mret ?x) with (Ok x) in H
  | H : _ ≫= _ = Ok _ |- _ =>
      let a := fresh "a" in
      let Ha := fresh "Ha" in
      apply bind_Ok in H as (a & Ha & H)
  | H : CHECK _ = Ok _ |- _ => apply CHECK_Ok in H
  | H : at_ _ _ = Ok _ |- _ => apply at_Ok in H
  | H : index _ _ = Ok _ |- _ => apply index_Ok in H
  | H : (if ?b then _ else _) = Ok _ |- _ =>
      let Hb := fresh "Hb" in destruct b eqn:Hb
  | H : match ?x with _ => _ end = Ok _ |- _ =>
      let Hx := fresh "Hx" in destruct x eqn:Hx
  end.

(** A field update that leaves the protocol fields and the builder
    alone. *)
Ltac protocol_kept_by_fields :=
  repeat split; try done; exists []; by rewrite app_nil_r.

Section Frames.
Context `{External} `{!Solver}.
Local Open Scope rigid_scope.

Lemma same_but_matcher_refl g : same_but_matcher g g.
Proof. by destruct g. Qed.

Lemma same_but_matcher_trans g1 g2 g3 :
  same_but_matcher g1 g2 -> same_but_matcher g2 g3 ->
  same_but_matcher g1 g3.
Proof.
  intros [H12 W12] [H23 W23]. split; [|congruence].
  destruct g1, g2, g3. setters.
  injection H12; injection H23; intros; by subst.
Qed.

Lemma same_but_matcher_call g (c : BuilderCall) :
  same_but_matcher g (builder_call c g).
Proof. by destruct g. Qed.

Lemma pulse_sampler_frame trajectory_id g fired g' :
  pulse_sampler trajectory_id g = Ok (fired, g') ->
  same_but_matcher g g'
  /\ calls (constraint_builder_ g') = calls (constraint_builder_ g).
Proof.
  unfold pulse_sampler. intros Hrun.
  destruct (_ !! _); [|done]. destruct (Pulse _) as [fired' sampler'].
  injection Hrun as -> <-. by destruct g.
Qed.

Lemma ComputeConstraint_frame scan_index submap_id g g' :
  ComputeConstraint scan_index submap_id g = Ok g' ->
  same_but_matcher g g'
  /\ exists extra,
       calls (constraint_builder_ g')
       = calls (constraint_builder_ g) ++ extra
       /\ Forall is_proposal extra.
Proof.
  unfold ComputeConstraint. intros Hrun.
  apply bind_Ok in Hrun as (node_id & _ & Hrun).
  apply bind_Ok in Hrun as (submap_entry & _ & Hrun).
  apply bind_Ok in Hrun as (node_entry & _ & Hrun).
  apply bind_Ok in Hrun as (node & _ & Hrun).
  apply bind_Ok in Hrun as ([global g1] & Hpulse & Hrun).
  assert (same_but_matcher g g1
          /\ calls (constraint_builder_ g1) = calls (constraint_builder_ g))
    as [Hsame Hcalls].
  { destruct (negb _).
    - by apply pulse_sampler_frame in Hpulse.
    - injection Hpulse as _ <-. split; [apply same_but_matcher_refl|done]. }
  destruct global.
  - apply bind_Ok in Hrun as (state & _ & [= <-]). split.
    + eapply same_but_matcher_trans; [done|apply same_but_matcher_call].
    + eexists [_]. simpl. rewrite Hcalls. split; [done|]. by constructor.
  - destruct (_ || _).
    + apply bind_Ok in Hrun as (state & _ & [= <-]). split.
      * eapply same_but_matcher_trans; [done|apply same_but_matcher_call].
      * eexists [_]. simpl. rewrite Hcalls. split; [done|]. by constructor.
    + injection Hrun as <-. split; [done|].
      exists []. by rewrite app_nil_r.
Qed.

Lemma protocol_kept_refl g : protocol_kept g g.
Proof.
  repeat split. exists []. by rewrite app_nil_r.
Qed.

Lemma protocol_kept_trans g1 g2 g3 :
  protocol_kept g1 g2 -> protocol_kept g2 g3 -> protocol_kept g1 g3.
Proof.
  intros (? & ? & ? & ? & ? & e12 & Hc12 & Hp12)
         (? & ? & ? & ? & ? & e23 & Hc23 & Hp23).
  repeat split; try congruence.
  exists (e12 ++ e23). rewrite Hc23, Hc12, app_assoc.
  split; [done|]. by apply Forall_app.
Qed.

Lemma same_but_matcher_protocol g g' extra :
  same_but_matcher g g' ->
  calls (constraint_builder_ g') = calls (constraint_builder_ g) ++ extra ->
  Forall is_proposal extra ->
  protocol_kept g g'.
Proof.
  intros [Hsame Hdone] Hcalls Hextra.
  repeat split; try done; [..|by exists extra].
  - by apply (f_equal options_) in Hsame.
  - by apply (f_equal scan_queue_) in Hsame.
  - by apply (f_equal num_scans_since_last_loop_closure_) in Hsame.
  - by apply (f_equal run_loop_closure_) in Hsame.
Qed.

Lemma ComputeConstraint_protocol scan_index submap_id g g' :
  ComputeConstraint scan_index submap_id g = Ok g' -> protocol_kept g g'.
Proof.
  intros Hrun.
  apply ComputeConstraint_frame in Hrun as (Hsame & extra & Hcalls & Hextra).
  by eapply same_but_matcher_protocol.
Qed.

(** A loop keeps what each of its turns keeps. *)
Lemma for_each_kept {A} (R : relation SparsePoseGraph)
  (body : A -> SparsePoseGraph -> Outcome SparsePoseGraph) l g g' :
  Reflexive R -> Transitive R ->
  (forall a g g', body a g = Ok g' -> R g g') ->
  for_each body l g = Ok g' -> R g g'.
Proof.
  intros Hrefl Htrans Hbody.
  apply (for_each_partial body (fun _ s => R g s)); [done|].
  intros done a rest s s' _ Hs Hrun. etrans; [done|]. by eapply Hbody.
Qed.

#[global] Instance protocol_kept_reflexive : Reflexive protocol_kept.
Proof. intros g. apply protocol_kept_refl. Qed.

#[global] Instance protocol_kept_transitive : Transitive protocol_kept.
Proof. intros g1 g2 g3. apply protocol_kept_trans. Qed.

#[global] Instance same_but_matcher_reflexive : Reflexive same_but_matcher.
Proof. intros g. apply same_but_matcher_refl. Qed.

#[global] Instance same_but_matcher_transitive :
  Transitive same_but_matcher.
Proof. intros g1 g2 g3. apply same_but_matcher_trans. Qed.

Lemma GrowSubmapTransformsAsNeeded_frame insertion_submaps g g' :
  GrowSubmapTransformsAsNeeded insertion_submaps g = Ok g' ->
  exists data,
    g' = set_optimization_problem_
           (set_submap_data data (optimization_problem_ g)) g.
Proof.
  assert (g = set_optimization_problem_
                (set_submap_data (submap_data (optimization_problem_ g))
                   (optimization_problem_ g)) g) as Hsame.
  { destruct g as [? ? ? ? [] ? ? ? ? ? ? ? ? ? ? ? ? ? ?]. done. }
  unfold GrowSubmapTransformsAsNeeded. intros Hrun.
  outcome_inv; subst; eauto.
Qed.

Lemma GrowSubmapTransformsAsNeeded_protocol insertion_submaps g g' :
  GrowSubmapTransformsAsNeeded insertion_submaps g = Ok g' ->
  protocol_kept g g'.
Proof.
  intros Hrun.
  apply GrowSubmapTransformsAsNeeded_frame in Hrun as (data & ->).
  protocol_kept_by_fields.
Qed.

Lemma add_intra_submap_constraint_protocol node_id pose covariance s g g' :
  add_intra_submap_constraint node_id pose covariance s g = Ok g' ->
  protocol_kept g g'.
Proof.
  unfold add_intra_submap_constraint. intros Hrun.
  outcome_inv; subst. protocol_kept_by_fields.
Qed.

Lemma match_against_finished_submaps_protocol scan_index node_id g g' :
  match_against_finished_submaps scan_index node_id g = Ok g' ->
  protocol_kept g g'.
Proof.
  unfold match_against_finished_submaps.
  apply for_each_kept; try apply _.
  intros trajectory_id g1 g2 Hrun. outcome_inv.
  revert Hrun. apply for_each_kept; try apply _.
  intros submap_index g3 g4 Hrun. outcome_inv; subst.
  - by eapply ComputeConstraint_protocol.
  - done.
Qed.

Lemma ComputeConstraintsForOldScans_protocol s g g' :
  ComputeConstraintsForOldScans s g = Ok g' -> protocol_kept g g'.
Proof.
  unfold ComputeConstraintsForOldScans. intros Hrun. outcome_inv.
  revert Hrun. apply for_each_kept; try apply _.
  intros scan_index g1 g2 Hrun. outcome_inv; subst.
  - done.
  - by eapply ComputeConstraint_protocol.
Qed.

Lemma finish_submap_protocol finished_submap g g' :
  finish_submap finished_submap g = Ok g' -> protocol_kept g g'.
Proof.
  unfold finish_submap. intros Hrun. outcome_inv; subst; [|done].
  etrans; [by eapply ComputeConstraintsForOldScans_protocol|].
  protocol_kept_by_fields.
Qed.

Lemma set_node_pose_protocol i pose g g' :
  set_node_pose i pose g = Ok g' -> protocol_kept g g'.
Proof.
  unfold set_node_pose. intros Hrun. outcome_inv; subst.
  protocol_kept_by_fields.
Qed.

Lemma copy_optimized_pose_protocol i g g' :
  copy_optimized_pose i g = Ok g' -> protocol_kept g g'.
Proof.
  unfold copy_optimized_pose. intros Hrun. outcome_inv.
  by eapply set_node_pose_protocol.
Qed.

Lemma extrapolate_later_pose_protocol i cache g cache' g' :
  extrapolate_later_pose i (cache, g) = Ok (cache', g') ->
  protocol_kept g g'.
Proof.
  unfold extrapolate_later_pose. intros Hrun.
  apply bind_Ok in Hrun as (node & _ & Hrun).
  apply bind_Ok in Hrun as (cache1 & _ & Hrun).
  apply bind_Ok in Hrun as (g1 & Hset & [= _ <-]).
  by eapply set_node_pose_protocol.
Qed.

Lemma RunOptimization_protocol g g' :
  RunOptimization g = Ok g' -> protocol_kept g g'.
Proof.
  unfold RunOptimization. intros Hrun.
  destruct (empty _); [by injection Hrun as <-|].
  apply bind_Ok in Hrun as (g1 & Hcopy & Hrun).
  apply bind_Ok in Hrun as ([cache g2] & Hlater & [= <-]).
  assert (protocol_kept g g1) as H1.
  { apply (for_each_kept protocol_kept) in Hcopy;
      [|apply _|apply _|apply copy_optimized_pose_protocol].
    etrans; [|done]. protocol_kept_by_fields. }
  assert (protocol_kept g1 g2) as H2.
  { apply (for_each_partial extrapolate_later_pose
             (fun _ acc => protocol_kept g1 acc.2)) in Hlater;
      [done|apply protocol_kept_refl|].
    intros done i rest [c s] [c' s'] _ Hs Hstep. simpl in *.
    etrans; [done|]. by eapply extrapolate_later_pose_protocol. }
  etrans; [done|]. etrans; [done|]. protocol_kept_by_fields.
Qed.

(** Everything [ComputeConstraintsForScan] does before the end-of-scan
    barrier keeps the protocol. *)
Lemma ComputeConstraintsForScan_then_end_of_scan scan_index matching_submap
  insertion_submaps finished_submap pose covariance g g' :
  ComputeConstraintsForScan scan_index matching_submap insertion_submaps
    finished_submap pose covariance g = Ok g' ->
  exists g1, protocol_kept g g1 /\ end_of_scan scan_index g1 = Ok g'.
Proof.
  unfold ComputeConstraintsForScan. intros Hrun.
  apply bind_Ok in Hrun as (g1 & Hgrow & Hrun).
  apply bind_Ok in Hrun as (matching_id & _ & Hrun).
  apply bind_Ok in Hrun as (matching_entry & _ & Hrun).
  apply bind_Ok in Hrun as (? & _ & Hrun).
  apply bind_Ok in Hrun as (node & _ & Hrun).
  apply bind_Ok in Hrun as (? & _ & Hrun).
  apply bind_Ok in Hrun as (g3 & Hintra & Hrun).
  apply bind_Ok in Hrun as (g4 & Hmatch & Hrun).
  apply bind_Ok in Hrun as (g5 & Hfinish & Hrun).
  exists g5. split; [|done].
  etrans; [by eapply GrowSubmapTransformsAsNeeded_protocol|].
  etrans; [|by eapply finish_submap_protocol].
  etrans; [|by eapply match_against_finished_submaps_protocol].
  apply (for_each_kept protocol_kept) in Hintra;
    [|apply _|apply _|apply add_intra_submap_constraint_protocol].
  etrans; [|done]. protocol_kept_by_fields.
Qed.

(** What the end-of-scan barrier does to the protocol. *)
Lemma end_of_scan_Ok scan_index g g' :
  end_of_scan scan_index g = Ok g' ->
  options_ g' = options_ g
  /\ num_scans_since_last_loop_closure_ g'
     = (num_scans_since_last_loop_closure_ g + 1)%Z
  /\ if (0 <? optimize_every_n_scans (options_ g))%Z
        && (optimize_every_n_scans (options_ g)
            <? num_scans_since_last_loop_closure_ g + 1)%Z
     then run_loop_closure_ g = false
          /\ run_loop_closure_ g' = true
          /\ match scan_queue_ g with
             | None =>
                 scan_queue_ g' = Some []
                 /\ when_done (constraint_builder_ g')
                    = Some HandleScanQueue_callback
                 /\ calls (constraint_builder_ g')
                    = calls (constraint_builder_ g)
                      ++ [NotifyEndOfScan scan_index;
                          WhenDone HandleScanQueue_callback]
             | Some queue =>
                 scan_queue_ g' = Some queue
                 /\ when_done (constraint_builder_ g')
                    = when_done (constraint_builder_ g)
                 /\ calls (constraint_builder_ g')
                    = calls (constraint_builder_ g)
                      ++ [NotifyEndOfScan scan_index]
             end
     else run_loop_closure_ g' = run_loop_closure_ g
          /\ scan_queue_ g' = scan_queue_ g
          /\ when_done (constraint_builder_ g')
             = when_done (constraint_builder_ g)
          /\ calls (constraint_builder_ g')
             = calls (constraint_builder_ g)
               ++ [NotifyEndOfScan scan_index].
Proof.
  unfold end_of_scan. setters. intros Hrun.
  destruct (_ && _).
  - apply bind_Ok in Hrun as (? & Hcheck & Hrun).
    apply CHECK_Ok, negb_true_iff in Hcheck.
    destruct (scan_queue_ g) as [queue|]; injection Hrun as <-; simpl;
      rewrite <- ?app_assoc; done.
  - by injection Hrun as <-.
Qed.

Lemma set_scan_queue_same queue g :
  scan_queue_ g = Some queue -> set_scan_queue_ (Some queue) g = g.
Proof. destruct g. simpl. by intros ->. Qed.

(** A work item that runs while the queue exists leaves the queue as it
    is. *)
Lemma run_work_item_queue w queue g g' :
  scan_queue_ g = Some queue ->
  run_work_item w g = Ok g' ->
  scan_queue_ g' = Some queue.
Proof.
  intros Hqueue Hrun. destruct w; simpl in Hrun.
  - apply ComputeConstraintsForScan_then_end_of_scan in Hrun
      as (g1 & (_ & Hq & _) & Hend).
    apply end_of_scan_Ok in Hend as (_ & _ & Hend).
    rewrite Hq, Hqueue in Hend.
    destruct (_ && _); [by destruct Hend as (_ & _ & ? & _)|].
    by destruct Hend as (_ & -> & _).
  - outcome_inv; by subst.
Qed.

(** The loop of the callback is [run_buffered], and it never runs out of
    turns. *)
Lemma drain_scan_queue_run_buffered queue :
  forall fuel g,
    scan_queue_ g = Some queue ->
    length queue < fuel ->
    drain_scan_queue fuel g = run_buffered queue g.
Proof.
  induction queue as [|w queue IH]; intros [|fuel] g Hqueue Hfuel;
    try (simpl in Hfuel; lia); simpl.
  - rewrite Hqueue. done.
  - rewrite Hqueue. destruct (run_loop_closure_ g); [done|].
    destruct (run_work_item w g) as [g1|] eqn:Hrun; [|done]. simpl.
    rewrite (run_work_item_queue _ _ _ _ Hqueue Hrun).
    apply IH; [done|]. simpl in Hfuel. lia.
Qed.

(** *** Views that a member function cannot change *)

Lemma same_but_matcher_view {A} (view : SparsePoseGraph -> A) g g' :
  ignores view set_global_localization_samplers_ ->
  ignores view set_constraint_builder_ ->
  same_but_matcher g g' ->
  view g' = view g.
Proof.
  intros Hs Hb [Hsame _]. by rewrite <- Hsame, Hs, Hb.
Qed.

Lemma ComputeConstraint_same_but_matcher scan_index submap_id g g' :
  ComputeConstraint scan_index submap_id g = Ok g' -> same_but_matcher g g'.
Proof. intros Hrun. by apply ComputeConstraint_frame in Hrun as [? _]. Qed.

Lemma match_against_finished_submaps_same_but_matcher scan_index node_id
  g g' :
  match_against_finished_submaps scan_index node_id g = Ok g' ->
  same_but_matcher g g'.
Proof.
  unfold match_against_finished_submaps.
  apply for_each_kept; try apply _.
  intros trajectory_id g1 g2 Hrun. outcome_inv.
  revert Hrun. apply for_each_kept; try apply _.
  intros submap_index g3 g4 Hrun. outcome_inv; subst.
  - by eapply ComputeConstraint_same_but_matcher.
  - done.
Qed.

Lemma ComputeConstraintsForOldScans_same_but_matcher s g g' :
  ComputeConstraintsForOldScans s g = Ok g' -> same_but_matcher g g'.
Proof.
  unfold ComputeConstraintsForOldScans. intros Hrun. outcome_inv.
  revert Hrun. apply for_each_kept; try apply _.
  intros scan_index g1 g2 Hrun. outcome_inv; subst.
  - done.
  - by eapply ComputeConstraint_same_but_matcher.
Qed.

Lemma GrowSubmapTransformsAsNeeded_view {A}
  (view : SparsePoseGraph -> A) insertion_submaps g g' :
  ignores view set_optimization_problem_ ->
  GrowSubmapTransformsAsNeeded insertion_submaps g = Ok g' ->
  view g' = view g.
Proof.
  intros Hop Hrun.
  apply GrowSubmapTransformsAsNeeded_frame in Hrun as (data & ->).
  apply Hop.
Qed.

Lemma add_intra_submap_constraint_view {A} (view : SparsePoseGraph -> A)
  node_id pose covariance s g g' :
  ignores view set_submap_states_ ->
  ignores view set_constraints_ ->
  add_intra_submap_constraint node_id pose covariance s g = Ok g' ->
  view g' = view g.
Proof.
  unfold add_intra_submap_constraint. intros Hs Hc Hrun.
  outcome_inv; subst. by rewrite Hc, Hs.
Qed.

Lemma for_each_view {A B} (view : SparsePoseGraph -> A)
  (body : B -> SparsePoseGraph -> Outcome SparsePoseGraph) l g g' :
  (forall b g g', body b g = Ok g' -> view g' = view g) ->
  for_each body l g = Ok g' ->
  view g' = view g.
Proof.
  intros Hbody.
  apply (for_each_partial body (fun _ s => view s = view g)); [done|].
  intros done a rest s s' _ Hs Hrun. rewrite <- Hs. by eapply Hbody.
Qed.

Lemma finish_submap_view {A} (view : SparsePoseGraph -> A)
  finished_submap g g' :
  ignores view set_global_localization_samplers_ ->
  ignores view set_constraint_builder_ ->
  ignores view set_submap_states_ ->
  finish_submap finished_submap g = Ok g' ->
  view g' = view g.
Proof.
  unfold finish_submap. intros Hs Hb Hst Hrun.
  outcome_inv; subst; [|done]. rewrite Hst.
  eapply same_but_matcher_view; [done..|].
  by eapply ComputeConstraintsForOldScans_same_but_matcher.
Qed.

Lemma end_of_scan_view {A} (view : SparsePoseGraph -> A)
  scan_index g g' :
  ignores view set_constraint_builder_ ->
  ignores view set_num_scans_since_last_loop_closure_ ->
  ignores view set_run_loop_closure_ ->
  ignores view set_scan_queue_ ->
  end_of_scan scan_index g = Ok g' ->
  view g' = view g.
Proof.
  unfold end_of_scan, HandleScanQueue, builder_WhenDone, builder_call.
  intros Hb Hn Hf Hq Hrun.
  outcome_inv; subst; by rewrite ?Hb, ?Hq, ?Hf, ?Hn, ?Hb.
Qed.

Lemma set_node_pose_view {A} (view : SparsePoseGraph -> A) i pose g g' :
  ignores view set_trajectory_nodes_ ->
  set_node_pose i pose g = Ok g' ->
  view g' = view g.
Proof.
  unfold set_node_pose. intros Hn Hrun. outcome_inv; subst. apply Hn.
Qed.

Lemma RunOptimization_view {A} (view : SparsePoseGraph -> A) g g' :
  ignores view set_optimization_problem_ ->
  ignores view set_trajectory_nodes_ ->
  ignores view set_optimized_submap_transforms_ ->
  ignores view set_connected_components_ ->
  ignores view set_reverse_connected_components_ ->
  RunOptimization g = Ok g' ->
  view g' = view g.
Proof.
  unfold RunOptimization. intros Hop Hn Ht Hc Hr Hrun.
  destruct (empty _); [by injection Hrun as <-|].
  apply bind_Ok in Hrun as (g1 & Hcopy & Hrun).
  apply bind_Ok in Hrun as ([cache g2] & Hlater & [= <-]).
  rewrite Hr, Hc, Ht.
  apply (for_each_partial extrapolate_later_pose
           (fun _ acc => view acc.2 = view g1)) in Hlater; [|done|].
  - simpl in Hlater. rewrite Hlater.
    apply (for_each_view view) in Hcopy; [by rewrite Hcopy, Hop|].
    intros i s s' Hstep. unfold copy_optimized_pose in Hstep.
    outcome_inv. by eapply set_node_pose_view.
  - intros done i rest [c s] [c' s'] _ Hs Hstep. simpl in *.
    rewrite <- Hs. unfold extrapolate_later_pose in Hstep.
    apply bind_Ok in Hstep as (node & _ & Hstep).
    apply bind_Ok in Hstep as (cache1 & _ & Hstep).
    apply bind_Ok in Hstep as (s1 & Hset & [= _ <-]).
    by eapply set_node_pose_view.
Qed.

End Frames.


(** ** Submap states *)

Lemma at2_lookup2 {A} (v : list (list A)) (i j : nat) (a : A) :
  at2 v i j = Ok a <-> lookup2 v i j = Some a.
Proof.
  rewrite at2_Ok. unfold lookup2. destruct (v !! i) as [t|]; simpl.
  - split; [by intros (? & [= <-] & ?)|eauto].
  - split; [by intros (? & [=] & _)|done].
Qed.

Lemma lookup2_alter2 {A} (f : A -> A) (i j i' j' : nat)
  (v : list (list A)) :
  lookup2 (alter2 f i j v) i' j'
  = if decide (i = i' /\ j = j') then f <$> lookup2 v i j
    else lookup2 v i' j'.
Proof.
  unfold lookup2, alter2.
  destruct (decide (i = i')) as [<-|Hi].
  - rewrite list_lookup_alter_eq. destruct (v !! i) as [t|]; simpl.
    + destruct (decide (j = j')) as [<-|Hj].
      * rewrite list_lookup_alter_eq. by rewrite decide_True.
      * rewrite list_lookup_alter_ne by done.
        rewrite decide_False; [done|by intros [_ ?]].
    + by destruct (decide _).
  - rewrite list_lookup_alter_ne by done.
    rewrite decide_False; [done|by intros [? _]].
Qed.

Lemma lookup_resize_to {A} (n : nat) (d : A) (v : list A) (i : nat) :
  length v <= n ->
  i < length v -> resize_to n d v !! i = v !! i.
Proof.
  intros Hn Hi. unfold resize_to.
  rewrite take_ge by done. by rewrite lookup_app_l.
Qed.

Lemma lookup2_push_back {A} (trajectory_id : nat) (x : A)
  (v : list (list A)) (i j : nat) (a : A) :
  lookup2 v i j = Some a ->
  lookup2 (alter (fun t => t ++ [x]) trajectory_id
             (resize_to (max (length v) (trajectory_id + 1)) [] v)) i j
  = Some a.
Proof.
  unfold lookup2. intros Ha.
  destruct (v !! i) as [t|] eqn:Ht; [|done]. simpl in Ha.
  assert (resize_to (max (length v) (trajectory_id + 1)) [] v !! i = Some t)
    as Hresized.
  { rewrite lookup_resize_to; [done|lia|by eapply lookup_lt_Some]. }
  destruct (decide (trajectory_id = i)) as [->|Hne].
  - rewrite list_lookup_alter_eq, Hresized. simpl.
    rewrite lookup_app_l; [done|by eapply lookup_lt_Some].
  - by rewrite list_lookup_alter_ne, Hresized.
Qed.

Section States.
Context `{External} `{!Solver}.
Local Open Scope rigid_scope.

Lemma states_grow_refl v : states_grow v v.
Proof. intros i j state Hs. by exists state. Qed.

Lemma states_grow_trans v1 v2 v3 :
  states_grow v1 v2 -> states_grow v2 v3 -> states_grow v1 v3.
Proof.
  intros H12 H23 i j s1 Hs1.
  destruct (H12 _ _ _ Hs1) as (s2 & Hs2 & Hsub12).
  destruct (H23 _ _ _ Hs2) as (s3 & Hs3 & Hsub23).
  exists s3. split; [done|]. set_solver.
Qed.

Lemma states_grow_alter2 (f : SubmapState -> SubmapState) i j v :
  (forall state, node_ids state ⊆ node_ids (f state)) ->
  states_grow v (alter2 f i j v).
Proof.
  intros Hf i' j' state Hs. rewrite lookup2_alter2.
  destruct (decide _) as [[<- <-]|_].
  - rewrite Hs. simpl. eauto.
  - by exists state.
Qed.

Lemma inserted_grow c g g' :
  states_grow (submap_states_ g) (submap_states_ g') ->
  inserted c g -> inserted c g'.
Proof.
  intros Hgrow Hc Htag. destruct (Hc Htag) as (state & Hs & Hin).
  destruct (Hgrow _ _ _ Hs) as (state' & Hs' & Hsub).
  exists state'. split; [done|]. set_solver.
Qed.

Lemma grows_refl g : grows g g.
Proof.
  split; [apply states_grow_refl|]. exists []. by rewrite app_nil_r.
Qed.

Lemma grows_trans g1 g2 g3 : grows g1 g2 -> grows g2 g3 -> grows g1 g3.
Proof.
  intros [Hs12 (n12 & Hc12 & Hn12)] [Hs23 (n23 & Hc23 & Hn23)]. split.
  - by eapply states_grow_trans.
  - exists (n12 ++ n23). rewrite Hc23, Hc12, app_assoc. split; [done|].
    apply Forall_app. split; [|done].
    eapply Forall_impl; [done|]. intros c. by apply inserted_grow.
Qed.

#[global] Instance grows_reflexive : Reflexive grows.
Proof. intros g. apply grows_refl. Qed.

#[global] Instance grows_transitive : Transitive grows.
Proof. intros g1 g2 g3. apply grows_trans. Qed.

(** Nothing grows when both fields are as before. *)
Lemma grows_same g g' :
  submap_states_ g' = submap_states_ g ->
  constraints_ g' = constraints_ g ->
  grows g g'.
Proof.
  intros Hs Hc. split; [rewrite Hs; apply states_grow_refl|].
  exists []. by rewrite app_nil_r.
Qed.

End States.


(** ** The per-scan computation, phase by phase *)

Section Scan.
Context `{External} `{!Solver}.
Local Open Scope rigid_scope.

Lemma GetSubmapId_Ok s g id :
  GetSubmapId s g = Ok id <-> submap_ids_ g !! Submap_ptr s = Some id.
Proof.
  unfold GetSubmapId. destruct (_ !! _); split; congruence.
Qed.

Lemma only_inserted_refl v : only_inserted v v.
Proof. intros i j. by destruct (lookup2 v i j). Qed.

Lemma only_inserted_trans v1 v2 v3 :
  only_inserted v1 v2 -> only_inserted v2 v3 -> only_inserted v1 v3.
Proof.
  intros H12 H23 i j. specialize (H12 i j). specialize (H23 i j).
  destruct (lookup2 v1 i j), (lookup2 v2 i j), (lookup2 v3 i j);
    try done.
  destruct H12 as (? & ? & ?), H23 as (? & ? & ?).
  repeat split; [congruence..|set_solver].
Qed.

Lemma only_inserted_alter2 n i j v :
  only_inserted v (alter2 (insert_node_id n) i j v).
Proof.
  intros i' j'. rewrite lookup2_alter2.
  destruct (decide _) as [[<- <-]|_].
  - destruct (lookup2 v i j); simpl; [|done].
    repeat split. set_solver.
  - by destruct (lookup2 v i' j').
Qed.

Lemma only_inserted_grow v v' : only_inserted v v' -> states_grow v v'.
Proof.
  intros Hins i j state Hs. specialize (Hins i j). rewrite Hs in Hins.
  destruct (lookup2 v' i j) as [state'|]; [|done].
  exists state'. by destruct Hins as (_ & _ & ?).
Qed.

Lemma add_intra_submap_constraint_Ok n pose covariance s g g' :
  add_intra_submap_constraint n pose covariance s g = Ok g' ->
  exists id state,
    submap_ids_ g !! Submap_ptr s = Some id
    /\ state_of id g = Some state
    /\ finished state = false
    /\ g' = set_constraints_
              (constraints_ g
               ++ [intra_submap_constraint n pose covariance g s id])
              (set_submap_states_
                 (alter2 (insert_node_id n) (SubmapId.trajectory_id id)
                    (SubmapId.submap_index id) (submap_states_ g)) g).
Proof.
  unfold add_intra_submap_constraint. intros Hrun.
  apply bind_Ok in Hrun as (id & Hid & Hrun).
  apply bind_Ok in Hrun as (state & Hstate & Hrun).
  apply bind_Ok in Hrun as (? & Hcheck & [= <-]).
  exists id, state. apply GetSubmapId_Ok in Hid.
  apply at2_lookup2 in Hstate. apply CHECK_Ok, negb_true_iff in Hcheck.
  done.
Qed.

(** The loop over the insertion submaps. *)
Lemma intra_submap_loop_Ok n pose covariance insertion_submaps g g' :
  for_each (add_intra_submap_constraint n pose covariance)
    insertion_submaps g = Ok g' ->
  exists ids,
    Forall2 (fun s id => submap_ids_ g !! Submap_ptr s = Some id)
      insertion_submaps ids
    /\ constraints_ g'
       = constraints_ g
         ++ zip_with (intra_submap_constraint n pose covariance g)
              insertion_submaps ids
    /\ Forall (fun id => exists state,
                 state_of id g = Some state /\ finished state = false) ids
    /\ Forall (fun id => exists state,
                 state_of id g' = Some state /\ n ∈ node_ids state) ids
    /\ only_inserted (submap_states_ g) (submap_states_ g')
    /\ g' = set_constraints_ (constraints_ g')
              (set_submap_states_ (submap_states_ g') g).
Proof.
  intros Hrun.
  apply (for_each_partial _
    (fun done s =>
       exists ids,
         Forall2 (fun s id => submap_ids_ g !! Submap_ptr s = Some id)
           done ids
         /\ constraints_ s
            = constraints_ g
              ++ zip_with (intra_submap_constraint n pose covariance g)
                   done ids
         /\ Forall (fun id => exists state,
                      state_of id g = Some state
                      /\ finished state = false) ids
         /\ Forall (fun id => exists state,
                      state_of id s = Some state /\ n ∈ node_ids state) ids
         /\ only_inserted (submap_states_ g) (submap_states_ s)
         /\ s = set_constraints_ (constraints_ s)
                  (set_submap_states_ (submap_states_ s) g)))
    in Hrun; [done| |].
  - exists []. repeat split; try done.
    + by rewrite app_nil_r.
    + apply only_inserted_refl.
    + by destruct g.
  - clear Hrun g'.
    intros done s rest g1 g2 _ (ids & Hids & Hcs & Hunf & Hin & Hins & Hg1)
      Hstep.
    apply add_intra_submap_constraint_Ok in Hstep
      as (id & state & Hid & Hstate & Hunfinished & ->).
    assert (submap_ids_ g1 = submap_ids_ g) as Hsame_ids
      by by rewrite Hg1.
    assert (options_ g1 = options_ g) as Hsame_options by by rewrite Hg1.
    rewrite Hsame_ids in Hid.
    pose proof (only_inserted_alter2 n (SubmapId.trajectory_id id)
                  (SubmapId.submap_index id) (submap_states_ g1)) as Hstep.
    exists (ids ++ [id]). repeat split.
    + apply Forall2_app; [done|]. by repeat constructor.
    + simpl. rewrite Hcs, <- app_assoc. f_equal.
      rewrite zip_with_app by by eapply Forall2_length.
      simpl. unfold intra_submap_constraint. by rewrite Hsame_options.
    + apply Forall_app. split; [done|]. repeat constructor.
      specialize (Hins (SubmapId.trajectory_id id)
                       (SubmapId.submap_index id)).
      unfold state_of in *. rewrite Hstate in Hins.
      destruct (lookup2 (submap_states_ g) _ _) as [state0|]; [|done].
      exists state0. destruct Hins as (_ & Hf & _). split; [done|].
      congruence.
    + apply Forall_app. split.
      * eapply Forall_impl; [done|]. intros id' (state' & Hs' & Hn).
        destruct (only_inserted_grow _ _ Hstep _ _ _ Hs')
          as (state'' & Hs'' & Hsub).
        exists state''. split; [done|]. set_solver.
      * repeat constructor. unfold state_of. simpl.
        rewrite lookup2_alter2, decide_True by done.
        unfold state_of in Hstate. rewrite Hstate. simpl.
        eexists. split; [done|]. simpl. set_solver.
    + simpl. by eapply only_inserted_trans.
    + clear -Hg1. setters. f_equal; try done; by rewrite Hg1.
Qed.

Lemma finish_submap_Ok s g g' :
  finish_submap (Some s) g = Ok g' ->
  exists id state g1,
    submap_ids_ g !! Submap_ptr s = Some id
    /\ state_of id g = Some state
    /\ finished state = false
    /\ ComputeConstraintsForOldScans s g = Ok g1
    /\ g' = set_submap_states_
              (alter2 mark_finished (SubmapId.trajectory_id id)
                 (SubmapId.submap_index id) (submap_states_ g1)) g1.
Proof.
  unfold finish_submap. intros Hrun.
  apply bind_Ok in Hrun as (id & Hid & Hrun).
  apply bind_Ok in Hrun as (state & Hstate & Hrun).
  apply bind_Ok in Hrun as (? & Hcheck & Hrun).
  apply bind_Ok in Hrun as (g1 & Hold & [= <-]).
  exists id, state, g1. apply GetSubmapId_Ok in Hid.
  apply at2_lookup2 in Hstate. apply CHECK_Ok, negb_true_iff in Hcheck.
  done.
Qed.

(** [ComputeConstraintsForOldScans] is the decision, run in scan order
    on the scans that are not in the submap. *)
Lemma ComputeConstraintsForOldScans_filter s id state g :
  submap_ids_ g !! Submap_ptr s = Some id ->
  state_of id g = Some state ->
  ComputeConstraintsForOldScans s g
  = for_each (fun scan_index => ComputeConstraint scan_index id)
      (List.filter (old_scan state (scan_index_to_node_id_ g))
         (seq 0 (length (scan_index_to_node_id_ g)))) g.
Proof.
  intros Hid Hstate. unfold ComputeConstraintsForOldScans.
  apply GetSubmapId_Ok in Hid. rewrite Hid. simpl.
  pose proof Hstate as Hat. apply at2_lookup2 in Hat. rewrite Hat. simpl.
  assert (forall l g1,
            submap_states_ g1 = submap_states_ g ->
            scan_index_to_node_id_ g1 = scan_index_to_node_id_ g ->
            Forall (fun i => i < length (scan_index_to_node_id_ g)) l ->
            for_each
              (fun scan_index g =>
                 submap_state ← at2 (submap_states_ g)
                                    (SubmapId.trajectory_id id)
                                    (SubmapId.submap_index id);
                 node_id ← index (scan_index_to_node_id_ g) scan_index;
                 if bool_decide (node_id ∈ node_ids submap_state)
                 then mret g
                 else ComputeConstraint scan_index id g) l g1
            = for_each (fun scan_index => ComputeConstraint scan_index id)
                (List.filter (old_scan state (scan_index_to_node_id_ g)) l)
                g1) as Hloop.
  { induction l as [|i l IH]; intros g1 Hs Hn Hl; [done|].
    apply Forall_cons in Hl as [Hi Hl]. simpl.
    rewrite Hs, Hat, Hn. simpl.
    destruct (lookup_lt_is_Some_2 _ _ Hi) as [n Hlookup].
    unfold index, old_scan. rewrite Hlookup. simpl.
    destruct (decide (n ∈ node_ids state)) as [Hin|Hout].
    - rewrite bool_decide_true by done.
      rewrite (bool_decide_false (n ∉ node_ids state)) by tauto.
      simpl. by apply IH.
    - rewrite bool_decide_false by done.
      rewrite (bool_decide_true (n ∉ node_ids state)) by done.
      simpl. destruct (ComputeConstraint i id g1) as [g2|] eqn:Hrun;
        [|done].
      simpl. apply ComputeConstraint_same_but_matcher in Hrun.
      apply IH; [| |done].
      + rewrite <- Hs.
        by apply (same_but_matcher_view submap_states_).
      + rewrite <- Hn.
        by apply (same_but_matcher_view scan_index_to_node_id_). }
  apply Hloop; [done..|].
  apply Forall_forall. intros i Hi. apply elem_of_seq in Hi. lia.
Qed.

Lemma ComputeConstraintsForScan_phases scan_index matching_submap
  insertion_submaps finished_submap pose covariance g g' :
  ComputeConstraintsForScan scan_index matching_submap insertion_submaps
    finished_submap pose covariance g = Ok g' ->
  exists g1 matching_id g2 g3 g4 g5,
    let n := NodeId.mk (SubmapId.trajectory_id matching_id)
               (default 0 (num_nodes_in_trajectory_ g
                             !! SubmapId.trajectory_id matching_id)) in
    GrowSubmapTransformsAsNeeded insertion_submaps g = Ok g1
    /\ submap_ids_ g !! Submap_ptr matching_submap = Some matching_id
    /\ scan_index = length (scan_index_to_node_id_ g)
    /\ scan_index_to_node_id_ g2 = scan_index_to_node_id_ g ++ [n]
    /\ submap_states_ g2 = submap_states_ g
    /\ constraints_ g2 = constraints_ g
    /\ submap_ids_ g2 = submap_ids_ g
    /\ options_ g2 = options_ g
    /\ for_each (add_intra_submap_constraint n pose covariance)
         insertion_submaps g2 = Ok g3
    /\ match_against_finished_submaps scan_index n g3 = Ok g4
    /\ finish_submap finished_submap g4 = Ok g5
    /\ end_of_scan scan_index g5 = Ok g'.
Proof.
  unfold ComputeConstraintsForScan. intros Hrun.
  apply bind_Ok in Hrun as (g1 & Hgrow & Hrun).
  apply bind_Ok in Hrun as (matching_id & Hid & Hrun).
  apply bind_Ok in Hrun as (matching_entry & _ & Hrun).
  apply bind_Ok in Hrun as (? & Hindex & Hrun).
  apply bind_Ok in Hrun as (node & _ & Hrun).
  apply bind_Ok in Hrun as (? & _ & Hrun).
  apply bind_Ok in Hrun as (g3 & Hintra & Hrun).
  apply bind_Ok in Hrun as (g4 & Hmatch & Hrun).
  apply bind_Ok in Hrun as (g5 & Hfinish & Hrun).
  apply GetSubmapId_Ok in Hid.
  apply CHECK_Ok, Nat.eqb_eq in Hindex.
  pose proof (GrowSubmapTransformsAsNeeded_frame _ _ _ Hgrow)
    as (data & Hg1).
  assert (scan_index_to_node_id_ g1 = scan_index_to_node_id_ g
          /\ num_nodes_in_trajectory_ g1 = num_nodes_in_trajectory_ g
          /\ submap_ids_ g1 = submap_ids_ g
          /\ submap_states_ g1 = submap_states_ g
          /\ constraints_ g1 = constraints_ g
          /\ options_ g1 = options_ g) as (E1 & E2 & E3 & E4 & E5 & E6)
    by by rewrite Hg1.
  rewrite E3 in Hid. rewrite E1 in Hindex.
  rewrite E2 in Hintra, Hmatch.
  match type of Hintra with
  | for_each _ _ ?g2 = _ => exists g1, matching_id, g2, g3, g4, g5
  end.
  simpl. split_and!; first [done | simpl; congruence].
Qed.

Lemma finish_submap_grows finished_submap g g' :
  finish_submap finished_submap g = Ok g' -> grows g g'.
Proof.
  destruct finished_submap as [s|];
    [|intros Hrun; injection Hrun as <-; apply grows_refl].
  intros Hrun.
  apply finish_submap_Ok in Hrun as (id & state & g1 & _ & _ & _ & Hold & ->).
  apply ComputeConstraintsForOldScans_same_but_matcher in Hold.
  pose proof (same_but_matcher_view submap_states_ g g1) as Hs.
  pose proof (same_but_matcher_view constraints_ g g1) as Hc.
  split; simpl.
  - rewrite <- Hs by done. by apply states_grow_alter2.
  - exists []. rewrite app_nil_r. split; [by apply Hc|done].
Qed.

Lemma intra_submap_loop_grows n pose covariance insertion_submaps g g' :
  for_each (add_intra_submap_constraint n pose covariance)
    insertion_submaps g = Ok g' ->
  grows g g'.
Proof.
  intros Hrun.
  apply intra_submap_loop_Ok in Hrun
    as (ids & Hids & Hcs & _ & Hin & Hins & _).
  split; [by apply only_inserted_grow|].
  eexists. split; [done|].
  clear Hcs. revert ids Hids Hin.
  induction insertion_submaps as [|s l IH]; intros ids Hids Hin.
  - apply Forall2_nil_inv_l in Hids as ->. constructor.
  - apply Forall2_cons_inv_l in Hids as (id & ids' & _ & Hids & ->).
    apply Forall_cons in Hin as [Hid Hin]. simpl.
    constructor; [|by apply IH]. by intros _.
Qed.

(** The per-scan computation only adds to the submap states and to the
    constraints. *)
Lemma ComputeConstraintsForScan_grows scan_index matching_submap
  insertion_submaps finished_submap pose covariance g g' :
  ComputeConstraintsForScan scan_index matching_submap insertion_submaps
    finished_submap pose covariance g = Ok g' ->
  grows g g'.
Proof.
  intros Hrun.
  apply ComputeConstraintsForScan_phases in Hrun
    as (g1 & matching_id & g2 & g3 & g4 & g5 & _ & _ & _ & _ & Hs2 & Hc2
        & _ & _ & Hintra & Hmatch & Hfinish & Hend).
  transitivity g2; [by apply grows_same|].
  transitivity g3; [by eapply intra_submap_loop_grows|].
  apply match_against_finished_submaps_same_but_matcher in Hmatch.
  transitivity g4.
  { apply grows_same; by apply same_but_matcher_view. }
  transitivity g5; [by eapply finish_submap_grows|].
  apply grows_same; by eapply end_of_scan_view.
Qed.

(** *** Operations taken apart *)

Lemma AddScan_split time range_data pose covariance trajectory
  matching_submap insertion_submaps g :
  AddScan time range_data pose covariance trajectory matching_submap
    insertion_submaps g
  = (g1 ← AddScan_registration time range_data pose trajectory
            insertion_submaps g;
     work_item ← AddScan_work_item_of matching_submap insertion_submaps
                   pose covariance g;
     AddWorkItem work_item g1).
Proof.
  unfold AddScan, AddScan_registration, AddScan_work_item_of.
  destruct (GetLocalToGlobalTransform trajectory g); [|done]. simpl.
  destruct (map_at _ _); [|done]. simpl.
  destruct (CHECK _); [|done]. simpl.
  destruct (back _); [|done]. simpl.
  match goal with
  | |- (?m ≫= _) = _ => destruct m; [|done]
  end. simpl.
  by destruct (front _).
Qed.

Lemma ComputeConstraintsForScan_split scan_index matching_submap
  insertion_submaps finished_submap pose covariance g :
  ComputeConstraintsForScan scan_index matching_submap insertion_submaps
    finished_submap pose covariance g
  = (g4 ← ComputeConstraintsForScan_new_scan scan_index matching_submap
            insertion_submaps pose covariance g;
     g5 ← finish_submap finished_submap g4;
     end_of_scan scan_index g5).
Proof.
  unfold ComputeConstraintsForScan, ComputeConstraintsForScan_new_scan.
  repeat (match goal with
          | |- (?m ≫= _) = _ => destruct m; [|reflexivity]
          end; cbn [mbind Outcome_bind]).
  reflexivity.
Qed.

Lemma ComputeConstraintsForScan_new_scan_phases scan_index matching_submap
  insertion_submaps pose covariance g g4 :
  ComputeConstraintsForScan_new_scan scan_index matching_submap
    insertion_submaps pose covariance g = Ok g4 ->
  exists g1 matching_id g2 g3,
    let n := NodeId.mk (SubmapId.trajectory_id matching_id)
               (default 0 (num_nodes_in_trajectory_ g
                             !! SubmapId.trajectory_id matching_id)) in
    GrowSubmapTransformsAsNeeded insertion_submaps g = Ok g1
    /\ submap_ids_ g !! Submap_ptr matching_submap = Some matching_id
    /\ scan_index = length (scan_index_to_node_id_ g)
    /\ scan_index_to_node_id_ g2 = scan_index_to_node_id_ g ++ [n]
    /\ submap_states_ g2 = submap_states_ g
    /\ constraints_ g2 = constraints_ g
    /\ submap_ids_ g2 = submap_ids_ g
    /\ options_ g2 = options_ g
    /\ for_each (add_intra_submap_constraint n pose covariance)
         insertion_submaps g2 = Ok g3
    /\ match_against_finished_submaps scan_index n g3 = Ok g4.
Proof.
  unfold ComputeConstraintsForScan_new_scan. intros Hrun.
  apply bind_Ok in Hrun as (g1 & Hgrow & Hrun).
  apply bind_Ok in Hrun as (matching_id & Hid & Hrun).
  apply bind_Ok in Hrun as (matching_entry & _ & Hrun).
  apply bind_Ok in Hrun as (? & Hindex & Hrun).
  apply bind_Ok in Hrun as (node & _ & Hrun).
  apply bind_Ok in Hrun as (? & _ & Hrun).
  apply bind_Ok in Hrun as (g3 & Hintra & Hmatch).
  apply GetSubmapId_Ok in Hid.
  apply CHECK_Ok, Nat.eqb_eq in Hindex.
  pose proof (GrowSubmapTransformsAsNeeded_frame _ _ _ Hgrow)
    as (data & Hg1).
  assert (scan_index_to_node_id_ g1 = scan_index_to_node_id_ g
          /\ num_nodes_in_trajectory_ g1 = num_nodes_in_trajectory_ g
          /\ submap_ids_ g1 = submap_ids_ g
          /\ submap_states_ g1 = submap_states_ g
          /\ constraints_ g1 = constraints_ g
          /\ options_ g1 = options_ g) as (E1 & E2 & E3 & E4 & E5 & E6)
    by by rewrite Hg1.
  rewrite E3 in Hid. rewrite E1 in Hindex.
  rewrite E2 in Hintra, Hmatch.
  match type of Hintra with
  | for_each _ _ ?g2 = _ => exists g1, matching_id, g2, g3
  end.
  simpl. split_and!; first [done | simpl; congruence].
Qed.

End Scan.


(** ** Histories *)

Section History.
Context `{External} `{!Solver}.
Local Open Scope rigid_scope.

Lemma advances_refl g : advances g g.
Proof. split; [apply grows_refl|done]. Qed.

Lemma advances_trans g1 g2 g3 :
  advances g1 g2 -> advances g2 g3 -> advances g1 g3.
Proof.
  intros [Hg12 Hu12] [Hg23 Hu23]. split; [by etrans|auto].
Qed.

#[global] Instance advances_reflexive : Reflexive advances.
Proof. intros g. apply advances_refl. Qed.

#[global] Instance advances_transitive : Transitive advances.
Proof. intros g1 g2 g3. apply advances_trans. Qed.

Lemma untouched_optimizer_view g g' :
  optimizer_view g' = optimizer_view g ->
  untouched_optimizer g -> untouched_optimizer g'.
Proof.
  unfold optimizer_view, untouched_optimizer. intros [= -> -> ->]. done.
Qed.

Lemma advances_same g g' :
  submap_states_ g' = submap_states_ g ->
  constraints_ g' = constraints_ g ->
  optimizer_view g' = optimizer_view g ->
  advances g g'.
Proof.
  intros Hs Hc Hv. split; [by apply grows_same|].
  by apply untouched_optimizer_view.
Qed.

Lemma RunOptimization_advances g g' :
  RunOptimization g = Ok g' -> advances g g'.
Proof.
  intros Hrun. split.
  - apply grows_same; by eapply RunOptimization_view.
  - intros Hu Hnone.
    rewrite (RunOptimization_view scan_index_to_node_id_ _ _) in Hnone
      by done.
    destruct (Hu Hnone) as [Hdata Hsolves].
    unfold RunOptimization in Hrun. rewrite Hdata in Hrun. simpl in Hrun.
    by injection Hrun as <-.
Qed.

Lemma ComputeConstraintsForScan_node_ids scan_index matching_submap
  insertion_submaps finished_submap pose covariance g g' :
  ComputeConstraintsForScan scan_index matching_submap insertion_submaps
    finished_submap pose covariance g = Ok g' ->
  exists n, scan_index_to_node_id_ g' = scan_index_to_node_id_ g ++ [n].
Proof.
  intros Hrun.
  apply ComputeConstraintsForScan_phases in Hrun
    as (g1 & matching_id & g2 & g3 & g4 & g5 & _ & _ & _ & Hn & _ & _
        & _ & _ & Hintra & Hmatch & Hfinish & Hend).
  eexists. rewrite <- Hn.
  rewrite (end_of_scan_view scan_index_to_node_id_ _ _ _) by done.
  rewrite (finish_submap_view scan_index_to_node_id_ _ _ _) by done.
  apply match_against_finished_submaps_same_but_matcher in Hmatch.
  rewrite (same_but_matcher_view scan_index_to_node_id_ _ _) by done.
  revert Hintra. apply for_each_view. intros s ? ?.
  by apply add_intra_submap_constraint_view.
Qed.

Lemma run_work_item_advances w g g' :
  run_work_item w g = Ok g' -> advances g g'.
Proof.
  destruct w; simpl; intros Hrun.
  - split; [by eapply ComputeConstraintsForScan_grows|].
    intros _ Hnone.
    apply ComputeConstraintsForScan_node_ids in Hrun as (n & Hn).
    rewrite Hn in Hnone. by destruct (scan_index_to_node_id_ g).
  - apply bind_Ok in Hrun as (trajectory_id & _ & [= <-]).
    by apply advances_same.
Qed.

Lemma AddWorkItem_advances w g g' :
  AddWorkItem w g = Ok g' -> advances g g'.
Proof.
  unfold AddWorkItem. destruct (scan_queue_ g).
  - intros [= <-]. by apply advances_same.
  - apply run_work_item_advances.
Qed.

Lemma drain_scan_queue_advances fuel :
  forall g g', drain_scan_queue fuel g = Ok g' -> advances g g'.
Proof.
  induction fuel as [|fuel IH]; intros g g' Hrun; [done|].
  simpl in Hrun. destruct (run_loop_closure_ g).
  { injection Hrun as <-. by apply advances_same. }
  destruct (scan_queue_ g) as [[|w queue]|]; [| |done].
  { injection Hrun as <-. by apply advances_same. }
  apply bind_Ok in Hrun as (g1 & Hitem & Hrun).
  destruct (scan_queue_ g1) as [[|? queue']|]; [done| |done].
  etrans; [by eapply run_work_item_advances|].
  etrans; [|by eapply IH]. by apply advances_same.
Qed.

(** Constraints found by the matcher join the list. *)
Lemma append_result_advances result g :
  from_matcher result ->
  advances g (set_constraints_ (constraints_ g ++ result) g).
Proof.
  intros Hresult. split; [|by apply untouched_optimizer_view].
  split; [apply states_grow_refl|]. exists result. split; [done|].
  eapply Forall_impl; [done|]. intros c Htag Hintra. congruence.
Qed.

Lemma HandleScanQueue_run_advances result g g' :
  from_matcher result ->
  HandleScanQueue_run result g = Ok g' -> advances g g'.
Proof.
  unfold HandleScanQueue_run. intros Hresult Hrun.
  apply bind_Ok in Hrun as (g1 & Hopt & Hrun).
  etrans; [by apply append_result_advances|].
  etrans; [by eapply RunOptimization_advances|].
  etrans; [|by eapply drain_scan_queue_advances]. by apply advances_same.
Qed.

Lemma RunFinalOptimization_advances result g g' :
  from_matcher result ->
  RunFinalOptimization result g = Ok g' -> advances g g'.
Proof.
  unfold RunFinalOptimization, WaitForAllComputations.
  intros Hresult Hrun.
  apply bind_Ok in Hrun as (g1 & Hopt & [= <-]).
  etrans; [by apply append_result_advances|].
  etrans; [|etrans; [by eapply RunOptimization_advances|]];
    by apply advances_same.
Qed.

(** [AddScan] up to its last line: the scan is booked, and what is left
    is one work item whose [finished_submap] is the first insertion
    submap when its flag was set at the call, and null otherwise. *)
Lemma AddScan_work_item time range_data pose covariance trajectory
  matching_submap insertion_submaps g g' :
  AddScan time range_data pose covariance trajectory matching_submap
    insertion_submaps g = Ok g' ->
  exists g1 oldest rest,
    protocol_kept g g1
    /\ advances g g1
    /\ insertion_submaps = oldest :: rest
    /\ AddWorkItem
         (ComputeConstraintsForScan_item (length (trajectory_nodes_ g))
            matching_submap insertion_submaps
            (if Submap_finished oldest then Some oldest else None)
            pose covariance) g1 = Ok g'.
Proof.
  unfold AddScan. intros Hrun.
  apply bind_Ok in Hrun as (local_to_global & _ & Hrun).
  apply bind_Ok in Hrun as (trajectory_id & _ & Hrun).
  apply bind_Ok in Hrun as (? & _ & Hrun).
  apply bind_Ok in Hrun as (newest & _ & Hrun).
  apply bind_Ok in Hrun as (g1 & Hregister & Hrun).
  apply bind_Ok in Hrun as (oldest & Hfront & Hrun).
  destruct insertion_submaps as [|oldest' rest]; [done|].
  injection Hfront as ->.
  eexists _, oldest, rest. split; [|split; [|split; [done|exact Hrun]]].
  - assert (protocol_kept g g1) as Hkept.
    { destruct (submap_ids_ _ !! _) in Hregister.
      - injection Hregister as <-. protocol_kept_by_fields.
      - apply bind_Ok in Hregister as (? & _ & [= <-]).
        protocol_kept_by_fields. }
    etrans; [done|].
    destruct (global_localization_samplers_ _ !! _);
      [apply protocol_kept_refl|protocol_kept_by_fields].
  - assert (advances g g1) as Hadv.
    { destruct (submap_ids_ _ !! _) in Hregister.
      - injection Hregister as <-. by apply advances_same.
      - apply bind_Ok in Hregister as (? & _ & [= <-]).
        split; [|by apply untouched_optimizer_view].
        split; simpl.
        + intros i j state Hs. exists state. split; [|done].
          by apply lookup2_push_back.
        + exists []. by rewrite app_nil_r. }
    etrans; [done|].
    destruct (global_localization_samplers_ _ !! _);
      [apply advances_refl|by apply advances_same].
Qed.

Lemma step_advances g g' : step g g' -> advances g g'.
Proof.
  intros [? ? ? ? ? ? ? g1 g2 Hrun | ? ? ? ? g1 g2 Hrun
         | ? g1 g2 Hresult Hrun | ? g1 g2 _ Hresult Hrun | ? g1].
  - apply AddScan_work_item in Hrun
      as (g3 & oldest & rest & _ & Hadv & _ & Hrun).
    etrans; [done|]. by eapply AddWorkItem_advances.
  - unfold AddImuData in Hrun.
    etrans; [|by eapply AddWorkItem_advances]. by apply advances_same.
  - by eapply RunFinalOptimization_advances.
  - etrans; [|by eapply HandleScanQueue_run_advances].
    by apply advances_same.
  - by apply advances_same.
Qed.

(** In every state of a history, the node of each intra-submap
    constraint is in the node set of the constraint's submap, and the
    optimizer is untouched as long as no node id has been allocated. *)
Lemma reachable_sound options g :
  reachable options g ->
  Forall (fun c => inserted c g) (constraints_ g)
  /\ untouched_optimizer g.
Proof.
  induction 1 as [|g g' _ [IHc IHu] Hstep].
  - split; [constructor|done].
  - apply step_advances in Hstep as [[Hstates (new & Hc & Hnew)] Hu].
    split; [|auto]. rewrite Hc. apply Forall_app. split; [|done].
    eapply Forall_impl; [done|]. intros c. by apply inserted_grow.
Qed.

End History.


(** ** The lattice motions are a group *)

Module LatticeGroup.
Import Lattice.

Lemma compose_assoc a b c :
  compose a (compose b c) = compose (compose a b) c.
Proof.
  destruct a as [[] ? ? ?], b as [[] ? ? ?], c as [[] ? ? ?];
    unfold compose; simpl; f_equal; lia.
Qed.

Lemma compose_identity_l a : compose identity a = a.
Proof. destruct a as [[] ? ? ?]; unfold compose; simpl; f_equal; lia. Qed.

Lemma compose_identity_r a : compose a identity = a.
Proof. destruct a as [[] ? ? ?]; unfold compose; simpl; f_equal; lia. Qed.

Lemma compose_invert_l a : compose (invert a) a = identity.
Proof.
  destruct a as [[] ? ? ?]; unfold compose, invert, identity; simpl;
    f_equal; lia.
Qed.

Lemma compose_invert_r a : compose a (invert a) = identity.
Proof.
  destruct a as [[] ? ? ?]; unfold compose, invert, identity; simpl;
    f_equal; lia.
Qed.

#[export] Instance group : Rigid3dGroup.
Proof.
  split.
  - apply compose_assoc.
  - apply compose_identity_l.
  - apply compose_identity_r.
  - apply compose_invert_l.
  - apply compose_invert_r.
Qed.

End LatticeGroup.

Section Properties.
Context `{External} `{!Solver}.
Local Open Scope rigid_scope.


(** ** Submap-transform extrapolation *)

Lemma extrapolated_at_app submap_transforms trajectory_id g
  (result extra : list Rigid3d) (i : nat) :
  i <= length result ->
  extrapolated_at submap_transforms trajectory_id g (result ++ extra) i
  = extrapolated_at submap_transforms trajectory_id g result i.
Proof.
  intros Hi. unfold extrapolated_at.
  destruct (i <? _); [done|].
  destruct i as [|j]; [done|].
  by rewrite lookup_app_l by lia.
Qed.

Lemma extrapolate_push_next submap_transforms trajectory_id g states
  (done : list SubmapState) state rest (result : list Rigid3d) :
  submap_states_ g !! trajectory_id = Some states ->
  states = done ++ state :: rest ->
  length result = length done ->
  exists x,
    extrapolate_push submap_transforms trajectory_id g state result
    = Ok (result ++ [x]) /\
    extrapolated_at submap_transforms trajectory_id g result (length result)
    = Some x.
Proof.
  intros Hstates -> Hlen.
  unfold extrapolate_push, extrapolated_at. rewrite Hstates. simpl.
  assert ((if trajectory_id <? length submap_transforms
           then t ← at_ submap_transforms trajectory_id;
                mret (length result <? length t)
           else mret false)
          = Ok (length result
                <? length (default [] (submap_transforms !! trajectory_id))))
    as ->.
  { destruct (Nat.ltb_spec trajectory_id (length submap_transforms)) as [Hlt|Hge].
    - destruct (lookup_lt_is_Some_2 _ _ Hlt) as [t Ht].
      unfold at_. by rewrite Ht.
    - by rewrite lookup_ge_None_2. }
  simpl.
  destruct (Nat.ltb_spec (length result)
              (length (default [] (submap_transforms !! trajectory_id))))
    as [Hlt|Hge].
  - destruct (submap_transforms !! trajectory_id) as [t|] eqn:Ht;
      simpl in Hlt; [|lia].
    destruct (lookup_lt_is_Some_2 _ _ Hlt) as [d Hd].
    exists (SubmapData_pose d). unfold at2, at_. rewrite Ht. simpl.
    by rewrite Hd.
  - destruct result as [|r result _] using rev_ind.
    + by exists Identity.
    + assert (empty (result ++ [r]) = false) as -> by by destruct result.
      rewrite length_app in Hlen |- *. simpl in Hlen |- *.
      replace (length result + 1) with (S (length result)) by lia.
      unfold back. rewrite last_snoc. simpl. rewrite Nat.sub_0_r.
      assert (length result < length done) as Hprev by lia.
      destruct (lookup_lt_is_Some_2 _ _ Hprev) as [previous_state Hp].
      exists (r * inverse (local_pose (submap previous_state))
              * local_pose (submap state)).
      unfold at2, at_. rewrite Hstates. simpl.
      rewrite (lookup_app_l done) by lia. rewrite Hp. simpl.
      split; [done|].
      rewrite (list_lookup_middle result []) by done. simpl.
      replace (S (length result)) with (length done) by lia.
      by rewrite list_lookup_middle.
Qed.

(** C5.  [ExtrapolateSubmapTransforms] always returns.  For a trajectory
    id without submap states (unknown, or known with an empty list) the
    result is the single identity.  Otherwise the result has one pose per
    submap state; a position the snapshot covers holds the snapshot's
    pose, position 0 outside the snapshot holds the identity, and every
    other position holds the previous result composed with the inverse of
    the previous submap's local pose composed with this submap's local
    pose. *)
Theorem ExtrapolateSubmapTransforms_positions
  (submap_transforms : list (list SubmapData)) (trajectory_id : nat)
  (g : SparsePoseGraph) :
  exists result,
    ExtrapolateSubmapTransforms submap_transforms trajectory_id g = Ok result
    /\ match submap_states_ g !! trajectory_id with
       | None | Some [] => result = [Identity]
       | Some states =>
           length result = length states /\
           forall i, i < length states ->
             result !! i
             = extrapolated_at submap_transforms trajectory_id g result i
       end.
Proof.
  unfold ExtrapolateSubmapTransforms.
  destruct (Nat.leb_spec (length (submap_states_ g)) trajectory_id)
    as [Hge|Hlt].
  { exists [Identity]. by rewrite lookup_ge_None_2. }
  destruct (lookup_lt_is_Some_2 _ _ Hlt) as [states Hstates].
  unfold at_ at 1. rewrite Hstates. simpl.
  destruct (for_each_total
              (extrapolate_push submap_transforms trajectory_id g)
              (fun done result =>
                 length result = length done /\
                 forall i, i < length done ->
                   result !! i
                   = extrapolated_at submap_transforms trajectory_id g
                       result i)
              states [])
    as (result & -> & Hlen & Hpos).
  { split; [done|]. simpl. lia. }
  { intros done state rest result Hsplit [Hlen Hpos].
    destruct (extrapolate_push_next submap_transforms trajectory_id g
                states done state rest result Hstates Hsplit Hlen)
      as (x & Hpush & Hx).
    exists (result ++ [x]). split; [done|].
    rewrite !length_app. simpl. split; [lia|].
    intros i Hi. rewrite extrapolated_at_app by lia.
    destruct (decide (i = length result)) as [->|Hne].
    - by rewrite list_lookup_middle.
    - rewrite lookup_app_l by lia. apply Hpos. lia. }
  simpl. destruct states as [|state states].
  - destruct result; [|done]. by exists [Identity].
  - destruct result as [|r result]; [done|]. simpl.
    by exists (r :: result).
Qed.


(** ** Local-to-global transform *)

Section LocalToGlobal.
Context `{!Rigid3dGroup}.

Lemma inverse_Identity : inverse Identity = Identity.
Proof. by rewrite <- (mul_Identity_l (inverse Identity)), mul_inverse_r. Qed.

(** C4, as the code has it.  For a trajectory handle that was never
    registered, [GetLocalToGlobalTransform] returns the inverse of the
    local pose of the handle's submap 0, which is the identity exactly
    when that submap sits at the identity. *)
Theorem GetLocalToGlobalTransform_unregistered (submaps : Submaps)
  (first : Submap) (g : SparsePoseGraph) :
  trajectory_ids_ g !! Submaps_ptr submaps = None ->
  Submaps_submaps submaps !! 0 = Some first ->
  GetLocalToGlobalTransform submaps g = Ok (inverse (local_pose first))
  /\ (GetLocalToGlobalTransform submaps g = Ok Identity
      <-> local_pose first = Identity).
Proof.
  intros Hnew Hfirst.
  assert (GetLocalToGlobalTransform submaps g
          = Ok (inverse (local_pose first))) as Hrun.
  { unfold GetLocalToGlobalTransform, GetSubmapTransforms, Get.
    rewrite Hnew. simpl. rewrite Hfirst. simpl.
    by rewrite mul_Identity_l. }
  split; [done|]. rewrite Hrun. split.
  - intros [= Hinv].
    pose proof (mul_inverse_l (local_pose first)) as Hgroup.
    by rewrite Hinv, mul_Identity_l in Hgroup.
  - intros ->. by rewrite inverse_Identity.
Qed.

End LocalToGlobal.


(** ** Growing the optimizer's submap list *)

Lemma resize_to_enough {A} (n : nat) (d : A) (v : list A) :
  n <= length v -> resize_to (max (length v) n) d v = v.
Proof.
  intros Hn. unfold resize_to.
  replace (max (length v) n) with (length v) by lia.
  by rewrite take_ge, Nat.sub_diag, app_nil_r.
Qed.

Lemma push_back_at_known {A} (i : nat) (x : A) (v : list (list A))
  (t : list A) :
  v !! i = Some t -> push_back_at i x v = <[i := t ++ [x]]> v.
Proof.
  intros Ht. unfold push_back_at.
  rewrite resize_to_enough by (apply lookup_lt_Some in Ht; lia).
  apply list_eq. intros j. destruct (decide (j = i)) as [->|Hne].
  - rewrite list_lookup_alter_eq, Ht.
    by rewrite list_lookup_insert_eq by by eapply lookup_lt_Some.
  - by rewrite list_lookup_alter_ne, list_lookup_insert_ne.
Qed.

(** C6.  With two insertion submaps whose ids are known, of one
    trajectory, and a submap list [t] for that trajectory in the
    optimizer: when the second id's index is the length of [t] (and the
    first submap has its pose in [t]), the
    optimizer's list for the trajectory becomes [t] followed by one
    submap at (first submap's optimizer pose) * (first local pose)^-1 *
    (second local pose), and nothing else changes; when the index is
    smaller, the object is returned as it was. *)
Theorem GrowSubmapTransformsAsNeeded_second_submap
  (first second : Submap) (first_id second_id : SubmapId.t)
  (t : list SubmapData) (first_submap : SubmapData) (g : SparsePoseGraph) :
  GetSubmapId first g = Ok first_id ->
  GetSubmapId second g = Ok second_id ->
  SubmapId.trajectory_id second_id = SubmapId.trajectory_id first_id ->
  submap_data (optimization_problem_ g) !! SubmapId.trajectory_id first_id
  = Some t ->
  (SubmapId.submap_index second_id = length t ->
   t !! SubmapId.submap_index first_id = Some first_submap) ->
  SubmapId.submap_index second_id <= length t ->
  GrowSubmapTransformsAsNeeded [first; second] g
  = Ok (if SubmapId.submap_index second_id =? length t then
          set_optimization_problem_
            (set_submap_data
               (<[SubmapId.trajectory_id first_id :=
                    t ++ [{| SubmapData_pose :=
                               SubmapData_pose first_submap
                               * inverse (local_pose first)
                               * local_pose second |}]]>
                  (submap_data (optimization_problem_ g)))
               (optimization_problem_ g)) g
        else g).
Proof.
  intros Hfirst Hsecond Hsame Ht Hpose Hle.
  unfold GrowSubmapTransformsAsNeeded. simpl.
  rewrite Hfirst. simpl. rewrite (at_known _ _ _ Ht). simpl.
  rewrite Hsecond. simpl. rewrite Hsame, Nat.eqb_refl. simpl.
  apply Nat.leb_le in Hle as ->. simpl.
  destruct (Nat.eqb_spec (SubmapId.submap_index second_id) (length t))
    as [Hnew|_]; [|done].
  rewrite (at2_known _ _ _ _ Ht), (at_known _ _ _ (Hpose Hnew)). simpl.
  unfold OptimizationProblem_AddSubmap.
  by rewrite (push_back_at_known _ _ _ t).
Qed.


(** ** Candidate constraints *)

Lemma trajectories_connected_same_component (a b : nat)
  (g : SparsePoseGraph) :
  trajectories_connected a b g = bool_decide (same_component a b g).
Proof.
  assert (trajectories_connected a b g = true <-> same_component a b g)
    as Hiff.
  { unfold trajectories_connected, same_component.
    destruct (reverse_connected_components_ g !! a) as [ca|],
      (reverse_connected_components_ g !! b) as [cb|].
    - rewrite Nat.eqb_eq. split; [by intros ->|]. by intros [_ [= ?]].
    - split; [done|]. by intros [_ ?].
    - split; [done|]. by intros [[? ?] _].
    - split; [done|]. by intros [[? ?] _]. }
  destruct (trajectories_connected a b g); symmetry.
  - by apply bool_decide_eq_true, Hiff.
  - apply bool_decide_eq_false. intros Hsame. by apply Hiff in Hsame.
Qed.

(** C3.  For a scan and a submap that the object knows (node id, both
    optimizer poses, the node and the submap state are there, and so is
    the scan trajectory's sampler when the trajectories differ),
    [ComputeConstraint] returns, and
    what it has handed to the matcher is exactly [proposal]: a global
    match when the trajectories differ and the sampler fired, otherwise a
    local match with prior (submap pose)^-1 * (node pose) when the
    trajectories are equal or the reverse map has both under the same
    connected component ([same_component]), otherwise nothing.  Apart
    from the sampler's state and this call the object is as it was. *)
Theorem ComputeConstraint_proposal (scan_index : nat)
  (submap_id : SubmapId.t) (g : SparsePoseGraph) (node_id : NodeId.t)
  (submap_entry : SubmapData) (node_entry : NodeData)
  (node : TrajectoryNode) (state : SubmapState)
  (sampler : FixedRatioSampler) :
  scan_index_to_node_id_ g !! scan_index = Some node_id ->
  at2 (submap_data (optimization_problem_ g))
      (SubmapId.trajectory_id submap_id) (SubmapId.submap_index submap_id)
  = Ok submap_entry ->
  at2 (node_data (optimization_problem_ g))
      (NodeId.trajectory_id node_id) (NodeId.node_index node_id)
  = Ok node_entry ->
  trajectory_nodes_ g !! scan_index = Some node ->
  at2 (submap_states_ g)
      (SubmapId.trajectory_id submap_id) (SubmapId.submap_index submap_id)
  = Ok state ->
  ((ConstantData_trajectory_id (constant_data node)
    =? SubmapId.trajectory_id submap_id) = false ->
   global_localization_samplers_ g
     !! ConstantData_trajectory_id (constant_data node) = Some sampler) ->
  exists g',
    ComputeConstraint scan_index submap_id g = Ok g'
    /\ calls (constraint_builder_ g')
       = calls (constraint_builder_ g)
         ++ option_list
              (proposal submap_id (submap state) node_id scan_index
                 (ConstantData_trajectory_id (constant_data node))
                 (Pulse sampler).1
                 (bool_decide
                    (same_component
                       (ConstantData_trajectory_id (constant_data node))
                       (SubmapId.trajectory_id submap_id) g))
                 (inverse (SubmapData_pose submap_entry)
                  * point_cloud_pose node_entry))
    /\ same_but_matcher g g'.
Proof.
  intros Hid Hsubmap Hnode Hscan Hstate Hsampler.
  rewrite <- trajectories_connected_same_component.
  assert (exists g',
            ComputeConstraint scan_index submap_id g = Ok g'
            /\ calls (constraint_builder_ g')
               = calls (constraint_builder_ g)
                 ++ option_list
                      (proposal submap_id (submap state) node_id scan_index
                         (ConstantData_trajectory_id (constant_data node))
                         (Pulse sampler).1
                         (trajectories_connected
                            (ConstantData_trajectory_id (constant_data node))
                            (SubmapId.trajectory_id submap_id) g)
                         (inverse (SubmapData_pose submap_entry)
                          * point_cloud_pose node_entry)))
    as (g' & Hrun & Hcalls).
  { unfold ComputeConstraint, proposal.
    rewrite (at_known _ _ _ Hid). simpl. rewrite Hsubmap. simpl.
    rewrite Hnode. simpl. unfold index. rewrite Hscan. simpl.
    destruct (_ =? _) eqn:Hsame; simpl.
    - rewrite Hstate. simpl. eexists. split; [done|]. done.
    - unfold pulse_sampler. rewrite Hsampler by done.
      destruct (Pulse sampler) as [[] sampler']; simpl.
      + rewrite Hstate. simpl. eexists. split; [done|]. done.
      + unfold trajectories_connected at 1. simpl.
        fold (trajectories_connected
                (ConstantData_trajectory_id (constant_data node))
                (SubmapId.trajectory_id submap_id) g).
        destruct (trajectories_connected _ _ g); simpl.
        * rewrite Hstate. simpl. eexists. split; [done|]. done.
        * eexists. split; [done|]. simpl. by rewrite app_nil_r. }
  exists g'. split_and!; [done|done|].
  by eapply ComputeConstraint_same_but_matcher.
Qed.


(** ** The optimization trigger and the work queue *)

(** C1.  With a positive [optimize_every_n_scans]:
    - a per-scan constraint computation that completes has added one to
      the counter; when the new count exceeds the threshold, no
      optimization was pending, the pending flag is now set, and a
      missing queue has been allocated (empty) with the driver's
      callback registered at the matcher, while an existing queue and
      callback are left alone; when it does not exceed the threshold,
      flag, queue and callback are as before;
    - the driver's callback appends the matcher's result, runs the
      optimization, resets the counter, clears the flag and then is
      [run_buffered] on the queue: front to back while the flag is clear,
      deallocating the queue when it is empty and going back to
      [HandleScanQueue] with the rest when an item has raised the flag;
      the loop never runs out of turns;
    - without a queue a work item runs inline, with one it is appended. *)
Theorem optimization_trigger_and_drain (g : SparsePoseGraph) :
  (0 < optimize_every_n_scans (options_ g))%Z ->
  (forall scan_index matching_submap insertion_submaps finished_submap pose
          covariance g',
     ComputeConstraintsForScan scan_index matching_submap insertion_submaps
       finished_submap pose covariance g = Ok g' ->
     num_scans_since_last_loop_closure_ g'
     = (num_scans_since_last_loop_closure_ g + 1)%Z
     /\ if (optimize_every_n_scans (options_ g)
            <? num_scans_since_last_loop_closure_ g + 1)%Z
        then run_loop_closure_ g = false
             /\ run_loop_closure_ g' = true
             /\ match scan_queue_ g with
                | None =>
                    scan_queue_ g' = Some []
                    /\ when_done (constraint_builder_ g')
                       = Some HandleScanQueue_callback
                | Some queue =>
                    scan_queue_ g' = Some queue
                    /\ when_done (constraint_builder_ g')
                       = when_done (constraint_builder_ g)
                end
        else run_loop_closure_ g' = run_loop_closure_ g
             /\ scan_queue_ g' = scan_queue_ g
             /\ when_done (constraint_builder_ g')
                = when_done (constraint_builder_ g))
  /\ (forall result queue,
        scan_queue_ g = Some queue ->
        HandleScanQueue_run result g
        = (g1 ← RunOptimization
                  (set_constraints_ (constraints_ g ++ result) g);
           run_buffered queue
             (set_run_loop_closure_ false
                (set_num_scans_since_last_loop_closure_ 0%Z g1)))
        /\ HandleScanQueue_run result g <> Abort OutOfFuel)
  /\ (forall work_item,
        AddWorkItem work_item g
        = match scan_queue_ g with
          | None => run_work_item work_item g
          | Some queue =>
              Ok (set_scan_queue_ (Some (queue ++ [work_item])) g)
          end).
Proof.
  intros Hpositive. split; [|split].
  - intros scan_index matching_submap insertion_submaps finished_submap
      pose covariance g' Hrun.
    apply ComputeConstraintsForScan_then_end_of_scan in Hrun
      as (g1 & (Ho & Hq & Hn & Hf & Hw & _) & Hend).
    apply end_of_scan_Ok in Hend as (_ & Hcount & Hend).
    rewrite Ho, Hq, Hn, Hf, Hw in *. split; [done|].
    apply Z.ltb_lt in Hpositive. rewrite Hpositive in Hend. simpl in Hend.
    destruct (optimize_every_n_scans (options_ g) <? _)%Z.
    + destruct Hend as (? & ? & Hend). split; [done|]. split; [done|].
      destruct (scan_queue_ g); simpl in Hend;
        by destruct Hend as (? & ? & _).
    + by destruct Hend as (? & ? & ? & _).
  - intros result queue Hqueue.
    assert (HandleScanQueue_run result g
            = (g1 ← RunOptimization
                      (set_constraints_ (constraints_ g ++ result) g);
               run_buffered queue
                 (set_run_loop_closure_ false
                    (set_num_scans_since_last_loop_closure_ 0%Z g1))))
      as Hrun_buffered.
    { unfold HandleScanQueue_run.
      destruct (RunOptimization _) as [g1|] eqn:Hrun; [|done].
      apply RunOptimization_protocol in Hrun as (_ & Hq & _). simpl in Hq.
      cbn [mbind Outcome_bind].
      apply drain_scan_queue_run_buffered; simpl; rewrite Hq, Hqueue;
        [done|simpl; lia]. }
    split; [done|]. rewrite Hrun_buffered.
    apply within_fuel_bind; [apply RunOptimization_within_fuel|].
    intros g1. apply run_buffered_within_fuel.
  - done.
Qed.


(** ** Periodic optimization switched off *)

Lemma never_triggered_kept options g g' :
  never_triggered options g -> protocol_kept g g' ->
  never_triggered options g'.
Proof.
  intros (Ho & Hf & Hq & Hw & Hc) (Ho' & Hq' & _ & Hf' & Hw' & e & He & Hp).
  repeat split; try congruence.
  rewrite He. apply Forall_app. split; [done|].
  eapply Forall_impl; [done|]. by intros [] ?.
Qed.

Lemma never_triggered_work_item options w g g' :
  optimize_every_n_scans options = 0%Z ->
  never_triggered options g ->
  AddWorkItem w g = Ok g' ->
  never_triggered options g'.
Proof.
  intros Hzero Hinv. pose proof Hinv as (Ho & Hf & Hq & Hw & Hc).
  unfold AddWorkItem. rewrite Hq. destruct w; simpl; intros Hrun.
  - apply ComputeConstraintsForScan_then_end_of_scan in Hrun
      as (g1 & Hkept & Hend).
    apply (never_triggered_kept _ _ _ Hinv) in Hkept
      as (Ho1 & Hf1 & Hq1 & Hw1 & Hc1).
    apply end_of_scan_Ok in Hend as (Ho' & _ & Hend).
    rewrite Ho1, Hzero in Hend. simpl in Hend.
    destruct Hend as (Hf' & Hq' & Hw' & Hc').
    repeat split; try congruence.
    rewrite Hc'. apply Forall_app. split; [done|]. by repeat constructor.
  - apply bind_Ok in Hrun as (? & _ & [= <-]). done.
Qed.

Lemma never_triggered_step options g g' :
  optimize_every_n_scans options = 0%Z ->
  never_triggered options g -> step g g' -> never_triggered options g'.
Proof.
  intros Hzero Hinv Hstep. destruct Hstep as
    [? ? ? ? ? ? ? g g' Hrun | ? ? ? ? g g' Hrun | ? g g' _ Hrun
    | ? g g' Hpending _ _ | ? g].
  - apply AddScan_work_item in Hrun
      as (g1 & oldest & rest & Hkept & _ & _ & Hrun).
    eapply never_triggered_work_item; [done| |done].
    by eapply never_triggered_kept.
  - unfold AddImuData in Hrun.
    eapply never_triggered_work_item; [done| |done].
    by destruct Hinv as (? & ? & ? & ? & ?).
  - unfold RunFinalOptimization in Hrun.
    apply bind_Ok in Hrun as (g1 & Hrun & [= <-]).
    apply RunOptimization_protocol in Hrun.
    destruct Hinv as (Ho & Hf & Hq & Hw & Hc).
    eapply (never_triggered_kept _ _ g1) in Hrun.
    + by destruct Hrun as (? & ? & ? & ? & ?).
    + repeat split; try done. simpl.
      apply Forall_app. split; [done|]. by repeat constructor.
  - destruct Hinv as (_ & _ & _ & Hw & _). congruence.
  - done.
Qed.

(** C9.  With [optimize_every_n_scans = 0], in every state the object
    can reach: the pending flag is clear, the queue is null, no callback
    is registered, [HandleScanQueue] has never asked the matcher for a
    callback, and every work item runs inline. *)
Theorem never_periodic_when_disabled (options : SparsePoseGraphOptions)
  (g : SparsePoseGraph) :
  optimize_every_n_scans options = 0%Z ->
  reachable options g ->
  run_loop_closure_ g = false
  /\ scan_queue_ g = None
  /\ when_done (constraint_builder_ g) = None
  /\ (WhenDone HandleScanQueue_callback ∉ calls (constraint_builder_ g))
  /\ forall work_item, AddWorkItem work_item g = run_work_item work_item g.
Proof.
  intros Hzero Hreach.
  assert (never_triggered options g) as (Ho & Hf & Hq & Hw & Hc).
  { induction Hreach as [|g g' _ IH Hstep].
    - repeat split. simpl. constructor.
    - by eapply never_triggered_step. }
  repeat split; try done.
  - intros Hin. rewrite Forall_forall in Hc. by eapply Hc.
  - intros work_item. unfold AddWorkItem. by rewrite Hq.
Qed.


(** ** Intra-submap constraints *)

(** C7.  A per-scan computation that completes has allocated one node id
    [n]; every insertion submap has an id and was unfinished; the
    constraints have grown by exactly one intra-submap constraint per
    insertion submap, in order, with transform (local pose)^-1 * pose and
    the square-root information [ComputeSpdMatrixSqrtInverse] makes of
    the covariance and the configured eigenvalue bound; and [n] is in the
    node set of every insertion submap afterwards.  Consequently, in
    every state of a history every intra-submap constraint's node is in
    the node set of the constraint's submap. *)
Theorem intra_submap_constraints :
  (forall scan_index matching_submap insertion_submaps finished_submap pose
          covariance g g',
     ComputeConstraintsForScan scan_index matching_submap insertion_submaps
       finished_submap pose covariance g = Ok g' ->
     exists n ids,
       scan_index_to_node_id_ g' = scan_index_to_node_id_ g ++ [n]
       /\ Forall2 (fun s id => submap_ids_ g !! Submap_ptr s = Some id)
            insertion_submaps ids
       /\ constraints_ g'
          = constraints_ g
            ++ zip_with (intra_submap_constraint n pose covariance g)
                 insertion_submaps ids
       /\ Forall (fun id => exists state,
                    state_of id g = Some state /\ finished state = false)
            ids
       /\ Forall (fun id => exists state,
                    state_of id g' = Some state /\ n ∈ node_ids state) ids)
  /\ (forall options g,
        reachable options g ->
        forall c, c ∈ constraints_ g -> tag c = INTRA_SUBMAP ->
          exists state,
            state_of (submap_id c) g = Some state
            /\ node_id c ∈ node_ids state).
Proof.
  split.
  - intros scan_index matching_submap insertion_submaps finished_submap
      pose covariance g g' Hrun.
    apply ComputeConstraintsForScan_phases in Hrun
      as (g1 & matching_id & g2 & g3 & g4 & g5 & _ & _ & _ & Hn & Hs2 & Hc2
          & Hi2 & Ho2 & Hintra & Hmatch & Hfinish & Hend).
    assert (scan_index_to_node_id_ g3 = scan_index_to_node_id_ g2) as Hn3.
    { revert Hintra. apply for_each_view. intros s ? ?.
      by apply add_intra_submap_constraint_view. }
    apply intra_submap_loop_Ok in Hintra
      as (ids & Hids & Hcs & Hunfinished & Hin & _ & _).
    apply match_against_finished_submaps_same_but_matcher in Hmatch.
    apply finish_submap_grows in Hfinish as Hgrow45.
    eexists _, ids. split_and!.
    + rewrite (end_of_scan_view scan_index_to_node_id_ _ _ _ ) by done.
      rewrite (finish_submap_view scan_index_to_node_id_ _ _ _) by done.
      rewrite (same_but_matcher_view scan_index_to_node_id_ _ _) by done.
      by rewrite Hn3, Hn.
    + by rewrite <- Hi2.
    + rewrite (end_of_scan_view constraints_ _ _ _ ) by done.
      rewrite (finish_submap_view constraints_ _ _ _) by done.
      rewrite (same_but_matcher_view constraints_ _ _) by done.
      rewrite Hcs, Hc2. unfold intra_submap_constraint. by rewrite Ho2.
    + unfold state_of in *. by rewrite <- Hs2.
    + eapply Forall_impl; [done|]. intros id (state & Hstate & Hn').
      unfold state_of in *.
      rewrite <- (same_but_matcher_view submap_states_ g3 g4) in Hstate
        by done.
      destruct Hgrow45 as [Hgrow45 _].
      destruct (Hgrow45 _ _ _ Hstate) as (state' & Hstate' & Hsub).
      exists state'.
      rewrite (end_of_scan_view submap_states_ _ _ _ ) by done.
      split; [done|]. set_solver.
  - intros options g Hreach c Hc Htag.
    apply reachable_sound in Hreach as [Hsound _].
    rewrite Forall_forall in Hsound. by apply Hsound.
Qed.


(** ** A submap that has just been completed *)

Lemma old_scans_without_current (state : SubmapState) (ids : list NodeId.t)
  (n : NodeId.t) :
  n ∈ node_ids state ->
  List.filter (old_scan state (ids ++ [n])) (seq 0 (length (ids ++ [n])))
  = List.filter (old_scan state ids) (seq 0 (length ids)).
Proof.
  intros Hn. rewrite length_app. simpl.
  rewrite seq_app, List.filter_app. simpl.
  unfold old_scan at 2. rewrite list_lookup_middle by done.
  rewrite bool_decide_false by tauto. rewrite app_nil_r.
  apply List.filter_ext_in. intros i Hi. apply in_seq in Hi.
  unfold old_scan. by rewrite lookup_app_l by lia.
Qed.

Lemma alter2_at {A} (f h : A -> A) (i j : nat) (v : list (list A)) (x : A) :
  lookup2 v i j = Some x -> f x = h x ->
  alter2 f i j v = alter2 h i j v.
Proof.
  unfold alter2, lookup2. intros Hx Hfh.
  destruct (v !! i) as [t|] eqn:Hi; simpl in Hx; [|done].
  apply list_eq. intros k. destruct (decide (k = i)) as [->|Hk].
  - rewrite !list_lookup_alter_eq, Hi. simpl. f_equal.
    apply list_eq. intros m. destruct (decide (m = j)) as [->|Hm].
    + rewrite !list_lookup_alter_eq, Hx. simpl. by rewrite Hfh.
    + by rewrite !list_lookup_alter_ne.
  - by rewrite !list_lookup_alter_ne.
Qed.

(** C8.  [AddScan] books the scan (lines 95-131) and passes the first
    insertion submap on as [finished_submap] exactly when its flag was
    set at the call.  When a per-scan computation with such a submap [s]
    completes: lines 223-278 have led from [g] to a state [g4] in which
    the state of [s] was not finished; from [g4] the decision
    [ComputeConstraint] has run, in scan order, for exactly the earlier
    scans whose node id is not in the node set of [s], which has led to
    [g5] with the submap states of [g4]; and [g'] is what the end of the
    scan (lines 291-302) makes of [g5] with the state of [s] replaced by
    the same state with the flag set.  So in [g'] the state of [s] has
    its submap, its node ids and the flag set, and every other state is
    as in [g4]. *)
Theorem finished_submap_old_scans :
  (forall time range_data pose covariance trajectory matching_submap
          insertion_submaps g g',
     AddScan time range_data pose covariance trajectory matching_submap
       insertion_submaps g = Ok g' ->
     exists g1 oldest rest,
       insertion_submaps = oldest :: rest
       /\ AddScan_registration time range_data pose trajectory
            insertion_submaps g = Ok g1
       /\ AddWorkItem
            (ComputeConstraintsForScan_item (length (trajectory_nodes_ g))
               matching_submap insertion_submaps
               (if Submap_finished oldest then Some oldest else None)
               pose covariance) g1 = Ok g')
  /\ (forall scan_index matching_submap insertion_submaps s pose covariance
             g g',
        s ∈ insertion_submaps ->
        ComputeConstraintsForScan scan_index matching_submap
          insertion_submaps (Some s) pose covariance g = Ok g' ->
        exists id state g4 g5,
          let completed :=
            {| submap := submap state; node_ids := node_ids state;
               finished := true |} in
          submap_ids_ g !! Submap_ptr s = Some id
          /\ scan_index = length (scan_index_to_node_id_ g)
          /\ ComputeConstraintsForScan_new_scan scan_index matching_submap
               insertion_submaps pose covariance g = Ok g4
          /\ state_of id g4 = Some state
          /\ finished state = false
          /\ for_each (fun i => ComputeConstraint i id)
               (List.filter (old_scan state (scan_index_to_node_id_ g))
                  (seq 0 scan_index)) g4 = Ok g5
          /\ submap_states_ g5 = submap_states_ g4
          /\ end_of_scan scan_index
               (set_submap_states_
                  (alter2 (fun _ => completed) (SubmapId.trajectory_id id)
                     (SubmapId.submap_index id) (submap_states_ g5)) g5)
             = Ok g'
          /\ state_of id g' = Some completed
          /\ forall id', id' <> id -> state_of id' g' = state_of id' g4).
Proof.
  split.
  - intros time range_data pose covariance trajectory matching_submap
      insertion_submaps g g' Hrun.
    rewrite AddScan_split in Hrun.
    apply bind_Ok in Hrun as (g1 & Hregister & Hrun).
    apply bind_Ok in Hrun as (w & Hitem & Hrun).
    unfold AddScan_work_item_of in Hitem.
    apply bind_Ok in Hitem as (oldest & Hfront & [= <-]).
    destruct insertion_submaps as [|oldest' rest]; [done|].
    injection Hfront as ->.
    by exists g1, oldest, rest.
  - intros scan_index matching_submap insertion_submaps s pose covariance
      g g' Hs Hrun.
    rewrite ComputeConstraintsForScan_split in Hrun.
    apply bind_Ok in Hrun as (g4 & Hnew & Hrun).
    apply bind_Ok in Hrun as (g5 & Hfinish & Hend).
    pose proof Hnew as Hphases.
    apply ComputeConstraintsForScan_new_scan_phases in Hphases
      as (g1 & matching_id & g2 & g3 & _ & _ & Hindex & Hn & Hs2
          & Hc2 & Hi2 & Ho2 & Hintra & Hmatch).
    assert (scan_index_to_node_id_ g3 = scan_index_to_node_id_ g2
            /\ submap_ids_ g3 = submap_ids_ g2) as [Hn3 Hi3].
    { split; (revert Hintra; apply for_each_view; intros ? ? ?;
              by apply add_intra_submap_constraint_view). }
    apply intra_submap_loop_Ok in Hintra
      as (ids & Hids & _ & _ & Hin & _ & _).
    apply match_against_finished_submaps_same_but_matcher in Hmatch.
    apply finish_submap_Ok in Hfinish
      as (id & state & g6 & Hid & Hstate & Hunfinished & Hold & ->).
    pose proof (ComputeConstraintsForOldScans_same_but_matcher _ _ _ Hold)
      as Hsame.
    rewrite (ComputeConstraintsForOldScans_filter _ _ _ _ Hid Hstate)
      in Hold.
    rewrite (same_but_matcher_view submap_ids_ g3 g4) in Hid by done.
    rewrite Hi3, Hi2 in Hid.
    rewrite (same_but_matcher_view scan_index_to_node_id_ g3 g4) in Hold
      by done.
    rewrite Hn3, Hn in Hold.
    (* the scan itself is in the node set of [s] *)
    apply list_elem_of_lookup in Hs as [k Hk].
    destruct (Forall2_lookup_l _ _ _ _ _ Hids Hk) as (id' & Hk' & Hid').
    assert (id' = id) as -> by congruence.
    rewrite Forall_forall in Hin.
    destruct (Hin id) as (state' & Hstate' & Hmember).
    { by eapply list_elem_of_lookup_2. }
    unfold state_of in Hstate'.
    rewrite <- (same_but_matcher_view submap_states_ g3 g4) in Hstate'
      by done.
    assert (state' = state) as -> by (unfold state_of in Hstate; congruence).
    rewrite old_scans_without_current in Hold by done.
    assert (submap_states_ g6 = submap_states_ g4) as Hstates
      by by apply (same_but_matcher_view submap_states_).
    assert (alter2 mark_finished (SubmapId.trajectory_id id)
              (SubmapId.submap_index id) (submap_states_ g6)
            = alter2 (fun _ => {| submap := submap state;
                                  node_ids := node_ids state;
                                  finished := true |})
                (SubmapId.trajectory_id id) (SubmapId.submap_index id)
                (submap_states_ g6)) as Hflag.
    { apply (alter2_at _ _ _ _ _ state); [|done].
      rewrite Hstates. exact Hstate. }
    exists id, state, g4, g6. cbv zeta.
    split; [done|]. split; [done|]. split; [done|].
    split; [done|]. split; [done|]. split; [by rewrite Hindex|].
    split; [done|]. split; [by rewrite <- Hflag|]. split.
    + unfold state_of.
      rewrite (end_of_scan_view submap_states_ _ _ _ ) by done. simpl.
      rewrite lookup2_alter2, decide_True by done.
      rewrite Hstates. unfold state_of in Hstate. by rewrite Hstate.
    + intros id0 Hne. unfold state_of.
      rewrite (end_of_scan_view submap_states_ _ _ _ ) by done. simpl.
      rewrite lookup2_alter2, decide_False.
      * by rewrite Hstates.
      * intros [? ?]. apply Hne. by destruct id, id0; simplify_eq/=.
Qed.


(** ** Running the optimization *)

(** C10.  When the optimization problem holds no submap data,
    [RunOptimization] returns the object as it is, and
    [RunFinalOptimization] returns without a [Solve]: node poses, the
    optimized snapshot and the connectivity structures are untouched
    (the constraints only take the matcher's last batch, the iteration
    cap is set and restored).  In every state of a history in which no
    node id has been allocated, the problem holds no submap data and the
    solver has never run. *)
Theorem RunOptimization_without_submap_data (g : SparsePoseGraph) :
  submap_data (optimization_problem_ g) = [] ->
  RunOptimization g = Ok g
  /\ (forall result,
        exists g',
          RunFinalOptimization result g = Ok g'
          /\ num_solves (optimization_problem_ g')
             = num_solves (optimization_problem_ g)
          /\ submap_data (optimization_problem_ g') = []
          /\ node_data (optimization_problem_ g')
             = node_data (optimization_problem_ g)
          /\ trajectory_nodes_ g' = trajectory_nodes_ g
          /\ constraints_ g' = constraints_ g ++ result
          /\ optimized_submap_transforms_ g'
             = optimized_submap_transforms_ g
          /\ connected_components_ g' = connected_components_ g
          /\ reverse_connected_components_ g'
             = reverse_connected_components_ g)
  /\ (forall options g0,
        reachable options g0 ->
        scan_index_to_node_id_ g0 = [] ->
        submap_data (optimization_problem_ g0) = []
        /\ num_solves (optimization_problem_ g0) = 0).
Proof.
  intros Hempty. split_and!.
  - unfold RunOptimization. by rewrite Hempty.
  - intros result. unfold RunFinalOptimization, RunOptimization. simpl.
    rewrite Hempty. simpl. eexists. split; [done|]. by simpl.
  - intros options g0 Hreach. by apply reachable_sound in Hreach as [_ ?].
Qed.

Lemma ExtrapolateSubmapTransforms_states submap_transforms trajectory_id
  g g' :
  submap_states_ g' = submap_states_ g ->
  ExtrapolateSubmapTransforms submap_transforms trajectory_id g'
  = ExtrapolateSubmapTransforms submap_transforms trajectory_id g.
Proof.
  intros Hs. unfold ExtrapolateSubmapTransforms. rewrite Hs.
  destruct (_ <=? _); [done|].
  destruct (at_ _ _) as [states|]; [|done]. simpl.
  rewrite (for_each_ext _
             (extrapolate_push submap_transforms trajectory_id g)); [done|].
  intros state result. unfold extrapolate_push. by rewrite Hs.
Qed.

Lemma set_node_pose_Ok i pose g g' :
  set_node_pose i pose g = Ok g' ->
  exists node,
    trajectory_nodes_ g !! i = Some node
    /\ g' = set_trajectory_nodes_
              (<[i := with_pose node pose]> (trajectory_nodes_ g)) g.
Proof.
  unfold set_node_pose. intros Hrun.
  apply bind_Ok in Hrun as (node & Hnode & [= <-]).
  apply index_Ok in Hnode. by exists node.
Qed.

(** The first loop of [RunOptimization]. *)
Lemma copy_optimized_poses_Ok g0 g1 :
  for_each copy_optimized_pose
    (seq 0 (length (scan_index_to_node_id_ g0))) g0 = Ok g1 ->
  g1 = set_trajectory_nodes_ (trajectory_nodes_ g1) g0
  /\ length (trajectory_nodes_ g1) = length (trajectory_nodes_ g0)
  /\ (forall i n,
        scan_index_to_node_id_ g0 !! i = Some n ->
        exists node entry,
          trajectory_nodes_ g0 !! i = Some node
          /\ lookup2 (node_data (optimization_problem_ g0))
               (NodeId.trajectory_id n) (NodeId.node_index n) = Some entry
          /\ trajectory_nodes_ g1 !! i
             = Some (with_pose node (point_cloud_pose entry)))
  /\ (forall i,
        length (scan_index_to_node_id_ g0) <= i ->
        trajectory_nodes_ g1 !! i = trajectory_nodes_ g0 !! i).
Proof.
  intros Hrun.
  apply (for_each_partial _
    (fun done s =>
       s = set_trajectory_nodes_ (trajectory_nodes_ s) g0
       /\ length (trajectory_nodes_ s) = length (trajectory_nodes_ g0)
       /\ (forall i n,
             i < length done ->
             scan_index_to_node_id_ g0 !! i = Some n ->
             exists node entry,
               trajectory_nodes_ g0 !! i = Some node
               /\ lookup2 (node_data (optimization_problem_ g0))
                    (NodeId.trajectory_id n) (NodeId.node_index n)
                  = Some entry
               /\ trajectory_nodes_ s !! i
                  = Some (with_pose node (point_cloud_pose entry)))
       /\ (forall i,
             length done <= i ->
             trajectory_nodes_ s !! i = trajectory_nodes_ g0 !! i)))
    in Hrun.
  - destruct Hrun as (Hg1 & Hlen & Hlow & Hhigh).
    rewrite length_seq in Hlow, Hhigh. split_and!; try done.
    intros i n Hn. apply Hlow; [|done]. by eapply lookup_lt_Some.
  - split_and!; [by destruct g0|done|simpl; lia|done].
  - clear Hrun g1. intros done i rest s s' Hsplit
      (Hs & Hlen & Hlow & Hhigh) Hstep.
    apply seq_middle in Hsplit as [-> _]. simpl in *.
    unfold copy_optimized_pose in Hstep.
    apply bind_Ok in Hstep as (n & Hn & Hstep).
    apply bind_Ok in Hstep as (entry & Hentry & Hstep).
    apply index_Ok in Hn. apply at2_lookup2 in Hentry.
    apply set_node_pose_Ok in Hstep as (node & Hnode & ->).
    assert (scan_index_to_node_id_ s = scan_index_to_node_id_ g0
            /\ optimization_problem_ s = optimization_problem_ g0)
      as [Hn0 Hop0] by by rewrite Hs.
    rewrite Hn0 in Hn. rewrite Hop0 in Hentry.
    rewrite Hhigh in Hnode by done.
    split_and!.
    + clear -Hs. setters. f_equal; try done; by rewrite Hs.
    + simpl. by rewrite length_insert.
    + intros j m Hj Hm. rewrite length_app in Hj. simpl in *.
      destruct (decide (j = length done)) as [->|Hne].
      * assert (m = n) as -> by congruence.
        exists node, entry. split_and!; try done.
        apply list_lookup_insert_eq. rewrite Hlen.
        by eapply lookup_lt_Some.
      * rewrite list_lookup_insert_ne by done. apply Hlow; [lia|done].
    + intros j Hj. rewrite length_app in Hj. simpl in *.
      rewrite list_lookup_insert_ne by lia. apply Hhigh. lia.
Qed.

(** One turn of the second loop: the transform of the node's trajectory
    is looked up, and computed only when it is not there yet. *)
Lemma extrapolate_later_pose_Ok i cache s cache' s' :
  extrapolate_later_pose i (cache, s) = Ok (cache', s') ->
  exists node,
    trajectory_nodes_ s !! i = Some node
    /\ let trajectory_id := ConstantData_trajectory_id (constant_data node) in
       match cache !! trajectory_id with
       | Some e =>
           cache' = cache
           /\ s' = set_trajectory_nodes_
                     (<[i := with_pose node (e * TrajectoryNode_pose node)]>
                        (trajectory_nodes_ s)) s
       | None =>
           exists e,
             extrapolation_transform
               (submap_data (optimization_problem_ s))
               (optimized_submap_transforms_ s) trajectory_id s = Some e
             /\ cache' = <[trajectory_id := e]> cache
             /\ s' = set_trajectory_nodes_
                       (<[i := with_pose node
                                 (e * TrajectoryNode_pose node)]>
                          (trajectory_nodes_ s)) s
       end.
Proof.
  unfold extrapolate_later_pose. intros Hrun.
  apply bind_Ok in Hrun as (node & Hnode & Hrun).
  apply index_Ok in Hnode. exists node. split; [done|]. simpl.
  apply bind_Ok in Hrun as (cache1 & Hcache & Hrun).
  apply bind_Ok in Hrun as (s1 & Hset & [= <- <-]).
  apply set_node_pose_Ok in Hset as (node' & Hnode' & ->).
  assert (node' = node) as -> by congruence.
  destruct (cache !! _) as [e|] eqn:Hlookup.
  - injection Hcache as <-. by rewrite Hlookup.
  - apply bind_Ok in Hcache as (new & Hnew & Hcache).
    apply bind_Ok in Hcache as (old & Hold & Hcache).
    apply bind_Ok in Hcache as (? & _ & Hcache).
    apply bind_Ok in Hcache as (new_tail & Hnew_tail & Hcache).
    apply bind_Ok in Hcache as (old_tail & Hold_tail & [= <-]).
    apply back_Ok in Hnew_tail, Hold_tail.
    exists (new_tail * inverse old_tail).
    unfold extrapolation_transform.
    rewrite Hnew, Hold, Hnew_tail, Hold_tail. simpl.
    by rewrite lookup_insert_eq.
Qed.

(** The second loop of [RunOptimization], over the nodes from [n] on. *)
Lemma extrapolate_later_poses_Ok g1 n m cache g2 :
  for_each extrapolate_later_pose (seq n m) (∅, g1) = Ok (cache, g2) ->
  let transform trajectory_id :=
    extrapolation_transform (submap_data (optimization_problem_ g1))
      (optimized_submap_transforms_ g1) trajectory_id g1 in
  g2 = set_trajectory_nodes_ (trajectory_nodes_ g2) g1
  /\ length (trajectory_nodes_ g2) = length (trajectory_nodes_ g1)
  /\ (forall i node,
        n <= i < n + m ->
        trajectory_nodes_ g1 !! i = Some node ->
        exists e,
          transform (ConstantData_trajectory_id (constant_data node))
          = Some e
          /\ cache !! ConstantData_trajectory_id (constant_data node)
             = Some e
          /\ trajectory_nodes_ g2 !! i
             = Some (with_pose node (e * TrajectoryNode_pose node)))
  /\ (forall i,
        ~ (n <= i < n + m) ->
        trajectory_nodes_ g2 !! i = trajectory_nodes_ g1 !! i)
  /\ (forall trajectory_id e,
        cache !! trajectory_id = Some e ->
        transform trajectory_id = Some e
        /\ exists i node,
             n <= i < n + m
             /\ trajectory_nodes_ g1 !! i = Some node
             /\ ConstantData_trajectory_id (constant_data node)
                = trajectory_id).
Proof.
  intros Hrun transform.
  apply (for_each_partial _
    (fun done acc =>
       acc.2 = set_trajectory_nodes_ (trajectory_nodes_ acc.2) g1
       /\ length (trajectory_nodes_ acc.2) = length (trajectory_nodes_ g1)
       /\ (forall i node,
             n <= i < n + length done ->
             trajectory_nodes_ g1 !! i = Some node ->
             exists e,
               transform (ConstantData_trajectory_id (constant_data node))
               = Some e
               /\ acc.1 !! ConstantData_trajectory_id (constant_data node)
                  = Some e
               /\ trajectory_nodes_ acc.2 !! i
                  = Some (with_pose node (e * TrajectoryNode_pose node)))
       /\ (forall i,
             ~ (n <= i < n + length done) ->
             trajectory_nodes_ acc.2 !! i = trajectory_nodes_ g1 !! i)
       /\ (forall trajectory_id e,
             acc.1 !! trajectory_id = Some e ->
             transform trajectory_id = Some e
             /\ exists i node,
                  n <= i < n + length done
                  /\ trajectory_nodes_ g1 !! i = Some node
                  /\ ConstantData_trajectory_id (constant_data node)
                     = trajectory_id)))
    in Hrun.
  - simpl in Hrun. by rewrite length_seq in Hrun.
  - simpl. split_and!; [by destruct g1|done|intros; lia|done|].
    intros trajectory_id e Hlookup. by rewrite lookup_empty in Hlookup.
  - clear Hrun cache g2.
    intros done i rest [cache s] [cache' s'] Hsplit
      (Hs & Hlen & Hdone & Hrest & Hcache) Hstep.
    apply seq_middle in Hsplit as [-> Hi]. simpl in *.
    apply extrapolate_later_pose_Ok in Hstep as (node & Hnode & Hstep).
    rewrite Hrest in Hnode by lia.
    assert (submap_states_ s = submap_states_ g1
            /\ optimization_problem_ s = optimization_problem_ g1
            /\ optimized_submap_transforms_ s
               = optimized_submap_transforms_ g1) as (Hs1 & Hs2 & Hs3)
      by by rewrite Hs.
    simpl in Hstep.
    assert (exists e,
              transform (ConstantData_trajectory_id (constant_data node))
              = Some e
              /\ cache' !! ConstantData_trajectory_id (constant_data node)
                 = Some e
              /\ (forall trajectory_id e',
                    cache !! trajectory_id = Some e' ->
                    cache' !! trajectory_id = Some e')
              /\ (forall trajectory_id e',
                    cache' !! trajectory_id = Some e' ->
                    cache !! trajectory_id = Some e'
                    \/ trajectory_id
                       = ConstantData_trajectory_id (constant_data node))
              /\ s' = set_trajectory_nodes_
                        (<[n + length done :=
                             with_pose node (e * TrajectoryNode_pose node)]>
                           (trajectory_nodes_ s)) s)
      as (e & He & Hnew & Hkeep & Hfrom & ->).
    { destruct (cache !! _) as [e|] eqn:Hlookup.
      - destruct Hstep as [-> ->]. exists e.
        destruct (Hcache _ _ Hlookup) as [He _]. split_and!; auto.
      - destruct Hstep as (e & He & -> & ->). exists e. split_and!.
        + unfold transform, extrapolation_transform.
          unfold extrapolation_transform in He.
          rewrite Hs2, Hs3 in He.
          by rewrite !(ExtrapolateSubmapTransforms_states _ _ g1 s) in He.
        + by rewrite lookup_insert_eq.
        + intros trajectory_id e' Hin.
          rewrite lookup_insert_ne; [done|]. congruence.
        + intros trajectory_id e' Hin.
          destruct (decide (ConstantData_trajectory_id (constant_data node)
                            = trajectory_id)) as [<-|Hne]; [by right|].
          left. by rewrite lookup_insert_ne in Hin.
        + done. }
    rewrite length_app. simpl. split_and!.
    + clear -Hs. setters. f_equal; try done; by rewrite Hs.
    + by rewrite length_insert.
    + intros j node' Hj Hnode'.
      destruct (decide (j = n + length done)) as [->|Hne].
      * assert (node' = node) as -> by congruence.
        exists e. split_and!; try done.
        apply list_lookup_insert_eq. rewrite Hlen.
        by eapply lookup_lt_Some.
      * rewrite list_lookup_insert_ne by done.
        destruct (Hdone j node') as (e' & ? & ? & ?); [lia|done|].
        exists e'. split_and!; auto.
    + intros j Hj. rewrite list_lookup_insert_ne by lia. apply Hrest. lia.
    + intros trajectory_id e' Hin.
      destruct (Hfrom _ _ Hin) as [Hold| ->].
      * destruct (Hcache _ _ Hold) as (? & j & node' & ? & ? & ?).
        split; [done|]. exists j, node'. split_and!; [lia..|done|done].
      * assert (e' = e) as -> by congruence.
        split; [done|]. exists (n + length done), node.
        split_and!; [lia..|done|done].
Qed.

(** C2.  A solve that completes leaves the list of nodes as long as it
    was.  Every scan index with a node id holds the node with the pose
    the solved problem has for that node id.  Every later node of a
    trajectory [t] holds its old pose left-multiplied by [E_t], the tail
    of [ExtrapolateSubmapTransforms] over the solved submap data composed
    with the inverse of the tail of [ExtrapolateSubmapTransforms] over
    the previous snapshot.  The map the second loop builds has an entry,
    [E_t], for exactly the trajectories of the later nodes, and a turn of
    the loop that finds the entry of its trajectory leaves the map as it
    is. *)
Theorem RunOptimization_poses (g g' : SparsePoseGraph) :
  submap_data (optimization_problem_ g) <> [] ->
  RunOptimization g = Ok g' ->
  let solved :=
    OptimizationProblem_Solve (constraints_ g) (optimization_problem_ g) in
  let num_optimized_poses := length (scan_index_to_node_id_ g) in
  let E trajectory_id :=
    extrapolation_transform (submap_data solved)
      (optimized_submap_transforms_ g) trajectory_id g in
  length (trajectory_nodes_ g') = length (trajectory_nodes_ g)
  /\ (forall i n,
        scan_index_to_node_id_ g !! i = Some n ->
        exists node entry,
          trajectory_nodes_ g !! i = Some node
          /\ lookup2 (node_data solved) (NodeId.trajectory_id n)
               (NodeId.node_index n) = Some entry
          /\ trajectory_nodes_ g' !! i
             = Some (with_pose node (point_cloud_pose entry)))
  /\ (forall i node,
        num_optimized_poses <= i ->
        trajectory_nodes_ g !! i = Some node ->
        exists e,
          E (ConstantData_trajectory_id (constant_data node)) = Some e
          /\ trajectory_nodes_ g' !! i
             = Some (with_pose node (e * TrajectoryNode_pose node)))
  /\ (exists g1 extrapolation_transforms g2,
        for_each extrapolate_later_pose
          (seq num_optimized_poses
             (length (trajectory_nodes_ g) - num_optimized_poses))
          (∅, g1) = Ok (extrapolation_transforms, g2)
        /\ trajectory_nodes_ g' = trajectory_nodes_ g2
        /\ (forall trajectory_id e,
              extrapolation_transforms !! trajectory_id = Some e <->
              E trajectory_id = Some e
              /\ exists i node,
                   num_optimized_poses <= i
                   /\ trajectory_nodes_ g !! i = Some node
                   /\ ConstantData_trajectory_id (constant_data node)
                      = trajectory_id))
  /\ (forall i cache s cache' s' node,
        extrapolate_later_pose i (cache, s) = Ok (cache', s') ->
        trajectory_nodes_ s !! i = Some node ->
        is_Some (cache !! ConstantData_trajectory_id (constant_data node)) ->
        cache' = cache).
Proof.
  intros Hdata Hrun solved num_optimized_poses E.
  unfold RunOptimization in Hrun.
  destruct (submap_data (optimization_problem_ g)) as [|d data] eqn:Hd;
    [done|]. simpl in Hrun.
  apply bind_Ok in Hrun as (g1 & Hcopy & Hrun).
  apply bind_Ok in Hrun as ([cache g2] & Hlater & [= <-]).
  apply (copy_optimized_poses_Ok (set_optimization_problem_ solved g))
    in Hcopy as (Hg1 & Hlen1 & Hlow & Hhigh).
  simpl in Hlen1, Hlow, Hhigh. rewrite Hlen1 in Hlater.
  pose proof Hlater as Hloop.
  apply extrapolate_later_poses_Ok in Hlater
    as (Hg2 & Hlen2 & Hdone & Hrest & Hcache).
  assert (forall trajectory_id,
            extrapolation_transform
              (submap_data (optimization_problem_ g1))
              (optimized_submap_transforms_ g1) trajectory_id g1
            = E trajectory_id) as HE.
  { intros trajectory_id. unfold E, extrapolation_transform.
    assert (submap_states_ g1 = submap_states_ g
            /\ optimization_problem_ g1 = solved
            /\ optimized_submap_transforms_ g1
               = optimized_submap_transforms_ g) as (E1 & E2 & E3)
      by by rewrite Hg1.
    rewrite E2, E3.
    by rewrite !(ExtrapolateSubmapTransforms_states _ _ g g1). }
  assert (forall i,
            num_optimized_poses <= i ->
            i < length (trajectory_nodes_ g) ->
            num_optimized_poses <= i
            < num_optimized_poses
              + (length (trajectory_nodes_ g) - num_optimized_poses))
    as Hrange by (intros; lia).
  simpl. split_and!.
  - congruence.
  - intros i n Hn. destruct (Hlow i n Hn) as (node & entry & ? & ? & Hi).
    exists node, entry. split_and!; try done.
    rewrite Hrest; [done|]. apply lookup_lt_Some in Hn.
    fold num_optimized_poses. lia.
  - intros i node Hi Hnode.
    destruct (Hdone i node) as (e & He & _ & Hpose).
    { apply Hrange; [done|]. by eapply lookup_lt_Some. }
    { by rewrite Hhigh. }
    exists e. by rewrite <- HE.
  - exists g1, cache, g2. split_and!; [done|done|].
    intros trajectory_id e. split.
    + intros Hin. destruct (Hcache _ _ Hin) as (He & i & node & ? & Hn & ?).
      rewrite <- HE. split; [done|]. exists i, node.
      rewrite Hhigh in Hn by (fold num_optimized_poses; lia).
      split_and!; [lia|done|done].
    + intros (He & i & node & Hi & Hnode & <-).
      destruct (Hdone i node) as (e' & He' & Hin & _).
      { apply Hrange; [done|]. by eapply lookup_lt_Some. }
      { by rewrite Hhigh. }
      rewrite HE in He'. congruence.
  - intros i c s c' s' node Hstep Hnode [e He].
    apply extrapolate_later_pose_Ok in Hstep as (node' & Hnode' & Hstep).
    assert (node' = node) as -> by congruence.
    simpl in Hstep. rewrite He in Hstep. by destruct Hstep as [-> _].
Qed.

(** ** The operations of a history, taken apart *)

(** Computes field reads of field updates, and nothing else. *)
Ltac fields :=
  cbv beta iota delta
    [set_scan_queue_ set_num_scans_since_last_loop_closure_
     set_run_loop_closure_ set_optimization_problem_
     set_constraint_builder_ set_constraints_ set_submap_ids_
     set_submap_states_ set_connected_components_
     set_reverse_connected_components_ set_constant_node_data_
     set_trajectory_nodes_ set_trajectory_connectivity_
     set_trajectory_ids_ set_global_localization_samplers_
     set_num_nodes_in_trajectory_ set_scan_index_to_node_id_
     set_optimized_submap_transforms_
     options_ scan_queue_ num_scans_since_last_loop_closure_
     run_loop_closure_ optimization_problem_ constraint_builder_
     constraints_ submap_ids_ submap_states_ connected_components_
     reverse_connected_components_ constant_node_data_ trajectory_nodes_
     trajectory_connectivity_ trajectory_ids_
     global_localization_samplers_ num_nodes_in_trajectory_
     scan_index_to_node_id_ optimized_submap_transforms_].

Lemma emplace_None `{Countable K} {A} (k : K) (v : A) (m : gmap K A) :
  m !! k = None -> emplace k v m = <[k := v]> m.
Proof. unfold emplace. by intros ->. Qed.

Lemma emplace_Some `{Countable K} {A} (k : K) (v w : A) (m : gmap K A) :
  m !! k = Some w -> emplace k v m = m.
Proof. unfold emplace. by intros ->. Qed.

Lemma map_at_Ok `{Countable K} {A} (m : gmap K A) (k : K) (a : A) :
  map_at m k = Ok a <-> m !! k = Some a.
Proof. unfold map_at. destruct (m !! k); split; congruence. Qed.

(** [AddScan]'s registration, field by field. *)
Lemma AddScan_registration_Ok time range_data pose trajectory
  insertion_submaps g g1 :
  AddScan_registration time range_data pose trajectory insertion_submaps g
  = Ok g1 ->
  exists local_to_global trajectory_id newest,
    let data :=
      {| ConstantData_time := time;
         range_data_3d := Compress range_data;
         ConstantData_trajectory_id := trajectory_id;
         tracking_to_pose := Identity |} in
    let trajectory_ids :=
      emplace (Submaps_ptr trajectory) (size (trajectory_ids_ g))
        (trajectory_ids_ g) in
    let new_id :=
      SubmapId.mk trajectory_id
        (length (default [] (submap_states_ g !! trajectory_id))) in
    let registered := is_Some (submap_ids_ g !! Submap_ptr newest) in
    GetLocalToGlobalTransform trajectory g = Ok local_to_global
    /\ trajectory_ids !! Submaps_ptr trajectory = Some trajectory_id
    /\ (Z.of_nat (length (trajectory_nodes_ g)) < INT_MAX)%Z
    /\ last insertion_submaps = Some newest
    /\ g1 = set_global_localization_samplers_
              (match global_localization_samplers_ g !! trajectory_id with
               | None =>
                   <[trajectory_id :=
                       make_sampler (global_sampling_ratio (options_ g))]>
                     (global_localization_samplers_ g)
               | Some _ => global_localization_samplers_ g
               end)
              (set_submap_states_
                 (if decide registered then submap_states_ g
                  else push_back_at trajectory_id
                         {| submap := newest; node_ids := ∅;
                            finished := false |} (submap_states_ g))
                 (set_submap_ids_
                    (if decide registered then submap_ids_ g
                     else <[Submap_ptr newest := new_id]> (submap_ids_ g))
                    (set_trajectory_connectivity_
                       (Add trajectory_id (trajectory_connectivity_ g))
                       (set_trajectory_nodes_
                          (trajectory_nodes_ g
                           ++ [{| constant_data := data;
                                  TrajectoryNode_pose :=
                                    local_to_global * pose |}])
                          (set_constant_node_data_
                             (constant_node_data_ g ++ [data])
                             (set_trajectory_ids_ trajectory_ids g)))))).
Proof.
  unfold AddScan_registration. intros Hrun.
  apply bind_Ok in Hrun as (local_to_global & Hlocal & Hrun).
  apply bind_Ok in Hrun as (trajectory_id & Hid & Hrun).
  apply bind_Ok in Hrun as (? & Hmax & Hrun).
  apply bind_Ok in Hrun as (newest & Hnewest & Hrun).
  apply bind_Ok in Hrun as (g2 & Hregister & [= <-]).
  exists local_to_global, trajectory_id, newest.
  apply map_at_Ok in Hid. apply CHECK_Ok, Z.ltb_lt in Hmax.
  apply back_Ok in Hnewest. simpl in Hid, Hmax.
  split_and!; try done.
  simpl in Hregister.
  destruct (submap_ids_ g !! Submap_ptr newest) as [id|] eqn:Hknown.
  - injection Hregister as <-.
    rewrite decide_True by done. rewrite decide_True by done.
    clear. destruct g. fields. by destruct (_ !! trajectory_id).
  - apply bind_Ok in Hregister as (t & Ht & [= <-]).
    rewrite decide_False by (by intros [? ?]).
    rewrite decide_False by (by intros [? ?]).
    apply at_Ok in Ht. simpl in Ht.
    assert (length t
            = length (default [] (submap_states_ g !! trajectory_id)))
      as Hlength.
    { unfold resize_to in Ht.
      destruct (decide (trajectory_id < length (submap_states_ g)))
        as [Hlt|Hge].
      - rewrite take_ge, lookup_app_l in Ht by lia. by rewrite Ht.
      - rewrite take_ge, lookup_app_r in Ht by lia.
        apply lookup_replicate in Ht as [-> _].
        by rewrite lookup_ge_None_2 by lia. }
    rewrite (emplace_None (Submap_ptr newest)) by done. rewrite Hlength.
    clear. destruct g. fields. unfold push_back_at.
    by destruct (_ !! trajectory_id).
Qed.

(** An invariant of the steps holds in every state of a history. *)
Lemma reachable_kept (P : SparsePoseGraph -> Prop) options :
  P (SparsePoseGraph_new options) ->
  (forall g g', P g -> step g g' -> P g') ->
  forall g, reachable options g -> P g.
Proof. intros Hnew Hstep g. induction 1; eauto. Qed.

(** *** What a work item cannot change *)

Lemma ComputeConstraintsForScan_view {A} (view : SparsePoseGraph -> A)
  scan_index matching_submap insertion_submaps finished_submap pose
  covariance g g' :
  ignores view set_optimization_problem_ ->
  ignores view set_scan_index_to_node_id_ ->
  ignores view set_num_nodes_in_trajectory_ ->
  ignores view set_submap_states_ ->
  ignores view set_constraints_ ->
  ignores view set_global_localization_samplers_ ->
  ignores view set_constraint_builder_ ->
  ignores view set_num_scans_since_last_loop_closure_ ->
  ignores view set_run_loop_closure_ ->
  ignores view set_scan_queue_ ->
  ComputeConstraintsForScan scan_index matching_submap insertion_submaps
    finished_submap pose covariance g = Ok g' ->
  view g' = view g.
Proof.
  intros Hop Hids Hnum Hstates Hcs Hsamplers Hbuilder Hcount Hflag Hqueue.
  unfold ComputeConstraintsForScan. intros Hrun.
  apply bind_Ok in Hrun as (g1 & Hgrow & Hrun).
  apply bind_Ok in Hrun as (matching_id & _ & Hrun).
  apply bind_Ok in Hrun as (matching_entry & _ & Hrun).
  apply bind_Ok in Hrun as (? & _ & Hrun).
  apply bind_Ok in Hrun as (node & _ & Hrun).
  apply bind_Ok in Hrun as (? & _ & Hrun).
  apply bind_Ok in Hrun as (g3 & Hintra & Hrun).
  apply bind_Ok in Hrun as (g4 & Hmatch & Hrun).
  apply bind_Ok in Hrun as (g5 & Hfinish & Hrun).
  rewrite (end_of_scan_view view _ _ _ Hbuilder Hcount Hflag Hqueue Hrun).
  rewrite (finish_submap_view view _ _ _ Hsamplers Hbuilder Hstates
             Hfinish).
  apply match_against_finished_submaps_same_but_matcher in Hmatch.
  rewrite (same_but_matcher_view view _ _ Hsamplers Hbuilder Hmatch).
  apply (for_each_view view) in Hintra.
  - rewrite Hintra, Hop, Hnum, Hids.
    by eapply GrowSubmapTransformsAsNeeded_view.
  - intros s ? ?. by apply add_intra_submap_constraint_view.
Qed.

Lemma run_work_item_view {A} (view : SparsePoseGraph -> A) w g g' :
  ignores view set_optimization_problem_ ->
  ignores view set_scan_index_to_node_id_ ->
  ignores view set_num_nodes_in_trajectory_ ->
  ignores view set_submap_states_ ->
  ignores view set_constraints_ ->
  ignores view set_global_localization_samplers_ ->
  ignores view set_constraint_builder_ ->
  ignores view set_num_scans_since_last_loop_closure_ ->
  ignores view set_run_loop_closure_ ->
  ignores view set_scan_queue_ ->
  run_work_item w g = Ok g' ->
  view g' = view g.
Proof.
  intros Hop ? ? ? ? ? ? ? ? ?. destruct w; simpl; intros Hrun.
  - by eapply ComputeConstraintsForScan_view.
  - apply bind_Ok in Hrun as (? & _ & [= <-]). apply Hop.
Qed.

(** The fields no work item writes. *)
Lemma run_work_item_static w g g' :
  run_work_item w g = Ok g' ->
  options_ g' = options_ g
  /\ submap_ids_ g' = submap_ids_ g
  /\ connected_components_ g' = connected_components_ g
  /\ reverse_connected_components_ g' = reverse_connected_components_ g
  /\ constant_node_data_ g' = constant_node_data_ g
  /\ trajectory_nodes_ g' = trajectory_nodes_ g
  /\ trajectory_connectivity_ g' = trajectory_connectivity_ g
  /\ trajectory_ids_ g' = trajectory_ids_ g
  /\ optimized_submap_transforms_ g' = optimized_submap_transforms_ g.
Proof.
  intros Hrun. split_and!;
    match goal with
    | |- ?view _ = _ => by apply (run_work_item_view view w g g')
    end.
Qed.

Lemma AddWorkItem_view {A} (view : SparsePoseGraph -> A) w g g' :
  ignores view set_optimization_problem_ ->
  ignores view set_scan_index_to_node_id_ ->
  ignores view set_num_nodes_in_trajectory_ ->
  ignores view set_submap_states_ ->
  ignores view set_constraints_ ->
  ignores view set_global_localization_samplers_ ->
  ignores view set_constraint_builder_ ->
  ignores view set_num_scans_since_last_loop_closure_ ->
  ignores view set_run_loop_closure_ ->
  ignores view set_scan_queue_ ->
  AddWorkItem w g = Ok g' ->
  view g' = view g.
Proof.
  intros ? ? ? ? ? ? ? ? ? Hqueue. unfold AddWorkItem.
  destruct (scan_queue_ g).
  - intros [= <-]. apply Hqueue.
  - by apply run_work_item_view.
Qed.

(** *** Steps, operation by operation *)

(** A relation that every operation of the class keeps is kept by every
    step of a history. *)
Lemma step_kept (R : relation SparsePoseGraph) :
  Reflexive R -> Transitive R ->
  (forall time range_data pose trajectory insertion_submaps g g1,
     AddScan_registration time range_data pose trajectory
       insertion_submaps g = Ok g1 -> R g g1) ->
  (forall w g g', run_work_item w g = Ok g' -> R g g') ->
  (forall g g', RunOptimization g = Ok g' -> R g g') ->
  (forall p g,
     R g (set_trajectory_ids_
            (emplace p (size (trajectory_ids_ g)) (trajectory_ids_ g)) g)) ->
  (forall result g,
     from_matcher result ->
     R g (set_constraints_ (constraints_ g ++ result) g)) ->
  (forall n g,
     R g (set_optimization_problem_
            (OptimizationProblem_SetMaxNumIterations n
               (optimization_problem_ g)) g)) ->
  (forall v g, R g (set_scan_queue_ v g)) ->
  (forall v g, R g (set_num_scans_since_last_loop_closure_ v g)) ->
  (forall v g, R g (set_run_loop_closure_ v g)) ->
  (forall v g, R g (set_constraint_builder_ v g)) ->
  (forall v g, R g (set_trajectory_connectivity_ v g)) ->
  forall g g', step g g' -> R g g'.
Proof.
  intros Hrefl Htrans Hregister Hitem Hoptimize Hids Hresult Hcap Hqueue
    Hcount Hflag Hbuilder Hconnect.
  assert (forall w g g', AddWorkItem w g = Ok g' -> R g g') as Hwork.
  { intros w g g'. unfold AddWorkItem. destruct (scan_queue_ g).
    - intros [= <-]. apply Hqueue.
    - apply Hitem. }
  assert (forall fuel g g', drain_scan_queue fuel g = Ok g' -> R g g')
    as Hdrain.
  { induction fuel as [|fuel IH]; intros g g' Hrun; [done|].
    simpl in Hrun. destruct (run_loop_closure_ g).
    { injection Hrun as <-. apply Hbuilder. }
    destruct (scan_queue_ g) as [[|w queue]|]; [| |done].
    { injection Hrun as <-. apply Hqueue. }
    apply bind_Ok in Hrun as (g1 & Hrun1 & Hrun).
    destruct (scan_queue_ g1) as [[|? queue']|]; [done| |done].
    etrans; [by eapply Hitem|]. etrans; [|by eapply IH]. apply Hqueue. }
  intros g g' [? ? ? ? ? ? ? g1 g2 Hrun | ? ? ? ? g1 g2 Hrun
              | ? g1 g2 Hfrom Hrun | ? g1 g2 _ Hfrom Hrun | ? g1].
  - rewrite AddScan_split in Hrun.
    apply bind_Ok in Hrun as (g3 & Hrun1 & Hrun).
    apply bind_Ok in Hrun as (w & _ & Hrun).
    etrans; [by eapply Hregister|]. by eapply Hwork.
  - unfold AddImuData in Hrun. etrans; [apply Hids|]. by eapply Hwork.
  - unfold RunFinalOptimization, WaitForAllComputations in Hrun.
    apply bind_Ok in Hrun as (g3 & Hrun & [= <-]).
    etrans; [apply Hbuilder|]. etrans; [apply Hbuilder|].
    etrans; [by apply Hresult|]. etrans; [apply Hcap|].
    etrans; [by eapply Hoptimize|]. apply Hcap.
  - unfold HandleScanQueue_run in Hrun.
    apply bind_Ok in Hrun as (g3 & Hrun1 & Hrun).
    etrans; [apply Hbuilder|]. etrans; [by apply Hresult|].
    etrans; [by eapply Hoptimize|]. etrans; [apply Hcount|].
    etrans; [apply Hflag|]. by eapply Hdrain.
  - apply Hconnect.
Qed.

(** ** Trajectory ids and the nodes by trajectory *)

Lemma emplace_densely_numbered (p : nat) (ids : gmap nat nat) :
  densely_numbered ids -> densely_numbered (emplace p (size ids) ids).
Proof.
  intros [Hinj Hrange]. unfold emplace.
  destruct (ids !! p) as [id|] eqn:Hp; [done|]. split.
  - intros q r id Hq Hr.
    destruct (decide (q = p)) as [->|Hqp], (decide (r = p)) as [->|Hrp];
      [done|..].
    + rewrite lookup_insert_eq in Hq. rewrite lookup_insert_ne in Hr by done.
      injection Hq as <-.
      assert (size ids < size ids) by (apply Hrange; eauto). lia.
    + rewrite lookup_insert_eq in Hr. rewrite lookup_insert_ne in Hq by done.
      injection Hr as <-.
      assert (size ids < size ids) by (apply Hrange; eauto). lia.
    + rewrite lookup_insert_ne in Hq, Hr by done. eauto.
  - intros id. rewrite map_size_insert_None by done. split.
    + intros Hlt. destruct (decide (id = size ids)) as [->|Hne].
      * exists p. by rewrite lookup_insert_eq.
      * destruct (proj1 (Hrange id)) as [q Hq]; [lia|].
        exists q. rewrite lookup_insert_ne; [done|]. congruence.
    + intros [q Hq]. destruct (decide (q = p)) as [->|Hqp].
      * rewrite lookup_insert_eq in Hq. injection Hq as <-. lia.
      * rewrite lookup_insert_ne in Hq by done.
        assert (id < size ids) by (apply Hrange; eauto). lia.
Qed.

Lemma densely_numbered_empty : densely_numbered (∅ : gmap nat nat).
Proof.
  split; [done|]. intros id. rewrite map_size_empty. split; [lia|].
  by intros [p Hp].
Qed.

Lemma trajectory_ids_step g g' :
  step g g' ->
  densely_numbered (trajectory_ids_ g) ->
  densely_numbered (trajectory_ids_ g').
Proof.
  revert g g'.
  apply (step_kept (fun g g' => densely_numbered (trajectory_ids_ g) ->
                                densely_numbered (trajectory_ids_ g')));
    try done.
  - by intros g.
  - intros g1 g2 g3 H12 H23 ?. auto.
  - intros ? ? ? ? ? g g1 Hrun.
    apply AddScan_registration_Ok in Hrun as (? & ? & ? & _ & _ & _ & _ & ->).
    apply emplace_densely_numbered.
  - intros w g g' Hrun.
    by rewrite (run_work_item_view trajectory_ids_ w g g') by done.
  - intros g g' Hrun.
    by rewrite (RunOptimization_view trajectory_ids_ g g') by done.
  - intros p g. apply emplace_densely_numbered.
Qed.

(** *** Ids in the order of the calls *)

Lemma called_with_reachable options handles g :
  called_with options handles g -> reachable options g.
Proof.
  induction 1; [constructor|..]; (eapply reachable_step; [done|]).
  - by eapply step_AddScan.
  - by eapply step_AddImuData.
  - by eapply step_RunFinalOptimization.
  - by eapply step_when_done.
  - apply step_connect.
Qed.

Lemma called_with_eq options handles handles' g :
  called_with options handles g -> handles' = handles ->
  called_with options handles' g.
Proof. by intros ? ->. Qed.

Lemma reachable_called_with options g :
  reachable options g -> exists handles, called_with options handles g.
Proof.
  induction 1 as [|g g' _ [handles IH] Hstep].
  - exists []. constructor.
  - destruct Hstep.
    + eexists. by eapply called_with_AddScan.
    + eexists. by eapply called_with_AddImuData.
    + eexists. by eapply called_with_RunFinalOptimization.
    + eexists. by eapply called_with_when_done.
    + eexists. by eapply called_with_connect.
Qed.

Lemma AddScan_trajectory_ids time range_data pose covariance trajectory
  matching_submap insertion_submaps g g' :
  AddScan time range_data pose covariance trajectory matching_submap
    insertion_submaps g = Ok g' ->
  trajectory_ids_ g'
  = emplace (Submaps_ptr trajectory) (size (trajectory_ids_ g))
      (trajectory_ids_ g).
Proof.
  rewrite AddScan_split. intros Hrun.
  apply bind_Ok in Hrun as (g1 & Hregister & Hrun).
  apply bind_Ok in Hrun as (w & _ & Hrun).
  apply AddScan_registration_Ok in Hregister
    as (? & ? & ? & _ & _ & _ & _ & ->).
  by rewrite (AddWorkItem_view trajectory_ids_ _ _ g') by done.
Qed.

Lemma AddImuData_trajectory_ids trajectory time linear_acceleration
  angular_velocity g g' :
  AddImuData trajectory time linear_acceleration angular_velocity g
  = Ok g' ->
  trajectory_ids_ g'
  = emplace (Submaps_ptr trajectory) (size (trajectory_ids_ g))
      (trajectory_ids_ g).
Proof.
  unfold AddImuData. intros Hrun.
  by rewrite (AddWorkItem_view trajectory_ids_ _ _ g') by done.
Qed.

(** Calls other than [AddScan] and [AddImuData] register nothing. *)
Lemma RunFinalOptimization_trajectory_ids result g g' :
  RunFinalOptimization result g = Ok g' ->
  trajectory_ids_ g' = trajectory_ids_ g.
Proof.
  unfold RunFinalOptimization, WaitForAllComputations. intros Hrun.
  apply bind_Ok in Hrun as (g1 & Hrun & [= <-]). simpl.
  by rewrite (RunOptimization_view trajectory_ids_ _ g1) by done.
Qed.

Lemma HandleScanQueue_run_trajectory_ids result g g' :
  HandleScanQueue_run result g = Ok g' ->
  trajectory_ids_ g' = trajectory_ids_ g.
Proof.
  assert (forall fuel s s',
            drain_scan_queue fuel s = Ok s' ->
            trajectory_ids_ s' = trajectory_ids_ s) as Hdrain.
  { induction fuel as [|fuel IH]; intros s s' Hrun; [done|].
    simpl in Hrun. destruct (run_loop_closure_ s).
    { by injection Hrun as <-. }
    destruct (scan_queue_ s) as [[|w queue]|]; [| |done].
    { by injection Hrun as <-. }
    apply bind_Ok in Hrun as (s1 & Hrun1 & Hrun).
    destruct (scan_queue_ s1) as [[|? queue']|]; [done| |done].
    apply IH in Hrun. rewrite Hrun. simpl.
    by apply (run_work_item_view trajectory_ids_ w _ s1). }
  unfold HandleScanQueue_run. intros Hrun.
  apply bind_Ok in Hrun as (g1 & Hrun1 & Hrun).
  apply Hdrain in Hrun. rewrite Hrun. simpl.
  by rewrite (RunOptimization_view trajectory_ids_ _ g1) by done.
Qed.

Lemma first_appearances_app handles p :
  first_appearances (handles ++ [p])
  = if decide (p ∈ first_appearances handles)
    then first_appearances handles
    else first_appearances handles ++ [p].
Proof. unfold first_appearances. by rewrite foldl_app. Qed.

(** Registering a handle keeps the ids in line with the order of first
    appearance. *)
Lemma emplace_first_appearance (p : nat) (ids : gmap nat nat)
  (seen : list nat) :
  size ids = length seen ->
  (forall q id, ids !! q = Some id <-> seen !! id = Some q) ->
  let seen' := if decide (p ∈ seen) then seen else seen ++ [p] in
  size (emplace p (size ids) ids) = length seen'
  /\ forall q id,
       emplace p (size ids) ids !! q = Some id <-> seen' !! id = Some q.
Proof.
  intros Hsize Hids. simpl. destruct (decide (p ∈ seen)) as [Hin|Hnew].
  - apply list_elem_of_lookup in Hin as [id Hid].
    apply Hids in Hid. by rewrite (emplace_Some _ _ _ _ Hid).
  - assert (ids !! p = None) as Hnone.
    { destruct (ids !! p) as [id|] eqn:Hp; [|done].
      apply Hids in Hp. destruct Hnew. by eapply list_elem_of_lookup_2. }
    rewrite (emplace_None _ _ _ Hnone).
    rewrite map_size_insert_None by done. rewrite length_app. simpl.
    split; [lia|]. intros q id.
    destruct (decide (q = p)) as [->|Hq].
    + rewrite lookup_insert_eq. split.
      * intros [= <-]. rewrite Hsize. by rewrite list_lookup_middle.
      * intros Hid. f_equal.
        destruct (decide (id < length seen)) as [Hlt|Hge].
        -- rewrite lookup_app_l in Hid by done.
           destruct Hnew. by eapply list_elem_of_lookup_2.
        -- apply lookup_lt_Some in Hid. rewrite length_app in Hid.
           simpl in Hid. lia.
    + rewrite lookup_insert_ne by done. rewrite Hids. split.
      * intros Hid. rewrite lookup_app_l; [done|].
        by eapply lookup_lt_Some.
      * intros Hid.
        destruct (decide (id < length seen)) as [Hlt|Hge].
        -- by rewrite lookup_app_l in Hid.
        -- assert (id = length seen) as ->.
           { apply lookup_lt_Some in Hid. rewrite length_app in Hid.
             simpl in Hid. lia. }
           rewrite list_lookup_middle in Hid by done. congruence.
Qed.

Lemma called_with_first_appearances options handles g :
  called_with options handles g ->
  size (trajectory_ids_ g) = length (first_appearances handles)
  /\ forall p id,
       trajectory_ids_ g !! p = Some id
       <-> first_appearances handles !! id = Some p.
Proof.
  induction 1 as [|handles ? ? ? ? trajectory ? ? g g' _ [Hsize Hids] Hrun
                  |handles trajectory ? ? ? g g' _ [Hsize Hids] Hrun
                  |handles ? g g' _ IH _ Hrun
                  |handles ? g g' _ IH _ _ Hrun
                  |handles ? g _ IH].
  - split; [done|]. intros p id. by split.
  - rewrite (AddScan_trajectory_ids _ _ _ _ _ _ _ _ _ Hrun).
    rewrite first_appearances_app.
    by apply emplace_first_appearance.
  - rewrite (AddImuData_trajectory_ids _ _ _ _ _ _ Hrun).
    rewrite first_appearances_app.
    by apply emplace_first_appearance.
  - by rewrite (RunFinalOptimization_trajectory_ids _ _ _ Hrun).
  - rewrite (HandleScanQueue_run_trajectory_ids _ _ _ Hrun). exact IH.
  - exact IH.
Qed.

(** Every handle that was passed to [AddScan] or [AddImuData] has an
    id; the ids of different handles differ, and the ids in use are
    exactly the numbers below the number of handles.  The ids follow
    the order in which the handles first appeared in a call: for the
    handles of the calls of a history, in the order of the calls, the
    handle with id [i] is the [i]-th of the different handles. *)
Theorem trajectory_ids_densely_numbered (options : SparsePoseGraphOptions)
  (g : SparsePoseGraph) :
  reachable options g ->
  densely_numbered (trajectory_ids_ g)
  /\ (exists handles, called_with options handles g)
  /\ forall handles,
       called_with options handles g ->
       forall p id,
         trajectory_ids_ g !! p = Some id
         <-> first_appearances handles !! id = Some p.
Proof.
  intros Hreach. split; [|split].
  - revert g Hreach. apply reachable_kept.
    + apply densely_numbered_empty.
    + intros g g' Hids Hstep. by eapply trajectory_ids_step.
  - by apply reachable_called_with.
  - intros handles Hcalls.
    by apply called_with_first_appearances in Hcalls as [_ Hids].
Qed.

(** *** The loop of [GetTrajectoryNodes] *)

Lemma GetTrajectoryNodes_loop (nodes : list TrajectoryNode) :
  forall result : list (list TrajectoryNode),
    for_each
      (fun node result =>
         _ ← at_ result (ConstantData_trajectory_id (constant_data node));
         mret (alter (fun t => t ++ [node])
                 (ConstantData_trajectory_id (constant_data node)) result))
      nodes result
    = if forallb (fun node => trajectory_id_of node <? length result) nodes
      then Ok (imap (fun t known =>
                       known
                       ++ List.filter
                            (fun node => trajectory_id_of node =? t) nodes)
                    result)
      else Abort OutOfRange.
Proof.
  induction nodes as [|node nodes IH]; intros result; simpl.
  - f_equal. apply list_eq. intros t. rewrite list_lookup_imap.
    destruct (result !! t); simpl; [|done]. by rewrite app_nil_r.
  - fold (trajectory_id_of node).
    destruct (Nat.ltb_spec (trajectory_id_of node) (length result))
      as [Hlt|Hge]; simpl.
    + destruct (lookup_lt_is_Some_2 _ _ Hlt) as [t Ht].
      rewrite (at_known _ _ _ Ht). simpl. rewrite IH, length_alter.
      destruct (forallb _ nodes); [|done]. f_equal.
      apply list_eq. intros i. rewrite !list_lookup_imap.
      destruct (decide (i = trajectory_id_of node)) as [->|Hne].
      * rewrite list_lookup_alter_eq, Ht. simpl.
        by rewrite Nat.eqb_refl, <- app_assoc.
      * rewrite list_lookup_alter_ne by done.
        destruct (result !! i); simpl; [|done].
        by rewrite (proj2 (Nat.eqb_neq _ _)) by done.
    + unfold at_. by rewrite lookup_ge_None_2.
Qed.

(** Sorting into [n] empty lists gives the nodes by trajectory. *)
Lemma sorted_into_empty_lists (n : nat) (nodes : list TrajectoryNode) :
  imap (fun t known =>
          known ++ List.filter (fun node => trajectory_id_of node =? t) nodes)
    (replicate n [])
  = nodes_by_trajectory n nodes.
Proof.
  apply list_eq. intros t. unfold nodes_by_trajectory.
  rewrite list_lookup_imap, list_lookup_fmap.
  destruct (decide (t < n)) as [Hlt|Hge].
  - rewrite lookup_replicate_2 by done.
    by rewrite lookup_seq_lt by done.
  - rewrite (proj1 (lookup_replicate_None _ _ _)) by lia. simpl.
    by rewrite lookup_seq_ge by lia.
Qed.

(** [GetTrajectoryNodes] sorts the nodes by trajectory id, keeping their
    order, into as many lists as there are trajectory handles; it throws
    when a node carries an id that no handle has. *)
Theorem GetTrajectoryNodes_by_trajectory (g : SparsePoseGraph) :
  GetTrajectoryNodes g
  = if forallb (fun node => trajectory_id_of node <? size (trajectory_ids_ g))
         (trajectory_nodes_ g)
    then Ok (nodes_by_trajectory (size (trajectory_ids_ g))
               (trajectory_nodes_ g))
    else Abort OutOfRange.
Proof.
  unfold GetTrajectoryNodes. rewrite GetTrajectoryNodes_loop.
  rewrite length_replicate. destruct (forallb _ _); [|done]. f_equal.
  apply sorted_into_empty_lists.
Qed.

(** *** Every node belongs to a trajectory that has a handle *)

Lemma set_node_pose_nodes_view {A} (view : list TrajectoryNode -> A)
  i pose g g' :
  (forall i node pose nodes,
     nodes !! i = Some node ->
     view (<[i := with_pose node pose]> nodes) = view nodes) ->
  set_node_pose i pose g = Ok g' ->
  view (trajectory_nodes_ g') = view (trajectory_nodes_ g).
Proof.
  intros Hview Hrun.
  apply set_node_pose_Ok in Hrun as (node & Hnode & ->). simpl. auto.
Qed.

(** [RunOptimization] writes poses and nothing else into the nodes. *)
Lemma RunOptimization_nodes_view {A} (view : list TrajectoryNode -> A)
  g g' :
  (forall i node pose nodes,
     nodes !! i = Some node ->
     view (<[i := with_pose node pose]> nodes) = view nodes) ->
  RunOptimization g = Ok g' ->
  view (trajectory_nodes_ g') = view (trajectory_nodes_ g).
Proof.
  unfold RunOptimization. intros Hview Hrun.
  destruct (empty _); [by injection Hrun as <-|].
  apply bind_Ok in Hrun as (g1 & Hcopy & Hrun).
  apply bind_Ok in Hrun as ([cache g2] & Hlater & [= <-]). simpl.
  apply (for_each_partial extrapolate_later_pose
           (fun _ acc => view (trajectory_nodes_ acc.2)
                         = view (trajectory_nodes_ g1))) in Hlater;
    [|done|].
  - simpl in Hlater. rewrite Hlater.
    apply (for_each_view (fun g => view (trajectory_nodes_ g))) in Hcopy;
      [done|].
    intros i s s' Hstep. unfold copy_optimized_pose in Hstep.
    apply bind_Ok in Hstep as (? & _ & Hstep).
    apply bind_Ok in Hstep as (? & _ & Hstep).
    by eapply set_node_pose_nodes_view.
  - intros done i rest [c s] [c' s'] _ Hs Hstep. simpl in *.
    rewrite <- Hs. unfold extrapolate_later_pose in Hstep.
    apply bind_Ok in Hstep as (node & _ & Hstep).
    apply bind_Ok in Hstep as (cache1 & _ & Hstep).
    apply bind_Ok in Hstep as (s1 & Hset & [= _ <-]).
    by eapply set_node_pose_nodes_view.
Qed.

Lemma with_pose_constant_data i node pose (nodes : list TrajectoryNode) :
  nodes !! i = Some node ->
  map constant_data (<[i := with_pose node pose]> nodes)
  = map constant_data nodes.
Proof.
  intros Hnode. rewrite list_fmap_insert. simpl.
  apply list_insert_id. by rewrite list_lookup_fmap, Hnode.
Qed.

Lemma RunOptimization_constant_data g g' :
  RunOptimization g = Ok g' ->
  map constant_data (trajectory_nodes_ g')
  = map constant_data (trajectory_nodes_ g).
Proof.
  apply (RunOptimization_nodes_view (map constant_data)).
  intros. by apply with_pose_constant_data.
Qed.

Lemma run_work_item_trajectory_nodes w g g' :
  run_work_item w g = Ok g' -> trajectory_nodes_ g' = trajectory_nodes_ g.
Proof. intros Hrun. by eapply (run_work_item_view trajectory_nodes_). Qed.

(** The trajectory ids of the nodes, in the order of the nodes. *)
Lemma nodes_registered_step g g' :
  step g g' ->
  densely_numbered (trajectory_ids_ g)
  /\ Forall (fun c => ConstantData_trajectory_id c < size (trajectory_ids_ g))
       (map constant_data (trajectory_nodes_ g)) ->
  densely_numbered (trajectory_ids_ g')
  /\ Forall (fun c => ConstantData_trajectory_id c
                      < size (trajectory_ids_ g'))
       (map constant_data (trajectory_nodes_ g')).
Proof.
  assert (forall p (ids : gmap nat nat),
            size ids <= size (emplace p (size ids) ids)) as Hsize.
  { intros p ids. unfold emplace. destruct (ids !! p) eqn:Hp; [done|].
    rewrite map_size_insert_None by done. lia. }
  revert g g'.
  apply (step_kept
           (fun g g' =>
              densely_numbered (trajectory_ids_ g)
              /\ Forall (fun c => ConstantData_trajectory_id c
                                  < size (trajectory_ids_ g))
                   (map constant_data (trajectory_nodes_ g)) ->
              densely_numbered (trajectory_ids_ g')
              /\ Forall (fun c => ConstantData_trajectory_id c
                                  < size (trajectory_ids_ g'))
                   (map constant_data (trajectory_nodes_ g'))));
    try done.
  - by intros g.
  - intros g1 g2 g3 H12 H23 ?. auto.
  - intros ? ? ? ? ? g g1 Hrun [Hdense Hnodes].
    apply AddScan_registration_Ok in Hrun
      as (? & trajectory_id & ? & _ & Hid & _ & _ & ->).
    simpl. split; [by apply emplace_densely_numbered|].
    rewrite map_app. apply Forall_app. split.
    + eapply Forall_impl; [done|]. intros c Hc. simpl in Hc.
      eapply Nat.lt_le_trans; [done|apply Hsize].
    + repeat constructor. simpl.
      apply (emplace_densely_numbered (Submaps_ptr trajectory)) in Hdense
        as [_ Hrange].
      apply Hrange. eauto.
  - intros w g g' Hrun.
    rewrite (run_work_item_view trajectory_ids_ w g g') by done.
    by rewrite (run_work_item_trajectory_nodes _ _ _ Hrun).
  - intros g g' Hrun.
    rewrite (RunOptimization_view trajectory_ids_ g g') by done.
    by rewrite (RunOptimization_constant_data _ _ Hrun).
  - intros p g [Hdense Hnodes]. simpl.
    split; [by apply emplace_densely_numbered|].
    eapply Forall_impl; [done|]. intros c Hc. simpl in Hc.
    eapply Nat.lt_le_trans; [done|apply Hsize].
Qed.

(** In every state of a history [GetTrajectoryNodes] returns, and what
    it returns is the nodes sorted by trajectory, one list per handle. *)
Theorem GetTrajectoryNodes_returns (options : SparsePoseGraphOptions)
  (g : SparsePoseGraph) :
  reachable options g ->
  GetTrajectoryNodes g
  = Ok (nodes_by_trajectory (size (trajectory_ids_ g)) (trajectory_nodes_ g)).
Proof.
  intros Hreach.
  assert (densely_numbered (trajectory_ids_ g)
          /\ Forall (fun c => ConstantData_trajectory_id c
                              < size (trajectory_ids_ g))
               (map constant_data (trajectory_nodes_ g))) as [_ Hnodes].
  { revert g Hreach. apply reachable_kept.
    - split; [apply densely_numbered_empty|constructor].
    - intros g g' Hinv Hstep. by eapply nodes_registered_step. }
  unfold GetTrajectoryNodes. rewrite GetTrajectoryNodes_loop.
  rewrite length_replicate.
  rewrite (proj2 (forallb_forall _ _));
    [f_equal; apply sorted_into_empty_lists|].
  intros node Hnode. apply Nat.ltb_lt.
  rewrite Forall_forall in Hnodes. apply Hnodes.
  apply list_elem_of_fmap. exists node. split; [done|].
  by apply list_elem_of_In.
Qed.

(** ** Ingestion: [AddScan], [AddImuData], [GetNextTrajectoryNodeIndex] *)

(** [AddScan] appends exactly one node to the flat list, whether the
    scan's constraints are computed at once or the work is buffered: the
    node carries the scan's time, the compressed range data, the id of
    its trajectory and an identity tracking pose, and its pose is the
    local-to-global transform of the trajectory, as it was before the
    call, composed with the scan's local pose.  The trajectory is
    registered by the call and added to the connectivity structure, and
    [GetNextTrajectoryNodeIndex] has grown by one. *)
Theorem AddScan_appends_node (time : Z) (range_data : RangeData)
  (pose : Rigid3d) (covariance : PoseCovariance) (trajectory : Submaps)
  (matching_submap : Submap) (insertion_submaps : list Submap)
  (g g' : SparsePoseGraph) :
  AddScan time range_data pose covariance trajectory matching_submap
    insertion_submaps g = Ok g' ->
  exists local_to_global trajectory_id,
    let data :=
      {| ConstantData_time := time;
         range_data_3d := Compress range_data;
         ConstantData_trajectory_id := trajectory_id;
         tracking_to_pose := Identity |} in
    GetLocalToGlobalTransform trajectory g = Ok local_to_global
    /\ trajectory_ids_ g'
       = emplace (Submaps_ptr trajectory) (size (trajectory_ids_ g))
           (trajectory_ids_ g)
    /\ trajectory_ids_ g' !! Submaps_ptr trajectory = Some trajectory_id
    /\ trajectory_nodes_ g'
       = trajectory_nodes_ g
         ++ [{| constant_data := data;
                TrajectoryNode_pose := local_to_global * pose |}]
    /\ constant_node_data_ g' = constant_node_data_ g ++ [data]
    /\ trajectory_connectivity_ g'
       = Add trajectory_id (trajectory_connectivity_ g)
    /\ GetNextTrajectoryNodeIndex g' = S (GetNextTrajectoryNodeIndex g).
Proof.
  rewrite AddScan_split. intros Hrun.
  apply bind_Ok in Hrun as (g1 & Hregister & Hrun).
  apply bind_Ok in Hrun as (w & _ & Hrun).
  apply AddScan_registration_Ok in Hregister
    as (local_to_global & trajectory_id & newest & Hlocal & Hid & _ & _
        & ->).
  exists local_to_global, trajectory_id. simpl.
  unfold GetNextTrajectoryNodeIndex.
  rewrite (AddWorkItem_view trajectory_ids_ _ _ g') by done.
  rewrite (AddWorkItem_view trajectory_nodes_ _ _ g') by done.
  rewrite (AddWorkItem_view constant_node_data_ _ _ g') by done.
  rewrite (AddWorkItem_view trajectory_connectivity_ _ _ g') by done.
  simpl. rewrite length_app. simpl. split_and!; try done. lia.
Qed.

(** [AddImuData] cannot fail.  It registers the trajectory; without a
    queue the sample goes to the optimizer's series of that trajectory
    at once and nothing else changes, with a queue the sample waits at
    the back of the queue and the optimizer is not touched. *)
Theorem AddImuData_returns (trajectory : Submaps) (time : Z)
  (linear_acceleration angular_velocity : Vector3d) (g : SparsePoseGraph) :
  let trajectory_ids :=
    emplace (Submaps_ptr trajectory) (size (trajectory_ids_ g))
      (trajectory_ids_ g) in
  exists trajectory_id,
    trajectory_ids !! Submaps_ptr trajectory = Some trajectory_id
    /\ AddImuData trajectory time linear_acceleration angular_velocity g
       = Ok match scan_queue_ g with
            | None =>
                set_optimization_problem_
                  (set_imu_data
                     (push_back_at trajectory_id
                        {| ImuData_time := time;
                           linear_acceleration := linear_acceleration;
                           angular_velocity := angular_velocity |}
                        (imu_data (optimization_problem_ g)))
                     (optimization_problem_ g))
                  (set_trajectory_ids_ trajectory_ids g)
            | Some queue =>
                set_scan_queue_
                  (Some (queue
                         ++ [AddImuData_item trajectory time
                               linear_acceleration angular_velocity]))
                  (set_trajectory_ids_ trajectory_ids g)
            end.
Proof.
  simpl.
  assert (exists trajectory_id,
            emplace (Submaps_ptr trajectory) (size (trajectory_ids_ g))
              (trajectory_ids_ g) !! Submaps_ptr trajectory
            = Some trajectory_id) as [trajectory_id Hid].
  { unfold emplace.
    destruct (trajectory_ids_ g !! Submaps_ptr trajectory) eqn:Hknown;
      [by eauto|].
    eexists. apply lookup_insert_eq. }
  exists trajectory_id. split; [done|].
  unfold AddImuData, AddWorkItem. simpl.
  destruct (scan_queue_ g); [done|].
  unfold map_at. simpl. by rewrite Hid.
Qed.

(** ** The queue between two calls *)

(** Splits on the threshold test that the goal mentions. *)
Ltac threshold_cases :=
  match goal with
  | |- context [threshold_passed ?options ?count] =>
      destruct (threshold_passed options count)
  end.

(** What a per-scan computation does to the node ids, the counter, the
    flag and the queue. *)
Lemma ComputeConstraintsForScan_accounting scan_index matching_submap
  insertion_submaps finished_submap pose covariance g g' :
  ComputeConstraintsForScan scan_index matching_submap insertion_submaps
    finished_submap pose covariance g = Ok g' ->
  scan_index = length (scan_index_to_node_id_ g)
  /\ scan_index < length (trajectory_nodes_ g)
  /\ length (scan_index_to_node_id_ g')
     = S (length (scan_index_to_node_id_ g))
  /\ options_ g' = options_ g
  /\ num_scans_since_last_loop_closure_ g'
     = (num_scans_since_last_loop_closure_ g + 1)%Z
  /\ if threshold_passed (options_ g)
          (num_scans_since_last_loop_closure_ g + 1)
     then run_loop_closure_ g = false
          /\ run_loop_closure_ g' = true
          /\ scan_queue_ g' = Some (default [] (scan_queue_ g))
     else run_loop_closure_ g' = run_loop_closure_ g
          /\ scan_queue_ g' = scan_queue_ g.
Proof.
  intros Hrun.
  pose proof (ComputeConstraintsForScan_node_ids _ _ _ _ _ _ _ _ Hrun)
    as [n Hn].
  pose proof (ComputeConstraintsForScan_then_end_of_scan _ _ _ _ _ _ _ _
                Hrun) as (g5 & (Ho & Hq & Hc & Hf & _) & Hend).
  apply end_of_scan_Ok in Hend as (Ho' & Hc' & Hend).
  rewrite Ho, Hq, Hc, Hf in *.
  assert (scan_index = length (scan_index_to_node_id_ g)
          /\ scan_index < length (trajectory_nodes_ g)) as [Hindex Hnode].
  { unfold ComputeConstraintsForScan in Hrun.
    apply bind_Ok in Hrun as (g1 & Hgrow & Hrun).
    apply bind_Ok in Hrun as (matching_id & _ & Hrun).
    apply bind_Ok in Hrun as (matching_entry & _ & Hrun).
    apply bind_Ok in Hrun as (? & Hcheck & Hrun).
    apply bind_Ok in Hrun as (node & Hnode & _).
    apply CHECK_Ok, Nat.eqb_eq in Hcheck.
    apply index_Ok, lookup_lt_Some in Hnode. simpl in Hnode.
    rewrite (GrowSubmapTransformsAsNeeded_view scan_index_to_node_id_
               _ g g1) in Hcheck by done.
    rewrite (GrowSubmapTransformsAsNeeded_view trajectory_nodes_
               _ g g1) in Hnode by done.
    done. }
  split_and!; try done.
  - rewrite Hn, length_app. simpl. lia.
  - unfold threshold_passed.
    destruct (_ && _).
    + destruct Hend as (? & ? & Hend). split_and!; try done.
      destruct (scan_queue_ g); by destruct Hend as (? & _).
    + by destruct Hend as (? & ? & _).
Qed.

(** The callback of the driver runs with a queue in place. *)
Lemma HandleScanQueue_run_Ok result g g' :
  HandleScanQueue_run result g = Ok g' ->
  exists queue g1,
    scan_queue_ g = Some queue
    /\ RunOptimization (set_constraints_ (constraints_ g ++ result) g)
       = Ok g1
    /\ scan_queue_ g1 = Some queue
    /\ run_buffered queue
         (set_run_loop_closure_ false
            (set_num_scans_since_last_loop_closure_ 0%Z g1)) = Ok g'.
Proof.
  unfold HandleScanQueue_run. intros Hrun.
  apply bind_Ok in Hrun as (g1 & Hoptimize & Hrun).
  pose proof (RunOptimization_protocol _ _ Hoptimize) as (_ & Hq & _).
  simpl in Hq.
  destruct (scan_queue_ g) as [queue|] eqn:Hqueue.
  - exists queue, g1. split_and!; try done.
    rewrite <- Hrun. symmetry.
    apply drain_scan_queue_run_buffered; simpl; rewrite Hq; [done|].
    simpl. lia.
  - simpl in Hrun. by rewrite Hq in Hrun.
Qed.

Lemma emplace_is_Some (p q v : nat) (ids : gmap nat nat) :
  is_Some (ids !! q) -> is_Some (emplace p v ids !! q).
Proof.
  unfold emplace. destruct (ids !! p) eqn:Hp; [done|].
  intros Hq. destruct (decide (q = p)) as [->|Hne].
  - rewrite Hp in Hq. by destruct Hq.
  - by rewrite lookup_insert_ne.
Qed.

Lemma emplace_lookup (p v : nat) (ids : gmap nat nat) :
  is_Some (emplace p v ids !! p).
Proof.
  unfold emplace. destruct (ids !! p) eqn:Hp; [by rewrite Hp|].
  by rewrite lookup_insert_eq.
Qed.

Lemma buffered_scans_app queue queue' :
  buffered_scans (queue ++ queue')
  = buffered_scans queue ++ buffered_scans queue'.
Proof. apply omap_app. Qed.

Lemma buffered_imu_trajectories_app queue queue' :
  buffered_imu_trajectories (queue ++ queue')
  = buffered_imu_trajectories queue ++ buffered_imu_trajectories queue'.
Proof. apply omap_app. Qed.

Lemma threshold_kept_reset options g :
  options_ g = options ->
  threshold_kept options
    (set_run_loop_closure_ false
       (set_num_scans_since_last_loop_closure_ 0%Z g)).
Proof.
  intros Ho. split_and!; simpl; try done; [|lia].
  unfold threshold_passed.
  destruct (Z.ltb_spec 0 (optimize_every_n_scans options));
    destruct (Z.ltb_spec (optimize_every_n_scans options) 0); simpl;
    try done; lia.
Qed.

(** One more scan, counted while the flag is clear. *)
Lemma threshold_kept_scan options g g' :
  threshold_kept options g ->
  run_loop_closure_ g = false ->
  options_ g' = options_ g ->
  num_scans_since_last_loop_closure_ g'
  = (num_scans_since_last_loop_closure_ g + 1)%Z ->
  (if threshold_passed (options_ g)
        (num_scans_since_last_loop_closure_ g + 1)
   then run_loop_closure_ g' = true
   else run_loop_closure_ g' = run_loop_closure_ g) ->
  threshold_kept options g'.
Proof.
  intros (Ho & Hc & Hf & Hbound) Hclear Ho' Hc' Hf'.
  rewrite Ho in *. rewrite Hclear in Hf.
  split_and!; try congruence; try lia.
  - rewrite Hc'. revert Hf'.
    destruct (threshold_passed options
                (num_scans_since_last_loop_closure_ g + 1));
      intros; congruence.
  - intros Hpositive. rewrite Hc'. symmetry in Hf.
    unfold threshold_passed in Hf.
    apply andb_false_iff in Hf as [Hf|Hf]; apply Z.ltb_ge in Hf; lia.
Qed.

(** The drain of the queue keeps the books. *)
Lemma run_buffered_consistent options queue :
  forall g g',
    threshold_kept options g ->
    scan_queue_ g = Some queue ->
    scans_accounted queue g ->
    imu_registered queue g ->
    run_buffered queue g = Ok g' ->
    queue_consistent options g'.
Proof.
  induction queue as [|w queue IH];
    intros g g' Hkept Hqueue Hscans Himu Hrun; simpl in Hrun;
    destruct (run_loop_closure_ g) eqn:Hflag.
  - injection Hrun as <-.
    split_and!; simpl; rewrite ?Hqueue; try done.
  - injection Hrun as <-. split_and!; simpl; try done.
    split; [by intros [? ?]|congruence].
  - injection Hrun as <-.
    split_and!; simpl; rewrite ?Hqueue; try done.
  - apply bind_Ok in Hrun as (g1 & Hitem & Hrun).
    pose proof (run_work_item_queue _ _ _ _ Hqueue Hitem) as Hqueue1.
    apply (IH _ _) in Hrun; [done|..]; simpl; try done.
    + (* the threshold *)
      destruct w; simpl in Hitem.
      * apply ComputeConstraintsForScan_accounting in Hitem
          as (_ & _ & _ & Ho & Hc & Hf).
        eapply (threshold_kept_scan options g); try done.
        revert Hf.
        threshold_cases;
          [by intros (? & ? & _)|by intros (? & _)].
      * apply bind_Ok in Hitem as (? & _ & [= <-]). done.
    + (* the scans *)
      destruct Hscans as [Hle Hscans].
      destruct w; simpl in Hitem, Hscans.
      * pose proof (run_work_item_trajectory_nodes
                      (ComputeConstraintsForScan_item scan_index
                         matching_submap insertion_submaps finished_submap
                         pose covariance) g g1 Hitem) as Hnodes.
        apply ComputeConstraintsForScan_accounting in Hitem
          as (_ & _ & Hids & _).
        unfold scans_accounted. simpl. rewrite Hids, Hnodes.
        destruct (length (trajectory_nodes_ g)
                  - length (scan_index_to_node_id_ g)) as [|k] eqn:Hk;
          [done|].
        simpl in Hscans. injection Hscans as _ Hscans.
        split; [lia|]. rewrite Hscans. f_equal. lia.
      * apply bind_Ok in Hitem as (? & _ & [= <-]). done.
    + (* the IMU samples *)
      assert (trajectory_ids_ g1 = trajectory_ids_ g) as Hids
        by by eapply (run_work_item_view trajectory_ids_).
      unfold imu_registered in *. simpl. rewrite Hids.
      destruct w; simpl in Himu; [done|].
      by apply Forall_cons in Himu as [_ ?].
Qed.

Lemma queue_consistent_step options g g' :
  queue_consistent options g -> step g g' -> queue_consistent options g'.
Proof.
  intros ((Ho & Hc & Hf & Hbound) & Hpending & [Hle Hscans] & Himu) Hstep.
  unfold imu_registered in Himu.
  unfold queue_consistent, threshold_kept, scans_accounted, imu_registered.
  destruct Hstep as
    [? ? ? ? ? ? ? g g' Hrun | ? ? ? ? g g' Hrun | ? g g' _ Hrun
    | ? g g' _ _ Hrun | ? g].
  - (* AddScan *)
    rewrite AddScan_split in Hrun.
    apply bind_Ok in Hrun as (g1 & Hregister & Hrun).
    apply bind_Ok in Hrun as (w & Hw & Hrun).
    apply bind_Ok in Hw as (oldest & _ & [= <-]).
    apply AddScan_registration_Ok in Hregister
      as (local_to_global & trajectory_id & newest & _ & _ & _ & _ & Hg1).
    assert (options_ g1 = options_ g
            /\ scan_queue_ g1 = scan_queue_ g
            /\ num_scans_since_last_loop_closure_ g1
               = num_scans_since_last_loop_closure_ g
            /\ run_loop_closure_ g1 = run_loop_closure_ g
            /\ scan_index_to_node_id_ g1 = scan_index_to_node_id_ g
            /\ length (trajectory_nodes_ g1)
               = S (length (trajectory_nodes_ g))
            /\ trajectory_ids_ g1
               = emplace (Submaps_ptr trajectory) (size (trajectory_ids_ g))
                   (trajectory_ids_ g))
      as (Ho1 & Hq1 & Hc1 & Hf1 & Hi1 & Hn1 & Ht1).
    { rewrite Hg1. simpl. rewrite length_app. simpl.
      split_and!; try done. lia. }
    clear Hg1. unfold AddWorkItem in Hrun. rewrite Hq1 in Hrun.
    destruct (scan_queue_ g) as [queue|] eqn:Hqueue;
      simpl in Hscans, Himu, Hpending.
    + injection Hrun as <-. simpl.
      rewrite Ho1, Hc1, Hf1, Hi1, Hn1, Ht1, Ho.
      split_and!; try done.
      * split; [intros _; by apply Hpending|by eauto].
      * lia.
      * rewrite buffered_scans_app, Hscans. simpl.
        replace (S (length (trajectory_nodes_ g))
                 - length (scan_index_to_node_id_ g))
          with ((length (trajectory_nodes_ g)
                 - length (scan_index_to_node_id_ g)) + 1) by lia.
        rewrite seq_app. simpl. do 2 f_equal. lia.
      * rewrite buffered_imu_trajectories_app, app_nil_r.
        eapply Forall_impl; [done|]. intros p. apply emplace_is_Some.
    + assert (run_loop_closure_ g = false) as Hclear.
      { destruct (run_loop_closure_ g); [|done].
        destruct (proj2 Hpending eq_refl) as [? [=]]. }
      pose proof (run_work_item_static _ _ _ Hrun)
        as (_ & _ & _ & _ & _ & Hnodes & _ & Hids & _).
      simpl in Hrun.
      apply ComputeConstraintsForScan_accounting in Hrun
        as (_ & _ & Hids' & Ho' & Hc' & Hf').
      rewrite Ho1, Hq1, Hc1, Hf1, Hi1 in *. simpl in Hf'.
      assert (length (scan_index_to_node_id_ g)
              = length (trajectory_nodes_ g)) as Hall.
      { destruct (length (trajectory_nodes_ g)
                  - length (scan_index_to_node_id_ g)) eqn:Hk; [lia|done]. }
      assert (default [] (scan_queue_ g') = []) as ->.
      { revert Hf'. threshold_cases.
        - by intros (_ & _ & ->).
        - by intros (_ & ->). }
      rewrite Hids', Hnodes, Hn1, Hall, Nat.sub_diag.
      assert (threshold_kept options g') as (? & ? & ? & ?).
      { eapply (threshold_kept_scan options g);
          [by split_and!|done|done|done|].
        revert Hf'.
        threshold_cases; [by intros (? & ? & _)|by intros (? & _)]. }
      split_and!; try done.
      revert Hf'. threshold_cases.
      * intros (_ & -> & ->). done.
      * intros (-> & ->). rewrite Hclear. split; [by intros [? ?]|done].
  - (* AddImuData *)
    unfold AddImuData, AddWorkItem in Hrun. simpl in Hrun.
    destruct (scan_queue_ g) as [queue|] eqn:Hqueue;
      simpl in Hscans, Himu, Hpending.
    + injection Hrun as <-. simpl. split_and!; try done.
      * split; [intros _; by apply Hpending|by eauto].
      * by rewrite buffered_scans_app, app_nil_r.
      * rewrite buffered_imu_trajectories_app. apply Forall_app. split.
        -- eapply Forall_impl; [done|]. intros p. apply emplace_is_Some.
        -- repeat constructor. apply emplace_lookup.
    + apply bind_Ok in Hrun as (? & _ & [= <-]). simpl.
      rewrite Hqueue. by split_and!.
  - (* RunFinalOptimization *)
    unfold RunFinalOptimization, WaitForAllComputations in Hrun.
    apply bind_Ok in Hrun as (g1 & Hrun & [= <-]).
    pose proof (RunOptimization_protocol _ _ Hrun)
      as (Ho' & Hq' & Hc' & Hf' & _).
    pose proof (RunOptimization_nodes_view length _ _
                  ltac:(intros; by rewrite length_insert) Hrun) as Hnodes.
    assert (scan_index_to_node_id_ g1 = scan_index_to_node_id_ g) as Hids
      by by apply (RunOptimization_view scan_index_to_node_id_) in Hrun.
    assert (trajectory_ids_ g1 = trajectory_ids_ g) as Ht
      by by apply (RunOptimization_view trajectory_ids_) in Hrun.
    simpl in *. by rewrite Ho', Hq', Hc', Hf', Hnodes, Hids, Ht.
  - (* the callback *)
    apply HandleScanQueue_run_Ok in Hrun
      as (queue & g1 & Hqueue & Hrun & Hqueue1 & Hdrain).
    pose proof (RunOptimization_protocol _ _ Hrun) as (Ho' & _).
    pose proof (RunOptimization_nodes_view length _ _
                  ltac:(intros; by rewrite length_insert) Hrun) as Hnodes.
    assert (scan_index_to_node_id_ g1 = scan_index_to_node_id_ g) as Hids
      by by apply (RunOptimization_view scan_index_to_node_id_) in Hrun.
    assert (trajectory_ids_ g1 = trajectory_ids_ g) as Ht
      by by apply (RunOptimization_view trajectory_ids_) in Hrun.
    simpl in *. rewrite Hqueue in *. simpl in *.
    eapply run_buffered_consistent; [| | | |exact Hdrain]; simpl.
    + apply threshold_kept_reset. congruence.
    + done.
    + unfold scans_accounted. simpl. by rewrite Hnodes, Hids.
    + unfold imu_registered. simpl. by rewrite Ht.
  - done.
Qed.

Lemma reachable_queue_consistent options g :
  reachable options g -> queue_consistent options g.
Proof.
  revert g. apply reachable_kept.
  - split_and!.
    + pose proof (threshold_kept_reset options
                    (SparsePoseGraph_new options) eq_refl) as Hkept.
      by destruct Hkept as (? & ? & ? & ?).
    + split; [by intros [? ?]|done].
    + split; [done|]. simpl. done.
    + constructor.
  - intros g g' Hinv Hstep. by eapply queue_consistent_step.
Qed.

(** In every state of a history the scans that have no node id yet are
    exactly the scans that wait in the queue, in the order of their scan
    indices; without a queue every node has its node id.  The IMU
    samples that wait belong to registered trajectories, so that a
    waiting sample can be handed to the optimizer. *)
Theorem buffered_work_accounted (options : SparsePoseGraphOptions)
  (g : SparsePoseGraph) :
  reachable options g ->
  buffered_scans (default [] (scan_queue_ g))
  = seq (length (scan_index_to_node_id_ g))
      (length (trajectory_nodes_ g) - length (scan_index_to_node_id_ g))
  /\ length (scan_index_to_node_id_ g) <= length (trajectory_nodes_ g)
  /\ (scan_queue_ g = None ->
      length (scan_index_to_node_id_ g) = length (trajectory_nodes_ g))
  /\ forall trajectory time linear_acceleration angular_velocity,
       AddImuData_item trajectory time linear_acceleration angular_velocity
       ∈ default [] (scan_queue_ g) ->
       exists g',
         run_work_item
           (AddImuData_item trajectory time linear_acceleration
              angular_velocity) g = Ok g'.
Proof.
  intros Hreach.
  apply reachable_queue_consistent in Hreach
    as (_ & _ & [Hle Hscans] & Himu).
  split_and!; try done.
  - intros Hnone. rewrite Hnone in Hscans. simpl in Hscans.
    destruct (length (trajectory_nodes_ g)
              - length (scan_index_to_node_id_ g)) eqn:Hk; [lia|done].
  - intros trajectory time linear_acceleration angular_velocity Hin.
    unfold imu_registered in Himu. rewrite Forall_forall in Himu.
    destruct (Himu (Submaps_ptr trajectory)) as [trajectory_id Hid].
    { unfold buffered_imu_trajectories. apply list_elem_of_omap.
      eexists. split; [done|]. done. }
    simpl. unfold map_at. rewrite Hid. simpl. eauto.
Qed.

(** In every state of a history: the options are those the object was
    made with; the counter is not negative and, with a positive
    threshold, at most one above it; the pending flag is set exactly
    when a positive threshold has been passed; and the queue is
    allocated exactly when the flag is set. *)
Theorem pending_flag_and_queue (options : SparsePoseGraphOptions)
  (g : SparsePoseGraph) :
  reachable options g ->
  options_ g = options
  /\ (0 <= num_scans_since_last_loop_closure_ g)%Z
  /\ ((0 < optimize_every_n_scans options)%Z ->
      (num_scans_since_last_loop_closure_ g
       <= optimize_every_n_scans options + 1)%Z)
  /\ run_loop_closure_ g
     = threshold_passed options (num_scans_since_last_loop_closure_ g)
  /\ (is_Some (scan_queue_ g) <-> run_loop_closure_ g = true).
Proof.
  intros Hreach.
  apply reachable_queue_consistent in Hreach
    as ((Ho & Hc & Hf & Hbound) & Hpending & _).
  by split_and!.
Qed.

(** ** Node ids *)

Lemma nodes_in_app t (ids ids' : list NodeId.t) :
  nodes_in t (ids ++ ids') = nodes_in t ids + nodes_in t ids'.
Proof. unfold nodes_in. by rewrite List.filter_app, length_app. Qed.

Lemma nodes_in_singleton t (n : NodeId.t) :
  nodes_in t [n] = if NodeId.trajectory_id n =? t then 1 else 0.
Proof. unfold nodes_in. simpl. by destruct (_ =? _). Qed.

(** The node id a per-scan computation allocates. *)
Lemma ComputeConstraintsForScan_node_id scan_index matching_submap
  insertion_submaps finished_submap pose covariance g g' :
  ComputeConstraintsForScan scan_index matching_submap insertion_submaps
    finished_submap pose covariance g = Ok g' ->
  exists matching_id,
    let t := SubmapId.trajectory_id matching_id in
    let n := NodeId.mk t (default 0 (num_nodes_in_trajectory_ g !! t)) in
    submap_ids_ g !! Submap_ptr matching_submap = Some matching_id
    /\ scan_index_to_node_id_ g' = scan_index_to_node_id_ g ++ [n]
    /\ num_nodes_in_trajectory_ g'
       = <[t := S (NodeId.node_index n)]> (num_nodes_in_trajectory_ g).
Proof.
  unfold ComputeConstraintsForScan. intros Hrun.
  apply bind_Ok in Hrun as (g1 & Hgrow & Hrun).
  apply bind_Ok in Hrun as (matching_id & Hid & Hrun).
  apply bind_Ok in Hrun as (matching_entry & _ & Hrun).
  apply bind_Ok in Hrun as (? & _ & Hrun).
  apply bind_Ok in Hrun as (node & _ & Hrun).
  apply bind_Ok in Hrun as (? & _ & Hrun).
  apply bind_Ok in Hrun as (g3 & Hintra & Hrun).
  apply bind_Ok in Hrun as (g4 & Hmatch & Hrun).
  apply bind_Ok in Hrun as (g5 & Hfinish & Hrun).
  apply GetSubmapId_Ok in Hid.
  rewrite (GrowSubmapTransformsAsNeeded_view submap_ids_ _ g g1) in Hid
    by done.
  exists matching_id. simpl. split; [done|].
  apply match_against_finished_submaps_same_but_matcher in Hmatch.
  pose proof Hintra as Hintra'.
  apply (for_each_view scan_index_to_node_id_) in Hintra;
    [|intros s ? ?; by apply add_intra_submap_constraint_view].
  apply (for_each_view num_nodes_in_trajectory_) in Hintra';
    [|intros s ? ?; by apply add_intra_submap_constraint_view].
  simpl in Hintra, Hintra'.
  rewrite (GrowSubmapTransformsAsNeeded_view num_nodes_in_trajectory_
             _ g g1) in Hintra, Hintra' by done.
  rewrite (GrowSubmapTransformsAsNeeded_view scan_index_to_node_id_
             _ g g1) in Hintra by done.
  split.
  - rewrite (end_of_scan_view scan_index_to_node_id_ _ g5 g') by done.
    rewrite (finish_submap_view scan_index_to_node_id_ _ g4 g5) by done.
    by rewrite (same_but_matcher_view scan_index_to_node_id_ g3 g4)
      by done.
  - rewrite (end_of_scan_view num_nodes_in_trajectory_ _ g5 g') by done.
    rewrite (finish_submap_view num_nodes_in_trajectory_ _ g4 g5) by done.
    by rewrite (same_but_matcher_view num_nodes_in_trajectory_ g3 g4)
      by done.
Qed.

Lemma node_ids_step g g' :
  step g g' ->
  consecutively_numbered (scan_index_to_node_id_ g) /\ nodes_counted g ->
  consecutively_numbered (scan_index_to_node_id_ g') /\ nodes_counted g'.
Proof.
  revert g g'.
  apply (step_kept
           (fun g g' =>
              consecutively_numbered (scan_index_to_node_id_ g)
              /\ nodes_counted g ->
              consecutively_numbered (scan_index_to_node_id_ g')
              /\ nodes_counted g')); try done.
  - by intros g.
  - intros g1 g2 g3 H12 H23 ?. auto.
  - intros ? ? ? ? ? g g1 Hrun.
    by apply AddScan_registration_Ok in Hrun
      as (? & ? & ? & _ & _ & _ & _ & ->).
  - intros [] g g' Hrun; simpl in Hrun.
    + apply ComputeConstraintsForScan_node_id in Hrun
        as (matching_id & _ & Hids & Hnum).
      simpl in *. intros [Hconsecutive Hcounted].
      unfold nodes_counted. rewrite Hids, Hnum. split.
      * intros i n Hn.
        destruct (decide (i < length (scan_index_to_node_id_ g)))
          as [Hlt|Hge].
        -- rewrite lookup_app_l in Hn by done.
           rewrite take_app_le by lia. by apply Hconsecutive.
        -- rewrite lookup_app_r in Hn by lia.
           apply list_lookup_singleton_Some in Hn as [Hi <-].
           rewrite take_app_le, take_ge by lia. simpl. apply Hcounted.
      * intros t. rewrite nodes_in_app, nodes_in_singleton. simpl.
        destruct (Nat.eqb_spec (SubmapId.trajectory_id matching_id) t)
          as [<-|Hne].
        -- rewrite lookup_insert_eq. simpl. rewrite Hcounted. lia.
        -- rewrite lookup_insert_ne by done. rewrite Hcounted. lia.
    + by apply bind_Ok in Hrun as (? & _ & [= <-]).
  - intros g g' Hrun. unfold nodes_counted.
    rewrite (RunOptimization_view scan_index_to_node_id_ g g') by done.
    by rewrite (RunOptimization_view num_nodes_in_trajectory_ g g')
      by done.
Qed.

Lemma consecutively_numbered_NoDup (ids : list NodeId.t) :
  consecutively_numbered ids -> NoDup ids.
Proof.
  intros Hconsecutive. apply NoDup_alt. intros i j n Hi Hj.
  assert (forall i j, i < j -> ids !! i = Some n -> ids !! j = Some n ->
            False) as Hlt.
  { clear i j Hi Hj. intros i j Hlt Hi Hj.
    pose proof (Hconsecutive _ _ Hi) as Hindex_i.
    pose proof (Hconsecutive _ _ Hj) as Hindex_j.
    assert (take j ids = take i ids ++ n :: take (j - S i) (drop (S i) ids))
      as Hsplit.
    { rewrite <- (take_drop_middle ids i n Hi) at 1.
      rewrite take_app_ge by (rewrite length_take_le;
        [lia|apply lookup_lt_Some in Hi; lia]).
      rewrite length_take_le by (apply lookup_lt_Some in Hi; lia).
      replace (j - i) with (S (j - S i)) by lia. done. }
    rewrite Hsplit, nodes_in_app in Hindex_j.
    change (n :: ?l) with ([n] ++ l) in Hindex_j.
    rewrite nodes_in_app, nodes_in_singleton, Nat.eqb_refl in Hindex_j.
    lia. }
  destruct (Nat.lt_trichotomy i j) as [Hij|[Hij|Hij]]; [|done|];
    exfalso; eauto.
Qed.

Lemma reachable_node_ids options g :
  reachable options g ->
  consecutively_numbered (scan_index_to_node_id_ g) /\ nodes_counted g.
Proof.
  revert g. apply reachable_kept.
  - split; [by intros i n|by intros t].
  - intros g g' Hinv Hstep. by eapply node_ids_step.
Qed.

(** In every state of a history the node ids are numbered per
    trajectory in the order of the scans: the node index of a scan is
    the number of earlier scans of its trajectory.  So no two scans
    share a node id, and the counter of a trajectory is the number of
    its node ids. *)
Theorem node_ids_consecutive (options : SparsePoseGraphOptions)
  (g : SparsePoseGraph) :
  reachable options g ->
  (forall i n,
     scan_index_to_node_id_ g !! i = Some n ->
     NodeId.node_index n
     = nodes_in (NodeId.trajectory_id n) (take i (scan_index_to_node_id_ g)))
  /\ NoDup (scan_index_to_node_id_ g)
  /\ forall t,
       default 0 (num_nodes_in_trajectory_ g !! t)
       = nodes_in t (scan_index_to_node_id_ g).
Proof.
  intros Hreach.
  apply reachable_node_ids in Hreach as [Hconsecutive Hcounted].
  split_and!; try done. by apply consecutively_numbered_NoDup.
Qed.

(** ** Submap states and the registry of handles *)

Lemma settled_refl state : settled state state.
Proof. by split_and!. Qed.

Lemma settled_trans s1 s2 s3 : settled s1 s2 -> settled s2 s3 -> settled s1 s3.
Proof.
  intros (Hs12 & Hn12 & Hf12) (Hs23 & Hn23 & Hf23).
  split_and!; [congruence|set_solver|].
  intros Hf. rewrite (Hf12 Hf) in *. by apply Hf23.
Qed.

Lemma states_kept_refl v : states_kept v v.
Proof. intros i j. destruct (lookup2 v i j); [apply settled_refl|done]. Qed.

Lemma states_kept_trans v1 v2 v3 :
  states_kept v1 v2 -> states_kept v2 v3 -> states_kept v1 v3.
Proof.
  intros H12 H23 i j. specialize (H12 i j). specialize (H23 i j).
  destruct (lookup2 v1 i j), (lookup2 v2 i j), (lookup2 v3 i j);
    try done.
  by eapply settled_trans.
Qed.

(** A state that is not finished may take a node id or become
    finished. *)
Lemma states_kept_alter2 (f : SubmapState -> SubmapState) i j v state :
  lookup2 v i j = Some state ->
  finished state = false ->
  submap (f state) = submap state ->
  node_ids state ⊆ node_ids (f state) ->
  states_kept v (alter2 f i j v).
Proof.
  intros Hstate Hunfinished Hsubmap Hnodes i' j'. rewrite lookup2_alter2.
  destruct (decide _) as [[<- <-]|_].
  - rewrite Hstate. simpl. split_and!; [done..|]. congruence.
  - destruct (lookup2 v i' j'); [apply settled_refl|done].
Qed.

Lemma states_kept_same g g' :
  submap_states_ g' = submap_states_ g ->
  states_kept (submap_states_ g) (submap_states_ g').
Proof. intros ->. apply states_kept_refl. Qed.

(** A work item leaves every submap state in place and [settled]. *)
Lemma run_work_item_states_kept w g g' :
  run_work_item w g = Ok g' ->
  states_kept (submap_states_ g) (submap_states_ g').
Proof.
  destruct w; simpl; intros Hrun;
    [|apply bind_Ok in Hrun as (? & _ & [= <-]); apply states_kept_refl].
  apply ComputeConstraintsForScan_phases in Hrun
    as (g1 & matching_id & g2 & g3 & g4 & g5 & _ & _ & _ & _ & Hs2 & _
        & _ & _ & Hintra & Hmatch & Hfinish & Hend).
  rewrite <- Hs2.
  eapply states_kept_trans; [|eapply states_kept_trans;
    [|eapply states_kept_trans]].
  - (* the insertion submaps *)
    revert Hintra.
    apply (for_each_kept
             (fun g g' => states_kept (submap_states_ g)
                            (submap_states_ g'))).
    + intros g0. apply states_kept_refl.
    + intros ? ? ?. apply states_kept_trans.
    + intros s g0 g0' Hstep.
      apply add_intra_submap_constraint_Ok in Hstep
        as (id & state & _ & Hstate & Hunfinished & ->). simpl.
      eapply states_kept_alter2; [done|done|done|]. simpl. set_solver.
  - (* the finished submaps *)
    apply match_against_finished_submaps_same_but_matcher in Hmatch.
    apply states_kept_same.
    by apply (same_but_matcher_view submap_states_).
  - (* the completed submap *)
    destruct finished_submap as [s|];
      [|injection Hfinish as <-; apply states_kept_refl].
    apply finish_submap_Ok in Hfinish
      as (id & state & g6 & _ & Hstate & Hunfinished & Hold & ->).
    apply ComputeConstraintsForOldScans_same_but_matcher in Hold.
    simpl. rewrite (same_but_matcher_view submap_states_ g4 g6) by done.
    by eapply states_kept_alter2.
  - apply states_kept_same. by eapply end_of_scan_view.
Qed.

Lemma states_kept_settle g g' :
  states_kept (submap_states_ g) (submap_states_ g') -> states_settle g g'.
Proof.
  intros Hkept [i j] state Hstate. unfold state_of in *. simpl in *.
  specialize (Hkept i j). rewrite Hstate in Hkept.
  destruct (lookup2 (submap_states_ g') i j) as [state'|]; [|done]. eauto.
Qed.

Lemma states_settle_same g g' :
  submap_states_ g' = submap_states_ g -> states_settle g g'.
Proof. intros Hsame. by apply states_kept_settle, states_kept_same. Qed.

(** What [push_back_at] holds. *)
Lemma lookup2_push_back_at {A} (t : nat) (x : A) (v : list (list A))
  (i j : nat) (a : A) :
  lookup2 (push_back_at t x v) i j = Some a
  <-> lookup2 v i j = Some a
      \/ (i = t /\ j = length (default [] (v !! t)) /\ a = x).
Proof.
  unfold push_back_at, lookup2, resize_to.
  rewrite take_ge by lia.
  destruct (decide (i = t)) as [->|Hne].
  - rewrite list_lookup_alter_eq.
    destruct (v !! t) as [l|] eqn:Hl; simpl.
    + rewrite lookup_app_l by (by eapply lookup_lt_Some). rewrite Hl. simpl.
      rewrite lookup_snoc_Some. split.
      * intros [[_ Hj]|[-> ->]]; [by left|by right].
      * intros [Hj|(_ & -> & ->)]; [left|by right].
        split; [by eapply lookup_lt_Some|done].
    + apply lookup_ge_None in Hl.
      rewrite lookup_app_r by done.
      rewrite lookup_replicate_2 by lia. simpl.
      rewrite list_lookup_singleton_Some. split.
      * intros [-> ->]. by right.
      * by intros [[=]|(_ & -> & ->)].
  - rewrite list_lookup_alter_ne by done.
    destruct (decide (i < length v)) as [Hlt|Hge].
    + rewrite lookup_app_l by done. split; [by left|].
      by intros [?|(? & _)].
    + rewrite lookup_app_r by lia. rewrite (lookup_ge_None_2 v) by lia.
      simpl. split; [|by intros [[=]|(? & _)]].
      destruct (replicate _ _ !! _) as [l|] eqn:Hl; simpl; [|done].
      apply lookup_replicate in Hl as [-> _]. done.
Qed.

Lemma submap_states_step g g' : step g g' -> states_settle g g'.
Proof.
  revert g g'. apply (step_kept states_settle);
    try (intros; by apply states_settle_same).
  - intros g. by apply states_settle_same.
  - intros g1 g2 g3 H12 H23 id s1 Hs1.
    destruct (H12 _ _ Hs1) as (s2 & Hs2 & Hsettled12).
    destruct (H23 _ _ Hs2) as (s3 & Hs3 & Hsettled23).
    exists s3. split; [done|]. by eapply settled_trans.
  - intros ? ? ? ? ? g g1 Hrun.
    apply AddScan_registration_Ok in Hrun
      as (? & trajectory_id & newest & _ & _ & _ & _ & ->).
    intros [i j] state Hstate. exists state. split; [|apply settled_refl].
    unfold state_of in *. simpl in *.
    destruct (decide _); [done|].
    apply lookup2_push_back_at. by left.
  - intros w g g' Hrun.
    by eapply states_kept_settle, run_work_item_states_kept.
  - intros g g' Hrun. apply states_settle_same.
    by apply (RunOptimization_view submap_states_) in Hrun.
Qed.

(** Whatever the front-end, the matcher and the solver do to the object
    in one step, a submap state that exists stays at its id with its
    handle; node ids are only ever added to it; and once it is finished
    it does not change any more. *)
Theorem finished_submaps_settled (g g' : SparsePoseGraph) (id : SubmapId.t)
  (state : SubmapState) :
  step g g' ->
  state_of id g = Some state ->
  exists state',
    state_of id g' = Some state'
    /\ submap state' = submap state
    /\ node_ids state ⊆ node_ids state'
    /\ (finished state = true -> state' = state).
Proof.
  intros Hstep Hstate.
  apply submap_states_step in Hstep.
  destruct (Hstep _ _ Hstate) as (state' & Hstate' & Hs & Hn & Hf). eauto.
Qed.

(** *** The registry *)

Lemma registry_step g g' :
  step g g' -> registry_consistent g -> registry_consistent g'.
Proof.
  assert (forall s s',
            submap_ids_ s' = submap_ids_ s ->
            states_kept (submap_states_ s) (submap_states_ s') ->
            registry_consistent s -> registry_consistent s') as Hkept.
  { intros s s' Hids Hstates Hinv p [i j]. unfold state_of. simpl.
    rewrite Hids, (Hinv p (SubmapId.mk i j)). unfold state_of. simpl.
    specialize (Hstates i j).
    destruct (lookup2 (submap_states_ s) i j) as [state|],
             (lookup2 (submap_states_ s') i j) as [state'|]; try done.
    - destruct Hstates as (Hsubmap & _).
      split; intros (? & [= <-] & <-); eexists; (split; [done|]);
        congruence. }
  revert g g'.
  apply (step_kept (fun g g' => registry_consistent g ->
                                registry_consistent g'));
    try (intros; assumption).
  - by intros g.
  - intros g1 g2 g3 H12 H23 ?. auto.
  - intros ? ? ? ? ? g g1 Hrun Hinv.
    apply AddScan_registration_Ok in Hrun
      as (? & trajectory_id & newest & _ & _ & _ & _ & ->).
    destruct (decide (is_Some (submap_ids_ g !! Submap_ptr newest)))
      as [Hknown|Hnew].
    { intros p id. unfold state_of. simpl. apply Hinv. }
    apply eq_None_not_Some in Hnew.
    intros p [i j]. unfold state_of. simpl.
    setoid_rewrite lookup2_push_back_at. split.
    + destruct (decide (p = Submap_ptr newest)) as [->|Hne].
      * rewrite lookup_insert_eq. intros [= <- <-].
        eexists. split; [right; done|done].
      * rewrite lookup_insert_ne by done. intros Hp.
        apply Hinv in Hp as (state & Hstate & Hptr).
        exists state. split; [by left|done].
    + intros (state & [Hstate|(-> & -> & ->)] & Hptr).
      * assert (submap_ids_ g !! p = Some (SubmapId.mk i j)) as Hp
          by (apply Hinv; eauto).
        rewrite lookup_insert_ne; [done|]. congruence.
      * simpl in Hptr. subst p. by rewrite lookup_insert_eq.
  - intros w g g' Hrun. apply Hkept.
    + by apply run_work_item_static in Hrun as (_ & ? & _).
    + by eapply run_work_item_states_kept.
  - intros g g' Hrun. apply Hkept.
    + by apply (RunOptimization_view submap_ids_) in Hrun.
    + apply states_kept_same.
      by apply (RunOptimization_view submap_states_) in Hrun.
Qed.

(** In every state of a history a submap handle is registered under an
    id exactly when the submap state at that id holds that handle.  So
    [GetSubmapId] of the handle of a state gives back the place of the
    state, and no two handles share an id. *)
Theorem submap_ids_match_states (options : SparsePoseGraphOptions)
  (g : SparsePoseGraph) :
  reachable options g ->
  (forall p id,
     submap_ids_ g !! p = Some id
     <-> exists state,
           state_of id g = Some state /\ Submap_ptr (submap state) = p)
  /\ (forall id state,
        state_of id g = Some state -> GetSubmapId (submap state) g = Ok id)
  /\ (forall p q id,
        submap_ids_ g !! p = Some id -> submap_ids_ g !! q = Some id ->
        p = q).
Proof.
  intros Hreach.
  assert (registry_consistent g) as Hinv.
  { revert g Hreach. apply reachable_kept.
    - intros p [i j]. unfold state_of. simpl. split; [done|].
      by intros (? & [=] & _).
    - intros g g' Hinv Hstep. by eapply registry_step. }
  split_and!; [done|..].
  - intros id state Hstate. apply GetSubmapId_Ok. apply Hinv. eauto.
  - intros p q id Hp Hq.
    apply Hinv in Hp as (sp & Hsp & <-). apply Hinv in Hq as (sq & Hsq & <-).
    congruence.
Qed.

(** ** What an optimization leaves behind *)

(** *** The reverse map of the connected components *)

Lemma emplace_lookup_other (a i t : nat) (m : gmap nat nat) :
  emplace a i m !! t
  = match m !! t with
    | Some j => Some j
    | None => if decide (t = a) then Some i else None
    end.
Proof.
  unfold emplace. destruct (m !! a) as [k|] eqn:Ha.
  - destruct (m !! t) eqn:Ht; [done|].
    destruct (decide (t = a)) as [->|Hne]; [congruence|done].
  - destruct (decide (t = a)) as [->|Hne].
    + by rewrite lookup_insert_eq, Ha.
    + rewrite lookup_insert_ne by done. by destruct (m !! t).
Qed.

Lemma reverse_component_lookup (i t : nat) (component : list nat) :
  forall m : gmap nat nat,
    foldl (fun m trajectory_id => emplace trajectory_id i m) m component !! t
    = match m !! t with
      | Some j => Some j
      | None => if decide (t ∈ component) then Some i else None
      end.
Proof.
  induction component as [|a component IH]; intros m; cbn [foldl].
  - destruct (m !! t); [done|].
    by rewrite decide_False by apply not_elem_of_nil.
  - rewrite IH, emplace_lookup_other. destruct (m !! t); [done|].
    destruct (decide (t = a)) as [->|Hne].
    + by rewrite decide_True by apply list_elem_of_here.
    + destruct (decide (t ∈ component)) as [Hin|Hout].
      * by rewrite decide_True by by apply list_elem_of_further.
      * rewrite decide_False; [done|].
        intros [?|?]%elem_of_cons; done.
Qed.

Lemma reverse_components_from (t : nat) (components : list (list nat)) :
  forall (start : nat) (m : gmap nat nat),
    foldl (fun m '(i, component) =>
             foldl (fun m trajectory_id => emplace trajectory_id i m)
                   m component)
          m (zip (seq start (length components)) components) !! t
    = match m !! t with
      | Some j => Some j
      | None => (fun i => start + i) <$> first_component components t
      end.
Proof.
  unfold first_component.
  induction components as [|component components IH]; intros start m;
    simpl.
  - by destruct (m !! t).
  - rewrite IH, reverse_component_lookup. destruct (m !! t); [done|].
    destruct (decide (t ∈ component)); simpl.
    + f_equal. lia.
    + destruct (list_find _ components) as [[i c]|]; simpl; [|done].
      f_equal. lia.
Qed.

(** Lines 405-410: a trajectory id is mapped to the index of the first
    component that holds it, and to nothing when no component does. *)
Lemma reverse_components_lookup (components : list (list nat)) (t : nat) :
  reverse_components components !! t = first_component components t.
Proof.
  unfold reverse_components. rewrite reverse_components_from.
  rewrite lookup_empty. by destruct (first_component components t).
Qed.

Lemma first_component_Some (components : list (list nat)) (t i : nat) :
  first_component components t = Some i
  <-> (exists component, components !! i = Some component /\ t ∈ component)
      /\ forall j component,
           j < i -> components !! j = Some component -> t ∉ component.
Proof.
  unfold first_component. split.
  - destruct (list_find _ components) as [[i' c]|] eqn:Hfind; [|done].
    intros [= <-]. apply list_find_Some in Hfind as (Hc & Hin & Hfirst).
    split; [by eauto|]. intros j component Hlt Hj. by eapply Hfirst.
  - intros [(component & Hc & Hin) Hfirst].
    assert (list_find (fun component => t ∈ component) components
            = Some (i, component)) as ->; [|done].
    apply list_find_Some. split_and!; try done.
    intros j c Hj Hlt. by eapply Hfirst.
Qed.

(** *** The frame of [RunOptimization] *)

(** With submap data in the optimizer, [RunOptimization] runs the
    solver once, on the constraints, and keeps the result as the
    optimization problem; the snapshot of optimized submap poses is the
    solver's submap data; the connected components are those of the
    connectivity structure at that time, and the reverse map sends a
    trajectory id to the first component that holds it.  Apart from
    these and the poses of the nodes the object is as it was. *)
Theorem RunOptimization_snapshot (g g' : SparsePoseGraph) :
  submap_data (optimization_problem_ g) <> [] ->
  RunOptimization g = Ok g' ->
  let solved :=
    OptimizationProblem_Solve (constraints_ g) (optimization_problem_ g) in
  let components := ConnectedComponents (trajectory_connectivity_ g) in
  num_solves solved = S (num_solves (optimization_problem_ g))
  /\ (forall t,
        reverse_components components !! t = first_component components t)
  /\ g' = set_reverse_connected_components_ (reverse_components components)
            (set_connected_components_ components
               (set_optimized_submap_transforms_ (submap_data solved)
                  (set_trajectory_nodes_ (trajectory_nodes_ g')
                     (set_optimization_problem_ solved g)))).
Proof.
  intros Hdata Hrun. simpl. split; [done|].
  split; [intros t; apply reverse_components_lookup|].
  unfold RunOptimization in Hrun.
  assert (empty (submap_data (optimization_problem_ g)) = false) as Hsome
    by by destruct (submap_data (optimization_problem_ g)).
  rewrite Hsome in Hrun.
  apply bind_Ok in Hrun as (g1 & Hcopy & Hrun).
  apply bind_Ok in Hrun as ([cache g2] & Hlater & [= <-]).
  apply copy_optimized_poses_Ok in Hcopy as (Hg1 & _).
  apply extrapolate_later_poses_Ok in Hlater as (Hg2 & _).
  rewrite Hg2, Hg1. by destruct g.
Qed.

(** A step keeps the reverse map in line with the components. *)
Lemma components_step g g' :
  step g g' ->
  reverse_connected_components_ g
  = reverse_components (connected_components_ g) ->
  reverse_connected_components_ g'
  = reverse_components (connected_components_ g').
Proof.
  revert g g'.
  apply (step_kept
           (fun g g' =>
              reverse_connected_components_ g
              = reverse_components (connected_components_ g) ->
              reverse_connected_components_ g'
              = reverse_components (connected_components_ g')));
    try done.
  - by intros g.
  - intros g1 g2 g3 H12 H23 ?. auto.
  - intros ? ? ? ? ? g g1 Hrun.
    by apply AddScan_registration_Ok in Hrun
      as (? & ? & ? & _ & _ & _ & _ & ->).
  - intros w g g' Hrun.
    by apply run_work_item_static in Hrun as (_ & _ & -> & -> & _).
  - intros g g' Hrun. unfold RunOptimization in Hrun.
    destruct (empty _); [by injection Hrun as <-|].
    apply bind_Ok in Hrun as (g1 & Hcopy & Hrun).
    by apply bind_Ok in Hrun as ([cache g2] & Hlater & [= <-]).
Qed.

(** In every state of a history the reverse map is the one the loop of
    [RunOptimization] makes of the components [GetConnectedTrajectories]
    returns; so [ComputeConstraint] takes two trajectories for connected
    exactly when the first component that holds the one is the first
    component that holds the other. *)
Theorem connected_by_first_component (options : SparsePoseGraphOptions)
  (g : SparsePoseGraph) :
  reachable options g ->
  reverse_connected_components_ g
  = reverse_components (GetConnectedTrajectories g)
  /\ forall a b,
       trajectories_connected a b g = true
       <-> exists i,
             first_component (GetConnectedTrajectories g) a = Some i
             /\ first_component (GetConnectedTrajectories g) b = Some i.
Proof.
  intros Hreach. unfold GetConnectedTrajectories.
  assert (reverse_connected_components_ g
          = reverse_components (connected_components_ g)) as Hreverse.
  { revert g Hreach. apply reachable_kept; [done|].
    intros g g' Hinv Hstep. by eapply components_step. }
  split; [done|]. intros a b. unfold trajectories_connected.
  rewrite Hreverse, !reverse_components_lookup.
  destruct (first_component _ a) as [ia|], (first_component _ b) as [ib|].
  - rewrite Nat.eqb_eq. split; [intros ->; eauto|].
    by intros (i & [= ->] & [= ->]).
  - split; [done|]. by intros (i & _ & [=]).
  - split; [done|]. by intros (i & [=] & _).
  - split; [done|]. by intros (i & [=] & _).
Qed.

(** *** The final optimization *)

(** In a state in which no callback of the matcher is pending and no
    work is buffered, so that the first wait of [WaitForAllComputations]
    ends without the object changing: [RunFinalOptimization] takes the
    matcher's last constraints into the list, and when the optimizer
    holds submap data it runs the solver once, on all constraints and
    with the iteration cap set to [max_num_final_iterations]; in either
    case the cap is back at the configured value afterwards, no callback
    is left registered and there is still no queue. *)
Theorem RunFinalOptimization_solves_once (result : list Constraint)
  (g g' : SparsePoseGraph) :
  when_done (constraint_builder_ g) = None ->
  scan_queue_ g = None ->
  RunFinalOptimization result g = Ok g' ->
  let capped :=
    OptimizationProblem_SetMaxNumIterations
      (max_num_final_iterations (options_ g)) (optimization_problem_ g) in
  optimization_problem_ g'
  = OptimizationProblem_SetMaxNumIterations
      (ceres_max_num_iterations (options_ g))
      (if empty (submap_data (optimization_problem_ g)) then capped
       else OptimizationProblem_Solve (constraints_ g ++ result) capped)
  /\ max_num_iterations (optimization_problem_ g')
     = ceres_max_num_iterations (options_ g)
  /\ constraints_ g' = constraints_ g ++ result
  /\ when_done (constraint_builder_ g') = None
  /\ scan_queue_ g' = None
  /\ calls (constraint_builder_ g')
     = calls (constraint_builder_ g)
       ++ [WhenDone WaitForAllComputations_callback].
Proof.
  unfold RunFinalOptimization, WaitForAllComputations.
  intros _ Hqueue Hrun.
  apply bind_Ok in Hrun as (g1 & Hrun & [= <-]). simpl.
  pose proof (RunOptimization_view scan_queue_ _ g1
                ltac:(done) ltac:(done) ltac:(done) ltac:(done)
                ltac:(done) Hrun) as Hqueue'.
  simpl in Hqueue'. rewrite Hqueue in Hqueue'.
  pose proof (RunOptimization_view constraints_ _ g1
                ltac:(done) ltac:(done) ltac:(done) ltac:(done)
                ltac:(done) Hrun) as Hconstraints.
  pose proof (RunOptimization_view constraint_builder_ _ g1
                ltac:(done) ltac:(done) ltac:(done) ltac:(done)
                ltac:(done) Hrun) as Hbuilder.
  pose proof (RunOptimization_view options_ _ g1
                ltac:(done) ltac:(done) ltac:(done) ltac:(done)
                ltac:(done) Hrun) as Hoptions.
  simpl in Hconstraints, Hbuilder, Hoptions.
  rewrite Hconstraints, Hbuilder, Hoptions. split_and!; try done.
  f_equal. unfold RunOptimization in Hrun. simpl in Hrun.
  destruct (empty (submap_data (optimization_problem_ g))).
  - by injection Hrun as <-.
  - apply bind_Ok in Hrun as (g2 & Hcopy & Hrun).
    apply bind_Ok in Hrun as ([cache g3] & Hlater & [= <-]). simpl.
    apply (for_each_partial extrapolate_later_pose
             (fun _ acc => optimization_problem_ acc.2
                           = optimization_problem_ g2)) in Hlater;
      [|done|].
    + simpl in Hlater. rewrite Hlater.
      apply (for_each_view optimization_problem_) in Hcopy; [done|].
      intros i s s' Hstep. unfold copy_optimized_pose in Hstep.
      apply bind_Ok in Hstep as (? & _ & Hstep).
      apply bind_Ok in Hstep as (? & _ & Hstep).
      by eapply set_node_pose_view.
    + intros done i rest [c s] [c' s'] _ Hs Hstep. simpl in *.
      rewrite <- Hs. unfold extrapolate_later_pose in Hstep.
      apply bind_Ok in Hstep as (node & _ & Hstep).
      apply bind_Ok in Hstep as (cache1 & _ & Hstep).
      apply bind_Ok in Hstep as (s1 & Hset & [= _ <-]).
      by eapply set_node_pose_view.
Qed.

(** ** Candidates, samplers and the optimizer's input *)

(** [ComputeConstraint] pulses the sampler of the scan's trajectory
    exactly when the submap belongs to another trajectory, whatever
    becomes of the candidate afterwards, and touches no other sampler;
    a candidate within one trajectory leaves all samplers alone. *)
Theorem ComputeConstraint_sampler (scan_index : nat)
  (submap_id : SubmapId.t) (g g' : SparsePoseGraph) :
  ComputeConstraint scan_index submap_id g = Ok g' ->
  exists node,
    trajectory_nodes_ g !! scan_index = Some node
    /\ if trajectory_id_of node =? SubmapId.trajectory_id submap_id
       then global_localization_samplers_ g'
            = global_localization_samplers_ g
       else exists sampler,
              global_localization_samplers_ g !! trajectory_id_of node
              = Some sampler
              /\ global_localization_samplers_ g'
                 = <[trajectory_id_of node := (Pulse sampler).2]>
                     (global_localization_samplers_ g).
Proof.
  unfold ComputeConstraint. intros Hrun.
  apply bind_Ok in Hrun as (node_id & _ & Hrun).
  apply bind_Ok in Hrun as (submap_entry & _ & Hrun).
  apply bind_Ok in Hrun as (node_entry & _ & Hrun).
  apply bind_Ok in Hrun as (node & Hnode & Hrun).
  apply bind_Ok in Hrun as ([global g1] & Hpulse & Hrun).
  apply index_Ok in Hnode. exists node. split; [done|].
  assert (global_localization_samplers_ g'
          = global_localization_samplers_ g1) as ->.
  { destruct global.
    - by apply bind_Ok in Hrun as (state & _ & [= <-]).
    - destruct (_ || _).
      + by apply bind_Ok in Hrun as (state & _ & [= <-]).
      + by injection Hrun as <-. }
  unfold trajectory_id_of.
  destruct (_ =? _); simpl in Hpulse.
  - by injection Hpulse as _ <-.
  - unfold pulse_sampler in Hpulse.
    destruct (global_localization_samplers_ g !! _) as [sampler|];
      [|done].
    exists sampler. split; [done|].
    destruct (Pulse sampler) as [fired sampler'].
    by injection Hpulse as _ <-.
Qed.

(** *** The new scan against the finished submaps *)

Lemma ComputeConstraint_submap_states scan_index submap_id g g' :
  ComputeConstraint scan_index submap_id g = Ok g' ->
  submap_states_ g' = submap_states_ g.
Proof.
  intros Hrun. apply ComputeConstraint_same_but_matcher in Hrun.
  by apply (same_but_matcher_view submap_states_).
Qed.

Lemma match_against_finished_submaps_inner scan_index node_id
  (v : list (list SubmapState)) (trajectory_id : nat) :
  (forall j state,
     lookup2 v trajectory_id j = Some state -> finished state = true ->
     node_id ∉ node_ids state) ->
  forall (rest : list SubmapState) (start : nat) (g : SparsePoseGraph),
    submap_states_ g = v ->
    (forall k state,
       rest !! k = Some state ->
       lookup2 v trajectory_id (start + k) = Some state) ->
    for_each
      (fun submap_index g =>
         state ← at2 (submap_states_ g) trajectory_id submap_index;
         if finished state then
           _ ← CHECK (negb (bool_decide (node_id ∈ node_ids state)));
           ComputeConstraint scan_index
             (SubmapId.mk trajectory_id submap_index) g
         else mret g)
      (seq start (length rest)) g
    = for_each (ComputeConstraint scan_index)
        (flat_map
           (fun '(submap_index, state) =>
              if finished state
              then [SubmapId.mk trajectory_id submap_index] else [])
           (zip (seq start (length rest)) rest)) g.
Proof.
  intros Hfresh.
  induction rest as [|state rest IH]; intros start g Hstates Hrest; [done|].
  cbn [length seq zip zip_with flat_map for_each].
  pose proof (Hrest 0 state eq_refl) as Hstate.
  rewrite Nat.add_0_r in Hstate.
  rewrite Hstates, (proj2 (at2_lookup2 _ _ _ _) Hstate).
  cbn [mbind Outcome_bind].
  assert (forall g1,
            submap_states_ g1 = v ->
            for_each
              (fun submap_index g =>
                 state ← at2 (submap_states_ g) trajectory_id submap_index;
                 if finished state then
                   _ ← CHECK (negb (bool_decide (node_id ∈ node_ids state)));
                   ComputeConstraint scan_index
                     (SubmapId.mk trajectory_id submap_index) g
                 else mret g)
              (seq (S start) (length rest)) g1
            = for_each (ComputeConstraint scan_index)
                (flat_map
                   (fun '(submap_index, state) =>
                      if finished state
                      then [SubmapId.mk trajectory_id submap_index] else [])
                   (zip (seq (S start) (length rest)) rest)) g1) as Hnext.
  { intros g1 Hg1. apply IH; [done|]. intros k state' Hk.
    replace (S start + k) with (start + S k) by lia. by apply Hrest. }
  destruct (finished state) eqn:Hfinished.
  - rewrite bool_decide_false by by eapply Hfresh.
    cbn [negb CHECK mbind Outcome_bind app for_each].
    destruct (ComputeConstraint _ _ g) as [g1|] eqn:Hrun; [|done].
    cbn [mbind Outcome_bind]. apply Hnext.
    apply ComputeConstraint_submap_states in Hrun. congruence.
  - cbn [mbind Outcome_bind mret Outcome_ret app]. by apply Hnext.
Qed.

Lemma match_against_finished_submaps_outer scan_index node_id
  (v : list (list SubmapState)) :
  (forall i j state,
     lookup2 v i j = Some state -> finished state = true ->
     node_id ∉ node_ids state) ->
  forall (rest : list (list SubmapState)) (start : nat)
         (g : SparsePoseGraph),
    submap_states_ g = v ->
    (forall k t, rest !! k = Some t -> v !! (start + k) = Some t) ->
    for_each
      (fun trajectory_id g =>
         t ← at_ (submap_states_ g) trajectory_id;
         for_each
           (fun submap_index g =>
              state ← at2 (submap_states_ g) trajectory_id submap_index;
              if finished state then
                _ ← CHECK (negb (bool_decide (node_id ∈ node_ids state)));
                ComputeConstraint scan_index
                  (SubmapId.mk trajectory_id submap_index) g
              else mret g)
           (seq 0 (length t)) g)
      (seq start (length rest)) g
    = for_each (ComputeConstraint scan_index)
        (flat_map
           (fun '(trajectory_id, t) =>
              flat_map
                (fun '(submap_index, state) =>
                   if finished state
                   then [SubmapId.mk trajectory_id submap_index] else [])
                (zip (seq 0 (length t)) t))
           (zip (seq start (length rest)) rest)) g.
Proof.
  intros Hfresh.
  induction rest as [|t rest IH]; intros start g Hstates Hrest; [done|].
  cbn [length seq zip zip_with flat_map for_each].
  pose proof (Hrest 0 t eq_refl) as Ht. rewrite Nat.add_0_r in Ht.
  rewrite Hstates, (at_known _ _ _ Ht). cbn [mbind Outcome_bind].
  rewrite for_each_app.
  rewrite (match_against_finished_submaps_inner scan_index node_id v start
             (Hfresh start) t 0 g Hstates).
  2: { intros k state Hk. unfold lookup2. rewrite Ht. done. }
  destruct (for_each (ComputeConstraint scan_index) _ g) as [g1|] eqn:Hrun;
    [|done].
  cbn [mbind Outcome_bind]. apply IH.
  - rewrite <- Hstates. revert Hrun. apply for_each_view.
    intros id s s'. apply ComputeConstraint_submap_states.
  - intros k t' Hk. replace (S start + k) with (start + S k) by lia.
    by apply Hrest.
Qed.

(** When the scan's node id is in the node set of no finished submap,
    the two loops of lines 263-278 are the decision [ComputeConstraint],
    run once for every finished submap and for no other, by trajectory
    id and then by submap index. *)
Theorem match_against_finished_submaps_in_order (scan_index : nat)
  (node_id : NodeId.t) (g : SparsePoseGraph) :
  (forall id state,
     state_of id g = Some state -> finished state = true ->
     node_id ∉ node_ids state) ->
  match_against_finished_submaps scan_index node_id g
  = for_each (ComputeConstraint scan_index)
      (finished_submap_ids (submap_states_ g)) g.
Proof.
  intros Hfresh. unfold match_against_finished_submaps, finished_submap_ids.
  apply (match_against_finished_submaps_outer scan_index node_id
           (submap_states_ g)); [|done|done].
  intros i j state Hstate. by apply (Hfresh (SubmapId.mk i j)).
Qed.

(** *** The first submap of a trajectory *)

(** [GrowSubmapTransformsAsNeeded] stops at a check unless it gets one
    or two insertion submaps.  With one submap, whose index must be 0,
    it gives the optimizer an identity pose for the trajectory's first
    submap when the optimizer has no submap of the trajectory, and does
    nothing otherwise; doing it again changes nothing. *)
Theorem GrowSubmapTransformsAsNeeded_first_submap :
  (forall insertion_submaps g,
     length insertion_submaps <> 1 -> length insertion_submaps <> 2 ->
     GrowSubmapTransformsAsNeeded insertion_submaps g = Abort CheckFailed)
  /\ (forall s id g,
        GetSubmapId s g = Ok id ->
        let t := SubmapId.trajectory_id id in
        let data := submap_data (optimization_problem_ g) in
        GrowSubmapTransformsAsNeeded [s] g
        = (if SubmapId.submap_index id =? 0 then
             Ok match data !! t with
                | Some (_ :: _) => g
                | _ =>
                    set_optimization_problem_
                      (set_submap_data
                         (push_back_at t {| SubmapData_pose := Identity |}
                            data) (optimization_problem_ g)) g
                end
           else Abort CheckFailed)
        /\ forall g',
             GrowSubmapTransformsAsNeeded [s] g = Ok g' ->
             GrowSubmapTransformsAsNeeded [s] g' = Ok g').
Proof.
  split.
  - intros insertion_submaps g Hone Htwo.
    unfold GrowSubmapTransformsAsNeeded.
    destruct insertion_submaps as [|first rest]; [done|].
    cbn [empty negb CHECK mbind Outcome_bind index lookup list_lookup].
    unfold GetSubmapId. destruct (submap_ids_ g !! _); [|done].
    cbn [mbind Outcome_bind].
    rewrite (proj2 (Nat.eqb_neq _ _)) by done.
    by rewrite (proj2 (Nat.eqb_neq _ _)) by done.
  - intros s id g Hid.
    assert (forall g0,
              GetSubmapId s g0 = Ok id ->
              GrowSubmapTransformsAsNeeded [s] g0
              = (if SubmapId.submap_index id =? 0 then
                   Ok match submap_data (optimization_problem_ g0)
                            !! SubmapId.trajectory_id id with
                      | Some (_ :: _) => g0
                      | _ =>
                          set_optimization_problem_
                            (set_submap_data
                               (push_back_at (SubmapId.trajectory_id id)
                                  {| SubmapData_pose := Identity |}
                                  (submap_data (optimization_problem_ g0)))
                               (optimization_problem_ g0)) g0
                      end
                 else Abort CheckFailed)) as Hgrow.
    { intros g0 Hg0. unfold GrowSubmapTransformsAsNeeded.
      cbn [empty negb CHECK mbind Outcome_bind index lookup list_lookup
           length Nat.eqb].
      rewrite Hg0. cbn [mbind Outcome_bind].
      destruct (SubmapId.submap_index id =? 0); [|done].
      cbn [CHECK mbind Outcome_bind].
      destruct (Nat.leb_spec
                  (length (submap_data (optimization_problem_ g0)))
                  (SubmapId.trajectory_id id)) as [Hge|Hlt].
      - by rewrite lookup_ge_None_2.
      - destruct (lookup_lt_is_Some_2 _ _ Hlt) as [t Ht]. rewrite Ht.
        by destruct t. }
    simpl. split; [by apply Hgrow|].
    intros g'. rewrite (Hgrow g Hid).
    destruct (SubmapId.submap_index id =? 0) eqn:Hzero; [|done].
    intros [= <-].
    assert (forall g0,
              is_Some (lookup2 (submap_data (optimization_problem_ g0))
                         (SubmapId.trajectory_id id) 0) ->
              GetSubmapId s g0 = Ok id ->
              GrowSubmapTransformsAsNeeded [s] g0 = Ok g0) as Hknown.
    { intros g0 [d Hd] Hg0. rewrite (Hgrow g0 Hg0).
      unfold lookup2 in Hd.
      destruct (_ !! SubmapId.trajectory_id id) as [[|? ?]|]; done. }
    destruct (submap_data (optimization_problem_ g)
                !! SubmapId.trajectory_id id) as [[|d t]|] eqn:Ht.
    + apply Hknown; [|done]. simpl.
      exists {| SubmapData_pose := Identity |}.
      apply lookup2_push_back_at. right. by rewrite Ht.
    + apply Hknown; [|done]. unfold lookup2. rewrite Ht. by eexists.
    + apply Hknown; [|done]. simpl.
      exists {| SubmapData_pose := Identity |}.
      apply lookup2_push_back_at. right. by rewrite Ht.
Qed.

(** *** The node the optimizer gets for a scan *)

(** A per-scan computation that completes has handed the optimizer one
    node for the scan: in the trajectory of the matching submap, which
    is the trajectory of the scan, at the scan's time, and with the pose
    (optimizer's pose of the matching submap, after the submap list was
    grown) * (matching submap's local pose)^-1 * (scan's local pose).
    Nothing else of the optimization problem changes after the submap
    list was grown. *)
Theorem ComputeConstraintsForScan_optimizer_node (scan_index : nat)
  (matching_submap : Submap) (insertion_submaps : list Submap)
  (finished_submap : option Submap) (pose : Rigid3d)
  (covariance : PoseCovariance) (g g' : SparsePoseGraph) :
  ComputeConstraintsForScan scan_index matching_submap insertion_submaps
    finished_submap pose covariance g = Ok g' ->
  exists g1 matching_id matching_entry node,
    GrowSubmapTransformsAsNeeded insertion_submaps g = Ok g1
    /\ submap_ids_ g !! Submap_ptr matching_submap = Some matching_id
    /\ lookup2 (submap_data (optimization_problem_ g1))
         (SubmapId.trajectory_id matching_id)
         (SubmapId.submap_index matching_id) = Some matching_entry
    /\ trajectory_nodes_ g !! scan_index = Some node
    /\ trajectory_id_of node = SubmapId.trajectory_id matching_id
    /\ optimization_problem_ g'
       = OptimizationProblem_AddTrajectoryNode
           (SubmapId.trajectory_id matching_id)
           (ConstantData_time (constant_data node))
           (SubmapData_pose matching_entry
            * inverse (local_pose matching_submap) * pose)
           (optimization_problem_ g1).
Proof.
  unfold ComputeConstraintsForScan. intros Hrun.
  apply bind_Ok in Hrun as (g1 & Hgrow & Hrun).
  apply bind_Ok in Hrun as (matching_id & Hid & Hrun).
  apply bind_Ok in Hrun as (matching_entry & Hentry & Hrun).
  apply bind_Ok in Hrun as (? & _ & Hrun).
  apply bind_Ok in Hrun as (node & Hnode & Hrun).
  apply bind_Ok in Hrun as (? & Hsame & Hrun).
  apply bind_Ok in Hrun as (g3 & Hintra & Hrun).
  apply bind_Ok in Hrun as (g4 & Hmatch & Hrun).
  apply bind_Ok in Hrun as (g5 & Hfinish & Hrun).
  apply GetSubmapId_Ok in Hid. apply at2_lookup2 in Hentry.
  apply index_Ok in Hnode. apply CHECK_Ok, Nat.eqb_eq in Hsame.
  simpl in Hnode.
  rewrite (GrowSubmapTransformsAsNeeded_view submap_ids_ _ g g1) in Hid
    by done.
  rewrite (GrowSubmapTransformsAsNeeded_view trajectory_nodes_ _ g g1)
    in Hnode by done.
  exists g1, matching_id, matching_entry, node.
  split_and!; try done.
  rewrite (end_of_scan_view optimization_problem_ _ g5 g') by done.
  rewrite (finish_submap_view optimization_problem_ _ g4 g5) by done.
  apply match_against_finished_submaps_same_but_matcher in Hmatch.
  rewrite (same_but_matcher_view optimization_problem_ g3 g4) by done.
  apply (for_each_view optimization_problem_) in Hintra; [done|].
  intros s ? ?. by apply add_intra_submap_constraint_view.
Qed.

(** ** One correction for the submaps the solver has not seen *)

(** The result of [ExtrapolateSubmapTransforms], position by position,
    for a trajectory that has submap states. *)
Lemma ExtrapolateSubmapTransforms_total submap_transforms trajectory_id g
  (states : list SubmapState) :
  submap_states_ g !! trajectory_id = Some states ->
  states <> [] ->
  exists result,
    ExtrapolateSubmapTransforms submap_transforms trajectory_id g = Ok result
    /\ length result = length states
    /\ forall i, i < length states ->
         result !! i
         = extrapolated_at submap_transforms trajectory_id g result i.
Proof.
  intros Hstates Hsome. unfold ExtrapolateSubmapTransforms.
  rewrite (proj2 (Nat.leb_gt _ _)) by (by eapply lookup_lt_Some).
  rewrite (at_known _ _ _ Hstates). cbn [mbind Outcome_bind].
  destruct (for_each_total
              (extrapolate_push submap_transforms trajectory_id g)
              (fun done result =>
                 length result = length done /\
                 forall i, i < length done ->
                   result !! i
                   = extrapolated_at submap_transforms trajectory_id g
                       result i)
              states [])
    as (result & -> & Hlen & Hpos).
  { split; [done|]. simpl. lia. }
  { intros done state rest result Hsplit [Hlen Hpos].
    destruct (extrapolate_push_next submap_transforms trajectory_id g
                states done state rest result Hstates Hsplit Hlen)
      as (x & Hpush & Hx).
    exists (result ++ [x]). split; [done|].
    rewrite !length_app. simpl. split; [lia|].
    intros i Hi. rewrite extrapolated_at_app by lia.
    destruct (decide (i = length result)) as [->|Hne].
    - by rewrite list_lookup_middle.
    - rewrite lookup_app_l by lia. apply Hpos. lia. }
  cbn [mbind Outcome_bind].
  destruct result as [|r result]; [by destruct states|].
  by exists (r :: result).
Qed.

Lemma ExtrapolateSubmapTransforms_Ok submap_transforms trajectory_id g
  (states : list SubmapState) (result : list Rigid3d) :
  submap_states_ g !! trajectory_id = Some states ->
  states <> [] ->
  ExtrapolateSubmapTransforms submap_transforms trajectory_id g = Ok result ->
  length result = length states
  /\ forall i, i < length states ->
       result !! i
       = extrapolated_at submap_transforms trajectory_id g result i.
Proof.
  intros Hstates Hsome Hrun.
  destruct (ExtrapolateSubmapTransforms_total submap_transforms
              trajectory_id g states Hstates Hsome)
    as (result' & Hrun' & Hfacts).
  rewrite Hrun in Hrun'. by injection Hrun' as <-.
Qed.

Section Corrections.
Context `{!Rigid3dGroup}.

Lemma mul_inverse_cancel (a b : Rigid3d) : a * b * inverse b = a.
Proof. by rewrite <- mul_assoc, mul_inverse_r, mul_Identity_r. Qed.

(** The correction a result applies at position [i]: its pose composed
    with the inverse of the local pose of the submap. *)
Lemma extrapolated_correction_next submap_transforms trajectory_id g
  (states : list SubmapState) (result : list Rigid3d) i
  (state state' : SubmapState) (r r' : Rigid3d) :
  submap_states_ g !! trajectory_id = Some states ->
  length (default [] (submap_transforms !! trajectory_id)) <= S i ->
  result !! S i
  = extrapolated_at submap_transforms trajectory_id g result (S i) ->
  states !! i = Some state -> states !! S i = Some state' ->
  result !! i = Some r -> result !! S i = Some r' ->
  r' * inverse (local_pose (submap state'))
  = r * inverse (local_pose (submap state)).
Proof.
  intros Hstates Hbeyond Hposition Hstate Hstate' Hr Hr'.
  unfold extrapolated_at in Hposition.
  rewrite (proj2 (Nat.ltb_ge _ _)) in Hposition by done.
  rewrite Hstates, Hr, Hr' in Hposition. simpl in Hposition.
  rewrite Hstate, Hstate' in Hposition. simpl in Hposition.
  injection Hposition as ->. apply mul_inverse_cancel.
Qed.

(** Along a result that is right position by position, the correction
    stays the same beyond the snapshot. *)
Lemma extrapolated_corrections_agree submap_transforms trajectory_id g
  (states : list SubmapState) (result : list Rigid3d) :
  submap_states_ g !! trajectory_id = Some states ->
  length result = length states ->
  (forall i, i < length states ->
     result !! i
     = extrapolated_at submap_transforms trajectory_id g result i) ->
  forall i j state_i state_j r_i r_j,
    length (default [] (submap_transforms !! trajectory_id)) - 1 <= i ->
    i <= j ->
    states !! i = Some state_i -> states !! j = Some state_j ->
    result !! i = Some r_i -> result !! j = Some r_j ->
    r_j * inverse (local_pose (submap state_j))
    = r_i * inverse (local_pose (submap state_i)).
Proof.
  intros Hstates Hlength Hpositions i j state_i state_j r_i r_j Hcovered
    Hle Hsi.
  revert state_j r_j. induction Hle as [|j Hle IH];
    intros state_j r_j Hsj Hri Hrj; [congruence|].
  assert (j < length states) as Hj by (apply lookup_lt_Some in Hsj; lia).
  destruct (lookup_lt_is_Some_2 states j Hj) as [state Hstate].
  destruct (lookup_lt_is_Some_2 result j ltac:(lia)) as [r Hr].
  rewrite <- (IH state r Hstate Hri Hr).
  eapply (extrapolated_correction_next submap_transforms trajectory_id g
            states result j); try done; [lia|].
  apply Hpositions. by eapply lookup_lt_Some.
Qed.

(** From the last submap the snapshot covers onwards (from the first
    submap when it covers none), every pose [ExtrapolateSubmapTransforms]
    returns differs from the local pose of its submap by one and the
    same rigid transform. *)
Theorem ExtrapolateSubmapTransforms_one_correction
  (submap_transforms : list (list SubmapData)) (trajectory_id : nat)
  (g : SparsePoseGraph) (states : list SubmapState)
  (result : list Rigid3d) :
  submap_states_ g !! trajectory_id = Some states ->
  ExtrapolateSubmapTransforms submap_transforms trajectory_id g = Ok result ->
  forall i j state_i state_j r_i r_j,
    length (default [] (submap_transforms !! trajectory_id)) - 1 <= i ->
    i <= j ->
    states !! i = Some state_i -> states !! j = Some state_j ->
    result !! i = Some r_i -> result !! j = Some r_j ->
    r_j * inverse (local_pose (submap state_j))
    = r_i * inverse (local_pose (submap state_i)).
Proof.
  intros Hstates Hrun i j state_i state_j r_i r_j Hcovered Hle Hsi.
  assert (states <> []) as Hsome by (intros ->; done).
  destruct (ExtrapolateSubmapTransforms_Ok _ _ _ _ _ Hstates Hsome Hrun)
    as [Hlength Hpositions].
  by apply (extrapolated_corrections_agree submap_transforms trajectory_id
              g states result Hstates Hlength Hpositions i j).
Qed.

(** For a registered trajectory with submap states, whose handle knows
    the local pose of the newest of them, [GetLocalToGlobalTransform]
    returns the correction of the last submap that the snapshot of
    optimized poses covers: that submap's optimized pose composed with
    the inverse of its local pose; with no submap covered this is the
    inverse of the local pose of the first submap. *)
Theorem GetLocalToGlobalTransform_last_optimized (submaps : Submaps)
  (g : SparsePoseGraph) (trajectory_id : nat) (states : list SubmapState)
  (newest : SubmapState) (handle : Submap) :
  trajectory_ids_ g !! Submaps_ptr submaps = Some trajectory_id ->
  submap_states_ g !! trajectory_id = Some states ->
  last states = Some newest ->
  Submaps_submaps submaps !! (length states - 1) = Some handle ->
  local_pose handle = local_pose (submap newest) ->
  let optimized :=
    take (length states)
      (default [] (optimized_submap_transforms_ g !! trajectory_id)) in
  exists state,
    states !! (length optimized - 1) = Some state
    /\ GetLocalToGlobalTransform submaps g
       = Ok (match last optimized with
             | Some entry => SubmapData_pose entry
             | None => Identity
             end * inverse (local_pose (submap state))).
Proof.
  intros Hid Hstates Hnewest Hhandle Hlocal. simpl.
  assert (states <> []) as Hsome by (intros ->; done).
  assert (0 < length states) as Hpositive by (destruct states; simpl; [done|lia]).
  destruct (ExtrapolateSubmapTransforms_total
              (optimized_submap_transforms_ g) trajectory_id g states
              Hstates Hsome)
    as (result & Hrun & Hlength & Hpositions).
  set (snapshot := default [] (optimized_submap_transforms_ g
                               !! trajectory_id)) in *.
  set (k := length (take (length states) snapshot) - 1).
  assert (k < length states) as Hk.
  { unfold k. rewrite length_take. lia. }
  destruct (lookup_lt_is_Some_2 states k Hk) as [state Hstate].
  exists state. split; [done|].
  destruct (lookup_lt_is_Some_2 result k ltac:(lia)) as [r Hr].
  destruct (lookup_lt_is_Some_2 result (length states - 1) ltac:(lia))
    as [r_last Hr_last].
  assert (states !! (length states - 1) = Some newest) as Hlast.
  { rewrite last_lookup in Hnewest.
    by replace (length states - 1) with (pred (length states)) by lia. }
  (* the value at position [k] *)
  assert (r = match last (take (length states) snapshot) with
              | Some entry => SubmapData_pose entry
              | None => Identity
              end) as Hvalue.
  { pose proof (Hpositions k Hk) as Hposition.
    rewrite Hr in Hposition. unfold extrapolated_at in Hposition.
    fold snapshot in Hposition. rewrite last_lookup.
    replace (pred (length (take (length states) snapshot))) with k
      by (unfold k; lia).
    destruct (decide (length snapshot = 0)) as [Hnone|Hcovered].
    - assert (k = 0) as Hzero by (unfold k; rewrite length_take; lia).
      rewrite Hzero in *.
      rewrite (proj2 (Nat.ltb_ge _ _)) in Hposition by lia.
      injection Hposition as ->.
      destruct snapshot; [|done]. by rewrite take_nil.
    - assert (k < length snapshot) as Hin.
      { unfold k. rewrite length_take. lia. }
      rewrite (proj2 (Nat.ltb_lt _ _)) in Hposition by done.
      rewrite lookup_take_lt by done.
      destruct (snapshot !! k); simpl in Hposition; [|done].
      by injection Hposition as ->. }
  (* the last position carries the same correction *)
  assert (r_last * inverse (local_pose (submap newest))
          = r * inverse (local_pose (submap state))) as Hsame.
  { destruct (decide (k = length states - 1)) as [Hend|Hbefore].
    { rewrite Hend in *. congruence. }
    eapply (extrapolated_corrections_agree
              (optimized_submap_transforms_ g) trajectory_id g states
              result Hstates Hlength Hpositions k (length states - 1));
      try done.
    - fold snapshot. unfold k in *. rewrite length_take in *. lia.
    - lia. }
  unfold GetLocalToGlobalTransform, GetSubmapTransforms.
  rewrite Hid, Hrun. cbn [mbind Outcome_bind].
  unfold back. rewrite last_lookup, Hlength.
  replace (pred (length states)) with (length states - 1) by lia.
  rewrite Hr_last.
  cbn [mbind Outcome_bind]. unfold Get. rewrite Hhandle.
  cbn [mbind Outcome_bind mret Outcome_ret].
  by rewrite Hlocal, Hsame, Hvalue.
Qed.

End Corrections.

(** ** Node sets, constant data, and scans that wait *)

Lemma node_sets_within_refl extra v : node_sets_within extra v v.
Proof. intros i j state Hstate. exists state. split; [done|]. set_solver. Qed.

Lemma node_sets_within_trans extra v1 v2 v3 :
  node_sets_within extra v1 v2 -> node_sets_within extra v2 v3 ->
  node_sets_within extra v1 v3.
Proof.
  intros H12 H23 i j s3 Hs3.
  destruct (H23 _ _ _ Hs3) as (s2 & Hs2 & Hsub23).
  destruct (H12 _ _ _ Hs2) as (s1 & Hs1 & Hsub12).
  exists s1. split; [done|]. intros n Hn. apply Hsub23 in Hn.
  apply elem_of_union in Hn as [Hn|Hn]; [|by apply Hsub12].
  apply elem_of_union. by left.
Qed.

Lemma node_sets_within_alter2 extra (f : SubmapState -> SubmapState) i j v :
  (forall state, node_ids (f state) ⊆ extra ∪ node_ids state) ->
  node_sets_within extra v (alter2 f i j v).
Proof.
  intros Hf i' j' state'. rewrite lookup2_alter2.
  destruct (decide _) as [[<- <-]|_].
  - destruct (lookup2 v i j) as [state|]; simpl; [|done].
    intros [= <-]. eauto.
  - intros Hstate. exists state'. split; [done|]. set_solver.
Qed.

(** A per-scan computation adds its node id to node sets, and nothing
    else. *)
Lemma ComputeConstraintsForScan_node_sets scan_index matching_submap
  insertion_submaps finished_submap pose covariance g g' :
  ComputeConstraintsForScan scan_index matching_submap insertion_submaps
    finished_submap pose covariance g = Ok g' ->
  exists n,
    scan_index_to_node_id_ g' = scan_index_to_node_id_ g ++ [n]
    /\ node_sets_within {[n]} (submap_states_ g) (submap_states_ g').
Proof.
  intros Hrun.
  pose proof (ComputeConstraintsForScan_node_ids _ _ _ _ _ _ _ _ Hrun)
    as [n' Hn'].
  apply ComputeConstraintsForScan_phases in Hrun
    as (g1 & matching_id & g2 & g3 & g4 & g5 & _ & _ & _ & Hn & Hs2 & _
        & _ & _ & Hintra & Hmatch & Hfinish & Hend).
  simpl in Hintra, Hmatch, Hn.
  match type of Hn with _ = _ ++ [?id] => set (n := id) in * end.
  exists n. split.
  { rewrite Hn'. f_equal.
    assert (scan_index_to_node_id_ g' = scan_index_to_node_id_ g2) as Hsame.
    { rewrite (end_of_scan_view scan_index_to_node_id_ _ g5 g') by done.
      rewrite (finish_submap_view scan_index_to_node_id_ _ g4 g5) by done.
      apply match_against_finished_submaps_same_but_matcher in Hmatch.
      rewrite (same_but_matcher_view scan_index_to_node_id_ g3 g4)
        by done.
      revert Hintra. apply for_each_view. intros s ? ?.
      by apply add_intra_submap_constraint_view. }
    rewrite Hsame, Hn in Hn'. by apply app_inv_head in Hn'. }
  rewrite <- Hs2.
  apply (node_sets_within_trans _ _ (submap_states_ g3));
    [|apply (node_sets_within_trans _ _ (submap_states_ g4));
      [|apply (node_sets_within_trans _ _ (submap_states_ g5))]].
  - revert Hintra.
    apply (for_each_kept
             (fun g g' => node_sets_within {[n]} (submap_states_ g)
                            (submap_states_ g'))).
    + intros g0. apply node_sets_within_refl.
    + intros ? ? ?. apply node_sets_within_trans.
    + intros s g0 g0' Hstep.
      apply add_intra_submap_constraint_Ok in Hstep
        as (id & state & _ & _ & _ & ->). simpl.
      apply node_sets_within_alter2. intros state0. simpl. set_solver.
  - apply match_against_finished_submaps_same_but_matcher in Hmatch.
    rewrite (same_but_matcher_view submap_states_ g3 g4) by done.
    apply node_sets_within_refl.
  - destruct finished_submap as [s|];
      [|injection Hfinish as <-; apply node_sets_within_refl].
    apply finish_submap_Ok in Hfinish
      as (id & state & g6 & _ & _ & _ & Hold & ->).
    apply ComputeConstraintsForOldScans_same_but_matcher in Hold.
    simpl. rewrite (same_but_matcher_view submap_states_ g4 g6) by done.
    apply node_sets_within_alter2. intros state0. simpl. set_solver.
  - rewrite (end_of_scan_view submap_states_ _ g5 g') by done.
    apply node_sets_within_refl.
Qed.

Lemma nodes_allocated_same g g' :
  submap_states_ g' = submap_states_ g ->
  scan_index_to_node_id_ g' = scan_index_to_node_id_ g ->
  nodes_allocated g -> nodes_allocated g'.
Proof.
  unfold nodes_allocated, state_of. intros -> ->. done.
Qed.

Lemma nodes_allocated_step g g' :
  step g g' -> nodes_allocated g -> nodes_allocated g'.
Proof.
  revert g g'.
  apply (step_kept (fun g g' => nodes_allocated g -> nodes_allocated g'));
    try (intros; assumption).
  - by intros g.
  - intros g1 g2 g3 H12 H23 ?. auto.
  - intros ? ? ? ? ? g g1 Hrun Hinv.
    apply AddScan_registration_Ok in Hrun
      as (? & trajectory_id & newest & _ & _ & _ & _ & ->).
    intros [i j] state n. unfold state_of. simpl.
    destruct (decide _); [by apply (Hinv (SubmapId.mk i j))|].
    intros [Hstate|(_ & _ & ->)]%lookup2_push_back_at.
    + by apply (Hinv (SubmapId.mk i j)).
    + simpl. set_solver.
  - intros [] g g' Hrun Hinv; simpl in Hrun.
    + apply ComputeConstraintsForScan_node_sets in Hrun
        as (n & Hids & Hwithin).
      intros [i j] state' n' Hstate' Hn'. unfold state_of in *.
      simpl in *. rewrite Hids.
      destruct (Hwithin _ _ _ Hstate') as (state & Hstate & Hsub).
      apply Hsub in Hn'. apply elem_of_union in Hn' as [Hnew|Hold].
      * apply elem_of_singleton in Hnew as ->.
        apply elem_of_app. right. apply list_elem_of_here.
      * apply elem_of_app. left.
        by apply (Hinv (SubmapId.mk i j) state).
    + by apply bind_Ok in Hrun as (? & _ & [= <-]).
  - intros g g' Hrun. apply nodes_allocated_same.
    + by apply (RunOptimization_view submap_states_) in Hrun.
    + by apply (RunOptimization_view scan_index_to_node_id_) in Hrun.
Qed.

Lemma nodes_in_take_le t i (ids : list NodeId.t) :
  nodes_in t (take i ids) <= nodes_in t ids.
Proof.
  rewrite <- (take_drop i ids) at 2. rewrite nodes_in_app. lia.
Qed.

(** The id that the counters give next is not among the ids. *)
Lemma next_node_id_fresh (g : SparsePoseGraph) (t : nat) :
  consecutively_numbered (scan_index_to_node_id_ g) ->
  nodes_counted g ->
  NodeId.mk t (default 0 (num_nodes_in_trajectory_ g !! t))
  ∉ scan_index_to_node_id_ g.
Proof.
  intros Hconsecutive Hcounted Hin.
  apply list_elem_of_lookup in Hin as [i Hi].
  pose proof (Hconsecutive _ _ Hi) as Hindex. simpl in Hindex.
  rewrite Hcounted in Hindex.
  rewrite <- (take_drop_middle _ _ _ Hi) in Hindex at 1.
  rewrite nodes_in_app in Hindex.
  change (?n :: ?l) with ([n] ++ l) in Hindex.
  rewrite nodes_in_app, nodes_in_singleton in Hindex. simpl in Hindex.
  rewrite Nat.eqb_refl in Hindex. lia.
Qed.

(** In every state of a history a node set holds allocated node ids
    only, so the node id that the next scan of a trajectory will get is
    fresh: no node set holds it yet. *)
Theorem node_sets_hold_allocated_ids (options : SparsePoseGraphOptions)
  (g : SparsePoseGraph) :
  reachable options g ->
  (forall id state n,
     state_of id g = Some state -> n ∈ node_ids state ->
     n ∈ scan_index_to_node_id_ g)
  /\ forall t id state,
       state_of id g = Some state ->
       NodeId.mk t (default 0 (num_nodes_in_trajectory_ g !! t))
       ∉ node_ids state.
Proof.
  intros Hreach.
  assert (nodes_allocated g) as Hallocated.
  { revert g Hreach. apply reachable_kept.
    - by intros [i j] state n.
    - intros g g' Hinv Hstep. by eapply nodes_allocated_step. }
  split; [done|]. intros t id state Hstate Hin.
  apply reachable_node_ids in Hreach as [Hconsecutive Hcounted].
  eapply next_node_id_fresh; [done|done|]. by eapply Hallocated.
Qed.

(** *** Constant data *)

Lemma constant_data_step g g' :
  step g g' ->
  exists new,
    constant_node_data_ g' = constant_node_data_ g ++ new
    /\ map constant_data (trajectory_nodes_ g')
       = map constant_data (trajectory_nodes_ g) ++ new.
Proof.
  revert g g'.
  apply (step_kept
           (fun g g' =>
              exists new,
                constant_node_data_ g' = constant_node_data_ g ++ new
                /\ map constant_data (trajectory_nodes_ g')
                   = map constant_data (trajectory_nodes_ g) ++ new));
    try (intros; exists []; by rewrite !app_nil_r).
  - intros g1 g2 g3 (n12 & Hd12 & Hn12) (n23 & Hd23 & Hn23).
    exists (n12 ++ n23). rewrite Hd23, Hd12, Hn23, Hn12.
    by rewrite !app_assoc.
  - intros ? ? ? ? ? g g1 Hrun.
    apply AddScan_registration_Ok in Hrun
      as (? & trajectory_id & newest & _ & _ & _ & _ & ->).
    eexists [_]. simpl. split; [done|]. by rewrite map_app.
  - intros w g g' Hrun.
    apply run_work_item_static in Hrun
      as (_ & _ & _ & _ & -> & -> & _).
    exists []. by rewrite !app_nil_r.
  - intros g g' Hrun. exists []. rewrite !app_nil_r.
    split; [|by apply RunOptimization_constant_data].
    by apply (RunOptimization_view constant_node_data_) in Hrun.
Qed.

(** The constant data of a scan are written once: a step of a history
    only appends to [constant_node_data_], the nodes carry these very
    data in the same order, and an optimization, which rewrites the
    poses of the nodes, leaves them alone. *)
Theorem constant_data_written_once :
  (forall g g',
     step g g' ->
     exists new,
       constant_node_data_ g' = constant_node_data_ g ++ new
       /\ map constant_data (trajectory_nodes_ g')
          = map constant_data (trajectory_nodes_ g) ++ new)
  /\ (forall options g,
        reachable options g ->
        map constant_data (trajectory_nodes_ g) = constant_node_data_ g)
  /\ (forall g g',
        RunOptimization g = Ok g' ->
        map constant_data (trajectory_nodes_ g')
        = map constant_data (trajectory_nodes_ g)).
Proof.
  split_and!.
  - apply constant_data_step.
  - intros options. apply reachable_kept; [done|].
    intros g g' Hinv Hstep.
    apply constant_data_step in Hstep as (new & -> & ->).
    by rewrite Hinv.
  - apply RunOptimization_constant_data.
Qed.

(** *** A scan that arrives while an optimization is pending *)

(** With a queue in place [AddScan] books the scan and leaves the rest
    to the queue: it registers the trajectory, appends the constant data
    and the node, adds the trajectory to the connectivity structure,
    registers the newest insertion submap under the next index of the
    trajectory when the submap is new, makes a sampler for the
    trajectory when there is none, and puts the work item at the back of
    the queue.  The optimizer, the constraints, the matcher, the node
    ids and the counters are not touched. *)
Theorem AddScan_while_pending (time : Z) (range_data : RangeData)
  (pose : Rigid3d) (covariance : PoseCovariance) (trajectory : Submaps)
  (matching_submap : Submap) (insertion_submaps : list Submap)
  (queue : list WorkItem) (g g' : SparsePoseGraph) :
  scan_queue_ g = Some queue ->
  AddScan time range_data pose covariance trajectory matching_submap
    insertion_submaps g = Ok g' ->
  exists local_to_global trajectory_id oldest newest,
    let data :=
      {| ConstantData_time := time;
         range_data_3d := Compress range_data;
         ConstantData_trajectory_id := trajectory_id;
         tracking_to_pose := Identity |} in
    let trajectory_ids :=
      emplace (Submaps_ptr trajectory) (size (trajectory_ids_ g))
        (trajectory_ids_ g) in
    let new_id :=
      SubmapId.mk trajectory_id
        (length (default [] (submap_states_ g !! trajectory_id))) in
    let registered := is_Some (submap_ids_ g !! Submap_ptr newest) in
    GetLocalToGlobalTransform trajectory g = Ok local_to_global
    /\ trajectory_ids !! Submaps_ptr trajectory = Some trajectory_id
    /\ head insertion_submaps = Some oldest
    /\ last insertion_submaps = Some newest
    /\ g' = set_scan_queue_
              (Some (queue
                     ++ [ComputeConstraintsForScan_item
                           (length (trajectory_nodes_ g)) matching_submap
                           insertion_submaps
                           (if Submap_finished oldest then Some oldest
                            else None) pose covariance]))
              (set_global_localization_samplers_
                 (match global_localization_samplers_ g !! trajectory_id
                  with
                  | None =>
                      <[trajectory_id :=
                          make_sampler (global_sampling_ratio (options_ g))]>
                        (global_localization_samplers_ g)
                  | Some _ => global_localization_samplers_ g
                  end)
                 (set_submap_states_
                    (if decide registered then submap_states_ g
                     else push_back_at trajectory_id
                            {| submap := newest; node_ids := ∅;
                               finished := false |} (submap_states_ g))
                    (set_submap_ids_
                       (if decide registered then submap_ids_ g
                        else <[Submap_ptr newest := new_id]>
                               (submap_ids_ g))
                       (set_trajectory_connectivity_
                          (Add trajectory_id (trajectory_connectivity_ g))
                          (set_trajectory_nodes_
                             (trajectory_nodes_ g
                              ++ [{| constant_data := data;
                                     TrajectoryNode_pose :=
                                       local_to_global * pose |}])
                             (set_constant_node_data_
                                (constant_node_data_ g ++ [data])
                                (set_trajectory_ids_ trajectory_ids
                                   g))))))).
Proof.
  intros Hqueue. rewrite AddScan_split. intros Hrun.
  apply bind_Ok in Hrun as (g1 & Hregister & Hrun).
  apply bind_Ok in Hrun as (w & Hw & Hrun).
  apply bind_Ok in Hw as (oldest & Holdest & [= <-]).
  apply AddScan_registration_Ok in Hregister
    as (local_to_global & trajectory_id & newest & Hlocal & Hid & _
        & Hnewest & Hg1).
  exists local_to_global, trajectory_id, oldest, newest.
  split; [exact Hlocal|]. split; [exact Hid|].
  split; [destruct insertion_submaps; [done|]; by injection Holdest as ->|].
  split; [exact Hnewest|].
  unfold AddWorkItem in Hrun.
  assert (scan_queue_ g1 = Some queue) as Hqueue1.
  { rewrite Hg1. exact Hqueue. }
  rewrite Hqueue1 in Hrun. injection Hrun as <-. rewrite Hg1.
  reflexivity.
Qed.


End Properties.

(** * Examples on the lattice *)

Module Examples.
Import Lattice LatticeGroup Scenario.

(** ** Local-to-global transform (C4) *)

Lemma GetLocalToGlobalTransform_unregistered_example :
  trajectory_ids_ (two_scans 0) !! Submaps_ptr offset_trajectory = None
  /\ Submaps_submaps offset_trajectory !! 0 = Some offset_submap
  /\ GetLocalToGlobalTransform offset_trajectory (two_scans 0)
     = Ok (translation (-5) 0 0).
Proof.
  split; [reflexivity|]. split; [reflexivity|].
  apply (GetLocalToGlobalTransform_unregistered offset_trajectory
           offset_submap (two_scans 0)); reflexivity.
Defined.

(** C4 as the claim words it fails: the handle below was never
    registered, and the transform returned for it is not the identity. *)
Lemma GetLocalToGlobalTransform_unregistered_not_identity :
  trajectory_ids_ (two_scans 0) !! Submaps_ptr offset_trajectory = None
  /\ GetLocalToGlobalTransform offset_trajectory (two_scans 0)
     <> Ok Identity.
Proof. split; [reflexivity|]. vm_compute. discriminate. Qed.

(** ** Extrapolation (C5) *)

(** With three submaps known and two optimized, the third pose is
    carried over from the second. *)
Example ExtrapolateSubmapTransforms_example :
  ExtrapolateSubmapTransforms
    [[submap_at (translation 0 1 0); submap_at (translation 5 2 0)]] 0
    (six_scans 3)
  = Ok [translation 0 1 0; translation 5 2 0; translation 9 2 0].
Proof. vm_compute. reflexivity. Qed.

(** A trajectory the object has never seen has one pose, the identity. *)
Example ExtrapolateSubmapTransforms_unknown_example :
  ExtrapolateSubmapTransforms
    [[submap_at (translation 0 1 0); submap_at (translation 5 2 0)]] 7
    (six_scans 3)
  = Ok [identity].
Proof. vm_compute. reflexivity. Qed.

(** ** A second submap opens (C6) *)

Lemma GrowSubmapTransformsAsNeeded_second_submap_example :
  (submap_data <$> (optimization_problem_
     <$> GrowSubmapTransformsAsNeeded [submap0; submap1]
           second_submap_registered))
  = Ok [[submap_at identity; submap_at (translation 5 0 0)]].
Proof.
  rewrite (GrowSubmapTransformsAsNeeded_second_submap submap0 submap1
             (SubmapId.mk 0 0) (SubmapId.mk 0 1)
             [submap_at identity] (submap_at identity)
             second_submap_registered);
    [reflexivity | reflexivity | reflexivity | reflexivity | reflexivity
    | intros _; reflexivity | simpl; lia].
Defined.

(** ** A cross-trajectory candidate (C3) *)

Lemma ComputeConstraint_proposal_example :
  exists g',
    ComputeConstraint 4 (SubmapId.mk 0 0) two_trajectories = Ok g'
    /\ calls (constraint_builder_ g')
       = calls (constraint_builder_ two_trajectories)
         ++ [MaybeAddGlobalConstraint (SubmapId.mk 0 0) submap0
               (NodeId.mk 1 0) 4].
Proof.
  destruct (ComputeConstraint_proposal 4 (SubmapId.mk 0 0)
              two_trajectories (NodeId.mk 1 0)
              (submap_entry_of (SubmapId.mk 0 0) two_trajectories)
              (node_entry_of (NodeId.mk 1 0) two_trajectories)
              (node_of 4 two_trajectories)
              (submap_state_of (SubmapId.mk 0 0) two_trajectories)
              (sampler_of 1 two_trajectories))
    as (g' & Hrun & Hcalls & _);
    [vm_compute; reflexivity | vm_compute; reflexivity
    | vm_compute; reflexivity | vm_compute; reflexivity
    | vm_compute; reflexivity | intros _; vm_compute; reflexivity |].
  exists g'. split; [exact Hrun|]. rewrite Hcalls.
  vm_compute. reflexivity.
Defined.

(** A candidate within one trajectory is a local match around the prior
    (submap pose)^-1 * (node pose). *)
Example ComputeConstraint_local_example :
  calls <$> (constraint_builder_
     <$> ComputeConstraint 1 (SubmapId.mk 0 1) (five_scans 0))
  = Ok (calls (constraint_builder_ (five_scans 0))
        ++ [MaybeAddConstraint (SubmapId.mk 0 1) submap1 (NodeId.mk 0 1) 1
              (translation (-4) 0 0)]).
Proof. vm_compute. reflexivity. Qed.

(** Two trajectories under one connected component, and a sampler that
    does not fire: a local match.  Under different components: nothing. *)
Example ComputeConstraint_connected_example :
  let quiet (components : gmap nat nat) :=
    set_reverse_connected_components_ components
      (set_global_localization_samplers_
         {[1 := {| ratio := 0; num_pulses := 0; num_samples := 0 |}]}
         two_trajectories) in
  (fun g' => drop (length (calls (constraint_builder_ two_trajectories)))
               (calls (constraint_builder_ g')))
    <$> ComputeConstraint 4 (SubmapId.mk 0 0) (quiet {[0 := 0; 1 := 0]})
  = Ok [MaybeAddConstraint (SubmapId.mk 0 0) submap0
          (NodeId.mk 1 0) 4 (translation 0 4 0)]
  /\ (fun g' => drop (length (calls (constraint_builder_ two_trajectories)))
                  (calls (constraint_builder_ g')))
       <$> ComputeConstraint 4 (SubmapId.mk 0 0) (quiet {[0 := 0; 1 := 1]})
     = Ok [].
Proof. split; vm_compute; reflexivity. Qed.

(** ** The constraints of one scan (C7) *)

Lemma intra_submap_constraints_example :
  exists g' n ids,
    ComputeConstraintsForScan 2 submap0 [submap0; submap1] None
      (translation 2 0 0) 7%Z second_submap_registered = Ok g'
    /\ scan_index_to_node_id_ g'
       = scan_index_to_node_id_ second_submap_registered ++ [n]
    /\ constraints_ g'
       = constraints_ second_submap_registered
         ++ zip_with
              (intra_submap_constraint n (translation 2 0 0) 7%Z
                 second_submap_registered) [submap0; submap1] ids.
Proof.
  pose (g' := run (ComputeConstraintsForScan 2 submap0 [submap0; submap1]
                     None (translation 2 0 0) 7%Z second_submap_registered)
                second_submap_registered).
  assert (ComputeConstraintsForScan 2 submap0 [submap0; submap1] None
            (translation 2 0 0) 7%Z second_submap_registered = Ok g')
    as Hrun by (vm_compute; reflexivity).
  destruct (proj1 intra_submap_constraints _ _ _ _ _ _ _ _ Hrun)
    as (n & ids & Hn & _ & Hcs & _).
  exists g', n, ids. split; [exact Hrun|]. split; [exact Hn|exact Hcs].
Defined.

(** ** A completed submap meets the old scans (C8) *)

Lemma finished_submap_old_scans_example :
  exists g' id state g4 g5,
    ComputeConstraintsForScan 5 submap1 [as_finished submap1; submap2]
      (Some (as_finished submap1)) (translation 7 0 0) 7%Z
      (booked scan5 (five_scans 0)) = Ok g'
    /\ ComputeConstraintsForScan_new_scan 5 submap1
         [as_finished submap1; submap2] (translation 7 0 0) 7%Z
         (booked scan5 (five_scans 0)) = Ok g4
    /\ state_of id g4 = Some state
    /\ finished state = false
    /\ for_each (fun i => ComputeConstraint i id)
         (List.filter
            (old_scan state
               (scan_index_to_node_id_ (booked scan5 (five_scans 0))))
            (seq 0 5)) g4 = Ok g5
    /\ end_of_scan 5
         (set_submap_states_
            (alter2
               (fun _ => {| submap := submap state;
                            node_ids := node_ids state;
                            finished := true |})
               (SubmapId.trajectory_id id) (SubmapId.submap_index id)
               (submap_states_ g5)) g5)
       = Ok g'
    /\ state_of id g'
       = Some {| submap := submap state; node_ids := node_ids state;
                 finished := true |}.
Proof.
  pose (g := booked scan5 (five_scans 0)).
  pose (g' := run (ComputeConstraintsForScan 5 submap1
                     [as_finished submap1; submap2]
                     (Some (as_finished submap1)) (translation 7 0 0) 7%Z g)
                g).
  assert (ComputeConstraintsForScan 5 submap1
            [as_finished submap1; submap2] (Some (as_finished submap1))
            (translation 7 0 0) 7%Z g = Ok g')
    as Hrun by (vm_compute; reflexivity).
  assert (as_finished submap1 ∈ [as_finished submap1; submap2]) as Hin
    by apply list_elem_of_here.
  destruct (proj2 finished_submap_old_scans _ _ _ _ _ _ _ _ Hin Hrun)
    as (id & state & g4 & g5 & _ & _ & Hnew & Hstate & Hunfinished & Hold
        & _ & Hend & Hfinished & _).
  exists g', id, state, g4, g5.
  split; [exact Hrun|]. split; [exact Hnew|]. split; [exact Hstate|].
  split; [exact Hunfinished|]. split; [exact Hold|].
  split; [exact Hend|exact Hfinished].
Defined.

(** The old scans in question are scans 0 and 1: scans 2 to 5 were all
    inserted into the second submap. *)
Example old_scans_example :
  List.filter
    (old_scan
       {| submap := submap1;
          node_ids := {[NodeId.mk 0 2; NodeId.mk 0 3; NodeId.mk 0 4;
                        NodeId.mk 0 5]};
          finished := false |}
       (scan_index_to_node_id_ (five_scans 0)))
    (seq 0 5)
  = [0; 1].
Proof. vm_compute. reflexivity. Qed.

(** What the matcher has received in that computation: the intra-submap
    work is none of its business, the new scan is matched against the
    first submap, the two old scans against the completed second submap,
    and then the scan is over. *)
Example old_scans_matched_example :
  (fun g' => drop (length (calls (constraint_builder_
                                    (booked scan5 (five_scans 0)))))
               (calls (constraint_builder_ g')))
    <$> ComputeConstraintsForScan 5 submap1 [as_finished submap1; submap2]
          (Some (as_finished submap1)) (translation 7 0 0) 7%Z
          (booked scan5 (five_scans 0))
  = Ok [MaybeAddConstraint (SubmapId.mk 0 0) submap0
          (NodeId.mk 0 5) 5 (translation 7 0 0);
        MaybeAddConstraint (SubmapId.mk 0 1) submap1
          (NodeId.mk 0 0) 0 (translation (-5) 0 0);
        MaybeAddConstraint (SubmapId.mk 0 1) submap1
          (NodeId.mk 0 1) 1 (translation (-4) 0 0);
        NotifyEndOfScan 5].
Proof. vm_compute. reflexivity. Qed.

(** ** The trigger and the drain (C1) *)

Lemma optimization_trigger_and_drain_example :
  (0 < optimize_every_n_scans (options_ (six_scans 3)))%Z
  /\ forall result queue,
       scan_queue_ (six_scans 3) = Some queue ->
       HandleScanQueue_run result (six_scans 3)
       = g1 ← RunOptimization
                (set_constraints_ (constraints_ (six_scans 3) ++ result)
                   (six_scans 3));
         run_buffered queue
           (set_run_loop_closure_ false
              (set_num_scans_since_last_loop_closure_ 0%Z g1)).
Proof.
  split; [reflexivity|]. intros result queue Hqueue.
  destruct (optimization_trigger_and_drain (six_scans 3) eq_refl)
    as (_ & Hcallback & _).
  destruct (Hcallback result queue Hqueue) as [Hrun _]. exact Hrun.
Defined.

(** With a threshold of three the fourth scan raises the flag, allocates
    the queue and registers the callback; the next two scans wait. *)
Example trigger_example :
  let g := six_scans 3 in
  (run_loop_closure_ g, num_scans_since_last_loop_closure_ g,
   when_done (constraint_builder_ g),
   length <$> scan_queue_ g, length (scan_index_to_node_id_ g))
  = (true, 4%Z, Some HandleScanQueue_callback, Some 2, 4).
Proof. vm_compute. reflexivity. Qed.

(** The callback solves once, runs both waiting scans, and gives the
    queue up. *)
Example drain_example :
  (fun g => (run_loop_closure_ g, num_scans_since_last_loop_closure_ g,
             when_done (constraint_builder_ g), scan_queue_ g,
             length (scan_index_to_node_id_ g),
             num_solves (optimization_problem_ g)))
    <$> HandleScanQueue_run [] (builder_callback_taken (six_scans 3))
  = Ok (false, 2%Z, None, None, 6, 1).
Proof. vm_compute. reflexivity. Qed.

(** ** Poses after a solve (C2) *)

Lemma RunOptimization_poses_example :
  exists g',
    RunOptimization (six_scans 3) = Ok g'
    /\ length (trajectory_nodes_ g') = length (trajectory_nodes_ (six_scans 3))
    /\ forall i node,
         length (scan_index_to_node_id_ (six_scans 3)) <= i ->
         trajectory_nodes_ (six_scans 3) !! i = Some node ->
         exists e,
           extrapolation_transform
             (submap_data
                (OptimizationProblem_Solve (constraints_ (six_scans 3))
                   (optimization_problem_ (six_scans 3))))
             (optimized_submap_transforms_ (six_scans 3))
             (ConstantData_trajectory_id (constant_data node)) (six_scans 3)
           = Some e
           /\ trajectory_nodes_ g' !! i
              = Some (with_pose node (e * TrajectoryNode_pose node)%rigid).
Proof.
  pose (g' := run (RunOptimization (six_scans 3)) (six_scans 3)).
  assert (RunOptimization (six_scans 3) = Ok g') as Hrun
    by (vm_compute; reflexivity).
  assert (submap_data (optimization_problem_ (six_scans 3)) <> [])
    as Hdata by (vm_compute; discriminate).
  destruct (RunOptimization_poses (six_scans 3) g' Hdata Hrun)
    as (Hlen & _ & Hlater & _).
  exists g'. split; [exact Hrun|]. split; [exact Hlen|exact Hlater].
Defined.

(** The solver of the examples moves every pose by [shift]; the two
    scans it has not seen are carried along by the same motion. *)
Example later_poses_example :
  map TrajectoryNode_pose
    (trajectory_nodes_ (run (RunOptimization (six_scans 3)) (six_scans 3)))
  = map (fun x => compose shift (translation x 0 0)) [0; 1; 2; 3; 6; 7]%Z.
Proof. vm_compute. reflexivity. Qed.

(** ** Periodic optimization switched off (C9) *)

Lemma reachable_two_scans : reachable (options 0) (two_scans 0).
Proof.
  eapply reachable_step; [eapply reachable_step; [apply reachable_new|]|].
  - eapply (@step_AddScan world solver 0%Z [] (translation 0 0 0) 7%Z
              (trajectory [submap0]) submap0 [submap0]).
    vm_compute. reflexivity.
  - eapply (@step_AddScan world solver 1%Z [] (translation 1 0 0) 7%Z
              (trajectory [submap0]) submap0 [submap0]).
    vm_compute. reflexivity.
Defined.

Lemma never_periodic_when_disabled_example :
  optimize_every_n_scans (options 0) = 0%Z
  /\ reachable (options 0) (two_scans 0)
  /\ run_loop_closure_ (two_scans 0) = false
  /\ scan_queue_ (two_scans 0) = None.
Proof.
  split; [reflexivity|]. split; [exact reachable_two_scans|].
  destruct (never_periodic_when_disabled (options 0) (two_scans 0)
              eq_refl reachable_two_scans) as (Hflag & Hqueue & _).
  split; [exact Hflag|exact Hqueue].
Defined.

(** ** Nothing to optimize (C10) *)

Lemma RunOptimization_without_submap_data_example :
  submap_data (optimization_problem_ (SparsePoseGraph_new (options 3))) = []
  /\ RunOptimization (SparsePoseGraph_new (options 3))
     = Ok (SparsePoseGraph_new (options 3)).
Proof.
  split; [reflexivity|].
  apply (RunOptimization_without_submap_data
           (SparsePoseGraph_new (options 3))).
  reflexivity.
Defined.

(** A final optimization on a fresh object: no solve, cap restored. *)
Example RunFinalOptimization_fresh_example :
  (fun g => (num_solves (optimization_problem_ g),
             max_num_iterations (optimization_problem_ g)))
    <$> RunFinalOptimization [] (SparsePoseGraph_new (options 3))
  = Ok (0, 50%Z).
Proof. vm_compute. reflexivity. Qed.


(** ** Histories *)

Import Histories.

Lemma reachable_four_scans : reachable (options 0) (four_scans 0).
Proof.
  apply (reachable_step _ (three_scans 0));
    [apply (reachable_step _ (two_scans 0)); [exact reachable_two_scans|]|].
  - apply (@step_AddScan world solver 2%Z [] (translation 2 0 0) 7%Z
             (trajectory [submap0; submap1]) submap0 [submap0; submap1]).
    vm_compute. reflexivity.
  - apply (@step_AddScan world solver 3%Z [] (translation 3 0 0) 7%Z
             (trajectory [submap0; submap1]) submap0
             [as_finished submap0; submap1]).
    vm_compute. reflexivity.
Qed.

Lemma step_five_scans : step (four_scans 0) (five_scans 0).
Proof.
  apply (@step_AddScan world solver 4%Z [] (translation 6 0 0) 7%Z
           (trajectory [submap0; submap1; submap2]) submap1
           [submap1; submap2]).
  vm_compute. reflexivity.
Qed.

Lemma reachable_two_trajectories : reachable (options 0) two_trajectories.
Proof.
  apply (reachable_step _ (four_scans 0)); [exact reachable_four_scans|].
  apply (@step_AddScan world solver 10%Z [] (translation 0 4 0) 7%Z
           other_trajectory other_submap [other_submap]).
  vm_compute. reflexivity.
Qed.

Lemma reachable_six_scans : reachable (options 3) (six_scans 3).
Proof.
  apply (reachable_step _ (five_scans 3));
    [apply (reachable_step _ (four_scans 3));
     [apply (reachable_step _ (three_scans 3));
      [apply (reachable_step _ (two_scans 3));
       [apply (reachable_step _
                 (after [scan0] (SparsePoseGraph_new (options 3))));
        [apply (reachable_step _ (SparsePoseGraph_new (options 3)));
         [apply reachable_new|]|]|]|]|]|].
  - apply (@step_AddScan world solver 0%Z [] (translation 0 0 0) 7%Z
             (trajectory [submap0]) submap0 [submap0]).
    vm_compute. reflexivity.
  - apply (@step_AddScan world solver 1%Z [] (translation 1 0 0) 7%Z
             (trajectory [submap0]) submap0 [submap0]).
    vm_compute. reflexivity.
  - apply (@step_AddScan world solver 2%Z [] (translation 2 0 0) 7%Z
             (trajectory [submap0; submap1]) submap0 [submap0; submap1]).
    vm_compute. reflexivity.
  - apply (@step_AddScan world solver 3%Z [] (translation 3 0 0) 7%Z
             (trajectory [submap0; submap1]) submap0
             [as_finished submap0; submap1]).
    vm_compute. reflexivity.
  - apply (@step_AddScan world solver 4%Z [] (translation 6 0 0) 7%Z
             (trajectory [submap0; submap1; submap2]) submap1
             [submap1; submap2]).
    vm_compute. reflexivity.
  - apply (@step_AddScan world solver 5%Z [] (translation 7 0 0) 7%Z
             (trajectory [submap0; submap1; submap2]) submap1
             [as_finished submap1; submap2]).
    vm_compute. reflexivity.
Qed.

Lemma reachable_drained : reachable (options 3) drained.
Proof.
  apply (reachable_step _ (six_scans 3)); [exact reachable_six_scans|].
  apply (@step_when_done world solver []).
  - vm_compute. reflexivity.
  - constructor.
  - vm_compute. reflexivity.
Qed.

(** ** Trajectory ids and nodes by trajectory *)

(** The same history with the handles of its calls: four scans of the
    trajectory with handle 1, then one of the trajectory with handle 3. *)
Lemma called_with_two_trajectories :
  called_with (options 0) [1; 1; 1; 1; 3] two_trajectories.
Proof.
  apply (called_with_eq _ ([1; 1; 1; 1] ++ [Submaps_ptr other_trajectory]));
    [|reflexivity].
  apply (@called_with_AddScan world solver _ _ 10%Z [] (translation 0 4 0)
           7%Z other_trajectory other_submap [other_submap] (four_scans 0));
    [|vm_compute; reflexivity].
  apply (called_with_eq _
           ([1; 1; 1] ++ [Submaps_ptr (trajectory [submap0; submap1])]));
    [|reflexivity].
  apply (@called_with_AddScan world solver _ _ 3%Z [] (translation 3 0 0)
           7%Z (trajectory [submap0; submap1]) submap0
           [as_finished submap0; submap1] (three_scans 0));
    [|vm_compute; reflexivity].
  apply (called_with_eq _
           ([1; 1] ++ [Submaps_ptr (trajectory [submap0; submap1])]));
    [|reflexivity].
  apply (@called_with_AddScan world solver _ _ 2%Z [] (translation 2 0 0)
           7%Z (trajectory [submap0; submap1]) submap0 [submap0; submap1]
           (two_scans 0));
    [|vm_compute; reflexivity].
  apply (called_with_eq _ ([1] ++ [Submaps_ptr (trajectory [submap0])]));
    [|reflexivity].
  apply (@called_with_AddScan world solver _ _ 1%Z [] (translation 1 0 0)
           7%Z (trajectory [submap0]) submap0 [submap0]
           (after [scan0] (SparsePoseGraph_new (options 0))));
    [|vm_compute; reflexivity].
  apply (called_with_eq _ ([] ++ [Submaps_ptr (trajectory [submap0])]));
    [|reflexivity].
  apply (@called_with_AddScan world solver _ _ 0%Z [] (translation 0 0 0)
           7%Z (trajectory [submap0]) submap0 [submap0]
           (SparsePoseGraph_new (options 0)));
    [|vm_compute; reflexivity].
  constructor.
Qed.

Lemma trajectory_ids_densely_numbered_example :
  reachable (options 0) two_trajectories
  /\ densely_numbered (trajectory_ids_ two_trajectories)
  /\ called_with (options 0) [1; 1; 1; 1; 3] two_trajectories
  /\ forall p id,
       trajectory_ids_ two_trajectories !! p = Some id
       <-> first_appearances [1; 1; 1; 1; 3] !! id = Some p.
Proof.
  split; [exact reachable_two_trajectories|].
  destruct (trajectory_ids_densely_numbered (options 0) two_trajectories
              reachable_two_trajectories) as (Hdense & _ & Hids).
  split; [exact Hdense|]. split; [exact called_with_two_trajectories|].
  exact (Hids [1; 1; 1; 1; 3] called_with_two_trajectories).
Defined.

(** The handle 1 came first and has id 0; the handle 3 has id 1. *)
Example first_appearances_example :
  first_appearances [1; 1; 1; 1; 3] = [1; 3]
  /\ map_to_list (trajectory_ids_ two_trajectories)
     = map_to_list ({[1 := 0; 3 := 1]} : gmap nat nat).
Proof. split; vm_compute; reflexivity. Qed.

(** The first trajectory has the scans of times 0 to 3, the second the
    scan of time 10. *)
Example GetTrajectoryNodes_example :
  map (map (fun node => ConstantData_time (constant_data node)))
    <$> GetTrajectoryNodes two_trajectories
  = Ok [[0; 1; 2; 3]; [10]]%Z.
Proof. vm_compute. reflexivity. Qed.

(** With the handles forgotten the nodes carry ids that no handle has,
    and the call throws. *)
Example GetTrajectoryNodes_unregistered_example :
  GetTrajectoryNodes (set_trajectory_ids_ ∅ two_trajectories)
  = Abort OutOfRange.
Proof. vm_compute. reflexivity. Qed.

Lemma GetTrajectoryNodes_returns_example :
  reachable (options 0) two_trajectories
  /\ GetTrajectoryNodes two_trajectories
     = Ok (nodes_by_trajectory (size (trajectory_ids_ two_trajectories))
             (trajectory_nodes_ two_trajectories)).
Proof.
  split; [exact reachable_two_trajectories|].
  exact (GetTrajectoryNodes_returns (options 0) two_trajectories
           reachable_two_trajectories).
Defined.

(** ** Ingestion *)

Lemma AddScan_appends_node_example :
  exists g',
    AddScan 2%Z [] (translation 2 0 0) 7%Z (trajectory [submap0; submap1])
      submap0 [submap0; submap1] (two_scans 0) = Ok g'
    /\ GetNextTrajectoryNodeIndex g'
       = S (GetNextTrajectoryNodeIndex (two_scans 0)).
Proof.
  pose (g' := run (scan2 (two_scans 0)) (two_scans 0)).
  assert (AddScan 2%Z [] (translation 2 0 0) 7%Z
            (trajectory [submap0; submap1]) submap0 [submap0; submap1]
            (two_scans 0) = Ok g') as Hrun by (vm_compute; reflexivity).
  destruct (AddScan_appends_node _ _ _ _ _ _ _ (two_scans 0) g' Hrun)
    as (local_to_global & trajectory_id & _ & _ & _ & _ & _ & _ & Hnext).
  exists g'. split; [exact Hrun|exact Hnext].
Defined.

(** The node of the third scan: the trajectory is not corrected yet, so
    its pose is the local pose. *)
Example AddScan_node_example :
  last (trajectory_nodes_ (three_scans 0))
  = Some (@Build_TrajectoryNode world
            (@Build_ConstantData world 2 [] 0 identity)
            (translation 2 0 0)).
Proof. vm_compute. reflexivity. Qed.

Lemma AddScan_while_pending_example :
  scan_queue_ (four_scans 3) = Some []
  /\ exists g',
       AddScan 4%Z [] (translation 6 0 0) 7%Z
         (trajectory [submap0; submap1; submap2]) submap1
         [submap1; submap2] (four_scans 3) = Ok g'
       /\ optimization_problem_ g' = optimization_problem_ (four_scans 3)
       /\ length <$> scan_queue_ g' = Some 1.
Proof.
  assert (scan_queue_ (four_scans 3) = Some []) as Hqueue
    by (vm_compute; reflexivity).
  split; [exact Hqueue|].
  pose (g' := run (scan4 (four_scans 3)) (four_scans 3)).
  assert (AddScan 4%Z [] (translation 6 0 0) 7%Z
            (trajectory [submap0; submap1; submap2]) submap1
            [submap1; submap2] (four_scans 3) = Ok g') as Hrun
    by (vm_compute; reflexivity).
  destruct (AddScan_while_pending _ _ _ _ _ _ _ [] (four_scans 3) g'
              Hqueue Hrun)
    as (local_to_global & trajectory_id & oldest & newest & _ & _ & _ & _
        & Hg').
  exists g'. split; [exact Hrun|]. rewrite Hg'.
  split; vm_compute; reflexivity.
Defined.

(** ** The queue between two calls *)

Lemma buffered_work_accounted_example :
  reachable (options 3) (six_scans 3)
  /\ buffered_scans (default [] (scan_queue_ (six_scans 3)))
     = seq (length (scan_index_to_node_id_ (six_scans 3)))
         (length (trajectory_nodes_ (six_scans 3))
          - length (scan_index_to_node_id_ (six_scans 3))).
Proof.
  split; [exact reachable_six_scans|].
  exact (proj1 (buffered_work_accounted (options 3) (six_scans 3)
                  reachable_six_scans)).
Defined.

(** Scans 4 and 5 wait. *)
Example buffered_scans_example :
  buffered_scans (default [] (scan_queue_ (six_scans 3))) = [4; 5].
Proof. vm_compute. reflexivity. Qed.

Lemma pending_flag_and_queue_example :
  reachable (options 3) (six_scans 3)
  /\ run_loop_closure_ (six_scans 3)
     = threshold_passed (options 3)
         (num_scans_since_last_loop_closure_ (six_scans 3))
  /\ (is_Some (scan_queue_ (six_scans 3))
      <-> run_loop_closure_ (six_scans 3) = true).
Proof.
  split; [exact reachable_six_scans|].
  destruct (pending_flag_and_queue (options 3) (six_scans 3)
              reachable_six_scans) as (_ & _ & _ & Hflag & Hqueue).
  split; [exact Hflag|exact Hqueue].
Defined.

(** ** Node ids *)

Lemma node_ids_consecutive_example :
  reachable (options 0) two_trajectories
  /\ NoDup (scan_index_to_node_id_ two_trajectories).
Proof.
  split; [exact reachable_two_trajectories|].
  exact (proj1 (proj2 (node_ids_consecutive (options 0) two_trajectories
                         reachable_two_trajectories))).
Defined.

(** Four scans of the first trajectory, then the first of the second. *)
Example node_ids_example :
  scan_index_to_node_id_ two_trajectories
  = [NodeId.mk 0 0; NodeId.mk 0 1; NodeId.mk 0 2; NodeId.mk 0 3;
     NodeId.mk 1 0].
Proof. vm_compute. reflexivity. Qed.

Lemma node_sets_hold_allocated_ids_example :
  reachable (options 0) two_trajectories
  /\ forall id state n,
       state_of id two_trajectories = Some state -> n ∈ node_ids state ->
       n ∈ scan_index_to_node_id_ two_trajectories.
Proof.
  split; [exact reachable_two_trajectories|].
  exact (proj1 (node_sets_hold_allocated_ids (options 0) two_trajectories
                  reachable_two_trajectories)).
Defined.

Lemma constant_data_written_once_example :
  step (four_scans 0) (five_scans 0)
  /\ (exists new,
        constant_node_data_ (five_scans 0)
        = constant_node_data_ (four_scans 0) ++ new
        /\ map constant_data (trajectory_nodes_ (five_scans 0))
           = map constant_data (trajectory_nodes_ (four_scans 0)) ++ new)
  /\ reachable (options 0) two_trajectories
  /\ map constant_data (trajectory_nodes_ two_trajectories)
     = constant_node_data_ two_trajectories.
Proof.
  destruct (@constant_data_written_once world solver)
    as (Hstep & Hreach & _).
  split; [exact step_five_scans|].
  split; [exact (Hstep (four_scans 0) (five_scans 0) step_five_scans)|].
  split; [exact reachable_two_trajectories|].
  exact (Hreach (options 0) two_trajectories reachable_two_trajectories).
Defined.

(** ** Submap states and the registry *)

Lemma finished_submaps_settled_example :
  step (four_scans 0) (five_scans 0)
  /\ state_of (SubmapId.mk 0 0) (four_scans 0)
     = Some (submap_state_of (SubmapId.mk 0 0) (four_scans 0))
  /\ exists state',
       state_of (SubmapId.mk 0 0) (five_scans 0) = Some state'
       /\ (finished (submap_state_of (SubmapId.mk 0 0) (four_scans 0))
           = true ->
           state' = submap_state_of (SubmapId.mk 0 0) (four_scans 0)).
Proof.
  assert (state_of (SubmapId.mk 0 0) (four_scans 0)
          = Some (submap_state_of (SubmapId.mk 0 0) (four_scans 0)))
    as Hstate by (vm_compute; reflexivity).
  split; [exact step_five_scans|]. split; [exact Hstate|].
  destruct (finished_submaps_settled (four_scans 0) (five_scans 0)
              (SubmapId.mk 0 0)
              (submap_state_of (SubmapId.mk 0 0) (four_scans 0))
              step_five_scans Hstate)
    as (state' & Hstate' & _ & _ & Hsame).
  exists state'. split; [exact Hstate'|exact Hsame].
Defined.

(** The first submap was completed by the fourth scan; the fifth scan
    leaves its state as it is. *)
Example finished_submap_example :
  (fun state => (Submap_ptr (submap state), size (node_ids state),
                 finished state))
    <$> state_of (SubmapId.mk 0 0) (five_scans 0)
  = Some (100, 4, true).
Proof. vm_compute. reflexivity. Qed.

Lemma submap_ids_match_states_example :
  reachable (options 0) two_trajectories
  /\ forall id state,
       state_of id two_trajectories = Some state ->
       GetSubmapId (submap state) two_trajectories = Ok id.
Proof.
  split; [exact reachable_two_trajectories|].
  exact (proj1 (proj2 (submap_ids_match_states (options 0) two_trajectories
                         reachable_two_trajectories))).
Defined.

(** ** Optimizations *)

Lemma RunOptimization_snapshot_example :
  exists g',
    RunOptimization (six_scans 3) = Ok g'
    /\ optimized_submap_transforms_ g'
       = submap_data
           (OptimizationProblem_Solve (constraints_ (six_scans 3))
              (optimization_problem_ (six_scans 3)))
    /\ GetConnectedTrajectories g'
       = ConnectedComponents (trajectory_connectivity_ (six_scans 3)).
Proof.
  pose (g' := run (RunOptimization (six_scans 3)) (six_scans 3)).
  assert (RunOptimization (six_scans 3) = Ok g') as Hrun
    by (vm_compute; reflexivity).
  assert (submap_data (optimization_problem_ (six_scans 3)) <> [])
    as Hdata by (vm_compute; discriminate).
  destruct (RunOptimization_snapshot (six_scans 3) g' Hdata Hrun)
    as (_ & _ & Hg').
  exists g'. split; [exact Hrun|]. rewrite Hg'.
  split; vm_compute; reflexivity.
Defined.

Lemma connected_by_first_component_example :
  reachable (options 3) drained
  /\ reverse_connected_components_ drained
     = reverse_components (GetConnectedTrajectories drained).
Proof.
  split; [exact reachable_drained|].
  exact (proj1 (connected_by_first_component (options 3) drained
                  reachable_drained)).
Defined.

(** A trajectory goes with the first component that names it. *)
Example reverse_components_example :
  map_to_list (reverse_components [[2; 0]; [1; 2]; [3]])
  = map_to_list ({[0 := 0; 1 := 1; 2 := 0; 3 := 2]} : gmap nat nat).
Proof. vm_compute. reflexivity. Qed.

Lemma RunFinalOptimization_solves_once_example :
  when_done (constraint_builder_ (two_scans 0)) = None
  /\ scan_queue_ (two_scans 0) = None
  /\ exists g',
       RunFinalOptimization [] (two_scans 0) = Ok g'
       /\ max_num_iterations (optimization_problem_ g') = 50%Z
       /\ num_solves (optimization_problem_ g') = 1.
Proof.
  assert (when_done (constraint_builder_ (two_scans 0)) = None) as Hidle
    by (vm_compute; reflexivity).
  assert (scan_queue_ (two_scans 0) = None) as Hqueue
    by (vm_compute; reflexivity).
  split; [exact Hidle|]. split; [exact Hqueue|].
  pose (g' := run (RunFinalOptimization [] (two_scans 0)) (two_scans 0)).
  assert (RunFinalOptimization [] (two_scans 0) = Ok g') as Hrun
    by (vm_compute; reflexivity).
  destruct (RunFinalOptimization_solves_once [] (two_scans 0) g' Hidle
              Hqueue Hrun)
    as (Hproblem & Hcap & _).
  exists g'. split; [exact Hrun|]. split; [exact Hcap|].
  rewrite Hproblem. vm_compute. reflexivity.
Defined.

(** ** Candidates *)

Lemma ComputeConstraint_sampler_example :
  exists g' node,
    ComputeConstraint 4 (SubmapId.mk 0 0) two_trajectories = Ok g'
    /\ trajectory_nodes_ two_trajectories !! 4 = Some node
    /\ if trajectory_id_of node
          =? SubmapId.trajectory_id (SubmapId.mk 0 0)
       then global_localization_samplers_ g'
            = global_localization_samplers_ two_trajectories
       else exists sampler,
              global_localization_samplers_ two_trajectories
                !! trajectory_id_of node = Some sampler
              /\ global_localization_samplers_ g'
                 = <[trajectory_id_of node := (Pulse sampler).2]>
                     (global_localization_samplers_ two_trajectories).
Proof.
  pose (g' := run (ComputeConstraint 4 (SubmapId.mk 0 0) two_trajectories)
                two_trajectories).
  assert (ComputeConstraint 4 (SubmapId.mk 0 0) two_trajectories = Ok g')
    as Hrun by (vm_compute; reflexivity).
  destruct (ComputeConstraint_sampler 4 (SubmapId.mk 0 0) two_trajectories
              g' Hrun) as (node & Hnode & Hsampler).
  exists g', node. split; [exact Hrun|]. split; [exact Hnode|exact Hsampler].
Defined.

(** The scan of the second trajectory against a submap of the first:
    the sampler of the second trajectory has been asked once more, and
    it said yes. *)
Example sampler_example :
  sampler_of 1 two_trajectories
  = {| ratio := 1; num_pulses := 1; num_samples := 1 |}
  /\ (fun g => sampler_of 1 g)
       <$> ComputeConstraint 4 (SubmapId.mk 0 0) two_trajectories
     = Ok {| ratio := 1; num_pulses := 2; num_samples := 2 |}.
Proof. split; vm_compute; reflexivity. Qed.

Lemma match_against_finished_submaps_in_order_example :
  match_against_finished_submaps 3 spare_node_id (four_scans 0)
  = for_each (ComputeConstraint 3) [SubmapId.mk 0 0] (four_scans 0).
Proof.
  apply (match_against_finished_submaps_in_order 3 spare_node_id
           (four_scans 0)).
  intros [[|i] [|[|j]]] state; vm_compute; intros [= <-]; intros _ Hin;
    discriminate Hin.
Defined.

Lemma GrowSubmapTransformsAsNeeded_first_submap_example :
  GrowSubmapTransformsAsNeeded [submap0; submap1; submap2] (two_scans 0)
  = Abort CheckFailed
  /\ GetSubmapId submap0 (two_scans 0) = Ok (SubmapId.mk 0 0)
  /\ forall g',
       GrowSubmapTransformsAsNeeded [submap0] (two_scans 0) = Ok g' ->
       GrowSubmapTransformsAsNeeded [submap0] g' = Ok g'.
Proof.
  assert (GetSubmapId submap0 (two_scans 0) = Ok (SubmapId.mk 0 0)) as Hid
    by (vm_compute; reflexivity).
  destruct (@GrowSubmapTransformsAsNeeded_first_submap world)
    as [Hcheck Hone].
  split; [apply Hcheck; simpl; lia|]. split; [exact Hid|].
  exact (proj2 (Hone submap0 (SubmapId.mk 0 0) (two_scans 0) Hid)).
Defined.

(** The finished submaps of the first trajectory after all six scans. *)
Example finished_submap_ids_example :
  finished_submap_ids (submap_states_ (six_scans 0))
  = [SubmapId.mk 0 0; SubmapId.mk 0 1].
Proof. vm_compute. reflexivity. Qed.

Lemma ComputeConstraintsForScan_optimizer_node_example :
  exists g' g1 matching_id matching_entry node,
    ComputeConstraintsForScan 2 submap0 [submap0; submap1] None
      (translation 2 0 0) 7%Z second_submap_registered = Ok g'
    /\ GrowSubmapTransformsAsNeeded [submap0; submap1]
         second_submap_registered = Ok g1
    /\ optimization_problem_ g'
       = OptimizationProblem_AddTrajectoryNode
           (SubmapId.trajectory_id matching_id)
           (ConstantData_time (constant_data node))
           (SubmapData_pose matching_entry * inverse (local_pose submap0)
            * translation 2 0 0)%rigid
           (optimization_problem_ g1).
Proof.
  pose (g' := run (ComputeConstraintsForScan 2 submap0 [submap0; submap1]
                     None (translation 2 0 0) 7%Z second_submap_registered)
                second_submap_registered).
  assert (ComputeConstraintsForScan 2 submap0 [submap0; submap1] None
            (translation 2 0 0) 7%Z second_submap_registered = Ok g')
    as Hrun by (vm_compute; reflexivity).
  destruct (ComputeConstraintsForScan_optimizer_node 2 submap0
              [submap0; submap1] None (translation 2 0 0) 7%Z
              second_submap_registered g' Hrun)
    as (g1 & matching_id & matching_entry & node & Hgrow & _ & _ & _ & _
        & Hproblem).
  exists g', g1, matching_id, matching_entry, node.
  split; [exact Hrun|]. split; [exact Hgrow|exact Hproblem].
Defined.

(** The third scan enters the optimizer at its local pose: the matching
    submap sits at the identity in both frames. *)
Example optimizer_node_example :
  (fun g => node_data (optimization_problem_ g))
    <$> ComputeConstraintsForScan 2 submap0 [submap0; submap1] None
          (translation 2 0 0) 7%Z second_submap_registered
  = Ok [[@Build_NodeData world 0 (translation 0 0 0);
         @Build_NodeData world 1 (translation 1 0 0);
         @Build_NodeData world 2 (translation 2 0 0)]].
Proof. vm_compute. reflexivity. Qed.

(** ** One correction *)

Lemma ExtrapolateSubmapTransforms_one_correction_example :
  ExtrapolateSubmapTransforms two_optimized 0 (six_scans 3)
  = Ok [translation 0 1 0; translation 5 2 0; translation 9 2 0]
  /\ (translation 9 2 0
      * inverse (local_pose
                   (submap (submap_state_of (SubmapId.mk 0 2)
                              (six_scans 3)))))%rigid
     = (translation 5 2 0
        * inverse (local_pose
                     (submap (submap_state_of (SubmapId.mk 0 1)
                                (six_scans 3)))))%rigid.
Proof.
  assert (ExtrapolateSubmapTransforms two_optimized 0 (six_scans 3)
          = Ok [translation 0 1 0; translation 5 2 0; translation 9 2 0])
    as Hrun by (vm_compute; reflexivity).
  assert (submap_states_ (six_scans 3) !! 0
          = Some (states_of 0 (six_scans 3))) as Hstates
    by (vm_compute; reflexivity).
  split; [exact Hrun|].
  apply (ExtrapolateSubmapTransforms_one_correction two_optimized 0
           (six_scans 3) (states_of 0 (six_scans 3))
           [translation 0 1 0; translation 5 2 0; translation 9 2 0]
           Hstates Hrun 1 2
           (submap_state_of (SubmapId.mk 0 1) (six_scans 3))
           (submap_state_of (SubmapId.mk 0 2) (six_scans 3))
           (translation 5 2 0) (translation 9 2 0));
    [vm_compute; lia | lia | vm_compute; reflexivity
    | vm_compute; reflexivity | reflexivity | reflexivity].
Defined.

(** Both sides are the correction of the second submap: one step
    sideways. *)
Example correction_example :
  compose (translation 9 2 0) (invert (local_pose submap2))
  = translation 0 2 0
  /\ compose (translation 5 2 0) (invert (local_pose submap1))
     = translation 0 2 0.
Proof. split; vm_compute; reflexivity. Qed.

Lemma GetLocalToGlobalTransform_last_optimized_example :
  exists state,
    states_of 0 drained
      !! (length (take (length (states_of 0 drained))
                    (default [] (optimized_submap_transforms_ drained !! 0)))
          - 1) = Some state
    /\ GetLocalToGlobalTransform (trajectory [submap0; submap1; submap2])
         drained
       = Ok (match last (take (length (states_of 0 drained))
                           (default []
                              (optimized_submap_transforms_ drained !! 0)))
             with
             | Some entry => SubmapData_pose entry
             | None => Identity
             end * inverse (local_pose (submap state)))%rigid.
Proof.
  assert (trajectory_ids_ drained
            !! Submaps_ptr (trajectory [submap0; submap1; submap2])
          = Some 0) as Hid by (vm_compute; reflexivity).
  assert (submap_states_ drained !! 0 = Some (states_of 0 drained))
    as Hstates by (vm_compute; reflexivity).
  assert (last (states_of 0 drained)
          = Some (submap_state_of (SubmapId.mk 0 2) drained)) as Hnewest
    by (vm_compute; reflexivity).
  assert (Submaps_submaps (trajectory [submap0; submap1; submap2])
            !! (length (states_of 0 drained) - 1) = Some submap2)
    as Hhandle by (vm_compute; reflexivity).
  assert (local_pose submap2
          = local_pose (submap (submap_state_of (SubmapId.mk 0 2) drained)))
    as Hlocal by (vm_compute; reflexivity).
  exact (GetLocalToGlobalTransform_last_optimized
           (trajectory [submap0; submap1; submap2]) drained 0
           (states_of 0 drained)
           (submap_state_of (SubmapId.mk 0 2) drained) submap2
           Hid Hstates Hnewest Hhandle Hlocal).
Defined.

(** After the solve, which moved every pose by [shift], a pose in the
    local frame of the trajectory is carried to the global frame by
    [shift], although the third submap was never optimized. *)
Example local_to_global_example :
  GetLocalToGlobalTransform (trajectory [submap0; submap1; submap2]) drained
  = Ok shift.
Proof. vm_compute. reflexivity. Qed.

End Examples.
